(** * Trace-based visualisation engine: playback engine, MVCC store,
      SQL lexer/parser and B-Tree, embedded from the Go sources.

    Go maps are [gmap]s keyed by the generated string ids, slices are
    lists, [int]/[int64] are [Z], [float64] is [spec_float] at binary64
    precision, a nil pointer is [None], and a run-time panic is an explicit
    outcome of the operation that raises it. *)

From Stdlib Require Import ZArith Lia Bool Ascii.
From Stdlib Require Import Floats.SpecFloat.
From stdpp Require Import base option list strings gmap fin_maps pretty sorting.

Local Open Scope string_scope.
Local Open Scope list_scope.
Local Open Scope Z_scope.

(* ===================================================================== *)
(** * packages/protocol *)
(* ===================================================================== *)

Module Protocol.

Inductive SimulationMode : Type :=
| ModeIdle
| ModePlaying
| ModePaused
| ModeStep.

#[global] Instance SimulationMode_eq_dec : EqDecision SimulationMode.
Proof. solve_decision. Defined.

Record Highlight : Type := mkHighlight {
  hl_Type : string;
  hl_ID : string;
  hl_Color : string;
  hl_Animation : string;
  hl_Duration : Z
}.

(** [Highlight{Type: t, ID: i, Color: c, Animation: a}], Duration left at
    its zero value. *)
Definition highlight (t i c a : string) : Highlight :=
  mkHighlight t i c a 0.

Record StepInfo (D : Type) : Type := mkStepInfo {
  si_Index : Z;
  si_Total : Z;
  si_Title : string;
  si_Description : string;
  si_Highlights : list Highlight;
  si_Data : option D
}.

Record SimulationState (D : Type) : Type := mkSimulationState {
  ss_Project : string;
  ss_Mode : SimulationMode;
  ss_Speed : spec_float;
  ss_CurrentStep : option (StepInfo D);
  ss_TotalSteps : Z;
  ss_Data : D
}.

Record StepUpdateResponse (D : Type) : Type := mkStepUpdateResponse {
  su_Project : string;
  su_Step : StepInfo D;
  su_Highlights : list Highlight;
  su_Data : D
}.

Arguments mkStepInfo {D}.
Arguments si_Index {D}.
Arguments si_Total {D}.
Arguments si_Title {D}.
Arguments si_Description {D}.
Arguments si_Highlights {D}.
Arguments si_Data {D}.
Arguments mkSimulationState {D}.
Arguments ss_Project {D}.
Arguments ss_Mode {D}.
Arguments ss_Speed {D}.
Arguments ss_CurrentStep {D}.
Arguments ss_TotalSteps {D}.
Arguments ss_Data {D}.
Arguments mkStepUpdateResponse {D}.
Arguments su_Project {D}.
Arguments su_Step {D}.
Arguments su_Highlights {D}.
Arguments su_Data {D}.

End Protocol.

(* ===================================================================== *)
(** * float64 values used by the engine *)
(* ===================================================================== *)

Module F64.

Definition prec : Z := 53.
Definition emax : Z := 1024.

Definition ltb (x y : spec_float) : bool := SFltb x y.
Definition gtb (x y : spec_float) : bool := SFltb y x.
Definition leb (x y : spec_float) : bool := SFleb x y.
Definition div (x y : spec_float) : spec_float := SFdiv prec emax x y.

Definition is_nan (x : spec_float) : bool :=
  match x with S754_nan => true | _ => false end.

(** Literals of engine.go, as mantissa * 2^exponent. *)
Definition f0_25 : spec_float := S754_finite false 4503599627370496 (-54).
Definition f1_0 : spec_float := S754_finite false 4503599627370496 (-52).
Definition f2_0 : spec_float := S754_finite false 4503599627370496 (-51).
Definition f4_0 : spec_float := S754_finite false 4503599627370496 (-50).
Definition f10_0 : spec_float := S754_finite false 5629499534213120 (-49).
(** 0.01 rounds to 0x3F847AE147AE147B. *)
Definition f0_01 : spec_float := S754_finite false 5764607523034235 (-59).
(** [float64(time.Second)], 1e9 nanoseconds. *)
Definition f1e9 : spec_float := S754_finite false 8388608000000000 (-23).

(** Conversion [time.Duration(f)] of a float to int64: truncation toward
    zero; Go leaves the result unspecified when the value does not fit,
    which is [None] here. *)
Definition to_int64 (x : spec_float) : option Z :=
  match x with
  | S754_zero _ => Some 0
  | S754_finite s m e =>
      let mag := if (0 <=? e) then Z.pos m * 2 ^ e else Z.pos m / 2 ^ (- e) in
      let v := if s then - mag else mag in
      if (- 2 ^ 63 <=? v) && (v <? 2 ^ 63) then Some v else None
  | _ => None
  end.

End F64.

(** A decoded JSON value, the [interface{}] of a configuration or of a
    row payload. *)
Inductive JValue : Type :=
| JString (s : string)
| JNumber (n : Z)
| JBool (b : bool)
| JNull.

#[global] Instance JValue_eq_dec : EqDecision JValue.
Proof. solve_decision. Defined.

(* ===================================================================== *)
(** * packages/simulation/engine *)
(* ===================================================================== *)

Module Engine.
Import Protocol.

Inductive EngineError : Type :=
| ErrNotInitialized
| ErrAlreadyRunning
| ErrNoMoreSteps
| ErrNoPreviousSteps
| ErrInvalidStepIndex.

#[global] Instance EngineError_eq_dec : EqDecision EngineError.
Proof. solve_decision. Defined.

(** [Step]; the [Execute] closure is never set by any producer. *)
Record Step : Type := mkStep {
  Index : Z;
  Title : string;
  Description : string;
  Highlights : list Highlight
}.

Record StepResult (D : Type) : Type := mkStepResult {
  Success : bool;
  Error : option EngineError;
  res_Highlights : list Highlight;
  Data : option D;
  res_Description : string
}.
Arguments mkStepResult {D}.
Arguments Success {D}.
Arguments Error {D}.
Arguments res_Highlights {D}.
Arguments Data {D}.
Arguments res_Description {D}.

(** The [Simulation] interface, over the producer's state [S], its
    visualisation data [D] and its configuration [C].  Methods with a
    pointer receiver return the updated producer; [Initialize], which
    runs the producer's algorithm, returns [None] when that panics. *)
Class Simulation (S D C : Type) : Type := {
  Name : S -> string;
  Initialize : C -> S -> option (option string * S);
  Reset : S -> option string * S;
  GenerateSteps : S -> list Step;
  ExecuteStep : Z -> S -> StepResult D * S;
  GetVisualizationData : S -> D
}.

(** A [time.Ticker]: its period in nanoseconds and whether [Stop] was
    called on it. *)
Record Ticker : Type := mkTicker {
  interval : Z;
  stopped : bool
}.

(** [time.NewTicker(d)] panics when [d <= 0]. *)
Definition NewTicker (d : Z) : option Ticker :=
  if d <=? 0 then None else Some (mkTicker d false).

Definition Ticker_Stop (t : Ticker) : Ticker := mkTicker (interval t) true.

(** A [chan struct{}] that is only ever closed. *)
Inductive Chan : Type := ChanOpen | ChanClosed.

(** [close(c)] panics on a closed channel. *)
Definition close (c : Chan) : option Chan :=
  match c with ChanOpen => Some ChanClosed | ChanClosed => None end.

Section WithSimulation.
Context {S D C : Type} `{Sim : Simulation S D C}.

Record Engine : Type := mkEngine {
  simulation : S;
  mode : SimulationMode;
  currentStep : Z;
  steps : list Step;
  history : list (StepResult D);
  speed : spec_float;
  ticker : option Ticker;
  stopChan : Chan
}.

(** What an engine method does besides updating the engine: the events
    handed to the emitter, and the goroutine started by [Play]. *)
Inductive Effect : Type :=
| EmitState (event : string) (st : SimulationState D)
| EmitStep (event : string) (u : StepUpdateResponse D)
| EmitSpeed (event : string) (s : spec_float)
| GoPlayLoop.

Definition len {A} (l : list A) : Z := Z.of_nat (length l).

(** [l[i]] for an index already checked to be in range. *)
Definition at_index {A} (l : list A) (i : Z) : option A :=
  if i <? 0 then None else l !! Z.to_nat i.

Definition NewEngine (sim : S) : Engine :=
  mkEngine sim ModeIdle (-1) [] [] F64.f1_0 None ChanOpen.

Definition set_simulation (e : Engine) (s : S) : Engine :=
  mkEngine s (mode e) (currentStep e) (steps e) (history e) (speed e)
           (ticker e) (stopChan e).
Definition set_mode (e : Engine) (m : SimulationMode) : Engine :=
  mkEngine (simulation e) m (currentStep e) (steps e) (history e) (speed e)
           (ticker e) (stopChan e).
Definition set_currentStep (e : Engine) (i : Z) : Engine :=
  mkEngine (simulation e) (mode e) i (steps e) (history e) (speed e)
           (ticker e) (stopChan e).
Definition set_steps (e : Engine) (l : list Step) : Engine :=
  mkEngine (simulation e) (mode e) (currentStep e) l (history e) (speed e)
           (ticker e) (stopChan e).
Definition set_history (e : Engine) (h : list (StepResult D)) : Engine :=
  mkEngine (simulation e) (mode e) (currentStep e) (steps e) h (speed e)
           (ticker e) (stopChan e).
Definition set_speed (e : Engine) (s : spec_float) : Engine :=
  mkEngine (simulation e) (mode e) (currentStep e) (steps e) (history e) s
           (ticker e) (stopChan e).
Definition set_ticker (e : Engine) (t : option Ticker) : Engine :=
  mkEngine (simulation e) (mode e) (currentStep e) (steps e) (history e)
           (speed e) t (stopChan e).
Definition set_stopChan (e : Engine) (c : Chan) : Engine :=
  mkEngine (simulation e) (mode e) (currentStep e) (steps e) (history e)
           (speed e) (ticker e) c.

Definition GetState (e : Engine) : SimulationState D :=
  let cur :=
    if (0 <=? currentStep e) && (currentStep e <? len (steps e)) then
      match at_index (steps e) (currentStep e) with
      | Some step =>
          let highlights :=
            if currentStep e <? len (history e) then
              match at_index (history e) (currentStep e) with
              | Some r => res_Highlights r
              | None => Highlights step
              end
            else Highlights step in
          Some (mkStepInfo (Index step) (len (steps e)) (Title step)
                           (Description step) highlights None)
      | None => None
      end
    else None in
  mkSimulationState (Name (simulation e)) (mode e) (speed e) cur
                    (len (steps e)) (GetVisualizationData (simulation e)).

Definition buildStepUpdate (e : Engine) (result : StepResult D)
  : StepUpdateResponse D :=
  let zero := mkStepInfo 0 0 "" "" [] None in
  let step :=
    if (0 <=? currentStep e) && (currentStep e <? len (steps e)) then
      match at_index (steps e) (currentStep e) with
      | Some s =>
          mkStepInfo (currentStep e) (len (steps e)) (Title s)
                     (res_Description result) (res_Highlights result)
                     (Data result)
      | None => zero
      end
    else zero in
  mkStepUpdateResponse (Name (simulation e)) step (res_Highlights result)
                       (GetVisualizationData (simulation e)).

(** [Stop]: returns [None] where [close] panics. *)
Definition Stop (e : Engine) : option Engine :=
  if decide (mode e = ModePlaying) then
    c ← close (stopChan e);
    Some (set_mode (set_ticker (set_stopChan e c)
                               (Ticker_Stop <$> ticker e)) ModeIdle)
  else Some (set_mode e ModeIdle).

Definition Engine_Initialize (config : C) (e : Engine)
  : option (Engine * list Effect * option string) :=
  r ← Initialize config (simulation e);
  match r with
  | (Some err, sim') => Some (set_simulation e sim', [], Some err)
  | (None, sim') =>
      let e1 := set_simulation e sim' in
      let e2 := set_steps e1 (GenerateSteps sim') in
      let e3 := set_currentStep e2 (-1) in
      let e4 := set_history e3 [] in
      let e5 := set_mode e4 ModeIdle in
      Some (e5, [EmitState "initialized" (GetState e5)], None)
  end.

Definition Engine_Reset (e : Engine)
  : option (Engine * list Effect * option string) :=
  e0 ← Stop e;
  match Reset (simulation e0) with
  | (Some err, sim') => Some (set_simulation e0 sim', [], Some err)
  | (None, sim') =>
      let e1 := set_simulation e0 sim' in
      let e2 := set_steps e1 (GenerateSteps sim') in
      let e3 := set_currentStep e2 (-1) in
      let e4 := set_history e3 [] in
      let e5 := set_mode e4 ModeIdle in
      Some (e5, [EmitState "reset" (GetState e5)], None)
  end.

Definition StepForward (e : Engine)
  : Engine * list Effect * (option (StepResult D) * option EngineError) :=
  if len (steps e) =? 0 then (e, [], (None, Some ErrNotInitialized))
  else
    let nextStep := currentStep e + 1 in
    if nextStep >=? len (steps e) then (e, [], (None, Some ErrNoMoreSteps))
    else
      let '(result, sim') := ExecuteStep nextStep (simulation e) in
      let e1 := set_simulation e sim' in
      let e2 := set_currentStep e1 nextStep in
      let e3 := set_history e2 (history e2 ++ [result]) in
      let e4 := set_mode e3 ModeStep in
      (e4, [EmitStep "step_forward" (buildStepUpdate e4 result)],
       (Some result, None)).

Definition StepBackward (e : Engine)
  : Engine * list Effect * (option (StepResult D) * option EngineError) :=
  if currentStep e <? 0 then (e, [], (None, Some ErrNoPreviousSteps))
  else
    let e1 := set_currentStep e (currentStep e - 1) in
    match
      (if (currentStep e1 >=? 0) && (len (history e1) >? currentStep e1)
       then at_index (history e1) (currentStep e1) else None)
    with
    | Some result =>
        (e1, [EmitStep "step_backward" (buildStepUpdate e1 result)],
         (Some result, None))
    | None =>
        (* Reset to beginning *)
        let e2 := set_simulation e1 (snd (Reset (simulation e1))) in
        let e3 := set_history e2 [] in
        let e4 := set_mode e3 ModeIdle in
        (e4, [EmitState "step_backward" (GetState e4)], (None, None))
    end.

Definition Play (e : Engine) : Engine * list Effect * option EngineError :=
  if decide (mode e = ModePlaying) then (e, [], Some ErrAlreadyRunning)
  else if len (steps e) =? 0 then (e, [], Some ErrNotInitialized)
  else
    let e1 := set_mode e ModePlaying in
    let e2 := set_stopChan e1 ChanOpen in
    (e2, [GoPlayLoop; EmitState "play" (GetState e2)], None).

(** [Pause]: returns [None] where [close] panics. *)
Definition Pause (e : Engine) : option (Engine * list Effect) :=
  e1 ← (if decide (mode e = ModePlaying) then
          c ← close (stopChan e);
          Some (set_ticker (set_stopChan (set_mode e ModePaused) c)
                           (Ticker_Stop <$> ticker e))
        else Some e);
  Some (e1, [EmitState "pause" (GetState e1)]).

Definition SetSpeed (speed0 : spec_float) (e : Engine)
  : Engine * list Effect :=
  let speed1 := if F64.ltb speed0 F64.f0_25 then F64.f0_25 else speed0 in
  let speed2 := if F64.gtb speed1 F64.f4_0 then F64.f4_0 else speed1 in
  (set_speed e speed2, [EmitSpeed "speed_changed" speed2]).

Definition CanStepForward (e : Engine) : bool :=
  currentStep e + 1 <? len (steps e).

Definition CanStepBackward (e : Engine) : bool :=
  currentStep e >=? 0.

(** ** playLoop, the goroutine started by [Play]

    The loop is cut at its blocking [select]: [playLoop_enter] runs the
    statements before the loop, [playLoop_tick] the branch taken when the
    ticker fires, [playLoop_stop] the branch taken when [stopChan] is
    closed.  [Running] means the goroutine is back at the [select];
    [Returned] that it has returned (its deferred [ticker.Stop()] done);
    [Panicked] that it panicked. *)
Inductive LoopStatus : Type := Running | Returned | Panicked.

(** [interval := time.Duration(float64(time.Second) / e.speed)]. *)
Definition playLoop_interval (e : Engine) : option Z :=
  F64.to_int64 (F64.div F64.f1e9 (speed e)).

Definition playLoop_enter (e : Engine) : Engine * LoopStatus :=
  match playLoop_interval e ≫= NewTicker with
  | Some t => (set_ticker e (Some t), Running)
  | None => (e, Panicked)
  end.

Definition deferred_ticker_Stop (e : Engine) : Engine :=
  set_ticker e (Ticker_Stop <$> ticker e).

Definition playLoop_tick (e : Engine) : Engine * list Effect * LoopStatus :=
  let '(e1, evs, (_, err)) := StepForward e in
  if decide (err = Some ErrNoMoreSteps) then
    match Pause e1 with
    | Some (e2, evs2) => (deferred_ticker_Stop e2, evs ++ evs2, Returned)
    | None => (e1, evs, Panicked)
    end
  else (e1, evs, Running).

Definition playLoop_stop (e : Engine) : Engine * LoopStatus :=
  (deferred_ticker_Stop e, Returned).

(** The goroutine left alone for [n] firings of its ticker. *)
Fixpoint playLoop_ticks (n : nat) (e : Engine)
  : Engine * list Effect * LoopStatus :=
  match n with
  | O => (e, [], Running)
  | Datatypes.S n' =>
      match playLoop_tick e with
      | (e1, evs, Running) =>
          let '(e2, evs2, st) := playLoop_ticks n' e1 in
          (e2, evs ++ evs2, st)
      | r => r
      end
  end.

End WithSimulation.

Arguments Engine S D : clear implicits.
Arguments Effect D : clear implicits.

End Engine.

(* ===================================================================== *)
(** * projects/query-parser/internal: lexer *)
(* ===================================================================== *)

Module Lexer.

Inductive TokenType : Type :=
| TokenSelect | TokenFrom | TokenWhere | TokenAnd | TokenOr | TokenNot
| TokenInsert | TokenInto | TokenValues | TokenUpdate | TokenSet
| TokenDelete | TokenCreate | TokenTable | TokenJoin | TokenOn | TokenAs
| TokenOrderBy | TokenGroupBy | TokenLimit | TokenOffset
| TokenIdentifier | TokenNumber | TokenString | TokenOperator
| TokenComma | TokenStar | TokenLParen | TokenRParen | TokenSemicolon
| TokenEOF | TokenError.

#[global] Instance TokenType_eq_dec : EqDecision TokenType.
Proof. solve_decision. Defined.

(** The string each [TokenType] constant stands for (what [%s] prints). *)
Definition TokenType_string (t : TokenType) : string :=
  match t with
  | TokenSelect => "SELECT" | TokenFrom => "FROM" | TokenWhere => "WHERE"
  | TokenAnd => "AND" | TokenOr => "OR" | TokenNot => "NOT"
  | TokenInsert => "INSERT" | TokenInto => "INTO" | TokenValues => "VALUES"
  | TokenUpdate => "UPDATE" | TokenSet => "SET" | TokenDelete => "DELETE"
  | TokenCreate => "CREATE" | TokenTable => "TABLE" | TokenJoin => "JOIN"
  | TokenOn => "ON" | TokenAs => "AS" | TokenOrderBy => "ORDER BY"
  | TokenGroupBy => "GROUP BY" | TokenLimit => "LIMIT"
  | TokenOffset => "OFFSET" | TokenIdentifier => "IDENTIFIER"
  | TokenNumber => "NUMBER" | TokenString => "STRING"
  | TokenOperator => "OPERATOR" | TokenComma => "COMMA"
  | TokenStar => "STAR" | TokenLParen => "LPAREN" | TokenRParen => "RPAREN"
  | TokenSemicolon => "SEMICOLON" | TokenEOF => "EOF" | TokenError => "ERROR"
  end.

Record Position : Type := mkPosition { Start : Z; End : Z }.

Record Token : Type := mkToken {
  Type_ : TokenType;
  Value : string;
  Pos : Position
}.

Record Lexer : Type := mkLexer {
  input : string;
  pos : Z;
  tokens : list Token;
  current : Z
}.

Definition Keywords : gmap string TokenType :=
  list_to_map
    [("SELECT", TokenSelect); ("FROM", TokenFrom); ("WHERE", TokenWhere);
     ("AND", TokenAnd); ("OR", TokenOr); ("NOT", TokenNot);
     ("INSERT", TokenInsert); ("INTO", TokenInto); ("VALUES", TokenValues);
     ("UPDATE", TokenUpdate); ("SET", TokenSet); ("DELETE", TokenDelete);
     ("CREATE", TokenCreate); ("TABLE", TokenTable); ("JOIN", TokenJoin);
     ("ON", TokenOn); ("AS", TokenAs); ("ORDER", TokenOrderBy);
     ("GROUP", TokenGroupBy); ("BY", TokenIdentifier);
     ("LIMIT", TokenLimit); ("OFFSET", TokenOffset)].

Definition NewLexer (input : string) : Lexer := mkLexer input 0 [] 0.

Definition slen (s : string) : Z := Z.of_nat (String.length s).

(** [s[i]], a byte of the string. *)
Definition byte_at (s : string) (i : Z) : option ascii :=
  if i <? 0 then None else String.get (Z.to_nat i) s.

(** [s[i:j]]. *)
Definition slice (s : string) (i j : Z) : string :=
  String.substring (Z.to_nat i) (Z.to_nat (j - i)) s.

(** [s[i:]]. *)
Definition slice_from (s : string) (i : Z) : string :=
  slice s i (slen s).

Definition code (c : ascii) : Z := Z.of_N (Ascii.N_of_ascii c).

(** [unicode.IsSpace], [unicode.IsDigit] and [unicode.IsLetter] on
    [rune(b)] for a byte [b], that is on the Latin-1 range. *)
Definition IsSpace (c : ascii) : bool :=
  let n := code c in
  ((9 <=? n) && (n <=? 13)) || (n =? 32) || (n =? 133) || (n =? 160).

Definition IsDigit (c : ascii) : bool :=
  let n := code c in (48 <=? n) && (n <=? 57).

Definition IsLetter (c : ascii) : bool :=
  let n := code c in
  ((65 <=? n) && (n <=? 90)) || ((97 <=? n) && (n <=? 122))
  || (n =? 170) || (n =? 181) || (n =? 186)
  || ((192 <=? n) && (n <=? 214)) || ((216 <=? n) && (n <=? 246))
  || ((248 <=? n) && (n <=? 255)).

Definition upper_byte (c : ascii) : ascii :=
  let n := code c in
  if (97 <=? n) && (n <=? 122) then Ascii.ascii_of_N (Z.to_N (n - 32)) else c.

(** [strings.ToUpper] as far as the keyword lookup can tell: ASCII letters
    are upper-cased.  The identifier bytes outside ASCII are Latin-1
    letters; no byte sequence made of those decodes to a rune whose upper
    case is ASCII, so such an identifier misses [Keywords] under either
    function. *)
Fixpoint ToUpper (s : string) : string :=
  match s with
  | EmptyString => EmptyString
  | String c r => String (upper_byte c) (ToUpper r)
  end.

(** Number of leading bytes of [s] satisfying [p]: the trip count of
    [for pos < len(input) && p(input[pos]) { pos++ }] started at the
    head of [s]. *)
Fixpoint count_while (p : ascii -> bool) (s : string) : Z :=
  match s with
  | String c r => if p c then 1 + count_while p r else 0
  | EmptyString => 0
  end.

Definition set_pos (l : Lexer) (p : Z) : Lexer :=
  mkLexer (input l) p (tokens l) (current l).

Definition skipWhitespace (l : Lexer) : Lexer :=
  set_pos l (pos l + count_while IsSpace (slice_from (input l) (pos l))).

Definition char_string (c : ascii) : string := String c EmptyString.

(** The double-quote byte. *)
Definition dquote : ascii := Ascii.ascii_of_N 34.

Definition readOperator (start : Z) (l : Lexer) : Token * Lexer :=
  match byte_at (input l) (pos l) with
  | None => (mkToken TokenError "" (mkPosition start start), l)
  | Some ch =>
      let l1 := set_pos l (pos l + 1) in
      let single :=
        (mkToken TokenOperator (char_string ch) (mkPosition start (pos l1)),
         l1) in
      if pos l1 <? slen (input l1) then
        match byte_at (input l1) (pos l1) with
        | Some next =>
            if (bool_decide (ch = "<"%char) && bool_decide (next = "="%char))
               || (bool_decide (ch = ">"%char) && bool_decide (next = "="%char))
               || (bool_decide (ch = "!"%char) && bool_decide (next = "="%char))
               || (bool_decide (ch = "<"%char) && bool_decide (next = ">"%char))
            then
              let l2 := set_pos l1 (pos l1 + 1) in
              (mkToken TokenOperator (char_string ch +:+ char_string next)
                       (mkPosition start (pos l2)), l2)
            else single
        | None => single
        end
      else single
  end.

(** Distance covered by the scanning loop of [readString] started at the
    head of [s]: it stops at the closing quote or at the end, stepping
    over a backslash together with the byte after it. *)
Fixpoint string_body (quote : ascii) (s : string) : Z :=
  match s with
  | EmptyString => 0
  | String c r =>
      if bool_decide (c = quote) then 0
      else if bool_decide (c = "\"%char) then
        match r with
        | EmptyString => 1
        | String _ r' => 2 + string_body quote r'
        end
      else 1 + string_body quote r
  end.

Definition readString (start : Z) (quote : ascii) (l : Lexer)
  : Token * Lexer :=
  let l1 := set_pos l (pos l + 1) in
  let l2 :=
    set_pos l1 (pos l1 + string_body quote (slice_from (input l1) (pos l1))) in
  if pos l2 >=? slen (input l2) then
    (mkToken TokenError "unterminated string" (mkPosition start (pos l2)), l2)
  else
    let l3 := set_pos l2 (pos l2 + 1) in
    let value := slice (input l3) (start + 1) (pos l3 - 1) in
    (mkToken TokenString value (mkPosition start (pos l3)), l3).

Definition readNumber (start : Z) (l : Lexer) : Token * Lexer :=
  let l1 :=
    set_pos l (pos l + count_while
                         (fun c => IsDigit c || bool_decide (c = "."%char))
                         (slice_from (input l) (pos l))) in
  (mkToken TokenNumber (slice (input l1) start (pos l1))
           (mkPosition start (pos l1)), l1).

Definition readIdentifier (start : Z) (l : Lexer) : Token * Lexer :=
  let l1 :=
    set_pos l (pos l + count_while
                         (fun c => IsLetter c || IsDigit c
                                   || bool_decide (c = "_"%char))
                         (slice_from (input l) (pos l))) in
  let value := slice (input l1) start (pos l1) in
  let upper := ToUpper value in
  match Keywords !! upper with
  | Some tokenType =>
      (mkToken tokenType upper (mkPosition start (pos l1)), l1)
  | None => (mkToken TokenIdentifier value (mkPosition start (pos l1)), l1)
  end.

(** [nextToken]; it is only called with [pos < len(input)], and indexing
    past the end would panic ([None]). *)
Definition nextToken (l : Lexer) : option (Token * Lexer) :=
  let start := pos l in
  ch ← byte_at (input l) (pos l);
  let one ty v :=
    let l1 := set_pos l (pos l + 1) in
    Some (mkToken ty v (mkPosition start (pos l1)), l1) in
  if bool_decide (ch = ","%char) then one TokenComma ","
  else if bool_decide (ch = "*"%char) then one TokenStar "*"
  else if bool_decide (ch = "("%char) then one TokenLParen "("
  else if bool_decide (ch = ")"%char) then one TokenRParen ")"
  else if bool_decide (ch = ";"%char) then one TokenSemicolon ";"
  else if bool_decide (ch = "="%char) || bool_decide (ch = "<"%char)
          || bool_decide (ch = ">"%char) || bool_decide (ch = "!"%char)
  then Some (readOperator start l)
  else if bool_decide (ch = "'"%char) || bool_decide (ch = dquote)
  then Some (readString start ch l)
  else if IsDigit ch then Some (readNumber start l)
  else if IsLetter ch || bool_decide (ch = "_"%char)
  then Some (readIdentifier start l)
  else one TokenError (char_string ch).

Definition push_token (l : Lexer) (t : Token) : Lexer :=
  mkLexer (input l) (pos l) (tokens l ++ [t]) (current l).

Definition TokenizeStep (l : Lexer) : option (Token * Lexer) :=
  let l1 := skipWhitespace l in
  if pos l1 >=? slen (input l1) then
    Some (mkToken TokenEOF "" (mkPosition (pos l1) (pos l1)), l1)
  else
    '(token, l2) ← nextToken l1;
    Some (token, push_token l2 token).

Definition HasMore (l : Lexer) : bool * Lexer :=
  let l1 := skipWhitespace l in
  (pos l1 <? slen (input l1), l1).

End Lexer.

(* ===================================================================== *)
(** * projects/query-parser/internal: lexer, Tokenize *)
(* ===================================================================== *)

Module LexerBatch.
Import Lexer.

(** Outcome of a loop of the lexer: its value, an index out of range, or
    the iteration budget of the embedding used up. *)
Inductive Outcome (A : Type) : Type :=
| Returns (a : A)
| Panics
| OutOfFuel.
Arguments Returns {A}.
Arguments Panics {A}.
Arguments OutOfFuel {A}.

(** [for l.pos < len(l.input) { ... }] of [Tokenize]. *)
Fixpoint Tokenize_loop (fuel : nat) (l : Lexer) : Outcome Lexer :=
  match fuel with
  | O => OutOfFuel
  | Datatypes.S fuel' =>
      if pos l <? slen (input l) then
        let l1 := skipWhitespace l in
        if pos l1 >=? slen (input l1) then Returns l1
        else
          match nextToken l1 with
          | Some (token, l2) => Tokenize_loop fuel' (push_token l2 token)
          | None => Panics
          end
      else Returns l
  end.

Definition Tokenize (fuel : nat) (l : Lexer) : Outcome (list Token * Lexer) :=
  let l0 := mkLexer (input l) 0 [] (current l) in
  match Tokenize_loop fuel l0 with
  | Returns l1 =>
      let l2 :=
        push_token l1 (mkToken TokenEOF "" (mkPosition (pos l1) (pos l1))) in
      Returns (tokens l2, l2)
  | Panics => Panics
  | OutOfFuel => OutOfFuel
  end.

End LexerBatch.

(* ===================================================================== *)
(** * projects/query-parser/internal: parser *)
(* ===================================================================== *)

Module Parser.
Import Lexer.

Inductive ASTNodeType : Type :=
| NodeSelect | NodeFrom | NodeWhere | NodeColumns | NodeColumn | NodeTable
| NodeCondition | NodeBinaryExpr | NodeLiteral | NodeIdentifier
| NodeFunction | NodeOrderBy | NodeLimit | NodeJoin | NodeStatement.

Definition ASTNodeType_string (t : ASTNodeType) : string :=
  match t with
  | NodeSelect => "SELECT" | NodeFrom => "FROM" | NodeWhere => "WHERE"
  | NodeColumns => "COLUMNS" | NodeColumn => "COLUMN" | NodeTable => "TABLE"
  | NodeCondition => "CONDITION" | NodeBinaryExpr => "BINARY_EXPR"
  | NodeLiteral => "LITERAL" | NodeIdentifier => "IDENTIFIER"
  | NodeFunction => "FUNCTION" | NodeOrderBy => "ORDER_BY"
  | NodeLimit => "LIMIT" | NodeJoin => "JOIN" | NodeStatement => "STATEMENT"
  end.

(** [Meta] only ever holds strings. *)
Record ASTNode : Type := mkASTNode {
  ID : string;
  Type_ : ASTNodeType;
  Value : string;
  Children : list string;
  Parent : string;
  Meta : gmap string string
}.

Record Parser : Type := mkParser {
  tokens : list Token;
  pos : Z;
  nodes : gmap string ASTNode;
  nodeSeq : Z;
  rootID : string;
  errors : list string
}.

(** A [*ASTNode]: nil, or the node of [nodes] with that id. *)
Definition NodePtr : Type := option string.

Definition NewParser (tokens : list Token) : Parser :=
  mkParser tokens 0 ∅ 0 "" [].

(** Outcome of a parser method: a value and the updated parser, a nil
    dereference, or the recursion budget of the embedding used up. *)
Inductive Res (A : Type) : Type :=
| Ret (a : A) (p : Parser)
| Panic
| OutOfFuel.
Arguments Ret {A}.
Arguments Panic {A}.
Arguments OutOfFuel {A}.

Definition M (A : Type) : Type := Parser -> Res A.

Definition ret {A} (a : A) : M A := fun p => Ret a p.

Definition bind {A B} (m : M A) (k : A -> M B) : M B :=
  fun p => match m p with
           | Ret a p' => k a p'
           | Panic => Panic
           | OutOfFuel => OutOfFuel
           end.

Notation "x <- m ;; k" := (bind m (fun x => k))
  (at level 100, m at next level, right associativity).
Notation "m ;;; k" := (bind m (fun _ => k))
  (at level 100, right associativity).

Definition get : M Parser := fun p => Ret p p.
Definition put (p : Parser) : M unit := fun _ => Ret tt p.
Definition panic {A} : M A := fun _ => Panic.
Definition out_of_fuel {A} : M A := fun _ => OutOfFuel.

Definition set_nodes (p : Parser) (n : gmap string ASTNode) : Parser :=
  mkParser (tokens p) (pos p) n (nodeSeq p) (rootID p) (errors p).

(** A write through a node pointer. *)
Definition update_node (id : string) (f : ASTNode -> ASTNode) : M unit :=
  fun p => Ret tt (set_nodes p (alter f id (nodes p))).

Definition createNode (nodeType : ASTNodeType) (value : string) : M NodePtr :=
  fun p =>
    let seq := nodeSeq p + 1 in
    let id := "ast-" +:+ pretty seq in
    let node := mkASTNode id nodeType value [] "" ∅ in
    Ret (Some id)
        (mkParser (tokens p) (pos p) (<[id := node]> (nodes p)) seq
                  (rootID p) (errors p)).

Definition set_Meta (n : NodePtr) (k v : string) : M unit :=
  match n with
  | Some id =>
      update_node id (fun a =>
        mkASTNode (ID a) (Type_ a) (Value a) (Children a) (Parent a)
                  (<[k := v]> (Meta a)))
  | None => panic
  end.

Definition set_Value (n : NodePtr) (v : string) : M unit :=
  match n with
  | Some id =>
      update_node id (fun a =>
        mkASTNode (ID a) (Type_ a) v (Children a) (Parent a) (Meta a))
  | None => panic
  end.

(** [addChild]: both pointers are dereferenced. *)
Definition addChild (parent child : NodePtr) : M unit :=
  match parent, child with
  | Some pid, Some cid =>
      update_node pid (fun a =>
        mkASTNode (ID a) (Type_ a) (Value a) (Children a ++ [cid]) (Parent a)
                  (Meta a)) ;;;
      update_node cid (fun a =>
        mkASTNode (ID a) (Type_ a) (Value a) (Children a) pid (Meta a))
  | _, _ => panic
  end.

(** [if child != nil { p.addChild(parent, child) }]. *)
Definition addChild_if (parent child : NodePtr) : M unit :=
  match child with
  | Some _ => addChild parent child
  | None => ret tt
  end.

Definition zero_token (t : TokenType) : Token :=
  mkToken t "" (mkPosition 0 0).

Definition token_at (l : list Token) (i : Z) : option Token :=
  if i <? 0 then None else l !! Z.to_nat i.

Definition current : M Token :=
  fun p =>
    if pos p >=? Z.of_nat (length (tokens p)) then Ret (zero_token TokenEOF) p
    else match token_at (tokens p) (pos p) with
         | Some t => Ret t p
         | None => Panic
         end.

Definition advance : M Token :=
  token <- current ;;
  fun p => Ret token (mkParser (tokens p) (pos p + 1) (nodes p) (nodeSeq p)
                               (rootID p) (errors p)).

Definition add_error (msg : string) : M unit :=
  fun p => Ret tt (mkParser (tokens p) (pos p) (nodes p) (nodeSeq p)
                            (rootID p) (errors p ++ [msg])).

Definition expect (tokenType : TokenType) : M (Token * bool) :=
  token <- current ;;
  if bool_decide (Lexer.Type_ token ≠ tokenType) then
    add_error ("expected " +:+ TokenType_string tokenType +:+ " but got "
               +:+ TokenType_string (Lexer.Type_ token)) ;;;
    ret (token, false)
  else
    t <- advance ;; ret (t, true).

Definition current_is (t : TokenType) : M bool :=
  token <- current ;; ret (bool_decide (Lexer.Type_ token = t)).

(** ** Expressions.  [parseExpression] is reached again from a
    parenthesis, which is the recursion the depth [d] counts; [n] bounds
    the trip count of each [for] loop. *)

Definition parsePrimaryExpression (parseExpression : M NodePtr) : M NodePtr :=
  token <- current ;;
  match Lexer.Type_ token with
  | TokenIdentifier =>
      advance ;;; createNode NodeIdentifier (Lexer.Value token)
  | TokenNumber =>
      advance ;;;
      node <- createNode NodeLiteral (Lexer.Value token) ;;
      set_Meta node "literalType" "number" ;;; ret node
  | TokenString =>
      advance ;;;
      node <- createNode NodeLiteral (Lexer.Value token) ;;
      set_Meta node "literalType" "string" ;;; ret node
  | TokenLParen =>
      advance ;;;
      expr <- parseExpression ;;
      expect TokenRParen ;;; ret expr
  | _ =>
      add_error ("unexpected token in expression: "
                 +:+ TokenType_string (Lexer.Type_ token)) ;;;
      ret None
  end.

Definition parseComparisonExpression (parseExpression : M NodePtr)
  : M NodePtr :=
  left <- parsePrimaryExpression parseExpression ;;
  isop <- current_is TokenOperator ;;
  if isop : bool then
    op <- advance ;;
    right <- parsePrimaryExpression parseExpression ;;
    compNode <- createNode NodeBinaryExpr (Lexer.Value op) ;;
    addChild compNode left ;;;
    addChild_if compNode right ;;;
    ret compNode
  else ret left.

(** [for p.current().Type == tt { ... }] of parseAndExpression and
    parseOrExpression. *)
Fixpoint binary_loop (n : nat) (tt : TokenType) (name : string)
    (operand : M NodePtr) (left : NodePtr) : M NodePtr :=
  more <- current_is tt ;;
  if more : bool then
    match n with
    | O => out_of_fuel
    | Datatypes.S n' =>
        advance ;;;
        right <- operand ;;
        node <- createNode NodeBinaryExpr name ;;
        addChild node left ;;;
        addChild_if node right ;;;
        binary_loop n' tt name operand node
    end
  else ret left.

Definition parseAndExpression (n : nat) (parseExpression : M NodePtr)
  : M NodePtr :=
  left <- parseComparisonExpression parseExpression ;;
  binary_loop n TokenAnd "AND" (parseComparisonExpression parseExpression)
              left.

Definition parseOrExpression (n : nat) (parseExpression : M NodePtr)
  : M NodePtr :=
  left <- parseAndExpression n parseExpression ;;
  binary_loop n TokenOr "OR" (parseAndExpression n parseExpression) left.

Fixpoint parseExpression (d n : nat) : M NodePtr :=
  match d with
  | O => out_of_fuel
  | Datatypes.S d' => parseOrExpression n (parseExpression d' n)
  end.

Definition parseColumnExpression : M NodePtr :=
  token <- advance ;;
  col <- createNode NodeColumn (Lexer.Value token) ;;
  isas <- current_is TokenAs ;;
  (if isas : bool then
     advance ;;;
     r <- expect TokenIdentifier ;;
     if snd r : bool then set_Meta col "alias" (Lexer.Value (fst r))
     else ret tt
   else ret tt) ;;;
  ret col.

Fixpoint parseColumns_loop (n : nat) (columnsNode : NodePtr) : M unit :=
  match n with
  | O => out_of_fuel
  | Datatypes.S n' =>
      token <- current ;;
      match Lexer.Type_ token with
      | TokenStar =>
          col <- createNode NodeColumn "*" ;;
          addChild columnsNode col ;;;
          advance ;;;
          comma <- current_is TokenComma ;;
          if comma : bool then advance ;;; parseColumns_loop n' columnsNode
          else ret tt
      | TokenIdentifier =>
          col <- parseColumnExpression ;;
          addChild_if columnsNode col ;;;
          comma <- current_is TokenComma ;;
          if comma : bool then advance ;;; parseColumns_loop n' columnsNode
          else ret tt
      | _ => ret tt
      end
  end.

Definition parseColumns (n : nat) : M NodePtr :=
  columnsNode <- createNode NodeColumns "" ;;
  parseColumns_loop n columnsNode ;;;
  ret columnsNode.

Definition parseJoin (d n : nat) : M NodePtr :=
  joinNode <- createNode NodeJoin "" ;;
  advance ;;;
  r <- expect TokenIdentifier ;;
  (if snd r : bool then
     table <- createNode NodeTable (Lexer.Value (fst r)) ;;
     addChild joinNode table
   else ret tt) ;;;
  ison <- current_is TokenOn ;;
  (if ison : bool then
     advance ;;;
     condition <- parseExpression d n ;;
     addChild_if joinNode condition
   else ret tt) ;;;
  ret joinNode.

Fixpoint parseFrom_joins (k : nat) (d n : nat) (fromNode : NodePtr)
  : M unit :=
  more <- current_is TokenJoin ;;
  if more : bool then
    match k with
    | O => out_of_fuel
    | Datatypes.S k' =>
        joinNode <- parseJoin d n ;;
        addChild_if fromNode joinNode ;;;
        parseFrom_joins k' d n fromNode
    end
  else ret tt.

Definition parseFrom (d n : nat) : M NodePtr :=
  fromNode <- createNode NodeFrom "" ;;
  advance ;;;
  r <- expect TokenIdentifier ;;
  (if snd r : bool then
     table <- createNode NodeTable (Lexer.Value (fst r)) ;;
     addChild fromNode table ;;;
     isas <- current_is TokenAs ;;
     if isas : bool then
       advance ;;;
       a <- expect TokenIdentifier ;;
       if snd a : bool then set_Meta table "alias" (Lexer.Value (fst a))
       else ret tt
     else
       isid <- current_is TokenIdentifier ;;
       if isid : bool then
         alias <- advance ;;
         set_Meta table "alias" (Lexer.Value alias)
       else ret tt
   else ret tt) ;;;
  parseFrom_joins n d n fromNode ;;;
  ret fromNode.

Definition parseWhere (d n : nat) : M NodePtr :=
  whereNode <- createNode NodeWhere "" ;;
  advance ;;;
  condition <- parseExpression d n ;;
  addChild_if whereNode condition ;;;
  ret whereNode.

Definition parseOrderBy : M NodePtr :=
  orderNode <- createNode NodeOrderBy "" ;;
  advance ;;;
  t <- current ;;
  (if bool_decide (Lexer.Type_ t = TokenIdentifier)
      && bool_decide (Lexer.Value t = "BY")
   then advance ;;; ret tt else ret tt) ;;;
  isid <- current_is TokenIdentifier ;;
  (if isid : bool then
     ct <- advance ;;
     col <- createNode NodeColumn (Lexer.Value ct) ;;
     addChild orderNode col ;;;
     t2 <- current ;;
     if bool_decide (Lexer.Type_ t2 = TokenIdentifier) then
       let val := Lexer.Value t2 in
       if bool_decide (val = "ASC") || bool_decide (val = "DESC") then
         set_Meta col "direction" val ;;; advance ;;; ret tt
       else ret tt
     else ret tt
   else ret tt) ;;;
  ret orderNode.

Definition parseLimit : M NodePtr :=
  limitNode <- createNode NodeLimit "" ;;
  advance ;;;
  isnum <- current_is TokenNumber ;;
  (if isnum : bool then
     t <- advance ;; set_Value limitNode (Lexer.Value t)
   else ret tt) ;;;
  isoff <- current_is TokenOffset ;;
  (if isoff : bool then
     advance ;;;
     isnum2 <- current_is TokenNumber ;;
     if isnum2 : bool then
       t <- advance ;; set_Meta limitNode "offset" (Lexer.Value t)
     else ret tt
   else ret tt) ;;;
  ret limitNode.

Definition parseSelect (d n : nat) : M NodePtr :=
  selectNode <- createNode NodeStatement "SELECT" ;;
  set_Meta selectNode "type" "SELECT" ;;;
  advance ;;;
  columns <- parseColumns n ;;
  addChild_if selectNode columns ;;;
  isfrom <- current_is TokenFrom ;;
  (if isfrom : bool then
     fromNode <- parseFrom d n ;; addChild_if selectNode fromNode
   else ret tt) ;;;
  iswhere <- current_is TokenWhere ;;
  (if iswhere : bool then
     whereNode <- parseWhere d n ;; addChild_if selectNode whereNode
   else ret tt) ;;;
  isorder <- current_is TokenOrderBy ;;
  (if isorder : bool then
     orderNode <- parseOrderBy ;; addChild_if selectNode orderNode
   else ret tt) ;;;
  islimit <- current_is TokenLimit ;;
  (if islimit : bool then
     limitNode <- parseLimit ;; addChild_if selectNode limitNode
   else ret tt) ;;;
  ret selectNode.

Definition parseStatement (d n : nat) : M NodePtr :=
  token <- current ;;
  match Lexer.Type_ token with
  | TokenSelect => parseSelect d n
  | _ =>
      add_error ("unexpected token: " +:+ TokenType_string (Lexer.Type_ token)) ;;;
      ret None
  end.

(** [%v] of a [[]string]. *)
Fixpoint join_space (l : list string) : string :=
  match l with
  | [] => ""
  | [s] => s
  | s :: r => s +:+ " " +:+ join_space r
  end.

Definition fmt_strings (l : list string) : string :=
  "[" +:+ join_space l +:+ "]".

(** [Parse]: the root pointer and the returned error. *)
Definition Parse (d n : nat) : M (NodePtr * option string) :=
  p0 <- get ;;
  if Z.of_nat (length (tokens p0)) =? 0 then
    ret (None, Some "no tokens to parse")
  else
    root <- parseStatement d n ;;
    match root with
    | None =>
        p <- get ;;
        if Z.of_nat (length (errors p)) >? 0 then
          ret (None, Some ("parse errors: " +:+ fmt_strings (errors p)))
        else ret (None, Some "failed to parse statement")
    | Some id =>
        p <- get ;;
        put (mkParser (tokens p) (pos p) (nodes p) (nodeSeq p) id (errors p)) ;;;
        ret (Some id, None)
    end.

End Parser.

(* ===================================================================== *)
(** * projects/query-parser/simulation *)
(* ===================================================================== *)

Module ParserSimulation.
Import Protocol Lexer Parser.

Record ParserSimulation : Type := mkSim {
  query : string;
  tokens : list Token;
  astNodes : gmap string ASTNode;
  astRoot : string;
  steps : list Engine.Step;
  currentStep : Z;
  currentTokenIndex : Z;
  parsePhase : string
}.

(** The map built by [GetVisualizationData]. *)
Record VisualizationData : Type := mkViz {
  viz_query : string;
  viz_tokens : list Token;
  viz_astNodes : gmap string ASTNode;
  viz_astRoot : string;
  viz_currentTokenIndex : Z;
  viz_parsePhase : string
}.

Definition NewParserSimulation : ParserSimulation :=
  mkSim "" [] ∅ "" [] (-1) 0 "idle".

Definition Name (sim : ParserSimulation) : string := "Query Parser".

Definition set_steps (sim : ParserSimulation) (l : list Engine.Step)
  : ParserSimulation :=
  mkSim (query sim) (tokens sim) (astNodes sim) (astRoot sim) l
        (currentStep sim) (currentTokenIndex sim) (parsePhase sim).
Definition set_tokens (sim : ParserSimulation) (l : list Token)
  : ParserSimulation :=
  mkSim (query sim) l (astNodes sim) (astRoot sim) (steps sim)
        (currentStep sim) (currentTokenIndex sim) (parsePhase sim).
Definition set_query (sim : ParserSimulation) (q : string)
  : ParserSimulation :=
  mkSim q (tokens sim) (astNodes sim) (astRoot sim) (steps sim)
        (currentStep sim) (currentTokenIndex sim) (parsePhase sim).
Definition set_parsePhase (sim : ParserSimulation) (ph : string)
  : ParserSimulation :=
  mkSim (query sim) (tokens sim) (astNodes sim) (astRoot sim) (steps sim)
        (currentStep sim) (currentTokenIndex sim) ph.
Definition set_ast (sim : ParserSimulation) (n : gmap string ASTNode)
    (root : string) : ParserSimulation :=
  mkSim (query sim) (tokens sim) n root (steps sim)
        (currentStep sim) (currentTokenIndex sim) (parsePhase sim).
Definition set_currentStep (sim : ParserSimulation) (i : Z)
  : ParserSimulation :=
  mkSim (query sim) (tokens sim) (astNodes sim) (astRoot sim) (steps sim)
        i (currentTokenIndex sim) (parsePhase sim).

Definition addStep (title description : string)
    (highlights : list Highlight) (sim : ParserSimulation)
  : ParserSimulation :=
  set_steps sim
    (steps sim ++ [Engine.mkStep (Z.of_nat (length (steps sim))) title
                                 description highlights]).

Definition Reset (sim : ParserSimulation) : ParserSimulation :=
  mkSim (query sim) [] ∅ "" [] (-1) (-1) "idle".

Definition GetVisualizationData (sim : ParserSimulation)
  : VisualizationData :=
  mkViz (query sim) (tokens sim) (astNodes sim) (astRoot sim)
        (currentTokenIndex sim) (parsePhase sim).

Definition GenerateSteps (sim : ParserSimulation) : list Engine.Step :=
  steps sim.

Definition ExecuteStep (index : Z) (sim : ParserSimulation)
  : Engine.StepResult VisualizationData * ParserSimulation :=
  if (index <? 0) || (index >=? Z.of_nat (length (steps sim))) then
    (Engine.mkStepResult false (Some Engine.ErrInvalidStepIndex) [] None "",
     sim)
  else
    let sim1 := set_currentStep sim index in
    match steps sim1 !! Z.to_nat index with
    | Some step =>
        (Engine.mkStepResult true None (Engine.Highlights step)
           (Some (GetVisualizationData sim1)) (Engine.Description step),
         sim1)
    | None =>
        (Engine.mkStepResult false (Some Engine.ErrInvalidStepIndex) [] None
                             "", sim)
    end.

(** How [prepareParseSimulation] ends: it returns, it panics, or the
    recursion budget of the embedding is used up. *)
Inductive Outcome : Type :=
| Done (sim : ParserSimulation)
| Panicked
| Exhausted.

(** The tokenizing loop, [fuel] bounding its trip count. *)
Fixpoint tokenize_loop (fuel : nat) (lexer : Lexer.Lexer)
    (sim : ParserSimulation) : Outcome :=
  let '(more, lexer1) := HasMore lexer in
  if more : bool then
    match fuel with
    | O => Exhausted
    | S fuel' =>
        match TokenizeStep lexer1 with
        | None => Panicked
        | Some (token, lexer2) =>
            if bool_decide (Lexer.Type_ token = TokenEOF) then Done sim
            else
              let sim1 := set_tokens sim (tokens sim ++ [token]) in
              let tokenIndex := Z.of_nat (length (tokens sim1)) - 1 in
              let sim2 :=
                addStep
                  ("Token: " +:+ TokenType_string (Lexer.Type_ token))
                  ("Found " +:+ TokenType_string (Lexer.Type_ token)
                   +:+ " token: '" +:+ Lexer.Value token
                   +:+ "' at position "
                   +:+ pretty (Start (Lexer.Pos token)) +:+ "-"
                   +:+ pretty (End (Lexer.Pos token)))
                  [highlight "token" ("token-" +:+ pretty tokenIndex)
                             "#3b82f6" "pulse"]
                  sim1 in
              tokenize_loop fuel' lexer2 sim2
        end
    end
  else Done sim.

(** [generateASTSteps], from the node with id [id] of [astNodes]. *)
Fixpoint generateASTSteps (fuel : nat) (id : string)
    (sim : ParserSimulation) : Outcome :=
  match fuel with
  | O => Exhausted
  | S fuel' =>
      match astNodes sim !! id with
      | None => Panicked
      | Some node =>
          let nodeType := ASTNodeType_string (Parser.Type_ node) in
          let description :=
            if bool_decide (Parser.Value node ≠ "") then
              "Created " +:+ nodeType +:+ " node with value '"
              +:+ Parser.Value node +:+ "'"
            else "Created " +:+ nodeType +:+ " node" in
          let sim1 :=
            addStep ("AST: " +:+ nodeType) description
                    [highlight "node" (Parser.ID node) "#8b5cf6" "fadeIn"]
                    sim in
          foldl (fun acc childID =>
                   match acc with
                   | Done s =>
                       match astNodes s !! childID with
                       | Some _ => generateASTSteps fuel' childID s
                       | None => Done s
                       end
                   | other => other
                   end)
                (Done sim1) (Children node)
      end
  end.

(** [prepareParseSimulation]; [fuel] bounds the tokenizing loop, the
    parser's recursion and loops, and the walk over the tree. *)
Definition prepareParseSimulation (fuel : nat) (q : string)
    (sim : ParserSimulation) : Outcome :=
  let sim1 := set_parsePhase (set_steps (set_query sim q) []) "tokenizing" in
  let sim2 := addStep "Start Parsing" ("Parsing SQL query: " +:+ q) [] sim1 in
  let sim3 :=
    addStep "Tokenization" "Breaking input into tokens (lexical analysis)"
            [] sim2 in
  match tokenize_loop fuel (NewLexer q) sim3 with
  | Done sim4 =>
      let eofToken := mkToken TokenEOF "" (mkPosition (slen q) (slen q)) in
      let sim5 := set_tokens sim4 (tokens sim4 ++ [eofToken]) in
      let sim6 :=
        addStep "Tokenization Complete"
                ("Created " +:+ pretty (Z.of_nat (length (tokens sim5)) - 1)
                 +:+ " tokens from input") [] sim5 in
      let sim7 := set_parsePhase sim6 "parsing" in
      let sim8 :=
        addStep "Parsing" "Building Abstract Syntax Tree (AST) from tokens"
                [] sim7 in
      match Parse fuel fuel (NewParser (tokens sim8)) with
      | Parser.Panic => Panicked
      | Parser.OutOfFuel => Exhausted
      | Parser.Ret (_, Some err) _ =>
          Done (set_parsePhase (addStep "Parse Error" err [] sim8) "error")
      | Parser.Ret (None, None) _ => Panicked
      | Parser.Ret (Some root, None) parser =>
          let sim9 :=
            set_ast sim8 (Parser.nodes parser) (Parser.rootID parser) in
          match generateASTSteps fuel root sim9 with
          | Done sim10 =>
              let sim11 := set_parsePhase sim10 "complete" in
              Done (addStep "Parsing Complete"
                      ("Successfully created AST with "
                       +:+ pretty (Z.of_nat (size (astNodes sim11)))
                       +:+ " nodes")
                      [highlight "node" (astRoot sim11) "#10b981" "pulse"]
                      sim11)
          | other => other
          end
      end
  | other => other
  end.

(** Enough budget for a query: the token count is at most the byte count,
    the parser consumes a token per loop trip and per nested call, and the
    tree has fewer than two nodes per token. *)
Definition budget (q : string) : nat := 2 * String.length q + 4.

Definition Initialize (config : gmap string JValue)
    (sim : ParserSimulation) : option (option string * ParserSimulation) :=
  let sim1 := mkSim (query sim) [] ∅ "" [] (-1) (-1) "idle" in
  match config !! "query" with
  | Some (JString q) =>
      if bool_decide (q ≠ "") then
        match prepareParseSimulation (budget q) q (set_query sim1 q) with
        | Done sim2 => Some (None, sim2)
        | _ => None
        end
      else Some (None, sim1)
  | _ => Some (None, sim1)
  end.

(** [ParseQuery]. *)
Definition ParseQuery (q : string) (sim : ParserSimulation) : Outcome :=
  prepareParseSimulation (budget q) q (Reset sim).

End ParserSimulation.

(* ===================================================================== *)
(** * projects/mvcc/internal *)
(* ===================================================================== *)

Module MVCC.

Inductive TransactionStatus : Type := TxActive | TxCommitted | TxAborted.

#[global] Instance TransactionStatus_eq_dec : EqDecision TransactionStatus.
Proof. solve_decision. Defined.

(** Timestamps are [int64]; the clock only counts commits, so the
    wrap-around at [2^63] is left out. *)
Record Transaction : Type := mkTransaction {
  tx_ID : string;
  StartTime : Z;
  CommitTime : option Z;
  Status : TransactionStatus;
  ReadSet : list string;
  WriteSet : list string
}.

Record Version : Type := mkVersion {
  ver_ID : string;
  RowID : string;
  Data : gmap string JValue;
  CreatedBy : string;
  CreatedAt : Z;
  DeletedBy : option string;
  DeletedAt : option Z;
  Prev : option string
}.

Record Row : Type := mkRow {
  row_ID : string;
  CurrentVersion : string;
  VersionChain : list string
}.

Record MVCCStore : Type := mkStore {
  Transactions : gmap string Transaction;
  Versions : gmap string Version;
  Rows : gmap string Row;
  GlobalTimestamp : Z;
  ActiveTransaction : string;
  txSeq : Z;
  verSeq : Z
}.

(** Outcome of a store method: its value and the store it leaves, a
    returned [error] and the store it leaves, or a nil dereference. *)
Inductive Result (A : Type) : Type :=
| Ok (a : A) (s : MVCCStore)
| Err (msg : string) (s : MVCCStore)
| Panic.
Arguments Ok {A}.
Arguments Err {A}.
Arguments Panic {A}.

Definition NewMVCCStore : MVCCStore := mkStore ∅ ∅ ∅ 1 "" 0 0.

Definition set_Transactions (s : MVCCStore) (t : gmap string Transaction)
  : MVCCStore :=
  mkStore t (Versions s) (Rows s) (GlobalTimestamp s) (ActiveTransaction s)
          (txSeq s) (verSeq s).
Definition set_Versions (s : MVCCStore) (v : gmap string Version)
  : MVCCStore :=
  mkStore (Transactions s) v (Rows s) (GlobalTimestamp s)
          (ActiveTransaction s) (txSeq s) (verSeq s).
Definition set_Rows (s : MVCCStore) (r : gmap string Row) : MVCCStore :=
  mkStore (Transactions s) (Versions s) r (GlobalTimestamp s)
          (ActiveTransaction s) (txSeq s) (verSeq s).
Definition set_ActiveTransaction (s : MVCCStore) (a : string) : MVCCStore :=
  mkStore (Transactions s) (Versions s) (Rows s) (GlobalTimestamp s) a
          (txSeq s) (verSeq s).

Definition BeginTransaction (s : MVCCStore) : Transaction * MVCCStore :=
  let seq := txSeq s + 1 in
  let txID := "tx-" +:+ pretty seq in
  let tx := mkTransaction txID (GlobalTimestamp s) None TxActive [] [] in
  (tx, mkStore (<[txID := tx]> (Transactions s)) (Versions s) (Rows s)
               (GlobalTimestamp s) txID seq (verSeq s)).

(** [isVisible]; [None] is a nil dereference (a creator or deleter that
    is not in [Transactions], a committed deleter without commit time). *)
Definition isVisible (s : MVCCStore) (tx : Transaction) (ver : Version)
  : option bool :=
  let creatorTx := Transactions s !! CreatedBy ver in
  if bool_decide (CreatedBy ver = tx_ID tx) then Some true
  else
    creator ← creatorTx;
    if bool_decide (Status creator ≠ TxCommitted) then Some false
    else
      match CommitTime creator with
      | None => Some false
      | Some ct =>
          if ct >? StartTime tx then Some false
          else
            match DeletedBy ver, DeletedAt ver with
            | Some deletedBy, Some _ =>
                deleter ← Transactions s !! deletedBy;
                if bool_decide (Status deleter = TxCommitted) then
                  dct ← CommitTime deleter;
                  if dct <=? StartTime tx then Some false else Some true
                else Some true
            | _, _ => Some true
            end
      end.

(** The scan of a chain for the first visible version: [Some (Some v)]
    found, [Some None] none visible, [None] a nil dereference. *)
Fixpoint first_visible (s : MVCCStore) (tx : Transaction)
    (chain : list string) : option (option Version) :=
  match chain with
  | [] => Some None
  | verID :: rest =>
      ver ← Versions s !! verID;
      vis ← isVisible s tx ver;
      if vis : bool then Some (Some ver) else first_visible s tx rest
  end.

Definition not_found (txID : string) : string :=
  "transaction " +:+ txID +:+ " not found".
Definition not_active (txID : string) : string :=
  "transaction " +:+ txID +:+ " is not active".
Definition row_not_found (rowID : string) : string :=
  "row " +:+ rowID +:+ " not found".

Definition Read (txID rowID : string) (s : MVCCStore) : Result Version :=
  match Transactions s !! txID with
  | None => Err (not_found txID) s
  | Some tx =>
      if bool_decide (Status tx ≠ TxActive) then Err (not_active txID) s
      else
        match Rows s !! rowID with
        | None => Err (row_not_found rowID) s
        | Some row =>
            match first_visible s tx (VersionChain row) with
            | None => Panic
            | Some (Some ver) =>
                let tx' :=
                  mkTransaction (tx_ID tx) (StartTime tx) (CommitTime tx)
                                (Status tx) (ReadSet tx ++ [rowID])
                                (WriteSet tx) in
                Ok ver (set_Transactions s (<[txID := tx']> (Transactions s)))
            | Some None =>
                Err ("no visible version for row " +:+ rowID) s
            end
        end
  end.

Definition add_WriteSet (tx : Transaction) (rowID : string) : Transaction :=
  mkTransaction (tx_ID tx) (StartTime tx) (CommitTime tx) (Status tx)
                (ReadSet tx) (WriteSet tx ++ [rowID]).

Definition Write (txID rowID : string) (data : gmap string JValue)
    (s : MVCCStore) : Result Version :=
  match Transactions s !! txID with
  | None => Err (not_found txID) s
  | Some tx =>
      if bool_decide (Status tx ≠ TxActive) then Err (not_active txID) s
      else
        let seq := verSeq s + 1 in
        let verID := "ver-" +:+ pretty seq in
        let row :=
          match Rows s !! rowID with
          | Some row => row
          | None => mkRow rowID "" []
          end in
        let prevVer := head (VersionChain row) in
        let version :=
          mkVersion verID rowID data txID (GlobalTimestamp s) None None
                    prevVer in
        let row' := mkRow (row_ID row) verID (verID :: VersionChain row) in
        Ok version
           (mkStore (<[txID := add_WriteSet tx rowID]> (Transactions s))
                    (<[verID := version]> (Versions s))
                    (<[rowID := row']> (Rows s))
                    (GlobalTimestamp s) (ActiveTransaction s) (txSeq s) seq)
  end.

Definition Delete (txID rowID : string) (s : MVCCStore) : Result unit :=
  match Transactions s !! txID with
  | None => Err (not_found txID) s
  | Some tx =>
      if bool_decide (Status tx ≠ TxActive) then Err (not_active txID) s
      else
        match Rows s !! rowID with
        | None => Err (row_not_found rowID) s
        | Some row =>
            let stamped :=
              match VersionChain row with
              | verID :: _ =>
                  match Versions s !! verID with
                  | Some ver =>
                      Some (<[verID :=
                               mkVersion (ver_ID ver) (RowID ver) (Data ver)
                                         (CreatedBy ver) (CreatedAt ver)
                                         (Some txID)
                                         (Some (GlobalTimestamp s))
                                         (Prev ver)]> (Versions s))
                  | None => None
                  end
              | [] => Some (Versions s)
              end in
            match stamped with
            | None => Panic
            | Some versions =>
                Ok tt
                   (mkStore (<[txID := add_WriteSet tx rowID]>
                               (Transactions s))
                            versions (Rows s) (GlobalTimestamp s)
                            (ActiveTransaction s) (txSeq s) (verSeq s))
            end
        end
  end.

Definition clear_active (txID : string) (s : MVCCStore) : MVCCStore :=
  if bool_decide (ActiveTransaction s = txID) then set_ActiveTransaction s ""
  else s.

Definition Commit (txID : string) (s : MVCCStore) : Result unit :=
  match Transactions s !! txID with
  | None => Err (not_found txID) s
  | Some tx =>
      if bool_decide (Status tx ≠ TxActive) then Err (not_active txID) s
      else
        let commitTime := GlobalTimestamp s + 1 in
        let tx' :=
          mkTransaction (tx_ID tx) (StartTime tx) (Some commitTime)
                        TxCommitted (ReadSet tx) (WriteSet tx) in
        Ok tt
           (clear_active txID
              (mkStore (<[txID := tx']> (Transactions s)) (Versions s)
                       (Rows s) commitTime (ActiveTransaction s) (txSeq s)
                       (verSeq s)))
  end.

(** The inner loop of [Abort] over one chain: the versions kept, and
    [Versions] without the ones created by [txID]. *)
Fixpoint abort_chain (txID : string) (chain : list string)
    (versions : gmap string Version)
  : option (list string * gmap string Version) :=
  match chain with
  | [] => Some ([], versions)
  | verID :: rest =>
      ver ← versions !! verID;
      if bool_decide (CreatedBy ver ≠ txID) then
        '(kept, versions') ← abort_chain txID rest versions;
        Some (verID :: kept, versions')
      else abort_chain txID rest (delete verID versions)
  end.

(** The outer loop of [Abort] over the write set. *)
Fixpoint abort_rows (txID : string) (writeSet : list string) (s : MVCCStore)
  : option MVCCStore :=
  match writeSet with
  | [] => Some s
  | rowID :: rest =>
      row ← Rows s !! rowID;
      '(newChain, versions) ← abort_chain txID (VersionChain row) (Versions s);
      let rows :=
        match newChain with
        | v :: _ => <[rowID := mkRow (row_ID row) v newChain]> (Rows s)
        | [] => delete rowID (Rows s)
        end in
      abort_rows txID rest (set_Rows (set_Versions s versions) rows)
  end.

Definition Abort (txID : string) (s : MVCCStore) : Result unit :=
  match Transactions s !! txID with
  | None => Err (not_found txID) s
  | Some tx =>
      if bool_decide (Status tx ≠ TxActive) then Err (not_active txID) s
      else
        let tx' :=
          mkTransaction (tx_ID tx) (StartTime tx) (CommitTime tx) TxAborted
                        (ReadSet tx) (WriteSet tx) in
        let s1 := set_Transactions s (<[txID := tx']> (Transactions s)) in
        match abort_rows txID (WriteSet tx') s1 with
        | None => Panic
        | Some s2 => Ok tt (clear_active txID s2)
        end
  end.

Definition GetVisibleVersions (txID : string) (s : MVCCStore)
  : option (list string) :=
  match Transactions s !! txID with
  | None => Some []
  | Some tx =>
      foldr (fun row acc =>
               l ← acc;
               v ← first_visible s tx (VersionChain row);
               Some (match v with Some ver => ver_ID ver :: l | None => l end))
            (Some []) (snd <$> map_to_list (Rows s))
  end.

(** The retention threshold of [GarbageCollect]. *)
Definition oldestActiveStart (s : MVCCStore) : Z :=
  map_fold (fun _ tx oldest =>
              if bool_decide (Status tx = TxActive) && (StartTime tx <? oldest)
              then StartTime tx else oldest)
           (GlobalTimestamp s) (Transactions s).

(** The scan of one chain by [GarbageCollect]: the chain kept, the ids
    removed and [Versions] without them. *)
Fixpoint gc_chain (s : MVCCStore) (oldest : Z) (foundVisible : bool)
    (chain : list string) (versions : gmap string Version)
  : option (list string * list string * gmap string Version) :=
  match chain with
  | [] => Some ([], [], versions)
  | verID :: rest =>
      ver ← versions !! verID;
      creatorTx ← Transactions s !! CreatedBy ver;
      match
        (if bool_decide (Status creatorTx = TxCommitted)
         then CommitTime creatorTx else None)
      with
      | Some ct =>
          if (ct <? oldest) && foundVisible then
            '(kept, removed, versions') ←
              gc_chain s oldest foundVisible rest (delete verID versions);
            Some (kept, verID :: removed, versions')
          else
            '(kept, removed, versions') ←
              gc_chain s oldest true rest versions;
            Some (verID :: kept, removed, versions')
      | None =>
          '(kept, removed, versions') ←
            gc_chain s oldest foundVisible rest versions;
          Some (verID :: kept, removed, versions')
      end
  end.

(** The loop of [GarbageCollect] over the rows.  Go visits a map in an
    unspecified order; the rows are taken here in the order of
    [map_to_list]. *)
Fixpoint gc_rows (s0 : MVCCStore) (oldest : Z) (rows : list (string * Row))
    (s : MVCCStore) (removed : list string)
  : option (list string * MVCCStore) :=
  match rows with
  | [] => Some (removed, s)
  | (rowID, row) :: rest =>
      '(kept, gone, versions) ←
        gc_chain s0 oldest false (VersionChain row) (Versions s);
      gc_rows s0 oldest rest
        (set_Rows (set_Versions s versions)
           (<[rowID := mkRow (row_ID row) (CurrentVersion row) kept]>
              (Rows s)))
        (removed ++ gone)
  end.

Definition GarbageCollect (s : MVCCStore) : Result (list string) :=
  match gc_rows s (oldestActiveStart s) (map_to_list (Rows s)) s [] with
  | Some (removed, s') => Ok removed s'
  | None => Panic
  end.

Definition InsertInitialData (s : MVCCStore) : MVCCStore :=
  let '(tx, s1) := BeginTransaction s in
  let after {A} (r : Result A) (s : MVCCStore) : MVCCStore :=
    match r with Ok _ s' => s' | Err _ s' => s' | Panic => s end in
  let s2 :=
    after (Write (tx_ID tx) "users:1"
             (list_to_map [("id", JNumber 1); ("name", JString "Alice");
                           ("email", JString "alice@example.com")]) s1) s1 in
  let s3 :=
    after (Write (tx_ID tx) "users:2"
             (list_to_map [("id", JNumber 2); ("name", JString "Bob");
                           ("email", JString "bob@example.com")]) s2) s2 in
  let s4 :=
    after (Write (tx_ID tx) "products:1"
             (list_to_map [("id", JNumber 1); ("name", JString "Widget");
                           ("price", JString "9.99")]) s3) s3 in
  after (Commit (tx_ID tx) s4) s4.

End MVCC.

(* ===================================================================== *)
(** * projects/btree/internal *)
(* ===================================================================== *)

Module BTree.

Record BTreeNode : Type := mkNode {
  ID : string;
  Keys : list Z;
  Children : list string;
  IsLeaf : bool;
  Parent : string
}.

Record BTree : Type := mkBTree {
  Order : Z;
  RootID : string;
  Nodes : gmap string BTreeNode;
  nodeSeq : Z
}.

(** Outcome of a tree method: a value and the tree it leaves, a panic
    (nil dereference, index or slice bound out of range), or the recursion
    budget of the embedding used up. *)
Inductive Res (A : Type) : Type :=
| Ret (a : A) (bt : BTree)
| Panic
| OutOfFuel.
Arguments Ret {A}.
Arguments Panic {A}.
Arguments OutOfFuel {A}.

Definition M (A : Type) : Type := BTree -> Res A.

Definition ret {A} (a : A) : M A := fun bt => Ret a bt.

Definition bind {A B} (m : M A) (k : A -> M B) : M B :=
  fun bt => match m bt with
            | Ret a bt' => k a bt'
            | Panic => Panic
            | OutOfFuel => OutOfFuel
            end.

Notation "x <- m ;; k" := (bind m (fun x => k))
  (at level 100, m at next level, right associativity).
Notation "m ;;; k" := (bind m (fun _ => k))
  (at level 100, right associativity).

Definition panic {A} : M A := fun _ => Panic.
Definition out_of_fuel {A} : M A := fun _ => OutOfFuel.
Definition get : M BTree := fun bt => Ret bt bt.

(** A value that panics when absent. *)
Definition must {A} (o : option A) : M A :=
  match o with Some a => ret a | None => panic end.

Definition NewBTree (order : Z) : BTree :=
  let order := if order <? 3 then 3 else order in
  mkBTree order "" ∅ 0.

Definition len {A} (l : list A) : Z := Z.of_nat (length l).

(** [l[i]]; out of range is [None]. *)
Definition idx {A} (l : list A) (i : Z) : option A :=
  if i <? 0 then None else l !! Z.to_nat i.

(** [l[i] = x] for [i] in range. *)
Definition set_idx {A} (l : list A) (i : Z) (x : A) : option (list A) :=
  if (0 <=? i) && (i <? len l) then Some (<[Z.to_nat i := x]> l) else None.

(** [l[:i]] and [l[i:]], for bounds within the length. *)
Definition slice_to {A} (l : list A) (i : Z) : option (list A) :=
  if (0 <=? i) && (i <=? len l) then Some (take (Z.to_nat i) l) else None.
Definition slice_from {A} (l : list A) (i : Z) : option (list A) :=
  if (0 <=? i) && (i <=? len l) then Some (drop (Z.to_nat i) l) else None.

(** [insertAt] / [insertAtStr]. *)
Definition insertAt {A} (slice : list A) (index : Z) (value : A)
  : option (list A) :=
  if (0 <=? index) && (index <=? len slice) then
    Some (take (Z.to_nat index) slice ++ value :: drop (Z.to_nat index) slice)
  else None.

(** [removeAt] / [removeAtStr]. *)
Definition removeAt {A} (slice : list A) (index : Z) : option (list A) :=
  if (0 <=? index) && (index + 1 <=? len slice) then
    Some (take (Z.to_nat index) slice ++ drop (Z.to_nat (index + 1)) slice)
  else None.

(** [bt.Nodes[id]] dereferenced. *)
Definition node (id : string) : M BTreeNode :=
  fun bt => match Nodes bt !! id with
            | Some n => Ret n bt
            | None => Panic
            end.

Definition set_Nodes (bt : BTree) (n : gmap string BTreeNode) : BTree :=
  mkBTree (Order bt) (RootID bt) n (nodeSeq bt).
Definition set_RootID (id : string) : M unit :=
  fun bt => Ret tt (mkBTree (Order bt) id (Nodes bt) (nodeSeq bt)).

(** A write through the pointer [bt.Nodes[id]]. *)
Definition update (id : string) (f : BTreeNode -> BTreeNode) : M unit :=
  fun bt => match Nodes bt !! id with
            | Some n => Ret tt (set_Nodes bt (<[id := f n]> (Nodes bt)))
            | None => Panic
            end.

Definition with_Keys (k : list Z) (n : BTreeNode) : BTreeNode :=
  mkNode (ID n) k (Children n) (IsLeaf n) (Parent n).
Definition with_Children (c : list string) (n : BTreeNode) : BTreeNode :=
  mkNode (ID n) (Keys n) c (IsLeaf n) (Parent n).
Definition with_Parent (p : string) (n : BTreeNode) : BTreeNode :=
  mkNode (ID n) (Keys n) (Children n) (IsLeaf n) p.

Definition delete_node (id : string) : M unit :=
  fun bt => Ret tt (set_Nodes bt (delete id (Nodes bt))).

Definition createNode (isLeaf : bool) : M string :=
  fun bt =>
    let seq := nodeSeq bt + 1 in
    let id := "node-" +:+ pretty seq in
    Ret id (mkBTree (Order bt) (RootID bt)
                    (<[id := mkNode id [] [] isLeaf ""]> (Nodes bt)) seq).

(** [i := 0; for i < len(keys) && key > keys[i] { i++ }]. *)
Fixpoint scan_up (key : Z) (keys : list Z) : Z :=
  match keys with
  | k :: r => if key >? k then 1 + scan_up key r else 0
  | [] => 0
  end.

(** Trip count of [for i >= 0 && key < keys[i] { i-- }] started at the
    last index, on the reversed keys. *)
Fixpoint scan_down (key : Z) (rkeys : list Z) : Z :=
  match rkeys with
  | k :: r => if key <? k then 1 + scan_down key r else 0
  | [] => 0
  end.

(** The sorted insertion of [insertNonFull] into a leaf: the keys above
    [key] at the end move one place right and [key] lands before them. *)
Definition insert_in_leaf (key : Z) (keys : list Z) : list Z :=
  let i := len keys - scan_down key (rev keys) in
  take (Z.to_nat i) keys ++ key :: drop (Z.to_nat i) keys.

(** [for _, childID := range ids { bt.Nodes[childID].Parent = p }]. *)
Fixpoint reparent (ids : list string) (p : string) : M unit :=
  match ids with
  | [] => ret tt
  | childID :: r => update childID (with_Parent p) ;;; reparent r p
  end.

Definition splitChild (parentID : string) (childIndex : Z) : M unit :=
  parent <- node parentID ;;
  fullID <- must (idx (Children parent) childIndex) ;;
  fullChild <- node fullID ;;
  newID <- createNode (IsLeaf fullChild) ;;
  update newID (with_Parent parentID) ;;;
  bt <- get ;;
  let mid := (Order bt - 1) / 2 in
  medianKey <- must (idx (Keys fullChild) mid) ;;
  right <- must (slice_from (Keys fullChild) (mid + 1)) ;;
  update newID (with_Keys right) ;;;
  left <- must (slice_to (Keys fullChild) mid) ;;
  update fullID (with_Keys left) ;;;
  (if IsLeaf fullChild then ret tt
   else
     rightc <- must (slice_from (Children fullChild) (mid + 1)) ;;
     update newID (with_Children rightc) ;;;
     leftc <- must (slice_to (Children fullChild) (mid + 1)) ;;
     update fullID (with_Children leftc) ;;;
     reparent rightc newID) ;;;
  parent1 <- node parentID ;;
  keys <- must (insertAt (Keys parent1) childIndex medianKey) ;;
  update parentID (with_Keys keys) ;;;
  parent2 <- node parentID ;;
  children <- must (insertAt (Children parent2) (childIndex + 1) newID) ;;
  update parentID (with_Children children).

Fixpoint insertNonFull (fuel : nat) (nodeID : string) (key : Z) : M unit :=
  match fuel with
  | O => out_of_fuel
  | S fuel' =>
      n <- node nodeID ;;
      if IsLeaf n then
        update nodeID (with_Keys (insert_in_leaf key (Keys n)))
      else
        let i := len (Keys n) - scan_down key (rev (Keys n)) in
        childID <- must (idx (Children n) i) ;;
        child <- node childID ;;
        bt <- get ;;
        i' <- (if len (Keys child) =? Order bt - 1 then
                 splitChild nodeID i ;;;
                 n1 <- node nodeID ;;
                 k <- must (idx (Keys n1) i) ;;
                 ret (if key >? k then i + 1 else i)
               else ret i) ;;
        n2 <- node nodeID ;;
        next <- must (idx (Children n2) i') ;;
        insertNonFull fuel' next key
  end.

Definition Insert (fuel : nat) (key : Z) : M unit :=
  bt <- get ;;
  if bool_decide (RootID bt = "") then
    rootID <- createNode true ;;
    update rootID (with_Keys [key]) ;;;
    set_RootID rootID
  else
    root <- node (RootID bt) ;;
    if len (Keys root) =? Order bt - 1 then
      newRootID <- createNode false ;;
      update newRootID (with_Children [RootID bt]) ;;;
      update (RootID bt) (with_Parent newRootID) ;;;
      set_RootID newRootID ;;;
      splitChild newRootID 0 ;;;
      insertNonFull fuel newRootID key
    else insertNonFull fuel (RootID bt) key.

Fixpoint getPredecessor (fuel : nat) (nodeID : string) : M Z :=
  match fuel with
  | O => out_of_fuel
  | S fuel' =>
      n <- node nodeID ;;
      if IsLeaf n then must (idx (Keys n) (len (Keys n) - 1))
      else
        c <- must (idx (Children n) (len (Children n) - 1)) ;;
        getPredecessor fuel' c
  end.

Fixpoint getSuccessor (fuel : nat) (nodeID : string) : M Z :=
  match fuel with
  | O => out_of_fuel
  | S fuel' =>
      n <- node nodeID ;;
      if IsLeaf n then must (idx (Keys n) 0)
      else
        c <- must (idx (Children n) 0) ;;
        getSuccessor fuel' c
  end.

Definition borrowFromLeft (parentID : string) (childIndex : Z) : M unit :=
  parent <- node parentID ;;
  childID <- must (idx (Children parent) childIndex) ;;
  child <- node childID ;;
  leftID <- must (idx (Children parent) (childIndex - 1)) ;;
  leftSibling <- node leftID ;;
  pk <- must (idx (Keys parent) (childIndex - 1)) ;;
  ck <- must (insertAt (Keys child) 0 pk) ;;
  update childID (with_Keys ck) ;;;
  ls1 <- node leftID ;;
  lk <- must (idx (Keys ls1) (len (Keys ls1) - 1)) ;;
  p1 <- node parentID ;;
  pks <- must (set_idx (Keys p1) (childIndex - 1) lk) ;;
  update parentID (with_Keys pks) ;;;
  ls2 <- node leftID ;;
  lks <- must (slice_to (Keys ls2) (len (Keys ls2) - 1)) ;;
  update leftID (with_Keys lks) ;;;
  ls3 <- node leftID ;;
  if IsLeaf ls3 then ret tt
  else
    movedChildID <- must (idx (Children ls3) (len (Children ls3) - 1)) ;;
    lcs <- must (slice_to (Children ls3) (len (Children ls3) - 1)) ;;
    update leftID (with_Children lcs) ;;;
    c1 <- node childID ;;
    ccs <- must (insertAt (Children c1) 0 movedChildID) ;;
    update childID (with_Children ccs) ;;;
    c2 <- node childID ;;
    update movedChildID (with_Parent (ID c2)).

Definition borrowFromRight (parentID : string) (childIndex : Z) : M unit :=
  parent <- node parentID ;;
  childID <- must (idx (Children parent) childIndex) ;;
  child <- node childID ;;
  rightID <- must (idx (Children parent) (childIndex + 1)) ;;
  rightSibling <- node rightID ;;
  pk <- must (idx (Keys parent) childIndex) ;;
  update childID (with_Keys (Keys child ++ [pk])) ;;;
  rs1 <- node rightID ;;
  rk <- must (idx (Keys rs1) 0) ;;
  p1 <- node parentID ;;
  pks <- must (set_idx (Keys p1) childIndex rk) ;;
  update parentID (with_Keys pks) ;;;
  rs2 <- node rightID ;;
  rks <- must (slice_from (Keys rs2) 1) ;;
  update rightID (with_Keys rks) ;;;
  rs3 <- node rightID ;;
  if IsLeaf rs3 then ret tt
  else
    movedChildID <- must (idx (Children rs3) 0) ;;
    rcs <- must (slice_from (Children rs3) 1) ;;
    update rightID (with_Children rcs) ;;;
    c1 <- node childID ;;
    update childID (with_Children (Children c1 ++ [movedChildID])) ;;;
    c2 <- node childID ;;
    update movedChildID (with_Parent (ID c2)).

Definition mergeChildren (parentID : string) (leftIndex : Z) : M unit :=
  parent <- node parentID ;;
  leftID <- must (idx (Children parent) leftIndex) ;;
  leftChild <- node leftID ;;
  rightID <- must (idx (Children parent) (leftIndex + 1)) ;;
  rightChild <- node rightID ;;
  pk <- must (idx (Keys parent) leftIndex) ;;
  update leftID (with_Keys (Keys leftChild ++ [pk])) ;;;
  l1 <- node leftID ;;
  r1 <- node rightID ;;
  update leftID (with_Keys (Keys l1 ++ Keys r1)) ;;;
  l2 <- node leftID ;;
  (if IsLeaf l2 then ret tt
   else
     r2 <- node rightID ;;
     reparent (Children r2) (ID l2) ;;;
     l3 <- node leftID ;;
     r3 <- node rightID ;;
     update leftID (with_Children (Children l3 ++ Children r3))) ;;;
  p1 <- node parentID ;;
  pks <- must (removeAt (Keys p1) leftIndex) ;;
  update parentID (with_Keys pks) ;;;
  p2 <- node parentID ;;
  pcs <- must (removeAt (Children p2) (leftIndex + 1)) ;;
  update parentID (with_Children pcs) ;;;
  r4 <- node rightID ;;
  delete_node (ID r4).

Definition fillChild (parentID : string) (childIndex : Z) : M unit :=
  bt <- get ;;
  let minKeys := (Order bt - 1) / 2 in
  parent <- node parentID ;;
  fromLeft <-
    (if childIndex >? 0 then
       leftID <- must (idx (Children parent) (childIndex - 1)) ;;
       leftSibling <- node leftID ;;
       ret (len (Keys leftSibling) >? minKeys)
     else ret false) ;;
  if fromLeft : bool then borrowFromLeft parentID childIndex
  else
    fromRight <-
      (if childIndex <? len (Children parent) - 1 then
         rightID <- must (idx (Children parent) (childIndex + 1)) ;;
         rightSibling <- node rightID ;;
         ret (len (Keys rightSibling) >? minKeys)
       else ret false) ;;
    if fromRight : bool then borrowFromRight parentID childIndex
    else if childIndex >? 0 then mergeChildren parentID (childIndex - 1)
    else mergeChildren parentID childIndex.

Fixpoint deleteFromNode (fuel : nat) (nodeID : string) (key : Z) : M bool :=
  match fuel with
  | O => out_of_fuel
  | S fuel' =>
      n <- node nodeID ;;
      bt <- get ;;
      let minKeys := (Order bt - 1) / 2 in
      let i := scan_up key (Keys n) in
      let found := (i <? len (Keys n)) && bool_decide (idx (Keys n) i = Some key) in
      if IsLeaf n then
        if found then
          ks <- must (removeAt (Keys n) i) ;;
          update nodeID (with_Keys ks) ;;;
          ret true
        else ret false
      else if found then
        leftID <- must (idx (Children n) i) ;;
        rightID <- must (idx (Children n) (i + 1)) ;;
        leftChild <- node leftID ;;
        if len (Keys leftChild) >? minKeys then
          pred <- getPredecessor fuel' leftID ;;
          n1 <- node nodeID ;;
          ks <- must (set_idx (Keys n1) i pred) ;;
          update nodeID (with_Keys ks) ;;;
          n2 <- node nodeID ;;
          c <- must (idx (Children n2) i) ;;
          deleteFromNode fuel' c pred
        else
          rightChild <- node rightID ;;
          if len (Keys rightChild) >? minKeys then
            succ <- getSuccessor fuel' rightID ;;
            n1 <- node nodeID ;;
            ks <- must (set_idx (Keys n1) i succ) ;;
            update nodeID (with_Keys ks) ;;;
            n2 <- node nodeID ;;
            c <- must (idx (Children n2) (i + 1)) ;;
            deleteFromNode fuel' c succ
          else
            mergeChildren nodeID i ;;;
            n1 <- node nodeID ;;
            c <- must (idx (Children n1) i) ;;
            deleteFromNode fuel' c key
      else
        childID <- must (idx (Children n) i) ;;
        child <- node childID ;;
        (if len (Keys child) =? minKeys then fillChild nodeID i
         else ret tt) ;;;
        n1 <- node nodeID ;;
        if i >? len (Keys n1) then
          c <- must (idx (Children n1) (i - 1)) ;;
          deleteFromNode fuel' c key
        else
          c <- must (idx (Children n1) i) ;;
          deleteFromNode fuel' c key
  end.

Definition Delete (fuel : nat) (key : Z) : M bool :=
  bt <- get ;;
  if bool_decide (RootID bt = "") then ret false
  else
    deleted <- deleteFromNode fuel (RootID bt) key ;;
    bt1 <- get ;;
    root <- node (RootID bt1) ;;
    (if (len (Keys root) =? 0) && negb (IsLeaf root) then
       let oldRootID := RootID bt1 in
       newRoot <- must (idx (Children root) 0) ;;
       set_RootID newRoot ;;;
       update newRoot (with_Parent "") ;;;
       delete_node oldRootID
     else ret tt) ;;;
    ret deleted.

Fixpoint searchNode (fuel : nat) (nodeID : string) (key : Z) (bt : BTree)
  : option (string * Z * bool) :=
  match fuel with
  | O => None
  | S fuel' =>
      match Nodes bt !! nodeID with
      | None => Some ("", -1, false)
      | Some n =>
          let i := scan_up key (Keys n) in
          if (i <? len (Keys n)) && bool_decide (idx (Keys n) i = Some key)
          then Some (nodeID, i, true)
          else if IsLeaf n then Some (nodeID, i, false)
          else c ← idx (Children n) i; searchNode fuel' c key bt
      end
  end.

Definition Search (fuel : nat) (key : Z) (bt : BTree)
  : option (string * Z * bool) :=
  if bool_decide (RootID bt = "") then Some ("", -1, false)
  else searchNode fuel (RootID bt) key bt.

(** A run of inserts, then of deletes, from a tree. *)
Fixpoint InsertAll (fuel : nat) (keys : list Z) : M unit :=
  match keys with
  | [] => ret tt
  | k :: r => Insert fuel k ;;; InsertAll fuel r
  end.

Fixpoint DeleteAll (fuel : nat) (keys : list Z) : M unit :=
  match keys with
  | [] => ret tt
  | k :: r => Delete fuel k ;;; DeleteAll fuel r
  end.

End BTree.

(* ===================================================================== *)
(** * projects/btree/internal: range search *)
(* ===================================================================== *)

Module BTreeRange.
Import BTree.

(** [i := 0; for i < len(keys) && keys[i] < start { i++ }]. *)
Fixpoint scan_below (start : Z) (keys : list Z) : Z :=
  match keys with
  | k :: r => if k <? start then 1 + scan_below start r else 0
  | [] => 0
  end.

Section RangeLoop.

(** The recursive call, the node and the upper end of the range. *)
Variable visit : string -> list Z -> M (list Z).
Variable n : BTreeNode.
Variable end_ : Z.

(** [for i < len(node.Keys) && node.Keys[i] <= end { ... ; i++ }] of
    [rangeSearchNode], from index [i] with [rest] the keys at [i] and
    after; the index the loop stops at and the result are returned. *)
Fixpoint range_loop (rest : list Z) (i : Z) (result : list Z)
  : M (Z * list Z) :=
  match rest with
  | k :: rest' =>
      if k <=? end_ then
        result1 <- (if IsLeaf n then ret result
                    else c <- must (idx (Children n) i) ;; visit c result) ;;
        range_loop rest' (i + 1) (result1 ++ [k])
      else ret (i, result)
  | [] => ret (i, result)
  end.

End RangeLoop.

Fixpoint rangeSearchNode (fuel : nat) (nodeID : string) (start end_ : Z)
    (result : list Z) : M (list Z) :=
  match fuel with
  | O => out_of_fuel
  | S fuel' =>
      n <- node nodeID ;;
      let i := scan_below start (Keys n) in
      ir <- range_loop (fun c res => rangeSearchNode fuel' c start end_ res)
                       n end_ (drop (Z.to_nat i) (Keys n)) i result ;;
      if negb (IsLeaf n) && (ir.1 <? len (Children n)) then
        c <- must (idx (Children n) ir.1) ;;
        rangeSearchNode fuel' c start end_ ir.2
      else ret ir.2
  end.

Definition RangeSearch (fuel : nat) (start end_ : Z) : M (list Z) :=
  bt <- get ;;
  if bool_decide (RootID bt = "") then ret []
  else rangeSearchNode fuel (RootID bt) start end_ [].

End BTreeRange.

(* ===================================================================== *)
(** * The query parser as a [Simulation] of the engine *)
(* ===================================================================== *)

#[global] Instance ParserSimulation_Simulation :
  Engine.Simulation ParserSimulation.ParserSimulation
                    ParserSimulation.VisualizationData
                    (gmap string JValue) :=
  {| Engine.Name := ParserSimulation.Name;
     Engine.Initialize := ParserSimulation.Initialize;
     Engine.Reset := fun sim => (None, ParserSimulation.Reset sim);
     Engine.GenerateSteps := ParserSimulation.GenerateSteps;
     Engine.ExecuteStep := ParserSimulation.ExecuteStep;
     Engine.GetVisualizationData := ParserSimulation.GetVisualizationData |}.

(* ===================================================================== *)
(** * Playback engine: reachable states and their invariant *)
(* ===================================================================== *)

Module EngineFacts.
Import Protocol Engine.

Section WithSimulation.
Context {S D C : Type} `{Sim : Simulation S D C}.

Abbreviation Engine := (Engine.Engine S D).

(** The engine states a session can be in: a fresh engine, and whatever
    the exported methods and the autoplay goroutine make of it. *)
Inductive reachable : Engine -> Prop :=
| reach_new sim : reachable (NewEngine sim)
| reach_Initialize e config e' effs err :
    reachable e ->
    Engine_Initialize config e = Some (e', effs, err) ->
    reachable e'
| reach_Reset e e' effs err :
    reachable e -> Engine_Reset e = Some (e', effs, err) -> reachable e'
| reach_StepForward e : reachable e -> reachable (StepForward e).1.1
| reach_StepBackward e : reachable e -> reachable (StepBackward e).1.1
| reach_Play e : reachable e -> reachable (Play e).1.1
| reach_Pause e e' effs :
    reachable e -> Pause e = Some (e', effs) -> reachable e'
| reach_Stop e e' : reachable e -> Stop e = Some e' -> reachable e'
| reach_SetSpeed e f : reachable e -> reachable (SetSpeed f e).1
| reach_playLoop_enter e : reachable e -> reachable (playLoop_enter e).1
| reach_playLoop_tick e : reachable e -> reachable (playLoop_tick e).1.1
| reach_playLoop_stop e : reachable e -> reachable (playLoop_stop e).1.

(** The cursor stays between -1 and the last step, and the history holds
    an entry for every position up to the cursor. *)
Definition cursor_inv (e : Engine) : Prop :=
  -1 <= currentStep e <= len (steps e) - 1
  /\ currentStep e < len (history e).

(** A trace is attached. *)
Definition attached (e : Engine) : Prop := steps e <> [].

Lemma len_nil {A} : len (@nil A) = 0.
Proof. reflexivity. Qed.

Lemma len_app {A} (l1 l2 : list A) : len (l1 ++ l2) = len l1 + len l2.
Proof. unfold len. rewrite length_app. lia. Qed.

Lemma len_nonneg {A} (l : list A) : 0 <= len l.
Proof. unfold len. lia. Qed.

Lemma len_zero_nil {A} (l : list A) : len l = 0 <-> l = [].
Proof.
  unfold len. split.
  - destruct l; [done | simpl; lia].
  - intros ->. done.
Qed.

Lemma at_index_Some {A} (l : list A) (i : Z) :
  0 <= i < len l -> is_Some (at_index l i).
Proof.
  intros [H0 H1]. unfold at_index.
  destruct (Z.ltb_spec i 0); [lia |].
  apply lookup_lt_is_Some. unfold len in H1. lia.
Qed.

Lemma at_index_app_l {A} (l1 l2 : list A) (i : Z) :
  0 <= i < len l1 -> at_index (l1 ++ l2) i = at_index l1 i.
Proof.
  intros [H0 H1]. unfold at_index.
  destruct (Z.ltb_spec i 0); [lia |].
  apply lookup_app_l. unfold len in H1. lia.
Qed.

Lemma StepForward_inv e : cursor_inv e -> cursor_inv (StepForward e).1.1.
Proof.
  intros [Hc Hh]. unfold StepForward.
  destruct (Z.eqb_spec (len (steps e)) 0); [done |].
  destruct (Z.geb_spec (currentStep e + 1) (len (steps e))); [done |].
  destruct (ExecuteStep _ _) as [result sim'] eqn:?; simpl.
  split; simpl; [lia |]. rewrite len_app. unfold len at 2. simpl. lia.
Qed.

Lemma StepBackward_inv e : cursor_inv e -> cursor_inv (StepBackward e).1.1.
Proof.
  intros [Hc Hh]. unfold StepBackward.
  destruct (Z.ltb_spec (currentStep e) 0); [done |].
  simpl.
  destruct (Z.geb_spec (currentStep e - 1) 0) as [Hge | Hlt]; simpl.
  - destruct (Z.gtb_spec (len (history e)) (currentStep e - 1)); [| lia].
    destruct (at_index_Some (history e) (currentStep e - 1)) as [r ->];
      [lia |].
    split; simpl; lia.
  - split; simpl; [lia |]. rewrite len_nil. lia.
Qed.

Lemma Stop_inv e e' : Stop e = Some e' -> cursor_inv e -> cursor_inv e'.
Proof.
  unfold Stop. intros H Hi. case_decide.
  - destruct (close _); simplify_eq/=. exact Hi.
  - simplify_eq/=. exact Hi.
Qed.

Lemma Pause_inv e e' effs :
  Pause e = Some (e', effs) -> cursor_inv e -> cursor_inv e'.
Proof.
  unfold Pause. intros H Hi. case_decide.
  - destruct (close _); simplify_eq/=. exact Hi.
  - simplify_eq/=. exact Hi.
Qed.

Lemma fresh_trace_inv (e : Engine) :
  currentStep e = -1 -> history e = [] -> cursor_inv e.
Proof.
  intros Hc Hh. unfold cursor_inv. rewrite Hc, Hh, len_nil.
  pose proof (len_nonneg (steps e)). lia.
Qed.

Lemma playLoop_tick_inv e : cursor_inv e -> cursor_inv (playLoop_tick e).1.1.
Proof.
  intros Hi. unfold playLoop_tick.
  pose proof (StepForward_inv e Hi) as Hf.
  destruct (StepForward e) as [[e1 evs] [r err]]; simpl in Hf.
  case_decide; [| exact Hf].
  destruct (Pause e1) as [[e2 evs2] |] eqn:HP; [| exact Hf].
  simpl. apply (Pause_inv _ _ _ HP) in Hf. exact Hf.
Qed.

(** Every reachable engine satisfies the invariant. *)
Lemma reachable_cursor_inv e : reachable e -> cursor_inv e.
Proof.
  induction 1 as
    [sim | e config e' effs err _ IH Hop | e e' effs err _ IH Hop
     | e _ IH | e _ IH | e _ IH | e e' effs _ IH Hop | e e' _ IH Hop
     | e f _ IH | e _ IH | e _ IH | e _ IH].
  - by apply fresh_trace_inv.
  - unfold Engine_Initialize in Hop.
    destruct (Initialize _ _) as [[[err0 |] sim'] |]; simplify_eq/=.
    + exact IH.
    + by apply fresh_trace_inv.
  - unfold Engine_Reset in Hop.
    destruct (Stop e) as [e0 |] eqn:HS; simplify_eq/=.
    destruct (Reset _) as [[err0 |] sim']; simplify_eq/=.
    + exact (Stop_inv _ _ HS IH).
    + by apply fresh_trace_inv.
  - by apply StepForward_inv.
  - by apply StepBackward_inv.
  - unfold Play. case_decide; [done |].
    destruct (len (steps e) =? 0); done.
  - exact (Pause_inv _ _ _ Hop IH).
  - exact (Stop_inv _ _ Hop IH).
  - exact IH.
  - unfold playLoop_enter. destruct (_ ≫= _); exact IH.
  - by apply playLoop_tick_inv.
  - exact IH.
Qed.

(** While the mode is playing the stop channel is open, so that [Pause]
    and [Stop] never close a closed channel. *)
Lemma reachable_playing_open e :
  reachable e -> mode e = ModePlaying -> stopChan e = ChanOpen.
Proof.
  induction 1 as
    [sim | e config e' effs err _ IH Hop | e e' effs err _ IH Hop
     | e _ IH | e _ IH | e _ IH | e e' effs _ IH Hop | e e' _ IH Hop
     | e f _ IH | e _ IH | e _ IH | e _ IH].
  - done.
  - unfold Engine_Initialize in Hop.
    destruct (Initialize _ _) as [[[err0 |] sim'] |]; simplify_eq/=; done.
  - unfold Engine_Reset, Stop in Hop.
    destruct (decide (mode e = ModePlaying)); simpl in Hop.
    + destruct (close _); simpl in Hop; [| done].
      destruct (Reset _) as [[err0 |] sim']; simplify_eq/=; done.
    + destruct (Reset _) as [[err0 |] sim']; simplify_eq/=; done.
  - unfold StepForward.
    destruct (len (steps e) =? 0); [done |].
    destruct (currentStep e + 1 >=? len (steps e)); [done |].
    by destruct (ExecuteStep _ _).
  - unfold StepBackward. repeat case_match; done.
  - unfold Play. case_decide; [done |].
    destruct (len (steps e) =? 0); done.
  - unfold Pause in Hop. case_decide.
    + destruct (close _); simplify_eq/=; done.
    + simplify_eq/=. done.
  - unfold Stop in Hop. case_decide.
    + destruct (close _); simplify_eq/=; done.
    + simplify_eq/=. done.
  - done.
  - unfold playLoop_enter. destruct (_ ≫= _); done.
  - unfold playLoop_tick, StepForward, Pause.
    repeat (case_match || case_decide); simplify_eq/=; try done;
      unfold close in *; repeat case_match; simplify_eq/=; done.
  - done.
Qed.

End WithSimulation.
End EngineFacts.

(* ===================================================================== *)
(** * float64 comparison *)
(* ===================================================================== *)

Module F64Facts.

Lemma SFcompare_antisym (x y : spec_float) :
  SFcompare y x = CompOpp <$> SFcompare x y.
Proof.
  destruct x as [sx | sx | | sx mx ex], y as [sy | sy | | sy my ey];
    simpl; try reflexivity;
    try (destruct sx; reflexivity); try (destruct sy; reflexivity);
    try (destruct sx, sy; reflexivity).
  pose proof (Pos.compare_cont_antisym mx my Eq) as Hm. simpl in Hm.
  f_equal. destruct sx, sy; try reflexivity;
    rewrite (Z.compare_antisym ex ey);
    destruct (ex ?= ey); simpl; try reflexivity;
    rewrite <- Hm; by rewrite ?CompOpp_involutive.
Qed.

(** On numbers, [not (x < y)] is [y <= x]. *)
Lemma not_ltb_leb (x y : spec_float) :
  F64.is_nan x = false -> F64.is_nan y = false ->
  F64.ltb x y = false -> F64.leb y x = true.
Proof.
  unfold F64.ltb, F64.leb, SFltb, SFleb. intros Hx Hy.
  rewrite (SFcompare_antisym x y).
  destruct (SFcompare x y) as [[ | | ] |] eqn:E; simpl; try done.
  destruct x, y; simpl in *; discriminate.
Qed.

End F64Facts.
(* ===================================================================== *)
(** * Playback engine: control errors, round trip, autoplay, speed *)
(* ===================================================================== *)

Module EngineClaims.
Import Protocol Engine EngineFacts.

Section WithSimulation.
Context {S D C : Type} `{Sim : Simulation S D C}.

Abbreviation Engine := (Engine.Engine S D).

(** [n] forward steps in a row, with the results they return, oldest
    first. *)
Fixpoint forward (n : nat) (e : Engine)
  : option (Engine * list (StepResult D)) :=
  match n with
  | O => Some (e, [])
  | Datatypes.S n' =>
      match StepForward e with
      | (e1, _, (Some r, None)) =>
          '(e2, rs) ← forward n' e1; Some (e2, r :: rs)
      | _ => None
      end
  end.

Lemma StepForward_ok e e1 effs r :
  StepForward e = (e1, effs, (Some r, None)) ->
  currentStep e1 = currentStep e + 1
  /\ history e1 = history e ++ [r]
  /\ steps e1 = steps e.
Proof.
  unfold StepForward.
  destruct (len (steps e) =? 0); [discriminate |].
  destruct (currentStep e + 1 >=? len (steps e)); [discriminate |].
  destruct (ExecuteStep _ _) as [result sim']. intros [= <- _ <-]. done.
Qed.

Lemma forward_spec n : forall e e' rs,
  forward n e = Some (e', rs) ->
  currentStep e' = currentStep e + Z.of_nat n
  /\ history e' = history e ++ rs
  /\ steps e' = steps e
  /\ length rs = n.
Proof.
  induction n as [| n IH]; intros e e' rs; simpl.
  - intros [= <- <-]. rewrite app_nil_r. repeat split; lia.
  - destruct (StepForward e) as [[e1 effs] [[r |] [err |]]] eqn:HF;
      try discriminate.
    destruct (forward n e1) as [[e2 rs2] |] eqn:Hn; [| discriminate].
    simpl. intros [= <- <-].
    destruct (StepForward_ok _ _ _ _ HF) as (Hc & Hh & Hs).
    destruct (IH _ _ _ Hn) as (Hc2 & Hh2 & Hs2 & Hl).
    rewrite Hc2, Hh2, Hs2, Hc, Hh, Hs, <- app_assoc. simpl.
    repeat split; [lia | by rewrite Hl].
Qed.

Lemma forward_reachable n : forall e e' rs,
  forward n e = Some (e', rs) -> reachable e -> reachable e'.
Proof.
  induction n as [| n IH]; intros e e' rs; simpl.
  - by intros [= <- <-].
  - destruct (StepForward e) as [[e1 effs] [[r |] [err |]]] eqn:HF;
      try discriminate.
    destruct (forward n e1) as [[e2 rs2] |] eqn:Hn; [| discriminate].
    simpl. intros [= <- <-] Hr. apply (IH _ _ _ Hn).
    pose proof (reach_StepForward e Hr) as H. by rewrite HF in H.
Qed.

(** C7. For an engine with a non-empty trace attached, StepForward fails
    with ErrNoMoreSteps exactly when the cursor is on the last step and
    Play fails with ErrAlreadyRunning exactly when the mode is playing;
    these are the only failures, and a failing call returns the engine as
    it was and emits nothing, so that the engine still accepts a backward
    step and a pause. *)
Theorem control_errors_leave_engine_unchanged (e : Engine) :
  reachable e -> attached e ->
  ((StepForward e).2.2 = Some ErrNoMoreSteps
   <-> currentStep e = len (steps e) - 1)
  /\ ((StepForward e).2.2 <> None ->
      StepForward e = (e, [], (None, Some ErrNoMoreSteps))
      /\ (StepBackward e).2.2 = None)
  /\ ((Play e).2 = Some ErrAlreadyRunning <-> mode e = ModePlaying)
  /\ ((Play e).2 <> None ->
      Play e = (e, [], Some ErrAlreadyRunning) /\ is_Some (Pause e)).
Proof.
  intros Hr Ha. destruct (reachable_cursor_inv e Hr) as [Hc Hh].
  assert (Hlen : len (steps e) <> 0) by (by rewrite len_zero_nil).
  assert (HSF :
    (currentStep e = len (steps e) - 1
     /\ StepForward e = (e, [], (None, Some ErrNoMoreSteps)))
    \/ (currentStep e <> len (steps e) - 1
        /\ (StepForward e).2.2 = None)).
  { unfold StepForward.
    destruct (Z.eqb_spec (len (steps e)) 0); [done |].
    destruct (Z.geb_spec (currentStep e + 1) (len (steps e))).
    - left. split; [lia | done].
    - right. split; [lia |]. by destruct (ExecuteStep _ _). }
  assert (HP :
    (mode e = ModePlaying /\ Play e = (e, [], Some ErrAlreadyRunning))
    \/ (mode e <> ModePlaying /\ (Play e).2 = None)).
  { unfold Play. case_decide; [by left |]. right. split; [done |].
    by destruct (Z.eqb_spec (len (steps e)) 0). }
  split_and!.
  - destruct HSF as [[? ->] | [? HN]]; [done |]. rewrite HN. split; done.
  - intros Hfail. destruct HSF as [[Hlast HF] | [? HN]]; [| done].
    split; [done |]. unfold StepBackward.
    destruct (Z.ltb_spec (currentStep e) 0); [lia |].
    by case_match.
  - destruct HP as [[? ->] | [? HN]]; [done |]. rewrite HN. split; done.
  - intros Hfail. destruct HP as [[Hm HPl] | [? HN]]; [| done].
    split; [done |].
    pose proof (reachable_playing_open e Hr Hm) as Ho.
    unfold Pause. rewrite decide_True by done. rewrite Ho. simpl. eauto.
Qed.

(** The engine [StepBackward] leaves when it falls back to the start:
    cursor -1, the producer reset, the history emptied, mode idle. *)
Definition back_at_start (e1 : Engine) : Engine :=
  set_mode
    (set_history
       (set_simulation (set_currentStep e1 (-1))
                       (Reset (simulation e1)).2) [])
    ModeIdle.

(** C6 (amended). Take an engine that has only stepped forward since its
    trace was attached, [n] times, so that the cursor is [n - 1] and the
    history holds one captured result per executed step.  If StepForward
    succeeds on it, the StepBackward that follows:
    - for [n > 0] puts the cursor back on step [n - 1] and returns and
      emits the result captured when that step was executed, changing
      nothing else (the producer is not called);
    - for [n = 0] (cursor -1) resets the producer, empties the history,
      sets the mode to idle and returns no step. *)
Theorem roundtrip_serves_captured_result
    (e0 e e1 : Engine) (n : nat) (rs : list (StepResult D))
    (effs : list (Effect D)) (r : StepResult D) :
  currentStep e0 = -1 -> history e0 = [] ->
  forward n e0 = Some (e, rs) ->
  StepForward e = (e1, effs, (Some r, None)) ->
  match last rs with
  | Some captured =>
      let e2 := set_currentStep e1 (Z.of_nat n - 1) in
      currentStep e = Z.of_nat n - 1
      /\ StepBackward e1 =
         (e2, [EmitStep "step_backward" (buildStepUpdate e2 captured)],
          (Some captured, None))
  | None =>
      currentStep e = -1
      /\ StepBackward e1 =
         (back_at_start e1,
          [EmitState "step_backward" (GetState (back_at_start e1))],
          (None, None))
  end.
Proof.
  intros Hc0 Hh0 Hfw HF.
  destruct (forward_spec _ _ _ _ Hfw) as (Hc & Hh & Hs & Hl).
  destruct (StepForward_ok _ _ _ _ HF) as (Hc1 & Hh1 & Hs1).
  rewrite Hc0 in Hc. rewrite Hh0 in Hh. simpl in Hh.
  rewrite Hh in Hh1. rewrite Hc in Hc1.
  assert (Hlen : len rs = Z.of_nat n) by (unfold len; by rewrite Hl).
  destruct (last rs) as [captured |] eqn:Hlast.
  - assert (Hn : (0 < n)%nat).
    { destruct rs; [done |]. simpl in Hl. lia. }
    split; [lia |]. unfold StepBackward.
    destruct (Z.ltb_spec (currentStep e1) 0); [lia |].
    replace (currentStep e1 - 1) with (Z.of_nat n - 1) by lia.
    cbn [currentStep set_currentStep history].
    destruct (Z.geb_spec (Z.of_nat n - 1) 0); [| lia].
    rewrite Hh1, len_app.
    destruct (Z.gtb_spec (len rs + len [r]) (Z.of_nat n - 1));
      [| unfold len in *; simpl in *; lia].
    rewrite at_index_app_l by lia.
    assert (at_index rs (Z.of_nat n - 1) = Some captured) as ->; [| done].
    unfold at_index. destruct (Z.ltb_spec (Z.of_nat n - 1) 0); [lia |].
    rewrite last_lookup in Hlast. rewrite <- Hlast. f_equal. lia.
  - assert (n = O) as ->.
    { destruct n as [| k]; [done |]. rewrite last_lookup in Hlast.
      apply lookup_ge_None in Hlast. lia. }
    split; [lia |]. unfold StepBackward.
    destruct (Z.ltb_spec (currentStep e1) 0); [lia |].
    replace (currentStep e1 - 1) with (-1) by lia.
    cbn [currentStep set_currentStep history andb].
    destruct (Z.geb_spec (-1) 0); [lia |]. done.
Qed.

(** The speed a request for [f] is meant to store: [f] clamped to
    [0.25, 4.0]. *)
Definition clamp_spec (f : spec_float) : spec_float :=
  if F64.ltb f F64.f0_25 then F64.f0_25
  else if F64.gtb f F64.f4_0 then F64.f4_0
  else f.

(** C9 (amended). In every engine state SetSpeed stores the factor
    clamped to [0.25, 4.0] (so 10.0 becomes 4.0 and 0.01 becomes 0.25; any
    number ends within the bounds) and changes nothing else; in particular
    the ticker of a running autoplay keeps its interval, and the stored
    speed is read when an autoplay loop is entered. *)
Theorem SetSpeed_clamps_and_keeps_ticker (e : Engine) (f : spec_float) :
  let e' := (SetSpeed f e).1 in
  speed e' = clamp_spec f
  /\ (F64.is_nan f = false ->
      F64.leb F64.f0_25 (speed e') = true
      /\ F64.leb (speed e') F64.f4_0 = true)
  /\ clamp_spec F64.f10_0 = F64.f4_0
  /\ clamp_spec F64.f0_01 = F64.f0_25
  /\ e' = set_speed e (clamp_spec f)
  /\ ticker e' = ticker e
  /\ playLoop_interval e'
     = F64.to_int64 (F64.div F64.f1e9 (clamp_spec f)).
Proof.
  assert (Hs : speed (SetSpeed f e).1 = clamp_spec f).
  { unfold SetSpeed, clamp_spec. simpl.
    destruct (F64.ltb f F64.f0_25) eqn:E1; [reflexivity |]. done. }
  assert (He : (SetSpeed f e).1 = set_speed e (clamp_spec f)).
  { unfold SetSpeed, clamp_spec. simpl.
    destruct (F64.ltb f F64.f0_25) eqn:E1; [reflexivity |]. done. }
  cbv zeta. split_and!; try done.
  - intros Hnan. rewrite Hs. unfold clamp_spec.
    destruct (F64.ltb f F64.f0_25) eqn:E1; [done |].
    unfold F64.gtb.
    destruct (SFltb F64.f4_0 f) eqn:E2; [done |].
    split; apply F64Facts.not_ltb_leb; done.
  - unfold playLoop_interval. by rewrite Hs.
Qed.

End WithSimulation.
End EngineClaims.

(* ===================================================================== *)
(** * The engine run on a trace of the query parser *)
(* ===================================================================== *)

Module EngineScenarios.
Import Protocol Engine EngineFacts EngineClaims.

Abbreviation PEngine :=
  (Engine.Engine ParserSimulation.ParserSimulation
                 ParserSimulation.VisualizationData).

Definition fresh : PEngine :=
  NewEngine ParserSimulation.NewParserSimulation.

(** The engine after the session's [start_simulation] for query [q]. *)
Definition started (q : string) : option PEngine :=
  r ← Engine_Initialize ({[ "query" := JString q ]} : gmap string JValue)
                        fresh;
  Some r.1.1.

(** The six-step trace of the query [FROM], which fails to parse. *)
Definition e_from : PEngine := default fresh (started "FROM").

Lemma e_from_reachable : reachable e_from.
Proof.
  eapply (reach_Initialize fresh {[ "query" := JString "FROM" ]});
    [apply reach_new | vm_compute; reflexivity].
Defined.

Lemma e_from_titles :
  Title <$> steps e_from =
  ["Start Parsing"; "Tokenization"; "Token: FROM"; "Tokenization Complete";
   "Parsing"; "Parse Error"].
Proof. vm_compute. reflexivity. Qed.

(** The last step of that trace current. *)
Definition e_from_end : PEngine :=
  default e_from (fst <$> forward 6 e_from).

Lemma e_from_end_reachable : reachable e_from_end.
Proof.
  apply (forward_reachable 6 e_from e_from_end
           (default [] (snd <$> forward 6 e_from)));
    [vm_compute; reflexivity | apply e_from_reachable].
Defined.

(** Autoplay started on the fresh trace and its goroutine entered. *)
Definition e_from_playing : PEngine := (playLoop_enter (Play e_from).1.1).1.

Lemma e_from_playing_reachable : reachable e_from_playing.
Proof. apply reach_playLoop_enter, reach_Play, e_from_reachable. Defined.

Lemma control_errors_witness :
  ((StepForward e_from_end).2.2 = Some ErrNoMoreSteps
   <-> currentStep e_from_end = len (steps e_from_end) - 1)
  /\ ((StepForward e_from_end).2.2 <> None ->
      StepForward e_from_end = (e_from_end, [], (None, Some ErrNoMoreSteps))
      /\ (StepBackward e_from_end).2.2 = None)
  /\ ((Play e_from_end).2 = Some ErrAlreadyRunning
      <-> mode e_from_end = ModePlaying)
  /\ ((Play e_from_end).2 <> None ->
      Play e_from_end = (e_from_end, [], Some ErrAlreadyRunning)
      /\ is_Some (Pause e_from_end)).
Proof.
  apply (control_errors_leave_engine_unchanged e_from_end).
  - apply e_from_end_reachable.
  - vm_compute. discriminate.
Defined.

(** The engine after three forward steps, and the fourth. *)
Definition e_from_3 : PEngine := default e_from (fst <$> forward 3 e_from).
Definition e_from_4 : PEngine := (StepForward e_from_3).1.1.

Definition results_3 : list (StepResult ParserSimulation.VisualizationData) :=
  default [] (snd <$> forward 3 e_from).
Definition captured_2 : StepResult ParserSimulation.VisualizationData :=
  default (mkStepResult false None [] None "") (last results_3).

Lemma roundtrip_witness :
  res_Description captured_2 = "Found FROM token: 'FROM' at position 0-4"
  /\ currentStep e_from_3 = 2
  /\ StepBackward e_from_4 =
     (set_currentStep e_from_4 2,
      [EmitStep "step_backward"
                (buildStepUpdate (set_currentStep e_from_4 2) captured_2)],
      (Some captured_2, None)).
Proof.
  split; [vm_compute; reflexivity |].
  assert (Hfw : forward 3 e_from = Some (e_from_3, results_3))
    by (vm_compute; reflexivity).
  assert (HF : StepForward e_from_3 =
               (e_from_4, (StepForward e_from_3).1.2,
                (Some (default captured_2 (StepForward e_from_3).2.1), None)))
    by (vm_compute; reflexivity).
  pose proof (roundtrip_serves_captured_result
                e_from e_from_3 e_from_4 3 results_3 _ _
                eq_refl eq_refl Hfw HF) as H.
  assert (Hl : last results_3 = Some captured_2) by (vm_compute; reflexivity).
  rewrite Hl in H. exact H.
Defined.

(** What a client is shown for an engine state: the current step and the
    producer's data. *)
Definition rendering (e : PEngine) :=
  (ss_CurrentStep (GetState e), ss_Data (GetState e)).

(** C6 as the specification states it: after a StepForward that succeeds,
    StepBackward shows again what was shown before, without touching the
    producer. *)
Definition roundtrip_as_stated : Prop :=
  forall e : PEngine,
    reachable e -> attached e ->
    forall e1 effs r,
      StepForward e = (e1, effs, (Some r, None)) ->
      let e2 := (StepBackward e1).1.1 in
      rendering e2 = rendering e /\ simulation e2 = simulation e1.

(** At cursor -1 the round trip resets the producer: its tokens and steps
    are gone, and so is what was shown. *)
Lemma roundtrip_from_start_resets_producer : ~ roundtrip_as_stated.
Proof.
  intros H.
  assert (Ha : attached e_from) by (vm_compute; discriminate).
  assert (HF : StepForward e_from =
               ((StepForward e_from).1.1, (StepForward e_from).1.2,
                (Some (default captured_2 (StepForward e_from).2.1), None)))
    by (vm_compute; reflexivity).
  destruct (H e_from e_from_reachable Ha _ _ _ HF) as [_ Hsim].
  apply (f_equal ParserSimulation.steps) in Hsim.
  vm_compute in Hsim. discriminate.
Qed.

(** The history is appended to by every forward step and indexed by the
    cursor: after a backward step its entries no longer line up with the
    steps.  Forward, forward, backward, forward, forward leaves step 2
    current; a further forward and backward then serve, as step 2, the
    result captured for step 1. *)
Lemma stale_history_served :
  let e2 := default e_from (fst <$> forward 2 e_from) in
  let e1 := (StepBackward e2).1.1 in
  let e3 := default e_from (fst <$> forward 2 e1) in
  let back := StepBackward (StepForward e3).1.1 in
  currentStep e3 = 2
  /\ currentStep back.1.1 = 2
  /\ (Description <$> steps e3 !! 2%nat)
     = Some "Found FROM token: 'FROM' at position 0-4"
  /\ (res_Description <$> back.2.1)
     = Some "Breaking input into tokens (lexical analysis)"
  /\ (Description <$> steps e3 !! 1%nat)
     = Some "Breaking input into tokens (lexical analysis)".
Proof. vm_compute. done. Qed.

(** C8 at its failing input.  Play on the fresh six-step trace, the
    goroutine entered, seven firings of the ticker: six steps forward and
    the seventh finds no more steps, calls Pause and returns.  The cursor
    is on the last step, and the mode is the one StepForward left, step,
    not paused: Pause only acts on mode playing. *)
Theorem autoplay_end_leaves_mode_step :
  let '(e1, _, err) := Play e_from in
  let '(e2, status) := playLoop_enter e1 in
  let '(e3, _, status') := playLoop_ticks 7 e2 in
  err = None /\ mode e1 = ModePlaying /\ status = Running
  /\ status' = Returned
  /\ currentStep e3 = len (steps e3) - 1
  /\ mode e3 = ModeStep
  /\ mode e3 <> ModePaused.
Proof. vm_compute. done. Qed.

Lemma SetSpeed_witness :
  let e' := (SetSpeed F64.f10_0 e_from_playing).1 in
  speed e' = F64.f4_0
  /\ F64.leb F64.f0_25 (speed e') = true
  /\ F64.leb (speed e') F64.f4_0 = true
  /\ ticker e' = ticker e_from_playing
  /\ playLoop_interval e' = Some 250000000.
Proof.
  destruct (SetSpeed_clamps_and_keeps_ticker e_from_playing F64.f10_0)
    as (Hs & Hr & H10 & _ & _ & Ht & Hi).
  destruct (Hr eq_refl) as [Hlo Hhi].
  cbv zeta. rewrite Hs, H10 in *. split_and!; try done.
Defined.

(** C9 as the specification states it: the speed is stored clamped, and
    a running autoplay ticks at the new speed from its next tick on. *)
Definition speed_as_stated : Prop :=
  forall (e : PEngine) (f : spec_float) (t : Ticker),
    reachable e -> mode e = ModePlaying ->
    ticker e = Some t -> stopped t = false ->
    let e' := (SetSpeed f e).1 in
    speed e' = clamp_spec f
    /\ (interval <$> ticker e') = playLoop_interval e'.

(** Autoplay entered at speed 1.0 ticks every second; after SetSpeed(2.0)
    the stored speed is 2.0 and the ticker still has the one-second
    interval, where a loop entered now would tick every half second. *)
Lemma running_ticker_keeps_interval : ~ speed_as_stated.
Proof.
  intros H.
  assert (Hm : mode e_from_playing = ModePlaying)
    by (vm_compute; reflexivity).
  assert (Ht : ticker e_from_playing = Some (mkTicker 1000000000 false))
    by (vm_compute; reflexivity).
  destruct (H e_from_playing F64.f2_0 _ e_from_playing_reachable Hm Ht
              eq_refl) as [_ Hi].
  vm_compute in Hi. discriminate.
Qed.

End EngineScenarios.

(* ===================================================================== *)
(** * MVCC store: runs of operations, the chain invariant, visibility *)
(* ===================================================================== *)

Module MVCCFacts.
Import MVCC.

(** A call on the store. *)
Inductive Op : Type :=
| OpBegin
| OpRead (txID rowID : string)
| OpWrite (txID rowID : string) (data : gmap string JValue)
| OpDelete (txID rowID : string)
| OpCommit (txID : string)
| OpAbort (txID : string)
| OpGarbageCollect.

(** The store a call leaves when it returns, with or without an error. *)
Definition after {A} (r : Result A) : option MVCCStore :=
  match r with
  | Ok _ s' => Some s'
  | Err _ s' => Some s'
  | Panic => None
  end.

Definition apply (o : Op) (s : MVCCStore) : option MVCCStore :=
  match o with
  | OpBegin => Some (BeginTransaction s).2
  | OpRead txID rowID => after (Read txID rowID s)
  | OpWrite txID rowID data => after (Write txID rowID data s)
  | OpDelete txID rowID => after (Delete txID rowID s)
  | OpCommit txID => after (Commit txID s)
  | OpAbort txID => after (Abort txID s)
  | OpGarbageCollect => after (GarbageCollect s)
  end.

Fixpoint run (ops : list Op) (s : MVCCStore) : option MVCCStore :=
  match ops with
  | [] => Some s
  | o :: rest => s' ← apply o s; run rest s'
  end.

Definition reachable (s : MVCCStore) : Prop :=
  exists ops, run ops NewMVCCStore = Some s.

Lemma run_app ops1 ops2 s :
  run (ops1 ++ ops2) s = run ops1 s ≫= run ops2.
Proof.
  revert s. induction ops1 as [| o ops1 IH]; intros s; simpl; [done |].
  destruct (apply o s); simpl; [apply IH | done].
Qed.

Lemma reachable_run ops s s' :
  reachable s -> run ops s = Some s' -> reachable s'.
Proof.
  intros [ops0 H0] H. exists (ops0 ++ ops). by rewrite run_app, H0.
Qed.

(** ** The chain invariant *)

Definition row_ok (row : Row) : Prop :=
  head (VersionChain row) = Some (CurrentVersion row).

Definition chain_inv (s : MVCCStore) : Prop :=
  map_Forall (fun _ row => row_ok row) (Rows s).

Lemma clear_active_Rows txID s : Rows (clear_active txID s) = Rows s.
Proof. unfold clear_active. by case_bool_decide. Qed.

Lemma abort_rows_chain_inv txID ws : forall s s',
  abort_rows txID ws s = Some s' -> chain_inv s -> chain_inv s'.
Proof.
  induction ws as [| rowID ws IH]; intros s s'; simpl.
  - by intros [= <-].
  - destruct (Rows s !! rowID) as [row |]; simpl; [| done].
    destruct (abort_chain _ _ _) as [[newChain versions] |]; simpl; [| done].
    intros H Hi. apply (IH _ _ H). unfold chain_inv in *. simpl.
    destruct newChain as [| v rest].
    + by apply map_Forall_delete.
    + by apply map_Forall_insert_2.
Qed.

Lemma gc_chain_head s oldest : forall chain found versions kept gone vs',
  gc_chain s oldest found chain versions = Some (kept, gone, vs') ->
  found = false -> head kept = head chain.
Proof.
  intros chain found versions kept gone vs' H ->.
  destruct chain as [| verID rest]; simpl in H; [by simplify_eq |].
  destruct (versions !! verID) as [ver |]; simpl in H; [| done].
  destruct (Transactions s !! CreatedBy ver) as [ctx |]; simpl in H; [| done].
  destruct (if bool_decide _ then _ else _) as [ct |].
  - rewrite andb_false_r in H.
    destruct (gc_chain _ _ _ _ _) as [[[k g] v] |]; simplify_eq/=; done.
  - destruct (gc_chain _ _ _ _ _) as [[[k g] v] |]; simplify_eq/=; done.
Qed.

Lemma gc_rows_chain_inv s0 oldest rows : forall s removed removed' s',
  gc_rows s0 oldest rows s removed = Some (removed', s') ->
  Forall (fun p => row_ok p.2) rows ->
  chain_inv s -> chain_inv s'.
Proof.
  induction rows as [| [rowID row] rows IH]; intros s removed removed' s';
    simpl.
  - by intros [= _ <-].
  - destruct (gc_chain _ _ _ _ _) as [[[kept gone] versions] |] eqn:Hg;
      simpl; [| done].
    intros H Hrows Hi. inversion Hrows as [| ? ? Hrow Hrest]; subst.
    apply (IH _ _ _ _ H Hrest). unfold chain_inv in *. simpl.
    apply map_Forall_insert_2; [| done].
    unfold row_ok in *. simpl in *.
    by rewrite (gc_chain_head _ _ _ _ _ _ _ _ Hg eq_refl).
Qed.

Lemma apply_chain_inv o s s' :
  apply o s = Some s' -> chain_inv s -> chain_inv s'.
Proof.
  destruct o as [| txID rowID | txID rowID data | txID rowID | txID | txID |];
    simpl; intros H Hi.
  - by simplify_eq.
  - unfold Read in H. repeat case_match; simplify_eq/=; done.
  - unfold Write in H. repeat case_match; simplify_eq/=; try done.
    + unfold chain_inv. simpl. by apply map_Forall_insert_2.
    + unfold chain_inv. simpl. by apply map_Forall_insert_2.
  - unfold Delete in H. repeat case_match; simplify_eq/=; done.
  - unfold Commit in H. repeat case_match; simplify_eq/=; try done.
    unfold chain_inv. by rewrite clear_active_Rows.
  - unfold Abort in H. repeat case_match; simplify_eq/=; try done.
    unfold chain_inv. rewrite clear_active_Rows.
    eapply abort_rows_chain_inv; [eassumption |]. done.
  - unfold GarbageCollect in H.
    destruct (gc_rows _ _ _ _ _) as [[removed s1] |] eqn:Hg;
      simplify_eq/=.
    eapply gc_rows_chain_inv; [eassumption | | done].
    apply Forall_forall. intros [rowID row] Hin.
    apply elem_of_map_to_list in Hin. by apply (Hi rowID row).
Qed.

Lemma run_chain_inv ops : forall s s',
  run ops s = Some s' -> chain_inv s -> chain_inv s'.
Proof.
  induction ops as [| o ops IH]; intros s s'; simpl.
  - by intros [= <-].
  - destruct (apply o s) as [s1 |] eqn:Ho; simpl; [| done].
    intros H Hi. apply (IH _ _ H). by apply (apply_chain_inv o s).
Qed.

Lemma reachable_chain_inv s : reachable s -> chain_inv s.
Proof.
  intros [ops H]. apply (run_chain_inv _ _ _ H).
  unfold chain_inv. simpl. apply map_Forall_empty.
Qed.

(** ** Abort drops a row whose chain it empties *)

Lemma abort_chain_sub txID chain : forall versions kept versions',
  abort_chain txID chain versions = Some (kept, versions') ->
  versions' ⊆ versions.
Proof.
  induction chain as [| verID rest IH]; intros versions kept versions';
    simpl.
  - by intros [= _ <-].
  - destruct (versions !! verID) as [ver |]; simpl; [| done].
    case_bool_decide.
    + destruct (abort_chain txID rest versions) as [[k v] |] eqn:E;
        simpl; [| done].
      intros [= _ <-]. by apply (IH _ _ _ E).
    + intros Hrest. etrans; [by apply (IH _ _ _ Hrest) |].
      apply delete_subseteq.
Qed.

(** Every version of the chain found in [versions] was created by
    [txID]. *)
Definition all_created_by (txID : string) (chain : list string)
    (versions : gmap string Version) : Prop :=
  forall verID ver,
    verID ∈ chain -> versions !! verID = Some ver -> CreatedBy ver = txID.

Lemma all_created_by_sub txID chain versions versions' :
  versions' ⊆ versions ->
  all_created_by txID chain versions -> all_created_by txID chain versions'.
Proof.
  intros Hsub H verID ver Hin Hl. apply (H verID ver Hin).
  by apply (lookup_weaken _ _ _ _ Hl).
Qed.

Lemma abort_chain_all_mine txID chain : forall versions kept versions',
  abort_chain txID chain versions = Some (kept, versions') ->
  all_created_by txID chain versions -> kept = [].
Proof.
  induction chain as [| verID rest IH]; intros versions kept versions';
    simpl.
  - by intros [= <- _].
  - destruct (versions !! verID) as [ver |] eqn:Hv; simpl; [| done].
    intros H Hall.
    rewrite bool_decide_false in H.
    + apply (IH _ _ _ H).
      apply (all_created_by_sub _ _ versions); [apply delete_subseteq |].
      intros v' ver' Hin. apply Hall. by right.
    + intros Hne. apply Hne. apply (Hall verID ver); [by left | done].
Qed.

Lemma abort_rows_absent txID rowID ws : forall s s',
  abort_rows txID ws s = Some s' ->
  Rows s !! rowID = None -> Rows s' !! rowID = None.
Proof.
  induction ws as [| r ws IH]; intros s s'; simpl.
  - by intros [= <-].
  - destruct (Rows s !! r) as [row |] eqn:Hr; simpl; [| done].
    destruct (abort_chain _ _ _) as [[newChain versions] |]; simpl; [| done].
    intros H Hn. apply (IH _ _ H). simpl.
    assert (r <> rowID) by congruence.
    destruct newChain; [by rewrite lookup_delete_ne |
                        by rewrite lookup_insert_ne].
Qed.

Lemma abort_rows_removes txID rowID row ws : forall s s',
  abort_rows txID ws s = Some s' ->
  rowID ∈ ws ->
  Rows s !! rowID = Some row ->
  all_created_by txID (VersionChain row) (Versions s) ->
  Rows s' !! rowID = None.
Proof.
  induction ws as [| r ws IH]; intros s s'; simpl.
  - intros _ Hin. by apply elem_of_nil in Hin.
  - destruct (Rows s !! r) as [row0 |] eqn:Hr; simpl; [| done].
    destruct (abort_chain _ _ _) as [[newChain versions] |] eqn:Hc;
      simpl; [| done].
    intros H Hin Hrow Hall.
    destruct (decide (r = rowID)) as [-> | Hne].
    + assert (row0 = row) as -> by congruence.
      rewrite (abort_chain_all_mine _ _ _ _ _ Hc Hall) in H.
      apply (abort_rows_absent _ _ _ _ _ H). simpl.
      apply lookup_delete_eq.
    + apply elem_of_cons in Hin as [-> | Hin]; [done |].
      apply (IH _ _ H Hin); simpl.
      * destruct newChain; [by rewrite lookup_delete_ne |
                            by rewrite lookup_insert_ne].
      * apply (all_created_by_sub _ _ (Versions s)); [| done].
        by apply (abort_chain_sub _ _ _ _ _ Hc).
Qed.

(** C10. In every store reached from the empty store by BeginTransaction,
    Read, Write, Delete, Commit, Abort and GarbageCollect calls, every row
    present has a non-empty version chain whose first element is its
    CurrentVersion; each call that returns keeps this true; and an Abort
    that returns leaves no row of its write set whose versions were all
    created by the aborted transaction. *)
Theorem version_chain_invariant (s : MVCCStore) :
  reachable s ->
  (forall rowID row,
     Rows s !! rowID = Some row ->
     VersionChain row <> []
     /\ head (VersionChain row) = Some (CurrentVersion row))
  /\ (forall o s', apply o s = Some s' ->
      forall rowID row,
        Rows s' !! rowID = Some row ->
        VersionChain row <> []
        /\ head (VersionChain row) = Some (CurrentVersion row))
  /\ (forall txID tx s' rowID row,
        Transactions s !! txID = Some tx ->
        Abort txID s = Ok tt s' ->
        rowID ∈ WriteSet tx ->
        Rows s !! rowID = Some row ->
        all_created_by txID (VersionChain row) (Versions s) ->
        Rows s' !! rowID = None).
Proof.
  intros Hr.
  assert (Hrow : forall s0, chain_inv s0 -> forall rowID row,
             Rows s0 !! rowID = Some row ->
             VersionChain row <> []
             /\ head (VersionChain row) = Some (CurrentVersion row)).
  { intros s0 Hi rowID row Hl. specialize (Hi rowID row Hl).
    unfold row_ok in Hi. split; [| done]. by destruct (VersionChain row). }
  pose proof (reachable_chain_inv s Hr) as Hi.
  split_and!.
  - by apply Hrow.
  - intros o s' Ho. apply Hrow. by apply (apply_chain_inv o s).
  - intros txID tx s' rowID row Htx Hab Hin Hrow' Hall.
    unfold Abort in Hab. rewrite Htx in Hab.
    case_bool_decide; [done |].
    destruct (abort_rows _ _ _) as [s2 |] eqn:Hs2; [| done].
    simplify_eq. rewrite clear_active_Rows.
    by apply (abort_rows_removes _ _ _ _ _ _ Hs2 Hin Hrow' Hall).
Qed.

(** ** Transactions and timestamps along a run *)

Definition tx_key (n : Z) : string := "tx-" +:+ pretty n.

Lemma tx_key_inj n m : tx_key n = tx_key m -> n = m.
Proof. unfold tx_key. intros H. simplify_eq/=. by apply (inj pretty). Qed.

(** What every reachable store satisfies: transactions are filed under
    their own id, ids are the ones handed out so far, no timestamp is
    ahead of the clock, a committed transaction has its commit time, and
    the creator and the deleter of a version are known transactions. *)
Record store_inv (s : MVCCStore) : Prop := mk_store_inv {
  inv_seq : 0 <= txSeq s;
  inv_keys : forall k tx,
    Transactions s !! k = Some tx ->
    tx_ID tx = k /\ exists n, 1 <= n <= txSeq s /\ k = tx_key n;
  inv_times : forall k tx,
    Transactions s !! k = Some tx ->
    StartTime tx <= GlobalTimestamp s
    /\ (Status tx = TxCommitted ->
        exists c, CommitTime tx = Some c /\ c <= GlobalTimestamp s);
  inv_creator : forall v ver,
    Versions s !! v = Some ver -> is_Some (Transactions s !! CreatedBy ver);
  inv_deleter : forall v ver d,
    Versions s !! v = Some ver -> DeletedBy ver = Some d ->
    is_Some (Transactions s !! d)
}.

(** [s'] comes after [s]: the clock has not gone back, every transaction
    is still there with its id and start time, and a committed one is
    unchanged. *)
Definition extends (s s' : MVCCStore) : Prop :=
  GlobalTimestamp s <= GlobalTimestamp s'
  /\ forall k tx,
       Transactions s !! k = Some tx ->
       exists tx',
         Transactions s' !! k = Some tx'
         /\ StartTime tx' = StartTime tx
         /\ tx_ID tx' = tx_ID tx
         /\ (Status tx = TxCommitted -> tx' = tx).

Lemma extends_refl s : extends s s.
Proof. split; [lia |]. intros k tx H. exists tx. done. Qed.

Lemma extends_trans s1 s2 s3 :
  extends s1 s2 -> extends s2 s3 -> extends s1 s3.
Proof.
  intros [Hg1 H1] [Hg2 H2]. split; [lia |]. intros k tx Hk.
  destruct (H1 k tx Hk) as (tx' & Hk' & Hs & Hi & Hc).
  destruct (H2 k tx' Hk') as (tx'' & Hk'' & Hs' & Hi' & Hc').
  exists tx''. split_and!; try congruence.
  intros Hst. rewrite <- (Hc Hst). apply Hc'. by rewrite (Hc Hst).
Qed.

(** The effect on the invariant and on [extends] of rewriting the record
    of an active transaction and moving the clock forward. *)
Lemma update_active s s' txID tx tx' :
  store_inv s ->
  Transactions s !! txID = Some tx ->
  Status tx = TxActive ->
  tx_ID tx' = tx_ID tx -> StartTime tx' = StartTime tx ->
  Transactions s' = <[txID := tx']> (Transactions s) ->
  GlobalTimestamp s <= GlobalTimestamp s' ->
  txSeq s' = txSeq s ->
  (Status tx' = TxCommitted ->
   exists c, CommitTime tx' = Some c /\ c <= GlobalTimestamp s') ->
  (forall v ver, Versions s' !! v = Some ver ->
     (CreatedBy ver = txID \/ exists v0 ver0,
        Versions s !! v0 = Some ver0 /\ CreatedBy ver0 = CreatedBy ver)
     /\ (forall d, DeletedBy ver = Some d ->
          d = txID \/ exists v0 ver0, Versions s !! v0 = Some ver0
                                     /\ DeletedBy ver0 = Some d)) ->
  store_inv s' /\ extends s s'.
Proof.
  intros Hi Htx Hact Hid Hst HT Hg Hseq Hcommit Hvers.
  destruct Hi as [Hs Hk Ht Hc Hd]. split; [split |].
  - lia.
  - intros k t. rewrite HT, Hseq. intros Hl.
    apply lookup_insert_Some in Hl as [[<- <-] | [Hne Hl]].
    + rewrite Hid. by apply (Hk txID tx).
    + by apply Hk.
  - intros k t. rewrite HT. intros Hl.
    apply lookup_insert_Some in Hl as [[<- <-] | [Hne Hl]].
    + split; [| done]. rewrite Hst. destruct (Ht txID tx Htx). lia.
    + destruct (Ht k t Hl) as [H1 H2]. split; [lia |].
      intros Hcm. destruct (H2 Hcm) as (c & ? & ?). exists c. split; [done | lia].
  - intros v ver Hl. rewrite HT.
    destruct (Hvers v ver Hl) as [[-> | (v0 & ver0 & Hl0 & <-)] _].
    + rewrite lookup_insert_eq. eauto.
    + destruct (Hc v0 ver0 Hl0) as [t Hlt].
      destruct (decide (txID = CreatedBy ver0)) as [<- | Hne];
        [rewrite lookup_insert_eq | rewrite lookup_insert_ne by done]; eauto.
  - intros v ver d Hl Hdel. rewrite HT.
    destruct (Hvers v ver Hl) as [_ Hdd].
    destruct (Hdd d Hdel) as [-> | (v0 & ver0 & Hl0 & Hd0)].
    + rewrite lookup_insert_eq. eauto.
    + destruct (Hd v0 ver0 d Hl0 Hd0) as [t Hlt].
      destruct (decide (txID = d)) as [<- | Hne];
        [rewrite lookup_insert_eq | rewrite lookup_insert_ne by done]; eauto.
  - split; [done |]. intros k t Hl. rewrite HT.
    destruct (decide (txID = k)) as [<- | Hne].
    + exists tx'. rewrite lookup_insert_eq. assert (t = tx) as -> by congruence.
      split_and!; try done. intros Hcm. congruence.
    + exists t. rewrite lookup_insert_ne by done. done.
Qed.

(** The same when only versions are dropped. *)
Lemma drop_versions s s' :
  store_inv s ->
  Transactions s' = Transactions s ->
  GlobalTimestamp s' = GlobalTimestamp s ->
  txSeq s' = txSeq s ->
  Versions s' ⊆ Versions s ->
  store_inv s' /\ extends s s'.
Proof.
  intros [Hs Hk Ht Hc Hd] HT Hg Hseq Hsub. split; [split |].
  - lia.
  - rewrite HT, Hseq. done.
  - rewrite HT, Hg. done.
  - intros v ver Hl. rewrite HT. apply (Hc v).
    by apply (lookup_weaken _ _ _ _ Hl).
  - intros v ver d Hl. rewrite HT. apply (Hd v).
    by apply (lookup_weaken _ _ _ _ Hl).
  - split; [lia |]. intros k t Hl. exists t. rewrite HT. done.
Qed.

Lemma clear_active_fields txID s :
  Transactions (clear_active txID s) = Transactions s
  /\ Versions (clear_active txID s) = Versions s
  /\ GlobalTimestamp (clear_active txID s) = GlobalTimestamp s
  /\ txSeq (clear_active txID s) = txSeq s.
Proof. unfold clear_active. by case_bool_decide. Qed.

Lemma abort_rows_fields txID ws : forall s s',
  abort_rows txID ws s = Some s' ->
  Transactions s' = Transactions s
  /\ GlobalTimestamp s' = GlobalTimestamp s
  /\ txSeq s' = txSeq s
  /\ Versions s' ⊆ Versions s.
Proof.
  induction ws as [| rowID ws IH]; intros s s'; simpl.
  - by intros [= <-].
  - destruct (Rows s !! rowID) as [row |]; simpl; [| done].
    destruct (abort_chain _ _ _) as [[newChain versions] |] eqn:Hc;
      simpl; [| done].
    intros H. destruct (IH _ _ H) as (HT & Hg & Hq & Hv). simpl in *.
    split_and!; try done.
    etrans; [exact Hv |]. by apply (abort_chain_sub _ _ _ _ _ Hc).
Qed.

Lemma gc_chain_sub s oldest chain : forall found versions kept gone vs',
  gc_chain s oldest found chain versions = Some (kept, gone, vs') ->
  vs' ⊆ versions.
Proof.
  induction chain as [| verID rest IH]; intros found versions kept gone vs';
    simpl.
  - by intros [= _ _ <-].
  - destruct (versions !! verID) as [ver |]; simpl; [| done].
    destruct (Transactions s !! CreatedBy ver) as [ctx |]; simpl; [| done].
    destruct (if bool_decide _ then _ else _) as [ct |].
    + destruct ((ct <? oldest) && found).
      * destruct (gc_chain s oldest found rest (delete verID versions))
          as [[[k g] v] |] eqn:E; simpl; [| done].
        intros [= _ _ <-]. etrans; [by apply (IH _ _ _ _ _ E) |].
        apply delete_subseteq.
      * destruct (gc_chain s oldest true rest versions)
          as [[[k g] v] |] eqn:E; simpl; [| done].
        intros [= _ _ <-]. by apply (IH _ _ _ _ _ E).
    + destruct (gc_chain s oldest found rest versions)
        as [[[k g] v] |] eqn:E; simpl; [| done].
      intros [= _ _ <-]. by apply (IH _ _ _ _ _ E).
Qed.

Lemma gc_rows_fields s0 oldest rows : forall s removed removed' s',
  gc_rows s0 oldest rows s removed = Some (removed', s') ->
  Transactions s' = Transactions s
  /\ GlobalTimestamp s' = GlobalTimestamp s
  /\ txSeq s' = txSeq s
  /\ Versions s' ⊆ Versions s.
Proof.
  induction rows as [| [rowID row] rows IH]; intros s removed removed' s';
    simpl.
  - by intros [= _ <-].
  - destruct (gc_chain _ _ _ _ _) as [[[kept gone] versions] |] eqn:Hg;
      simpl; [| done].
    intros H. destruct (IH _ _ _ _ H) as (HT & Hgt & Hq & Hv). simpl in *.
    split_and!; try done.
    etrans; [exact Hv |]. by apply (gc_chain_sub _ _ _ _ _ _ _ _ Hg).
Qed.

Lemma BeginTransaction_inv s :
  store_inv s ->
  store_inv (BeginTransaction s).2 /\ extends s (BeginTransaction s).2.
Proof.
  intros [Hs Hk Ht Hc Hd].
  assert (Hfresh : Transactions s !! tx_key (txSeq s + 1) = None).
  { destruct (Transactions s !! tx_key (txSeq s + 1)) as [t |] eqn:E;
      [| done].
    destruct (Hk _ _ E) as [_ (n & Hn & Heq)].
    apply tx_key_inj in Heq. lia. }
  unfold BeginTransaction. fold (tx_key (txSeq s + 1)). simpl.
  split; [split |]; simpl.
  - lia.
  - intros k t Hl.
    apply lookup_insert_Some in Hl as [[<- <-] | [Hne Hl]].
    + split; [done |]. exists (txSeq s + 1). split; [lia | done].
    + destruct (Hk k t Hl) as [? (n & ? & ?)]. split; [done |].
      exists n. split; [lia | done].
  - intros k t Hl.
    apply lookup_insert_Some in Hl as [[<- <-] | [Hne Hl]].
    + simpl. split; [lia | done].
    + by apply (Ht k).
  - intros v ver Hl. destruct (Hc v ver Hl) as [t Hlt].
    exists t. rewrite lookup_insert_ne; [done |]. congruence.
  - intros v ver d Hl Hdel. destruct (Hd v ver d Hl Hdel) as [t Hlt].
    exists t. rewrite lookup_insert_ne; [done |]. congruence.
  - unfold extends. simpl. split; [lia |]. intros k t Hl. exists t.
    rewrite lookup_insert_ne; [done |]. congruence.
Qed.

Lemma apply_inv o s s' :
  store_inv s -> apply o s = Some s' -> store_inv s' /\ extends s s'.
Proof.
  intros Hi.
  assert (Hsame : store_inv s /\ extends s s)
    by (split; [done | apply extends_refl]).
  assert (Hkeep : forall v ver0,
            Versions s !! v = Some ver0 ->
            forall txID : string,
            (CreatedBy ver0 = txID \/ exists v0 ver1,
               Versions s !! v0 = Some ver1
               /\ CreatedBy ver1 = CreatedBy ver0)
            /\ (forall d, DeletedBy ver0 = Some d ->
                 d = txID \/ exists v0 ver1,
                   Versions s !! v0 = Some ver1 /\ DeletedBy ver1 = Some d)).
  { intros v ver0 Hl txID.
    split; [right; eauto | intros d Hdl; right; eauto]. }
  destruct o as [| txID rowID | txID rowID data | txID rowID | txID | txID |];
    simpl.
  - intros [= <-]. by apply BeginTransaction_inv.
  - unfold Read.
    destruct (Transactions s !! txID) as [tx |] eqn:Htx;
      [| by intros [= <-]].
    case_bool_decide as Hst; [by intros [= <-] |].

    destruct (Rows s !! rowID) as [row |]; [| by intros [= <-]].
    destruct (first_visible _ _ _) as [[ver |] |]; simpl;
      [| by intros [= <-] | done].
    intros [= <-].
    apply (update_active s _ txID tx
             (mkTransaction (tx_ID tx) (StartTime tx) (CommitTime tx)
                            (Status tx) (ReadSet tx ++ [rowID])
                            (WriteSet tx)));
      simpl; try done; try lia.
    + congruence.
    + intros v ver0 Hl. by apply (Hkeep v).
  - unfold Write.
    destruct (Transactions s !! txID) as [tx |] eqn:Htx;
      [| by intros [= <-]].
    case_bool_decide as Hst; [by intros [= <-] |].

    simpl. intros [= <-].
    apply (update_active s _ txID tx (add_WriteSet tx rowID));
      simpl; try done; try lia.
    + congruence.
    + intros v ver0 Hl.
      apply lookup_insert_Some in Hl as [[<- <-] | [Hne Hl]]; simpl.
      * split; [by left | done].
      * by apply (Hkeep v).
  - unfold Delete.
    destruct (Transactions s !! txID) as [tx |] eqn:Htx;
      [| by intros [= <-]].
    case_bool_decide as Hst; [by intros [= <-] |].

    destruct (Rows s !! rowID) as [row |]; [| by intros [= <-]].
    destruct (VersionChain row) as [| verID rest].
    + simpl. intros [= <-].
      apply (update_active s _ txID tx (add_WriteSet tx rowID));
        simpl; try done; try lia.
      * congruence.
      * intros v ver0 Hl. by apply (Hkeep v).
    + destruct (Versions s !! verID) as [ver |] eqn:Hver; simpl; [| done].
      intros [= <-].
      apply (update_active s _ txID tx (add_WriteSet tx rowID));
        simpl; try done; try lia.
      * congruence.
      * intros v ver0 Hl.
        apply lookup_insert_Some in Hl as [[<- <-] | [Hne Hl]]; simpl.
        -- split; [right; eauto |]. intros d [= <-]. by left.
        -- by apply (Hkeep v).
  - unfold Commit.
    destruct (Transactions s !! txID) as [tx |] eqn:Htx;
      [| by intros [= <-]].
    case_bool_decide as Hst; [by intros [= <-] |].

    simpl. intros [= <-].
    destruct (clear_active_fields txID
      (mkStore (<[txID := mkTransaction (tx_ID tx) (StartTime tx)
                            (Some (GlobalTimestamp s + 1)) TxCommitted
                            (ReadSet tx) (WriteSet tx)]> (Transactions s))
               (Versions s) (Rows s) (GlobalTimestamp s + 1)
               (ActiveTransaction s) (txSeq s) (verSeq s)))
      as (HT & HV & HG & HQ). simpl in *.
    apply (update_active s _ txID tx
             (mkTransaction (tx_ID tx) (StartTime tx)
                            (Some (GlobalTimestamp s + 1)) TxCommitted
                            (ReadSet tx) (WriteSet tx)));
      simpl; try done; try lia.
    + intros _. rewrite HG. eexists. split; [done | lia].
    + rewrite HV. intros v ver0 Hl. by apply (Hkeep v).
  - unfold Abort.
    destruct (Transactions s !! txID) as [tx |] eqn:Htx;
      [| by intros [= <-]].
    case_bool_decide as Hst; [by intros [= <-] |].

    destruct (abort_rows _ _ _) as [s2 |] eqn:Hs2; simpl; [| done].
    intros [= <-].
    destruct (abort_rows_fields _ _ _ _ Hs2) as (HT & HG & HQ & HV).
    destruct (clear_active_fields txID s2) as (HT' & HV' & HG' & HQ').
    simpl in *.
    apply (update_active s _ txID tx
              (mkTransaction (tx_ID tx) (StartTime tx) (CommitTime tx)
                             TxAborted (ReadSet tx) (WriteSet tx)));
      simpl; try done; try lia.
    + congruence.
    + rewrite HV'. intros v ver0 Hl.
      pose proof (lookup_weaken _ _ _ _ Hl HV) as Hl0.
      by apply (Hkeep v).
  - unfold GarbageCollect.
    destruct (gc_rows _ _ _ _ _) as [[removed s1] |] eqn:Hg; simpl; [| done].
    intros [= <-].
    destruct (gc_rows_fields _ _ _ _ _ _ _ Hg) as (HT & HG & HQ & HV).
    by apply drop_versions.
Qed.

Lemma run_inv ops : forall s s',
  store_inv s -> run ops s = Some s' -> store_inv s' /\ extends s s'.
Proof.
  induction ops as [| o ops IH]; intros s s' Hi; simpl.
  - intros [= <-]. split; [done | apply extends_refl].
  - destruct (apply o s) as [s1 |] eqn:Ho; simpl; [| done].
    intros H. destruct (apply_inv _ _ _ Hi Ho) as [Hi1 He1].
    destruct (IH _ _ Hi1 H) as [Hi2 He2].
    split; [done | by apply (extends_trans _ s1)].
Qed.

Lemma NewMVCCStore_inv : store_inv NewMVCCStore.
Proof. split; simpl; try done. Qed.

Lemma reachable_store_inv s : reachable s -> store_inv s.
Proof.
  intros [ops H]. by destruct (run_inv _ _ _ NewMVCCStore_inv H).
Qed.

(** ** Snapshot visibility *)

(** [ver] was deleted by a transaction that committed no later than the
    start of [reader]. *)
Definition deleted_before (s : MVCCStore) (reader : Transaction)
    (ver : Version) : Prop :=
  exists d deleter c,
    DeletedBy ver = Some d
    /\ Transactions s !! d = Some deleter
    /\ Status deleter = TxCommitted
    /\ CommitTime deleter = Some c
    /\ c <= StartTime reader.

(** C2. Let transaction [t1] commit, and [t2] begin afterwards (any runs
    of calls, from the empty store, before, in between and after).  Then
    in the resulting store every version created by [t1] that was not
    deleted by a transaction committed at or before [t2]'s start is
    visible to [t2]; and a version whose creator has not committed is
    visible to a transaction exactly when that transaction is its creator. *)
Theorem snapshot_visibility
    (ops1 ops2 ops3 : list Op) (t1 : string) (tx2 : Transaction)
    (s0 s1 s2 s3 s : MVCCStore) :
  run ops1 NewMVCCStore = Some s0 ->
  Commit t1 s0 = Ok tt s1 ->
  run ops2 s1 = Some s2 ->
  BeginTransaction s2 = (tx2, s3) ->
  run ops3 s3 = Some s ->
  (exists reader, Transactions s !! tx_ID tx2 = Some reader
     /\ forall verID ver,
          Versions s !! verID = Some ver ->
          CreatedBy ver = t1 ->
          ~ deleted_before s reader ver ->
          isVisible s reader ver = Some true)
  /\ (forall verID ver,
        Versions s !! verID = Some ver ->
        exists creator,
          Transactions s !! CreatedBy ver = Some creator
          /\ (Status creator <> TxCommitted ->
               forall k reader,
                 Transactions s !! k = Some reader ->
                 isVisible s reader ver
                 = Some (bool_decide (CreatedBy ver = tx_ID reader)))).
Proof.
  intros H1 HC H2 HB H3.
  destruct (run_inv _ _ _ NewMVCCStore_inv H1) as [Hi0 _].
  assert (Hc1 : apply (OpCommit t1) s0 = Some s1) by (simpl; by rewrite HC).
  destruct (apply_inv _ _ _ Hi0 Hc1) as [Hi1 _].
  destruct (run_inv _ _ _ Hi1 H2) as [Hi2 He12].
  pose proof (BeginTransaction_inv s2 Hi2) as [Hi3 He23].
  rewrite HB in Hi3, He23. simpl in Hi3, He23.
  destruct (run_inv _ _ _ Hi3 H3) as [Hi He3].
  (* the committed record of t1 *)
  assert (exists tx1, Transactions s1 !! t1 = Some tx1
                      /\ Status tx1 = TxCommitted
                      /\ CommitTime tx1 = Some (GlobalTimestamp s1))
    as (tx1 & Ht1 & Hst1 & Hct1).
  { unfold Commit in HC.
    destruct (Transactions s0 !! t1) as [tx |]; [| done].
    case_bool_decide; [done |]. simplify_eq.
    destruct (clear_active_fields t1
      (mkStore (<[t1 := mkTransaction (tx_ID tx) (StartTime tx)
                          (Some (GlobalTimestamp s0 + 1)) TxCommitted
                          (ReadSet tx) (WriteSet tx)]> (Transactions s0))
               (Versions s0) (Rows s0) (GlobalTimestamp s0 + 1)
               (ActiveTransaction s0) (txSeq s0) (verSeq s0)))
      as (HT & _ & HG & _).
    rewrite HT, HG. simpl. rewrite lookup_insert_eq. eauto. }
  pose proof (extends_trans _ _ _ He12 (extends_trans _ _ _ He23 He3))
    as [_ He1].
  destruct (He1 t1 tx1 Ht1) as (tx1' & Ht1' & _ & _ & Hsame).
  rewrite (Hsame Hst1) in Ht1'. clear tx1' Hsame.
  (* the record of t2 *)
  assert (Transactions s3 !! tx_ID tx2 = Some tx2
          /\ StartTime tx2 = GlobalTimestamp s2) as [Ht2 Hstart].
  { unfold BeginTransaction in HB. simplify_eq/=.
    by rewrite lookup_insert_eq. }
  destruct He3 as [_ He3].
  destruct (He3 _ _ Ht2) as (reader & Hreader & Hrs & Hrid & _).
  destruct He12 as [Hg12 _].
  split.
  - exists reader. split; [done |]. intros verID ver Hver Hby Hnd.
    unfold isVisible. case_bool_decide; [done |].
    rewrite Hby, Ht1'. simpl.
    rewrite bool_decide_false by (intros Hne; by apply Hne).
    rewrite Hct1.
    destruct (Z.gtb_spec (GlobalTimestamp s1) (StartTime reader)); [lia |].
    destruct (DeletedBy ver) as [d |] eqn:Hd; [| done].
    destruct (DeletedAt ver) as [da |]; [| done].
    destruct (inv_deleter s Hi verID ver d Hver Hd) as [deleter Hdl].
    rewrite Hdl. simpl. case_bool_decide as Hdst; [| done].
    destruct (inv_times s Hi d deleter Hdl) as [_ Hdc].
    destruct (Hdc Hdst) as (c & Hc & _). rewrite Hc. simpl.
    destruct (Z.leb_spec c (StartTime reader)); [| done].
    exfalso. apply Hnd. exists d, deleter, c. done.
  - intros verID ver Hver.
    destruct (inv_creator s Hi verID ver Hver) as [creator Hcr].
    exists creator. split; [done |]. intros Hnc k rd Hrd.
    unfold isVisible. case_bool_decide; [done |].
    rewrite Hcr. simpl. by rewrite bool_decide_true.
Qed.

(** Scenario C of the specification: tx-1 writes users:1 and commits,
    then tx-2 begins. *)
Definition scenario_C_before : list Op :=
  [OpBegin; OpWrite "tx-1" "users:1" {[ "name" := JString "A" ]}].

Definition scenario_C_written : MVCCStore :=
  default NewMVCCStore (run scenario_C_before NewMVCCStore).
Definition scenario_C_committed : MVCCStore :=
  default NewMVCCStore (after (Commit "tx-1" scenario_C_written)).
Definition scenario_C : MVCCStore :=
  (BeginTransaction scenario_C_committed).2.
Definition scenario_C_reader : Transaction :=
  (BeginTransaction scenario_C_committed).1.
Definition scenario_C_version : Version :=
  default (mkVersion "" "" ∅ "" 0 None None None)
          (Versions scenario_C !! "ver-1").

Lemma snapshot_visibility_witness :
  tx_ID scenario_C_reader = "tx-2"
  /\ CreatedBy scenario_C_version = "tx-1"
  /\ isVisible scenario_C scenario_C_reader scenario_C_version = Some true.
Proof.
  assert (H0 : run scenario_C_before NewMVCCStore = Some scenario_C_written)
    by (vm_compute; reflexivity).
  assert (HC : Commit "tx-1" scenario_C_written = Ok tt scenario_C_committed)
    by (vm_compute; reflexivity).
  assert (HB : BeginTransaction scenario_C_committed
               = (scenario_C_reader, scenario_C)) by reflexivity.
  destruct (snapshot_visibility scenario_C_before [] [] "tx-1"
              scenario_C_reader scenario_C_written scenario_C_committed
              scenario_C_committed scenario_C scenario_C
              H0 HC eq_refl HB eq_refl)
    as [(reader & Hreader & Hvis) _].
  assert (reader = scenario_C_reader) as ->.
  { assert (Transactions scenario_C !! tx_ID scenario_C_reader
            = Some scenario_C_reader) as Hl by (vm_compute; reflexivity).
    congruence. }
  split; [vm_compute; reflexivity |]. split; [vm_compute; reflexivity |].
  apply (Hvis "ver-1"); [vm_compute; reflexivity | vm_compute; reflexivity |].
  intros (d & deleter & c & Hd & _). vm_compute in Hd. discriminate.
Defined.

Lemma scenario_C_reachable : reachable scenario_C.
Proof.
  exists (scenario_C_before ++ [OpCommit "tx-1"; OpBegin]).
  vm_compute. reflexivity.
Defined.

Definition scenario_C_row : Row :=
  default (mkRow "" "" []) (Rows scenario_C !! "users:1").

Lemma version_chain_witness :
  VersionChain scenario_C_row = ["ver-1"]
  /\ VersionChain scenario_C_row <> []
  /\ head (VersionChain scenario_C_row)
     = Some (CurrentVersion scenario_C_row).
Proof.
  split; [vm_compute; reflexivity |].
  destruct (version_chain_invariant scenario_C scenario_C_reachable)
    as [Hinv _].
  apply (Hinv "users:1"). vm_compute. reflexivity.
Defined.

(** ** GarbageCollect against an active snapshot *)

(** tx-1 writes row r and commits; tx-2 commits, moving the clock; tx-3
    begins and stays active; tx-4 overwrites r and commits. *)
Definition gc_scenario : list Op :=
  [OpBegin; OpWrite "tx-1" "r" {[ "v" := JNumber 1 ]}; OpCommit "tx-1";
   OpBegin; OpCommit "tx-2";
   OpBegin;
   OpBegin; OpWrite "tx-4" "r" {[ "v" := JNumber 2 ]}; OpCommit "tx-4"].

Definition gc_before : MVCCStore :=
  default NewMVCCStore (run gc_scenario NewMVCCStore).
Definition gc_after : MVCCStore :=
  default NewMVCCStore (after (GarbageCollect gc_before)).
Definition gc_reader : Transaction :=
  default (mkTransaction "" 0 None TxAborted [] [])
          (Transactions gc_before !! "tx-3").

(** The id of the version a Read returns. *)
Definition read_id (r : Result Version) : option string :=
  match r with Ok ver _ => Some (ver_ID ver) | _ => None end.

(** C3 at its failing input.  Before GarbageCollect the active tx-3 reads
    ver-1 of row r, the version committed before its snapshot.
    GarbageCollect takes 3, the start of tx-3, as threshold, keeps the head
    ver-2 (committed at 4) and counts it as the newer visible version,
    then removes ver-1 (committed at 2).  Afterwards the chain of r holds
    no version visible to tx-3 and its Read fails. *)
Theorem GarbageCollect_drops_snapshot_version :
  run gc_scenario NewMVCCStore = Some gc_before
  /\ Transactions gc_before !! "tx-3" = Some gc_reader
  /\ Status gc_reader = TxActive
  /\ oldestActiveStart gc_before = 3
  /\ (VersionChain <$> Rows gc_before !! "r") = Some ["ver-2"; "ver-1"]
  /\ read_id (Read "tx-3" "r" gc_before) = Some "ver-1"
  /\ GarbageCollect gc_before = Ok ["ver-1"] gc_after
  /\ (VersionChain <$> Rows gc_after !! "r") = Some ["ver-2"]
  /\ Transactions gc_after !! "tx-3" = Some gc_reader
  /\ first_visible gc_after gc_reader ["ver-2"] = Some None
  /\ Read "tx-3" "r" gc_after = Err "no visible version for row r" gc_after.
Proof. split_and!; vm_compute; reflexivity. Qed.

End MVCCFacts.

(* ===================================================================== *)
(** * Lexer: every token moves the position forward *)
(* ===================================================================== *)

Module LexerFacts.
Import Lexer.

Lemma count_while_nonneg p s : 0 <= count_while p s.
Proof. induction s as [| c r IH]; simpl; [lia |]. destruct (p c); lia. Qed.

Lemma string_body_nonneg quote s : 0 <= string_body quote s.
Proof.
  revert s. fix IH 1. intros [| c r]; simpl; [lia |].
  case_bool_decide; [lia |]. case_bool_decide.
  - destruct r as [| c' r']; [lia |]. specialize (IH r'). lia.
  - specialize (IH r). lia.
Qed.

(** The suffix of [s] from an index in range starts with the byte
    there. *)
Lemma substring_get (s : string) : forall (n : nat) (c : ascii),
  String.get n s = Some c ->
  exists r, String.substring n (String.length s - n) s = String c r.
Proof.
  induction s as [| a s IH]; intros n c; simpl; [by destruct n |].
  destruct n as [| n]; simpl.
  - intros [= ->]. eauto.
  - intros H. destruct (IH n c H) as [r Hr]. eauto.
Qed.

Lemma get_Some_lt (s : string) : forall (n : nat) (c : ascii),
  String.get n s = Some c -> (n < String.length s)%nat.
Proof.
  induction s as [| a s IH]; intros n c; simpl; [by destruct n |].
  destruct n as [| n]; [lia |]. intros H. specialize (IH n c H). lia.
Qed.

Lemma get_lt_Some (s : string) : forall (n : nat),
  (n < String.length s)%nat -> exists c, String.get n s = Some c.
Proof.
  induction s as [| a s IH]; intros n; simpl; [lia |].
  destruct n as [| n]; [eauto |]. intros H. apply IH. lia.
Qed.

Lemma slice_from_byte (s : string) (i : Z) (c : ascii) :
  byte_at s i = Some c -> exists r, slice_from s i = String c r.
Proof.
  unfold byte_at, slice_from, slice, slen.
  destruct (Z.ltb_spec i 0) as [Hneg | Hnn]; [done |]. intros Hg.
  pose proof (get_Some_lt _ _ _ Hg) as Hlt.
  replace (Z.to_nat (Z.of_nat (String.length s) - i))
    with (String.length s - Z.to_nat i)%nat by lia.
  by apply substring_get.
Qed.

Lemma byte_at_Some (s : string) (i : Z) :
  0 <= i < slen s -> exists c, byte_at s i = Some c.
Proof.
  unfold byte_at, slen. intros [H0 H1].
  destruct (Z.ltb_spec i 0) as [Hneg | Hnn]; [lia |].
  apply get_lt_Some. lia.
Qed.

Lemma count_while_first p s i c :
  byte_at s i = Some c -> p c = true ->
  1 <= count_while p (slice_from s i).
Proof.
  intros Hb Hp. destruct (slice_from_byte _ _ _ Hb) as [r ->]. simpl.
  rewrite Hp. pose proof (count_while_nonneg p r). lia.
Qed.

Lemma skipWhitespace_progress l :
  input (skipWhitespace l) = input l /\ pos l <= pos (skipWhitespace l).
Proof.
  unfold skipWhitespace. simpl. split; [done |].
  pose proof (count_while_nonneg IsSpace (slice_from (input l) (pos l))).
  lia.
Qed.

Definition advances (l : Lexer) (r : Token * Lexer) : Prop :=
  input r.2 = input l /\ pos l < pos r.2.

Lemma readOperator_advances start l ch :
  byte_at (input l) (pos l) = Some ch -> advances l (readOperator start l).
Proof.
  intros Hch. unfold readOperator, advances. rewrite Hch. simpl.
  destruct (pos l + 1 <? slen (input l)); [| simpl; split; [done | lia]].
  destruct (byte_at (input l) (pos l + 1)) as [next |];
    [| simpl; split; [done | lia]].
  destruct (_ || _); simpl; split; (done || lia).
Qed.

Lemma readString_advances start quote l :
  advances l (readString start quote l).
Proof.
  unfold readString, advances. simpl.
  pose proof (string_body_nonneg quote (slice_from (input l) (pos l + 1))).
  destruct (_ >=? _); simpl; split; (done || lia).
Qed.

Lemma readNumber_advances start l ch :
  byte_at (input l) (pos l) = Some ch -> IsDigit ch = true ->
  advances l (readNumber start l).
Proof.
  intros Hch Hd. unfold readNumber, advances. simpl. split; [done |].
  pose proof (count_while_first
                (fun c => IsDigit c || bool_decide (c = "."%char))
                _ _ _ Hch) as Hc.
  cbv beta in Hc. rewrite Hd in Hc. specialize (Hc eq_refl). lia.
Qed.

Lemma readIdentifier_advances start l ch :
  byte_at (input l) (pos l) = Some ch ->
  IsLetter ch || bool_decide (ch = "_"%char) = true ->
  advances l (readIdentifier start l).
Proof.
  intros Hch Hd. unfold readIdentifier, advances.
  pose proof (count_while_first
                (fun c => IsLetter c || IsDigit c
                          || bool_decide (c = "_"%char))
                _ _ _ Hch) as Hc.
  assert (Hp : IsLetter ch || IsDigit ch || bool_decide (ch = "_"%char)
               = true).
  { destruct (IsLetter ch); [done |]. cbn [orb] in *. rewrite Hd.
    by rewrite orb_true_r. }
  cbv beta in Hc. specialize (Hc Hp).
  cbv zeta. case_match; cbn [fst snd input pos set_pos]; split; (done || lia).
Qed.

(** Below the end of the input [nextToken] returns a token and moves the
    position forward. *)
Lemma nextToken_progress l :
  0 <= pos l < slen (input l) ->
  exists r, nextToken l = Some r /\ advances l r.
Proof.
  intros Hpos. destruct (byte_at_Some _ _ Hpos) as [ch Hch].
  unfold nextToken. rewrite Hch. simpl.
  assert (Hone : forall ty v,
            advances l (mkToken ty v (mkPosition (pos l) (pos l + 1)),
                        set_pos l (pos l + 1))).
  { intros ty v. unfold advances. simpl. split; [done | lia]. }
  destruct (bool_decide (ch = ","%char)); [eauto |].
  destruct (bool_decide (ch = "*"%char)); [eauto |].
  destruct (bool_decide (ch = "("%char)); [eauto |].
  destruct (bool_decide (ch = ")"%char)); [eauto |].
  destruct (bool_decide (ch = ";"%char)); [eauto |].
  destruct (_ || _).
  { eexists. split; [done |]. by apply (readOperator_advances _ _ ch). }
  destruct (_ || _).
  { eexists. split; [done |]. apply readString_advances. }
  destruct (IsDigit ch) eqn:Hd.
  { eexists. split; [done |]. by apply (readNumber_advances _ _ ch). }
  destruct (_ || _) eqn:Hl; [| eauto].
  eexists. split; [done |]. by apply (readIdentifier_advances _ _ ch).
Qed.

End LexerFacts.

(* ===================================================================== *)
(** * Query parser simulation: syntax violations in the trace *)
(* ===================================================================== *)

Module ParserFacts.
Import Protocol ParserSimulation.





Definition eof_token (q : string) : Lexer.Token :=
  Lexer.mkToken Lexer.TokenEOF ""
                (Lexer.mkPosition (Lexer.slen q) (Lexer.slen q)).







Definition final_title (o : Outcome) : option string :=
  match o with
  | Done sim' => Engine.Title <$> last (steps sim')
  | _ => None
  end.




Lemma select_from_title :
  final_title (ParseQuery "SELECT * FROM" NewParserSimulation)
  = Some "Parsing Complete".
Proof. vm_compute. reflexivity. Qed.

(** A comparison or a boolean operator without a left operand: the
    parser records the violation and then hands the nil left operand to
    [addChild], which dereferences it.  The right operand is guarded by
    [if right != nil], the left one is not. *)
Lemma missing_left_operand_panics :
  ParseQuery "SELECT * FROM t WHERE = 1" NewParserSimulation = Panicked
  /\ ParseQuery "SELECT * FROM t WHERE OR x" NewParserSimulation = Panicked.
Proof. vm_compute. done. Qed.

End ParserFacts.

(* ===================================================================== *)
(** * B-Tree: key-count bounds at odd orders, deleting every key *)
(* ===================================================================== *)

Module BTreeScenarios.
Import BTree.

(** The least number of keys of a non-root node of order [m],
    [ceil(m/2) - 1]. *)
Definition min_keys (m : Z) : Z := (m + 1) / 2 - 1.

Definition within_bounds (bt : BTree) (n : BTreeNode) : bool :=
  (min_keys (Order bt) <=? len (Keys n)) && (len (Keys n) <=? Order bt - 1).

(** The tree a run leaves, the starting tree if it does not return. *)
Definition tree_after (m : M unit) (bt : BTree) : BTree :=
  match m bt with Ret _ bt' => bt' | _ => bt end.

Definition returns {A} (r : Res A) : bool :=
  match r with Ret _ _ => true | _ => false end.

(** Order 3 after inserting 1, 2, 0; order 5 after 1, 2, 3, 4, 0. *)
Definition order3_tree : BTree := tree_after (InsertAll 3 [1; 2; 0]) (NewBTree 3).
Definition order5_tree : BTree :=
  tree_after (InsertAll 3 [1; 2; 3; 4; 0]) (NewBTree 5).

(** C1 at its failing inputs.  At order 3 the third insertion splits the
    full root [1; 2] at [mid = 1]: key 2 moves up, the left node keeps
    [1] and the new right node node-3 gets no key at all, where the bound
    is 1; the key 0 then goes left.  At order 5 the split of [1; 2; 3; 4]
    leaves the right node with the single key 4, where the bound is 2.
    Both insertions return, and the deficient node is not the root. *)
Theorem odd_order_split_leaves_underfull_node :
  returns (InsertAll 3 [1; 2; 0] (NewBTree 3)) = true
  /\ RootID order3_tree = "node-2"
  /\ Nodes order3_tree !! "node-2"
     = Some (mkNode "node-2" [2] ["node-1"; "node-3"] false "")
  /\ Nodes order3_tree !! "node-1"
     = Some (mkNode "node-1" [0; 1] [] true "node-2")
  /\ Nodes order3_tree !! "node-3" = Some (mkNode "node-3" [] [] true "node-2")
  /\ min_keys 3 = 1
  /\ within_bounds order3_tree (mkNode "node-3" [] [] true "node-2") = false
  /\ returns (InsertAll 3 [1; 2; 3; 4; 0] (NewBTree 5)) = true
  /\ RootID order5_tree = "node-2"
  /\ Nodes order5_tree !! "node-3"
     = Some (mkNode "node-3" [4] [] true "node-2")
  /\ min_keys 5 = 2
  /\ within_bounds order5_tree (mkNode "node-3" [4] [] true "node-2") = false.
Proof. split_and!; vm_compute; reflexivity. Qed.

(** C4 as the specification states it: after inserting a set of keys and
    deleting each of them, the root id is cleared. *)
Definition delete_all_as_stated : Prop :=
  forall (m : Z) (keys : list Z) (fuel : nat) (bt : BTree),
    NoDup keys -> keys <> [] ->
    (InsertAll fuel keys ;;; DeleteAll fuel keys) (NewBTree m) = Ret tt bt ->
    RootID bt = "" /\ Nodes bt = ∅.

Definition one_key_tree : BTree :=
  tree_after (InsertAll 1 [5] ;;; DeleteAll 1 [5]) (NewBTree 4).

Lemma one_key_returns :
  (InsertAll 1 [5] ;;; DeleteAll 1 [5]) (NewBTree 4) = Ret tt one_key_tree.
Proof. vm_compute. reflexivity. Qed.

Lemma one_key_root : RootID one_key_tree = "node-1".
Proof. vm_compute. reflexivity. Qed.

(** Insert 5, delete 5, at order 4: the root id still names node-1, a
    leaf without keys that stays in the node map. *)
Lemma root_id_survives_last_delete : ~ delete_all_as_stated.
Proof.
  intros H.
  destruct (H 4 [5] 1%nat one_key_tree) as [Hroot _].
  - apply NoDup_singleton.
  - discriminate.
  - apply one_key_returns.
  - rewrite one_key_root in Hroot. discriminate.
Qed.

(** The run of deletions that loses a key at order 4.  With 1..7
    inserted, deleting 3 and 4 leaves the root [2; 6] over the leaves
    [1], [5], [7].  Deleting 5 finds its leaf at the minimum, merges it
    into the left sibling (which is now child 0, holding [1; 2; 5]) and
    then descends into child 1, the leaf [7]: Delete returns false and
    the key 5 stays in the tree. *)
Definition lost_key_tree : BTree :=
  tree_after (InsertAll 3 [1; 2; 3; 4; 5; 6; 7] ;;; DeleteAll 3 [3; 4])
             (NewBTree 4).

Lemma merge_with_left_sibling_loses_key :
  (Keys <$> Nodes lost_key_tree !! "node-2") = Some [2; 6]
  /\ (Children <$> Nodes lost_key_tree !! "node-2")
     = Some ["node-1"; "node-3"; "node-4"]
  /\ (Keys <$> Nodes lost_key_tree !! "node-3") = Some [5]
  /\ match Delete 3 5 lost_key_tree with
     | Ret deleted bt' =>
         deleted = false
         /\ (Keys <$> Nodes bt' !! "node-1") = Some [1; 2; 5]
         /\ (Children <$> Nodes bt' !! "node-2") = Some ["node-1"; "node-4"]
     | _ => False
     end.
Proof. split_and!; vm_compute; done. Qed.

End BTreeScenarios.

(* ===================================================================== *)
(** * B-Tree: keys in order *)
(* ===================================================================== *)

Module BTreeLists.
Import BTree.

(** ** Indexing with [Z] *)

Lemma idx_nat {A} (l : list A) (i : nat) : idx l (Z.of_nat i) = l !! i.
Proof.
  unfold idx. destruct (Z.ltb_spec (Z.of_nat i) 0) as [Hneg |]; [lia |].
  by rewrite Nat2Z.id.
Qed.

Lemma insertAt_nat {A} (l : list A) (i : nat) (x : A) :
  (i <= length l)%nat ->
  insertAt l (Z.of_nat i) x = Some (take i l ++ x :: drop i l).
Proof.
  intros Hi. unfold insertAt, len.
  destruct (Z.leb_spec 0 (Z.of_nat i)); [| lia].
  destruct (Z.leb_spec (Z.of_nat i) (Z.of_nat (length l))); [| lia].
  by rewrite Nat2Z.id.
Qed.

Lemma removeAt_nat {A} (l : list A) (i : nat) :
  (i < length l)%nat ->
  removeAt l (Z.of_nat i) = Some (take i l ++ drop (S i) l).
Proof.
  intros Hi. unfold removeAt, len.
  destruct (Z.leb_spec 0 (Z.of_nat i)); [| lia].
  destruct (Z.leb_spec (Z.of_nat i + 1) (Z.of_nat (length l))); [| lia].
  simpl. rewrite Nat2Z.id. by replace (Z.to_nat (Z.of_nat i + 1)) with (S i) by lia.
Qed.

Lemma slice_to_nat {A} (l : list A) (i : nat) :
  (i <= length l)%nat -> slice_to l (Z.of_nat i) = Some (take i l).
Proof.
  intros Hi. unfold slice_to, len.
  destruct (Z.leb_spec 0 (Z.of_nat i)); [| lia].
  destruct (Z.leb_spec (Z.of_nat i) (Z.of_nat (length l))); [| lia].
  by rewrite Nat2Z.id.
Qed.

Lemma slice_from_nat {A} (l : list A) (i : nat) :
  (i <= length l)%nat -> slice_from l (Z.of_nat i) = Some (drop i l).
Proof.
  intros Hi. unfold slice_from, len.
  destruct (Z.leb_spec 0 (Z.of_nat i)); [| lia].
  destruct (Z.leb_spec (Z.of_nat i) (Z.of_nat (length l))); [| lia].
  by rewrite Nat2Z.id.
Qed.

Lemma in_take {A} (x : A) (n : nat) (l : list A) : x ∈ take n l -> x ∈ l.
Proof. intros H. rewrite <- (take_drop n l). apply elem_of_app. by left. Qed.

Lemma in_drop {A} (x : A) (n : nat) (l : list A) : x ∈ drop n l -> x ∈ l.
Proof. intros H. rewrite <- (take_drop n l). apply elem_of_app. by right. Qed.

(** ** The scans over sorted keys *)

Abbreviation sorted := (StronglySorted Z.lt).

Lemma sorted_app (l1 l2 : list Z) :
  sorted (l1 ++ l2) <->
  sorted l1 /\ sorted l2 /\ forall x y, x ∈ l1 -> y ∈ l2 -> x < y.
Proof. rewrite StronglySorted_app. tauto. Qed.

Lemma sorted_cons (x : Z) (l : list Z) :
  sorted (x :: l) <-> sorted l /\ forall y, y ∈ l -> x < y.
Proof.
  split.
  - intros H. inversion H as [| ? ? Hs Hf]; subst. split; [done |].
    intros y Hy. by apply (proj1 (Forall_forall _ _) Hf).
  - intros [Hs Hf]. constructor; [done |]. by apply Forall_forall.
Qed.

Lemma sorted_nil : sorted [].
Proof. constructor. Qed.

Lemma sorted_singleton (x : Z) : sorted [x].
Proof. apply sorted_cons. split; [apply sorted_nil |]. by intros y Hy%elem_of_nil. Qed.

(** The position the descent of [insertNonFull] computes: the keys before
    it are below [key], the keys from it on are above. *)
Lemma scan_down_spec (key : Z) (keys : list Z) :
  sorted keys -> key ∉ keys ->
  exists i : nat,
    len keys - scan_down key (rev keys) = Z.of_nat i
    /\ (i <= length keys)%nat
    /\ (forall k, k ∈ take i keys -> k < key)
    /\ (forall k, k ∈ drop i keys -> key < k).
Proof.
  induction keys as [| x l IH] using rev_ind; intros Hs Hn.
  - exists 0%nat. simpl. split_and!; try done; by intros k Hk%elem_of_nil.
  - apply sorted_app in Hs as (Hsl & _ & Hlx).
    rewrite rev_unit. simpl. unfold len. rewrite length_app. simpl.
    destruct (Z.ltb_spec key x) as [Hlt | Hge].
    + destruct IH as (i & Hi & Hle & Hlo & Hhi); [done | |].
      { intros Hin. apply Hn, elem_of_app. by left. }
      exists i. unfold len in Hi. split_and!; try lia.
      * intros k Hk. apply Hlo. by rewrite take_app_le in Hk by lia.
      * intros k Hk. rewrite drop_app_le in Hk by lia.
        apply elem_of_app in Hk as [Hk | Hk%list_elem_of_singleton];
          [by apply Hhi | by subst].
    + exists (length l + 1)%nat. split_and!; try lia.
      * intros k Hk. rewrite take_ge in Hk by (rewrite length_app; simpl; lia).
        assert (x <> key).
        { intros ->. apply Hn, elem_of_app. right. by apply list_elem_of_singleton. }
        apply elem_of_app in Hk as [Hk | Hk%list_elem_of_singleton].
        -- specialize (Hlx k x Hk ltac:(by apply list_elem_of_singleton)). lia.
        -- subst. lia.
      * intros k Hk. rewrite drop_ge in Hk by (rewrite length_app; simpl; lia).
        by apply elem_of_nil in Hk.
Qed.

(** The sorted insertion into a leaf. *)
Lemma insert_in_leaf_spec (key : Z) (keys : list Z) :
  sorted keys -> key ∉ keys ->
  sorted (insert_in_leaf key keys)
  /\ insert_in_leaf key keys ≡ₚ key :: keys
  /\ length (insert_in_leaf key keys) = S (length keys).
Proof.
  intros Hs Hn.
  destruct (scan_down_spec key keys Hs Hn) as (i & Hi & Hle & Hlo & Hhi).
  unfold insert_in_leaf. rewrite Hi, Nat2Z.id.
  rewrite <- (take_drop i keys) in Hs.
  apply sorted_app in Hs as (Hs1 & Hs2 & H12).
  split_and!.
  - apply sorted_app. split_and!; [done | |].
    + apply sorted_cons. split; [done |]. done.
    + intros x y Hx Hy.
      apply elem_of_cons in Hy as [-> | Hy]; [by apply Hlo | by apply H12].
  - rewrite <- (take_drop i keys) at 3.
    by rewrite Permutation_middle.
  - rewrite length_app. simpl. rewrite length_take, length_drop. lia.
Qed.

(** ** The keys of a node and of its subtrees, in order *)

Fixpoint interleave (subs : list (list Z)) (keys : list Z) : list Z :=
  match subs, keys with
  | [], _ => keys
  | s :: subs', k :: keys' => s ++ k :: interleave subs' keys'
  | s :: _, [] => s
  end.

(** The keys in order before a child and after it: [keys_before] pairs each
    earlier child with the key that follows it, [keys_after] each later key
    with the child that follows it. *)
Fixpoint keys_before (subs : list (list Z)) (keys : list Z) : list Z :=
  match subs, keys with
  | s :: subs', k :: keys' => s ++ k :: keys_before subs' keys'
  | _, _ => []
  end.

Fixpoint keys_after (keys : list Z) (subs : list (list Z)) : list Z :=
  match keys, subs with
  | k :: keys', s :: subs' => k :: s ++ keys_after keys' subs'
  | _, _ => []
  end.

Lemma interleave_last (s : list Z) (k2 : list Z) (s2 : list (list Z)) :
  length s2 = length k2 -> interleave (s :: s2) k2 = s ++ keys_after k2 s2.
Proof.
  revert s s2. induction k2 as [| k k2 IH]; intros s s2 Hlen.
  - destruct s2; [| done]. simpl. by rewrite app_nil_r.
  - destruct s2 as [| s' s2]; [done |]. simpl in Hlen. simpl.
    f_equal. f_equal. rewrite <- IH by lia. done.
Qed.

Lemma interleave_at (s1 : list (list Z)) (k1 : list Z) s k2 s2 :
  length s1 = length k1 -> length s2 = length k2 ->
  interleave (s1 ++ s :: s2) (k1 ++ k2) = keys_before s1 k1 ++ s ++ keys_after k2 s2.
Proof.
  revert k1. induction s1 as [| s' s1 IH]; intros k1 H1 H2.
  - destruct k1; [| done]. simpl. by apply interleave_last.
  - destruct k1 as [| k k1]; [done |]. simpl in H1. simpl.
    rewrite <- app_assoc. simpl. f_equal. f_equal. apply IH; lia.
Qed.

(** A node's own keys are among its keys in order, and sorted with
    them. *)
Lemma interleave_keys (subs : list (list Z)) : forall keys,
  sorted (interleave subs keys) ->
  sorted keys /\ forall k, k ∈ keys -> k ∈ interleave subs keys.
Proof.
  induction subs as [| s subs IH]; intros keys Hs; [done |].
  destruct keys as [| k keys].
  - split; [apply sorted_nil |]. by intros k Hk%elem_of_nil.
  - simpl in Hs. apply sorted_app in Hs as (_ & Hs & _).
    apply sorted_cons in Hs as [Hs Hk].
    destruct (IH keys Hs) as [Hsk Hin]. split.
    + apply sorted_cons. split; [done |]. intros y Hy. apply Hk. by apply Hin.
    + intros y Hy. simpl. apply elem_of_app. right.
      apply elem_of_cons in Hy as [-> | Hy]; [by left |].
      right. by apply Hin.
Qed.

(** Keys below [key] before the child and above it after: so is
    everything in order before and after the child. *)
Lemma bounds_around (key : Z) s1 k1 k2 s2 (mid : list Z) :
  length s1 = length k1 -> length s2 = length k2 ->
  sorted (keys_before s1 k1 ++ mid ++ keys_after k2 s2) ->
  (forall k, k ∈ k1 -> k < key) -> (forall k, k ∈ k2 -> key < k) ->
  (forall x, x ∈ keys_before s1 k1 -> x < key)
  /\ (forall y, y ∈ keys_after k2 s2 -> key < y).
Proof.
  intros H1 H2 Hs Hlo Hhi. apply sorted_app in Hs as (Hs1 & Hs2 & _).
  apply sorted_app in Hs2 as (_ & Hs2 & _). split.
  - clear Hs2 Hhi H2. revert k1 H1 Hs1 Hlo.
    induction s1 as [| s s1 IH]; intros k1 H1 Hs1 Hlo x Hx.
    { by apply elem_of_nil in Hx. }
    destruct k1 as [| k k1]; [done |]. simpl in H1, Hs1, Hx.
    apply sorted_app in Hs1 as (_ & Hs1 & Hsk).
    apply sorted_cons in Hs1 as [Hs1 Hk].
    assert (k < key) as Hkk by (apply Hlo; by left).
    apply elem_of_app in Hx as [Hx | Hx].
    + specialize (Hsk x k Hx ltac:(by left)). lia.
    + apply elem_of_cons in Hx as [-> | Hx]; [done |].
      apply (IH k1); [lia | done | | done].
      intros k' Hk'. apply Hlo. by right.
  - destruct k2 as [| k k2]; [by intros y Hy%elem_of_nil |].
    destruct s2 as [| s s2]; [done |]. simpl in Hs2 |- *.
    apply sorted_cons in Hs2 as [_ Hk].
    assert (key < k) as Hkk by (apply Hhi; by left).
    intros y Hy. apply elem_of_cons in Hy as [-> | Hy]; [done |].
    specialize (Hk y Hy). lia.
Qed.

(** A key added to the keys of one child, where the order puts it. *)
Lemma sorted_insert_middle (key : Z) (pre m m' post : list Z) :
  sorted (pre ++ m ++ post) -> sorted m' -> m' ≡ₚ key :: m ->
  (forall x, x ∈ pre -> x < key) -> (forall y, y ∈ post -> key < y) ->
  sorted (pre ++ m' ++ post) /\ pre ++ m' ++ post ≡ₚ key :: pre ++ m ++ post.
Proof.
  intros Hs Hs' Hp Hlo Hhi.
  apply sorted_app in Hs as (Hs1 & Hs2 & H12).
  apply sorted_app in Hs2 as (Hsm & Hs3 & H23). split.
  - apply sorted_app. split_and!; [done | |].
    + apply sorted_app. split_and!; [done | done |].
      intros x y Hx Hy. rewrite Hp in Hx.
      apply elem_of_cons in Hx as [-> | Hx]; [by apply Hhi | by apply H23].
    + intros x y Hx Hy. apply elem_of_app in Hy as [Hy | Hy].
      * rewrite Hp in Hy. apply elem_of_cons in Hy as [-> | Hy]; [by apply Hlo |].
        apply H12; [done |]. apply elem_of_app. by left.
      * apply H12; [done |]. apply elem_of_app. by right.
  - rewrite Hp. simpl. symmetry. apply Permutation_middle.
Qed.

(** Two nodes joined around a key, or one node split at a key. *)
Lemma interleave_app (subs0 : list (list Z)) : forall keys0 k subs1 keys1,
  (subs0 = [] /\ subs1 = []) \/ length subs0 = S (length keys0) ->
  interleave (subs0 ++ subs1) (keys0 ++ k :: keys1)
  = interleave subs0 keys0 ++ k :: interleave subs1 keys1.
Proof.
  induction subs0 as [| s subs0 IH]; intros keys0 k subs1 keys1 H.
  - destruct H as [[_ ->] | H]; [reflexivity | discriminate H].
  - destruct H as [[H _] | H]; [discriminate H |]. simpl in H.
    destruct keys0 as [| k0 keys0].
    + destruct subs0; [| done]. done.
    + simpl. rewrite <- app_assoc. simpl. f_equal. f_equal.
      apply IH. right. simpl in H. lia.
Qed.

End BTreeLists.

(* ===================================================================== *)
(** * B-Tree: the node map under the tree operations *)
(* ===================================================================== *)

Module BTreeHeap.
Import BTree BTreeLists.

(** The operations write the [Parent] field and never read it: the node
    map is described with that field blanked. *)
Definition strip (n : BTreeNode) : BTreeNode := with_Parent "" n.

Definition erase (bt : BTree) : BTree := set_Nodes bt (strip <$> Nodes bt).

Definition node_id (k : Z) : string := "node-" +:+ pretty k.

(** The run of [m] from [bt] returns, with a value and a tree in [Q]. *)
Definition wp {A} (m : M A) (bt : BTree) (Q : A -> BTree -> Prop) : Prop :=
  exists a bt', m bt = Ret a bt' /\ Q a bt'.

Lemma node_id_inj (j k : Z) : node_id j = node_id k -> j = k.
Proof. unfold node_id. intros H. simplify_eq/=. by apply (inj pretty). Qed.

Lemma strip_with_Parent (p : string) (n : BTreeNode) :
  strip (with_Parent p n) = strip n.
Proof. by destruct n. Qed.

Lemma strip_with_Keys (ks : list Z) (n : BTreeNode) :
  strip (with_Keys ks n) = with_Keys ks (strip n).
Proof. by destruct n. Qed.

Lemma strip_with_Children (cs : list string) (n : BTreeNode) :
  strip (with_Children cs n) = with_Children cs (strip n).
Proof. by destruct n. Qed.

Lemma strip_inv (n N : BTreeNode) :
  strip n = N -> n = with_Parent (Parent n) N.
Proof. intros <-. by destruct n. Qed.

Lemma erase_lookup (bt : BTree) (id : string) :
  Nodes (erase bt) !! id = strip <$> Nodes bt !! id.
Proof. unfold erase. simpl. by rewrite lookup_fmap. Qed.

Lemma wp_ret {A} (a : A) bt (Q : A -> BTree -> Prop) :
  Q a bt -> wp (ret a) bt Q.
Proof. intros H. by exists a, bt. Qed.

Lemma wp_bind {A B} (m : M A) (k : A -> M B) bt (Q : B -> BTree -> Prop) :
  wp m bt (fun a bt' => wp (k a) bt' Q) -> wp (bind m k) bt Q.
Proof.
  intros (a & bt' & Hm & b & bt'' & Hk & HQ).
  exists b, bt''. unfold bind. by rewrite Hm.
Qed.

Lemma wp_mono {A} (m : M A) bt (Q Q' : A -> BTree -> Prop) :
  wp m bt Q -> (forall a bt', Q a bt' -> Q' a bt') -> wp m bt Q'.
Proof. intros (a & bt' & Hm & HQ) H. exists a, bt'. auto. Qed.

Lemma wp_get bt (Q : BTree -> BTree -> Prop) : Q bt bt -> wp get bt Q.
Proof. intros H. by exists bt, bt. Qed.

Lemma wp_must {A} (o : option A) (a : A) bt (Q : A -> BTree -> Prop) :
  o = Some a -> Q a bt -> wp (must o) bt Q.
Proof. intros -> H. by exists a, bt. Qed.

Lemma wp_node id N bt σ (Q : BTreeNode -> BTree -> Prop) :
  erase bt = σ -> Nodes σ !! id = Some N ->
  (forall p, Q (with_Parent p N) bt) -> wp (node id) bt Q.
Proof.
  intros <- HN HQ. rewrite erase_lookup in HN.
  apply fmap_Some in HN as (n & Hn & HN). symmetry in HN.
  apply strip_inv in HN. exists n, bt. split.
  - unfold node. by rewrite Hn.
  - rewrite HN. apply HQ.
Qed.

Lemma erase_update bt id n n' :
  Nodes bt !! id = Some n ->
  erase (set_Nodes bt (<[id := n']> (Nodes bt)))
  = set_Nodes (erase bt) (<[id := strip n']> (Nodes (erase bt))).
Proof. intros Hn. unfold erase, set_Nodes. simpl. by rewrite fmap_insert. Qed.

Lemma wp_update_Keys id ks N bt σ (Q : unit -> BTree -> Prop) :
  erase bt = σ -> Nodes σ !! id = Some N ->
  (forall bt', erase bt' = set_Nodes σ (<[id := with_Keys ks N]> (Nodes σ)) ->
               Q tt bt') ->
  wp (update id (with_Keys ks)) bt Q.
Proof.
  intros <- HN HQ. rewrite erase_lookup in HN.
  apply fmap_Some in HN as (n & Hn & ->).
  eexists tt, _. split.
  - unfold update. by rewrite Hn.
  - apply HQ. rewrite (erase_update _ _ n) by done.
    by rewrite strip_with_Keys.
Qed.

Lemma wp_update_Children id cs N bt σ (Q : unit -> BTree -> Prop) :
  erase bt = σ -> Nodes σ !! id = Some N ->
  (forall bt', erase bt'
               = set_Nodes σ (<[id := with_Children cs N]> (Nodes σ)) ->
               Q tt bt') ->
  wp (update id (with_Children cs)) bt Q.
Proof.
  intros <- HN HQ. rewrite erase_lookup in HN.
  apply fmap_Some in HN as (n & Hn & ->).
  eexists tt, _. split.
  - unfold update. by rewrite Hn.
  - apply HQ. rewrite (erase_update _ _ n) by done.
    by rewrite strip_with_Children.
Qed.

Lemma wp_update_Parent id p bt σ (Q : unit -> BTree -> Prop) :
  erase bt = σ -> is_Some (Nodes σ !! id) ->
  (forall bt', erase bt' = σ -> Q tt bt') ->
  wp (update id (with_Parent p)) bt Q.
Proof.
  intros <- [N HN] HQ. rewrite erase_lookup in HN.
  apply fmap_Some in HN as (n & Hn & ->).
  eexists tt, _. split.
  - unfold update. by rewrite Hn.
  - apply HQ. rewrite (erase_update _ _ n) by done.
    rewrite strip_with_Parent. unfold set_Nodes. simpl.
    rewrite insert_id; [done |]. by rewrite lookup_fmap, Hn.
Qed.

Lemma wp_createNode isLeaf bt o r h s (Q : string -> BTree -> Prop) :
  erase bt = mkBTree o r h s ->
  (forall bt',
     erase bt' = mkBTree o r (<[node_id (s + 1) :=
                                  mkNode (node_id (s + 1)) [] [] isLeaf ""]> h)
                         (s + 1) ->
     Q (node_id (s + 1)) bt') ->
  wp (createNode isLeaf) bt Q.
Proof.
  intros E HQ. destruct bt as [o' r' h' s']. unfold erase, set_Nodes in E.
  simpl in E. simplify_eq. eexists _, _. split; [reflexivity |].
  simpl. apply HQ. unfold erase, set_Nodes. simpl. by rewrite fmap_insert.
Qed.

Lemma wp_set_RootID id bt o r h s (Q : unit -> BTree -> Prop) :
  erase bt = mkBTree o r h s ->
  (forall bt', erase bt' = mkBTree o id h s -> Q tt bt') ->
  wp (set_RootID id) bt Q.
Proof.
  intros E HQ. destruct bt as [o' r' h' s']. unfold erase, set_Nodes in E.
  simpl in E. simplify_eq. eexists _, _. split; [reflexivity |].
  by apply HQ.
Qed.

Lemma wp_delete_node id bt σ (Q : unit -> BTree -> Prop) :
  erase bt = σ ->
  (forall bt', erase bt' = set_Nodes σ (delete id (Nodes σ)) -> Q tt bt') ->
  wp (delete_node id) bt Q.
Proof.
  intros <- HQ. eexists _, _. split; [reflexivity |].
  apply HQ. unfold erase, set_Nodes. simpl. by rewrite fmap_delete.
Qed.

Lemma wp_reparent ids p : forall bt σ (Q : unit -> BTree -> Prop),
  erase bt = σ -> (forall id, id ∈ ids -> is_Some (Nodes σ !! id)) ->
  (forall bt', erase bt' = σ -> Q tt bt') ->
  wp (reparent ids p) bt Q.
Proof.
  induction ids as [| c ids IH]; intros bt σ Q E Hin HQ; simpl.
  - apply wp_ret. by apply HQ.
  - apply wp_bind. eapply wp_update_Parent; [exact E | apply Hin; by left |].
    intros bt1 E1. eapply IH; [exact E1 | | exact HQ].
    intros id Hid. apply Hin. by right.
Qed.

Lemma erase_Order bt o r h s : erase bt = mkBTree o r h s -> Order bt = o.
Proof. destruct bt. unfold erase, set_Nodes. simpl. congruence. Qed.

Lemma erase_RootID bt o r h s : erase bt = mkBTree o r h s -> RootID bt = r.
Proof. destruct bt. unfold erase, set_Nodes. simpl. congruence. Qed.

Lemma erase_Nodes bt o r h s id N :
  erase bt = mkBTree o r h s -> h !! id = Some N ->
  exists p, Nodes bt !! id = Some (with_Parent p N).
Proof.
  intros E HN. assert (Nodes (erase bt) !! id = Some N) as H by by rewrite E.
  rewrite erase_lookup in H. apply fmap_Some in H as (n & Hn & HN').
  symmetry in HN'. apply strip_inv in HN'. exists (Parent n). by rewrite <- HN'.
Qed.

End BTreeHeap.

(* ===================================================================== *)
(** * B-Tree: the tree a node map holds, at even order *)
(* ===================================================================== *)

Module BTreeFacts.
Import BTree BTreeLists BTreeHeap.

Ltac norm :=
  unfold set_Nodes, with_Keys, with_Children, with_Parent;
  cbn [Nodes Order RootID nodeSeq ID Keys Children IsLeaf Parent].

Ltac norm_in H :=
  unfold set_Nodes, with_Keys, with_Children, with_Parent in H;
  cbn [Nodes Order RootID nodeSeq ID Keys Children IsLeaf Parent] in H.

Ltac lookup :=
  norm;
  repeat first [ rewrite lookup_insert_eq
               | rewrite lookup_insert_ne by (done || congruence) ];
  first [ reflexivity | eassumption ].

Ltac wp_read E :=
  apply wp_bind; eapply wp_node; [ exact E | lookup | intros ?p; norm ].

Ltac wp_opt :=
  apply wp_bind; eapply wp_must; [ try done | ].

Ltac wp_keys E E' :=
  apply wp_bind; eapply wp_update_Keys;
  [ exact E | lookup | intros ?bt E'; norm_in E' ].

Ltac wp_children E E' :=
  apply wp_bind; eapply wp_update_Children;
  [ exact E | lookup | intros ?bt E'; norm_in E' ].

(** A node with its keys and its subtrees. *)
Unset Elimination Schemes.
Inductive tree : Type := T (id : string) (keys : list Z) (kids : list tree).
Set Elimination Schemes.

Definition root_id (tr : tree) : string := match tr with T id _ _ => id end.
Definition node_keys (tr : tree) : list Z :=
  match tr with T _ keys _ => keys end.
Definition node_kids (tr : tree) : list tree :=
  match tr with T _ _ kids => kids end.

(** The keys of a tree in order. *)
Fixpoint tkeys (tr : tree) : list Z :=
  match tr with T _ keys kids => interleave (tkeys <$> kids) keys end.

(** The ids of the nodes of a tree. *)
Fixpoint ids (tr : tree) : list string :=
  match tr with T id _ kids => id :: concat (ids <$> kids) end.

Definition kids_ids (l : list tree) : list string := concat (ids <$> l).

(** Every id of the node map was issued by [createNode]. *)
Definition heap_ok (h : gmap string BTreeNode) (s : Z) : Prop :=
  0 <= s
  /\ forall id, is_Some (h !! id) -> exists k, 1 <= k <= s /\ id = node_id k.

(** From tree [tr] in [h] to tree [tr'] in [h']: nodes outside both trees
    are untouched, nodes dropped from the tree are dropped from the map,
    and nodes that joined the tree are new in the map. *)
Definition evolves (h : gmap string BTreeNode) (tr : tree)
    (h' : gmap string BTreeNode) (tr' : tree) : Prop :=
  (forall x, x ∉ ids tr' -> x ∉ ids tr -> h' !! x = h !! x)
  /\ (forall x, x ∉ ids tr' -> x ∈ ids tr -> h' !! x = None)
  /\ (forall x, x ∈ ids tr' -> x ∈ ids tr \/ h !! x = None).

Section WithDegree.


(** The order is even: [2 * t], a full node holds [2 * t - 1] keys and a
    split leaves [t - 1] on either side of the median. *)
Variable t : nat.
Hypothesis Ht : (2 <= t)%nat.

Definition order : Z := Z.of_nat (2 * t).

Lemma mid_eq : (order - 1) / 2 = Z.of_nat (t - 1).
Proof using Ht.
  unfold order. symmetry. apply (Z.div_unique _ _ _ 1); lia.
Qed.

(** [splitChild] on a full child [fid] at index [i] of [pid] returns: the
    child keeps the keys and children before the median, a new node gets
    those after it, and the parent takes the median key and the new id. *)
Lemma splitChild_spec bt r h s pid pkeys pcids pleaf (i : nat)
      fid fkeys fcids fleaf :
  erase bt = mkBTree order r h s ->
  h !! pid = Some (mkNode pid pkeys pcids pleaf "") ->
  pcids !! i = Some fid ->
  h !! fid = Some (mkNode fid fkeys fcids fleaf "") ->
  pid <> fid ->
  h !! node_id (s + 1) = None ->
  (i <= length pkeys)%nat ->
  length fkeys = (2 * t - 1)%nat ->
  (if fleaf then fcids = []
   else length fcids = (2 * t)%nat
        /\ forall c, c ∈ fcids -> is_Some (h !! c)) ->
  wp (splitChild pid (Z.of_nat i)) bt (fun _ bt' =>
    exists med h',
      fkeys !! (t - 1)%nat = Some med
      /\ erase bt' = mkBTree order r h' (s + 1)
      /\ h' !! pid
         = Some (mkNode pid (take i pkeys ++ med :: drop i pkeys)
                        (take (S i) pcids ++ node_id (s + 1) :: drop (S i) pcids)
                        pleaf "")
      /\ h' !! fid
         = Some (mkNode fid (take (t - 1) fkeys) (take t fcids) fleaf "")
      /\ h' !! node_id (s + 1)
         = Some (mkNode (node_id (s + 1)) (drop t fkeys) (drop t fcids)
                        fleaf "")
      /\ forall id, id <> pid -> id <> fid -> id <> node_id (s + 1) ->
                    h' !! id = h !! id).
Proof using Ht.
  intros E HP Hi HF Hne Hnew Hile Hlen Hkids.
  assert (node_id (s + 1) <> pid) as Hn1 by (intros Heq; rewrite Heq in Hnew; congruence).
  assert (node_id (s + 1) <> fid) as Hn2 by (intros Heq; rewrite Heq in Hnew; congruence).
  destruct (lookup_lt_is_Some_2 fkeys (t - 1)%nat) as [med Hmed]; [lia |].
  unfold splitChild.
  wp_read E. wp_opt. { by rewrite idx_nat. }
  wp_read E.
  apply wp_bind. eapply wp_createNode; [exact E |]. intros bt1 E1.
  apply wp_bind. eapply wp_update_Parent; [exact E1 | eexists; lookup |].
  intros bt2 E2.
  apply wp_bind. apply wp_get. rewrite (erase_Order _ _ _ _ _ E2), mid_eq.
  wp_opt. { by rewrite idx_nat. }
  replace (Z.of_nat (t - 1) + 1) with (Z.of_nat t) by lia.
  wp_opt. { apply slice_from_nat. lia. }
  wp_keys E2 E3.
  wp_opt. { apply slice_to_nat. lia. }
  wp_keys E3 E4.
  destruct fleaf.
  - subst fcids. apply wp_bind, wp_ret.
    wp_read E4. wp_opt. { by apply insertAt_nat. }
    wp_keys E4 E5. wp_read E5.
    replace (Z.of_nat i + 1) with (Z.of_nat (S i)) by lia.
    wp_opt. { apply insertAt_nat. apply lookup_lt_Some in Hi. lia. }
    eapply wp_update_Children; [exact E5 | lookup |]. intros bt6 E6.
    norm_in E6.
    eexists med, _. split; [done |]. split; [exact E6 |].
    rewrite take_nil, drop_nil. split_and!; try lookup.
    intros id H1 H2 H3. by rewrite !lookup_insert_ne by done.
  - destruct Hkids as [Hclen Hcin]. apply wp_bind.
    wp_opt. { apply slice_from_nat. lia. }
    wp_children E4 E5.
    wp_opt. { apply slice_to_nat. lia. }
    wp_children E5 E6.
    eapply wp_reparent; [exact E6 | |].
    { intros c Hc. cbn [Nodes].
      apply in_drop in Hc.
      repeat (apply lookup_insert_is_Some'; right). by apply Hcin. }
    intros bt7 E7.
    wp_read E7. wp_opt. { by apply insertAt_nat. }
    wp_keys E7 E8. wp_read E8.
    replace (Z.of_nat i + 1) with (Z.of_nat (S i)) by lia.
    wp_opt. { apply insertAt_nat. apply lookup_lt_Some in Hi. lia. }
    eapply wp_update_Children; [exact E8 | lookup |]. intros bt9 E9.
    norm_in E9.
    eexists med, _. split; [done |]. split; [exact E9 |].
    split_and!; try lookup.
    intros id H1 H2 H3. by rewrite !lookup_insert_ne by done.
Qed.


(** The key count of a node that is not the root. *)
Definition bounded (tr : tree) : Prop :=
  (t - 1 <= length (node_keys tr) <= 2 * t - 1)%nat.

(** [tr] is stored in [h] with all its leaves at depth [n]; the nodes
    below the root are within the key bounds. *)
Fixpoint shaped (h : gmap string BTreeNode) (n : nat) (tr : tree)
  {struct n} : Prop :=
  match n with
  | O => node_kids tr = []
         /\ h !! root_id tr
            = Some (mkNode (root_id tr) (node_keys tr) [] true "")
  | S n' => h !! root_id tr
            = Some (mkNode (root_id tr) (node_keys tr)
                           (root_id <$> node_kids tr) false "")
            /\ length (node_kids tr) = S (length (node_keys tr))
            /\ Forall (fun c => shaped h n' c /\ bounded c) (node_kids tr)
  end.

Lemma in_kids_ids (x : string) (l : list tree) :
  x ∈ kids_ids l <-> exists c, c ∈ l /\ x ∈ ids c.
Proof.
  unfold kids_ids. induction l as [| c l IH]; simpl.
  - split; [by intros H%elem_of_nil | by intros (c & H%elem_of_nil & _)].
  - rewrite elem_of_app, IH. split.
    + intros [H | (c' & Hc & H)]; [exists c; split; [by left | done] |].
      exists c'. split; [by right | done].
    + intros (c' & Hc & H). apply elem_of_cons in Hc as [-> | Hc]; [by left |].
      right. eauto.
Qed.

Lemma kids_ids_app (l1 l2 : list tree) :
  kids_ids (l1 ++ l2) = kids_ids l1 ++ kids_ids l2.
Proof. unfold kids_ids. by rewrite fmap_app, concat_app. Qed.

Lemma kids_ids_cons (c : tree) (l : list tree) :
  kids_ids (c :: l) = ids c ++ kids_ids l.
Proof. done. Qed.

Lemma ids_T id keys kids : ids (T id keys kids) = id :: kids_ids kids.
Proof. done. Qed.

Lemma tkeys_T id keys kids :
  tkeys (T id keys kids) = interleave (tkeys <$> kids) keys.
Proof. done. Qed.

Lemma shaped_node h n tr :
  shaped h n tr ->
  h !! root_id tr
  = Some (mkNode (root_id tr) (node_keys tr) (root_id <$> node_kids tr)
                 (bool_decide (n = 0%nat)) "").
Proof.
  destruct n; simpl.
  - intros [-> H]. done.
  - intros (H & _). done.
Qed.

Lemma shaped_dom h n : forall tr x,
  shaped h n tr -> x ∈ ids tr -> is_Some (h !! x).
Proof.
  induction n as [| n IH]; intros [id keys kids] x Hs Hx; simpl in Hs.
  - destruct Hs as [-> Hs]. apply list_elem_of_singleton in Hx as ->. eauto.
  - destruct Hs as (Hs & _ & Hk). rewrite ids_T in Hx.
    apply elem_of_cons in Hx as [-> | Hx]; [eauto |].
    apply in_kids_ids in Hx as (c & Hc & Hx).
    rewrite Forall_forall in Hk. destruct (Hk c Hc) as [Hsc _]. eauto.
Qed.

Lemma shaped_frame h h' n : forall tr,
  shaped h n tr -> (forall x, x ∈ ids tr -> h' !! x = h !! x) ->
  shaped h' n tr.
Proof.
  induction n as [| n IH]; intros [id keys kids] Hs Hf; simpl in Hs |- *.
  - destruct Hs as [-> Hs]. split; [done |]. rewrite Hf; [done | by left].
  - destruct Hs as (Hs & Hl & Hk). split_and!; [| done |].
    + rewrite Hf; [done | by left].
    + rewrite Forall_forall in Hk |- *. intros c Hc.
      destruct (Hk c Hc) as [Hsc Hb]. split; [| done].
      apply IH; [done |]. intros x Hx. apply Hf. rewrite ids_T. right.
      apply in_kids_ids. eauto.
Qed.

Lemma evolves_refl h tr : evolves h tr h tr.
Proof. split_and!; [done | done | by left]. Qed.

Lemma evolves_trans h tr h1 tr1 h2 tr2 :
  evolves h tr h1 tr1 -> evolves h1 tr1 h2 tr2 -> evolves h tr h2 tr2.
Proof.
  intros (A1 & B1 & C1) (A2 & B2 & C2). split_and!.
  - intros x H2 H0. destruct (decide (x ∈ ids tr1)) as [H1 | H1].
    + rewrite (B2 x H2 H1). destruct (C1 x H1) as [? | ->]; done.
    + rewrite (A2 x H2 H1). by apply A1.
  - intros x H2 H0. destruct (decide (x ∈ ids tr1)) as [H1 | H1].
    + by apply B2.
    + rewrite (A2 x H2 H1). by apply B1.
  - intros x H2. destruct (C2 x H2) as [H1 | H1].
    + by apply C1.
    + destruct (decide (x ∈ ids tr)) as [H0 | H0]; [by left |]. right.
      destruct (decide (x ∈ ids tr1)) as [H1' | H1'].
      * destruct (C1 x H1'); done.
      * by rewrite <- (A1 x H1' H0).
Qed.

(** The ids of a node with one child singled out. *)
Lemma NoDup_ids_at id keys l1 c l2 :
  NoDup (ids (T id keys (l1 ++ c :: l2))) <->
  ((id ∉ kids_ids l1) /\ (id ∉ ids c) /\ (id ∉ kids_ids l2))
  /\ (NoDup (kids_ids l1) /\ NoDup (ids c) /\ NoDup (kids_ids l2))
  /\ (forall x, x ∈ kids_ids l1 -> x ∉ ids c)
  /\ (forall x, x ∈ kids_ids l1 -> x ∉ kids_ids l2)
  /\ (forall x, x ∈ ids c -> x ∉ kids_ids l2).
Proof.
  rewrite ids_T, kids_ids_app, kids_ids_cons.
  rewrite NoDup_cons, NoDup_app, NoDup_app.
  rewrite !not_elem_of_app.
  setoid_rewrite not_elem_of_app. firstorder.
Qed.

Lemma in_ids_at x id keys l1 c l2 :
  x ∈ ids (T id keys (l1 ++ c :: l2)) <->
  x = id \/ x ∈ kids_ids l1 \/ x ∈ ids c \/ x ∈ kids_ids l2.
Proof.
  rewrite ids_T, kids_ids_app, kids_ids_cons.
  by rewrite elem_of_cons, !elem_of_app.
Qed.

Lemma shaped_kids_dom h n l x :
  Forall (fun c => shaped h n c /\ bounded c) l -> x ∈ kids_ids l ->
  is_Some (h !! x).
Proof.
  intros Hk Hx. apply in_kids_ids in Hx as (c & Hc & Hx).
  rewrite Forall_forall in Hk. destruct (Hk c Hc) as [Hs _].
  by eapply shaped_dom.
Qed.

Lemma shaped_kids_frame h h' n l :
  Forall (fun c => shaped h n c /\ bounded c) l ->
  (forall x, x ∈ kids_ids l -> h' !! x = h !! x) ->
  Forall (fun c => shaped h' n c /\ bounded c) l.
Proof.
  rewrite !Forall_forall. intros Hk Hf c Hc.
  destruct (Hk c Hc) as [Hs Hb]. split; [| done].
  eapply shaped_frame; [done |]. intros x Hx. apply Hf.
  apply in_kids_ids. eauto.
Qed.

(** A change inside one child, seen from its parent. *)
Lemma lift_child h h' n id keys l1 c l2 c' :
  shaped h (S n) (T id keys (l1 ++ c :: l2)) ->
  NoDup (ids (T id keys (l1 ++ c :: l2))) ->
  shaped h' n c' -> bounded c' -> NoDup (ids c') ->
  root_id c' = root_id c -> evolves h c h' c' ->
  shaped h' (S n) (T id keys (l1 ++ c' :: l2))
  /\ NoDup (ids (T id keys (l1 ++ c' :: l2)))
  /\ evolves h (T id keys (l1 ++ c :: l2)) h' (T id keys (l1 ++ c' :: l2)).
Proof.
  intros (Hid & Hlen & Hk) Hnd Hs' Hb' Hnd' Hroot (A & B & C).
  simpl in Hid, Hlen, Hk.
  apply Forall_app in Hk as [Hk1 Hk2]. apply Forall_cons in Hk2 as [[Hc Hbc] Hk2].
  apply NoDup_ids_at in Hnd as ((I1 & I2 & I3) & (N1 & N2 & N3) & D1 & D2 & D3).
  assert (forall x, x ∈ kids_ids l1 -> is_Some (h !! x)) as Dom1
    by (intros x; by eapply shaped_kids_dom).
  assert (forall x, x ∈ kids_ids l2 -> is_Some (h !! x)) as Dom2
    by (intros x; by eapply shaped_kids_dom).
  assert (forall x, x ∈ ids c' -> is_Some (h !! x) -> x ∈ ids c) as C'.
  { intros x Hx [v Hv]. destruct (C x Hx) as [? | Hn]; [done | congruence]. }
  assert (id ∉ ids c') as I2' by (intros Hx; apply I2, C'; eauto).
  assert (forall x, x ∈ kids_ids l1 -> x ∉ ids c') as D1'.
  { intros x Hx Hx'. apply (D1 x Hx), C'; eauto. }
  assert (forall x, x ∈ ids c' -> x ∉ kids_ids l2) as D3'.
  { intros x Hx Hx'. apply (D3 x); [| done]. apply C'; eauto. }
  split_and!.
  - simpl. split_and!.
    + rewrite (A id I2' I2), Hid. do 2 f_equal.
      rewrite !fmap_app, !fmap_cons. by rewrite Hroot.
    + rewrite length_app in Hlen |- *. simpl in *. lia.
    + apply Forall_app. split; [| apply Forall_cons; split; [done |]].
      * eapply shaped_kids_frame; [done |]. intros x Hx.
        apply A; [by apply D1' | by apply D1].
      * eapply shaped_kids_frame; [done |]. intros x Hx.
        apply A; [intros Hx'; by apply (D3' x) | intros Hx'; by apply (D3 x)].
  - apply NoDup_ids_at. split_and!; done.
  - split_and!.
    + intros x Hx' Hx. rewrite in_ids_at in Hx, Hx'. apply A; tauto.
    + intros x Hx' Hx. rewrite in_ids_at in Hx, Hx'. apply B; tauto.
    + intros x Hx'. rewrite in_ids_at in Hx'. rewrite in_ids_at.
      destruct Hx' as [? | [? | [Hx' | ?]]]; [tauto.. | | tauto].
      destruct (C x Hx'); tauto.
Qed.

(** The two halves of a full child and the parent that took its median
    key. *)
Lemma split_shape h h1 n id k1 k2 l1 l2 cid ckeys ckids new med :
  let c := T cid ckeys ckids in
  let L := T cid (take (t - 1) ckeys) (take t ckids) in
  let R := T new (drop t ckeys) (drop t ckids) in
  let tr := T id (k1 ++ k2) (l1 ++ c :: l2) in
  let tr1 := T id (k1 ++ med :: k2) (l1 ++ L :: R :: l2) in
  shaped h (S n) tr -> NoDup (ids tr) -> length l1 = length k1 ->
  length ckeys = (2 * t - 1)%nat -> ckeys !! (t - 1)%nat = Some med ->
  h !! new = None ->
  h1 !! id = Some (mkNode id (k1 ++ med :: k2)
                          (root_id <$> (l1 ++ L :: R :: l2)) false "") ->
  h1 !! cid = Some (mkNode cid (take (t - 1) ckeys)
                           (take t (root_id <$> ckids))
                           (bool_decide (n = 0%nat)) "") ->
  h1 !! new = Some (mkNode new (drop t ckeys) (drop t (root_id <$> ckids))
                           (bool_decide (n = 0%nat)) "") ->
  (forall x, x <> id -> x <> cid -> x <> new -> h1 !! x = h !! x) ->
  shaped h1 (S n) tr1 /\ NoDup (ids tr1) /\ evolves h tr h1 tr1
  /\ tkeys tr1 = tkeys tr
  /\ tkeys c = tkeys L ++ med :: tkeys R.
Proof.
  intros c L R tr tr1 (Hid & Hlen & Hk) Hnd Hl1 Hck Hmed Hnew H1id H1c H1n Hfr.
  simpl in Hid, Hlen, Hk.
  apply Forall_app in Hk as [Hk1 Hk2].
  apply Forall_cons in Hk2 as [[Hc Hbc] Hk2].
  assert (Hnd' := Hnd).
  apply NoDup_ids_at in Hnd' as ((I1 & I2 & I3) & (N1 & N2 & N3) & D1 & D2 & D3).
  assert (forall x, x ∈ ids tr -> is_Some (h !! x)) as Dom.
  { intros x. apply (shaped_dom h (S n) tr). simpl. split_and!; [done.. |].
    apply Forall_app. split; [done |]. by apply Forall_cons. }
  assert (forall x, x ∈ ids tr -> x <> new) as Hneq.
  { intros x Hx ->. destruct (Dom _ Hx) as [v Hv]. congruence. }
  assert (cid ∈ ids c) as Hcid by (by left).
  assert (ckids = take t ckids ++ drop t ckids) as Hkids
    by (by rewrite take_drop).
  assert (ckeys = take (t - 1) ckeys ++ med :: drop t ckeys) as Hkeys.
  { rewrite <- (take_drop_middle ckeys (t - 1) med) at 1 by done.
    do 3 f_equal. lia. }
  assert (ids tr1 ≡ₚ new :: ids tr) as Hperm.
  { assert (kids_ids ckids
            = kids_ids (take t ckids) ++ kids_ids (drop t ckids)) as HXY
      by (by rewrite <- kids_ids_app, take_drop).
    unfold tr1, tr, L, R, c.
    repeat rewrite ?ids_T, ?kids_ids_app, ?kids_ids_cons. rewrite HXY.
    set (A := kids_ids l1). set (B := kids_ids l2).
    set (X := kids_ids (take t ckids)). set (Y := kids_ids (drop t ckids)).
    replace (id :: A ++ (cid :: X) ++ (new :: Y) ++ B)
      with ((id :: A ++ cid :: X) ++ new :: (Y ++ B))
      by (simpl; by rewrite <- !app_assoc).
    rewrite <- Permutation_middle. simpl. by rewrite <- !app_assoc. }
  assert (forall x, x ∈ kids_ids ckids ->
                    x <> id /\ x <> cid /\ x <> new) as Hsub.
  { intros x Hx. assert (x ∈ ids c) as Hxc by (unfold c; rewrite ids_T; by right).
    split_and!.
    - intros ->. done.
    - intros ->. unfold c in N2. rewrite ids_T in N2.
      by apply NoDup_cons in N2 as [N2 _].
    - apply Hneq. apply in_ids_at. auto. }
  assert (forall l, (forall x, x ∈ l -> x ∈ ckids) ->
            Forall (fun d => shaped h (n - 1) d /\ bounded d) ckids ->
            Forall (fun d => shaped h1 (n - 1) d /\ bounded d) l) as Hhalf.
  { intros l Hl Hall. rewrite Forall_forall in Hall |- *. intros d Hd.
    destruct (Hall d (Hl d Hd)) as [Hsd Hbd]. split; [| done].
    eapply shaped_frame; [done |]. intros x Hx.
    destruct (Hsub x) as (? & ? & ?); [| by apply Hfr].
    apply in_kids_ids. exists d. split; [by apply Hl | done]. }
  assert (shaped h1 n L /\ shaped h1 n R) as [HL HR].
  { destruct n as [| n']; simpl in Hc |- *.
    - destruct Hc as [-> Hc]. rewrite take_nil, drop_nil in *. simpl in *.
      rewrite take_nil in H1c. rewrite drop_nil in H1n. done.
    - destruct Hc as (Hc & Hcl & Hck'). simpl in Hcl.
      rewrite fmap_take, fmap_drop. split; (split_and!; [done | |]).
      + rewrite !length_take. lia.
      + replace n' with (S n' - 1)%nat by lia. apply Hhalf.
        * intros x. apply in_take.
        * by replace (S n' - 1)%nat with n' by lia.
      + rewrite !length_drop. lia.
      + replace n' with (S n' - 1)%nat by lia. apply Hhalf.
        * intros x. apply in_drop.
        * by replace (S n' - 1)%nat with n' by lia. }
  assert (tkeys c = tkeys L ++ med :: tkeys R) as Hsplit.
  { unfold c, L, R. rewrite !tkeys_T. rewrite Hkids at 1. rewrite Hkeys at 1.
    rewrite fmap_app. apply interleave_app.
    rewrite !length_fmap, !length_take.
    destruct n as [| n']; simpl in Hc.
    + left. destruct Hc as [-> _]. by rewrite take_nil, drop_nil.
    + right. destruct Hc as (_ & Hcl & _). simpl in Hcl. lia. }
  assert (bounded L /\ bounded R) as [HbL HbR].
  { unfold bounded, L, R. simpl. rewrite length_take, length_drop. lia. }
  split_and!.
  - simpl. split_and!; [done | |].
    + rewrite length_app in Hlen |- *. rewrite length_app in Hlen |- *.
      simpl in *. lia.
    + apply Forall_app. split; [| repeat (apply Forall_cons; split; [done |])].
      * eapply shaped_kids_frame; [done |]. intros x Hx. apply Hfr.
        -- intros ->. done.
        -- intros ->. by apply (D1 cid).
        -- apply Hneq. apply in_ids_at. auto.
      * eapply shaped_kids_frame; [done |]. intros x Hx. apply Hfr.
        -- intros ->. done.
        -- intros ->. by apply (D3 cid).
        -- apply Hneq. apply in_ids_at. auto.
  - rewrite Hperm. apply NoDup_cons. split; [| done].
    intros Hx. by apply (Hneq new).
  - split_and!.
    + intros x Hx1 Hx. rewrite Hperm in Hx1.
      apply not_elem_of_cons in Hx1 as [Hx1 _]. apply Hfr; [| | done].
      * intros ->. apply Hx. by left.
      * intros ->. apply Hx. apply in_ids_at. auto.
    + intros x Hx1 Hx. exfalso. apply Hx1. rewrite Hperm. by right.
    + intros x Hx1. rewrite Hperm in Hx1.
      apply elem_of_cons in Hx1 as [-> | Hx1]; auto.
  - unfold tr1, tr. rewrite !tkeys_T, !fmap_app, !fmap_cons.
    assert (length (tkeys <$> l1) = length k1) as HS1
      by (by rewrite length_fmap).
    assert (length (tkeys <$> l2) = length k2) as HS2.
    { rewrite length_fmap. rewrite !length_app in Hlen. simpl in Hlen. lia. }
    rewrite (interleave_at _ _ (tkeys c)) by done.
    rewrite (interleave_at (tkeys <$> l1) k1 _ (med :: k2))
      by (done || (simpl; lia)).
    simpl keys_after. rewrite Hsplit, <- !app_assoc. done.
  - done.
Qed.

(** ** Insertion *)

(** What [insertNonFull] leaves of a subtree [tr] stored in [h]. *)
Definition inserted (n : nat) (key : Z) (r : string)
    (h : gmap string BTreeNode) (s : Z) (tr : tree) (bt' : BTree) : Prop :=
  exists h' s' tr',
    erase bt' = mkBTree order r h' s'
    /\ heap_ok h' s' /\ s <= s'
    /\ root_id tr' = root_id tr
    /\ shaped h' n tr' /\ NoDup (ids tr')
    /\ sorted (tkeys tr') /\ tkeys tr' ≡ₚ key :: tkeys tr
    /\ (length (node_keys tr) <= length (node_keys tr') <= 2 * t - 1)%nat
    /\ evolves h tr h' tr'.

Lemma heap_ok_fresh h s : heap_ok h s -> h !! node_id (s + 1) = None.
Proof.
  intros [_ Hok]. destruct (h !! node_id (s + 1)) eqn:E; [| done].
  destruct (Hok (node_id (s + 1))) as (k & Hk & Heq); [eauto |].
  apply node_id_inj in Heq. lia.
Qed.

Lemma insertNonFull_leaf fuel tr bt r h s key :
  erase bt = mkBTree order r h s -> heap_ok h s ->
  shaped h 0 tr -> sorted (tkeys tr) -> key ∉ tkeys tr ->
  (length (node_keys tr) < 2 * t - 1)%nat ->
  wp (insertNonFull (S fuel) (root_id tr) key) bt
     (fun _ bt' => inserted 0 key r h s tr bt').
Proof.
  destruct tr as [id keys kids]. intros E Hok [Hkids Hid] Hs Hkey Hlen.
  simpl in Hkids, Hid, Hlen. subst kids. rewrite tkeys_T in Hs, Hkey.
  simpl in Hs, Hkey.
  destruct (insert_in_leaf_spec key keys Hs Hkey) as (Hs' & Hp' & Hl').
  simpl insertNonFull. wp_read E.
  eapply wp_update_Keys; [exact E | lookup |]. intros bt1 E1. norm_in E1.
  eexists _, s, (T id (insert_in_leaf key keys) []).
  split; [exact E1 |]. split_and!; try done.
  - destruct Hok as [Hs0 Hok]. split; [done |]. intros x [v Hx]. apply Hok.
    destruct (decide (x = id)) as [-> |]; [eauto |].
    rewrite lookup_insert_ne in Hx by done. eauto.
  - simpl. split; [done |]. lookup.
  - apply NoDup_singleton.
  - simpl. lia.
  - simpl. lia.
  - split_and!.
    + intros x Hx _. rewrite lookup_insert_ne; [done |].
      intros ->. apply Hx. by left.
    + intros x Hx Hx'. done.
    + intros x Hx. by left.
Qed.

Lemma kids_at {A} (l : list A) (i : nat) (c : A) :
  l !! i = Some c ->
  l = take i l ++ c :: drop (S i) l /\ length (take i l) = i.
Proof.
  intros H. split; [by rewrite take_drop_middle |].
  apply lookup_lt_Some in H. rewrite length_take. lia.
Qed.

(** The keys of a node around child [length l1], in order. *)
Lemma tkeys_at id k1 k2 l1 c l2 :
  length l1 = length k1 -> length l2 = length k2 ->
  tkeys (T id (k1 ++ k2) (l1 ++ c :: l2))
  = keys_before (tkeys <$> l1) k1 ++ tkeys c ++ keys_after k2 (tkeys <$> l2).
Proof.
  intros H1 H2. rewrite tkeys_T, fmap_app, fmap_cons.
  apply interleave_at; by rewrite length_fmap.
Qed.

Lemma child_keys key id k1 k2 l1 c l2 :
  length l1 = length k1 -> length l2 = length k2 ->
  sorted (tkeys (T id (k1 ++ k2) (l1 ++ c :: l2))) ->
  key ∉ tkeys (T id (k1 ++ k2) (l1 ++ c :: l2)) ->
  sorted (tkeys c) /\ key ∉ tkeys c.
Proof.
  intros H1 H2. rewrite tkeys_at by done. intros Hs Hk.
  apply sorted_app in Hs as (_ & Hs & _). apply sorted_app in Hs as (Hs & _).
  split; [done |]. intros Hin. apply Hk.
  apply elem_of_app. right. apply elem_of_app. by left.
Qed.

(** An insertion below child [length l1], seen from the node. *)
Lemma descend n key r h s id k1 k2 l1 c l2 bt' :
  let tr := T id (k1 ++ k2) (l1 ++ c :: l2) in
  shaped h (S n) tr -> NoDup (ids tr) ->
  length l1 = length k1 -> (length (k1 ++ k2) <= 2 * t - 1)%nat ->
  sorted (tkeys tr) ->
  (forall k, k ∈ k1 -> k < key) -> (forall k, k ∈ k2 -> key < k) ->
  inserted n key r h s c bt' ->
  inserted (S n) key r h s tr bt'.
Proof.
  intros tr Hsh Hnd H1 Hfull Hs Hlo Hhi
    (h' & s' & c' & E & Hok & Hss & Hroot & Hsh' & Hnd' & Hs' & Hp' & Hl' & Hev).
  assert (length l2 = length k2) as H2.
  { destruct Hsh as (_ & Hlen & _). simpl in Hlen.
    rewrite !length_app in Hlen. simpl in Hlen. lia. }
  assert (bounded c) as Hbc.
  { destruct Hsh as (_ & _ & Hk). simpl in Hk.
    apply Forall_app in Hk as [_ Hk]. by apply Forall_cons in Hk as [[_ ?] _]. }
  assert (bounded c') as Hbc' by (unfold bounded in *; lia).
  destruct (lift_child h h' n id (k1 ++ k2) l1 c l2 c') as (Hsh1 & Hnd1 & Hev1);
    try done.
  unfold tr in Hs. rewrite tkeys_at in Hs by done.
  destruct (bounds_around key (tkeys <$> l1) k1 k2 (tkeys <$> l2) (tkeys c))
    as [Hpre Hpost]; try done; try by rewrite length_fmap.
  destruct (sorted_insert_middle key _ _ (tkeys c') _ Hs Hs' Hp' Hpre Hpost)
    as [Hsorted Hperm].
  exists h', s', (T id (k1 ++ k2) (l1 ++ c' :: l2)).
  split_and!; try done.
  - by rewrite tkeys_at.
  - unfold tr. by rewrite !tkeys_at.
Qed.

(** An insertion after a step that kept the keys. *)
Lemma inserted_after n key r h s tr h1 s1 tr1 bt' :
  evolves h tr h1 tr1 -> tkeys tr1 = tkeys tr -> root_id tr1 = root_id tr ->
  s <= s1 -> (length (node_keys tr) <= length (node_keys tr1))%nat ->
  inserted n key r h1 s1 tr1 bt' -> inserted n key r h s tr bt'.
Proof.
  intros Hev Hk Hr Hs Hl
    (h' & s' & tr' & E & Hok & Hss & Hroot & Hsh' & Hnd' & Hs' & Hp' & Hl' & Hev').
  exists h', s', tr'. split_and!; try done; try lia.
  - congruence.
  - by rewrite <- Hk.
  - by eapply evolves_trans.
Qed.

Lemma heap_ok_split h s h1 id cid :
  heap_ok h s -> is_Some (h !! id) -> is_Some (h !! cid) ->
  (forall x, x <> id -> x <> cid -> x <> node_id (s + 1) ->
             h1 !! x = h !! x) ->
  heap_ok h1 (s + 1).
Proof.
  intros [Hs0 Hok] Hid Hcid Hfr. split; [lia |]. intros x Hx.
  destruct (decide (x = node_id (s + 1))) as [-> |]; [exists (s + 1); split; [lia | done] |].
  assert (is_Some (h !! x)) as Hx'.
  { destruct (decide (x = id)) as [-> |]; [done |].
    destruct (decide (x = cid)) as [-> |]; [done |].
    by rewrite <- Hfr. }
  destruct (Hok x Hx') as (k & Hk & ->). exists k. split; [lia | done].
Qed.

(** [insertNonFull] on a subtree of height [n] whose root has room
    returns, given more than [n] units of budget, and leaves a subtree of
    the same height with [key] added in order. *)
Lemma insertNonFull_spec (n : nat) : forall fuel tr bt r h s key,
  (n < fuel)%nat ->
  erase bt = mkBTree order r h s -> heap_ok h s ->
  shaped h n tr -> NoDup (ids tr) ->
  sorted (tkeys tr) -> key ∉ tkeys tr ->
  (length (node_keys tr) < 2 * t - 1)%nat ->
  wp (insertNonFull fuel (root_id tr) key) bt
     (fun _ bt' => inserted n key r h s tr bt').
Proof.
  induction n as [| n IH];
    intros fuel tr bt r h s key Hfuel E Hok Hsh Hnd Hs Hkey Hlen.
  { destruct fuel; [lia |]. by apply insertNonFull_leaf. }
  destruct fuel as [| fuel]; [lia |].
  destruct tr as [id keys kids].
  assert (Hsh' := Hsh). destruct Hsh' as (Hid & Hklen & Hk).
  simpl in Hid, Hklen, Hk, Hlen.
  assert (Hs' := Hs). rewrite tkeys_T in Hs'.
  destruct (interleave_keys _ _ Hs') as [Hsk Hin]. clear Hs'.
  destruct (scan_down_spec key keys Hsk) as (i & Hi & Hile & Hlo & Hhi).
  { intros Hx. apply Hkey. rewrite tkeys_T. by apply Hin. }
  destruct (lookup_lt_is_Some_2 kids i) as [c Hc]; [lia |].
  destruct (kids_at kids i c Hc) as [Hkids Hl1].
  assert (keys = take i keys ++ drop i keys) as Hkeys by (by rewrite take_drop).
  assert (length (take i keys) = i) as Hk1 by (rewrite length_take; lia).
  simpl insertNonFull. wp_read E. cbn zeta. rewrite Hi.
  clear Hi Hin Hsk.
  remember (take i kids) as l1 eqn:Heql1.
  remember (drop (S i) kids) as l2 eqn:Heql2.
  remember (take i keys) as k1 eqn:Heqk1.
  remember (drop i keys) as k2 eqn:Heqk2.
  clear Heql1 Heql2 Heqk1 Heqk2 Hc. subst kids keys.
  assert (length l2 = length k2) as Hl2.
  { rewrite !length_app in Hklen. simpl in Hklen. lia. }
  assert (Hnd' := Hnd).
  apply NoDup_ids_at in Hnd' as ((I1 & I2 & I3) & (N1 & N2 & N3) & D1 & D2 & D3).
  assert (shaped h n c /\ bounded c) as [Hshc Hbc].
  { apply Forall_app in Hk as [_ Hk]. by apply Forall_cons in Hk as [? _]. }
  assert (length l1 = length k1) as Hl12 by lia.
  destruct (child_keys key id k1 k2 l1 c l2 Hl12 Hl2 Hs Hkey) as [Hsc Hkc].
  assert (Hcn := shaped_node _ _ _ Hshc).
  wp_opt. { rewrite idx_nat, list_lookup_fmap, list_lookup_middle; done. }
  wp_read E.
  apply wp_bind, wp_get. rewrite (erase_Order _ _ _ _ _ E).
  destruct (Z.eqb_spec (len (node_keys c)) (order - 1)) as [Hfull | Hnotfull].
  - (* the child is full *)
    destruct c as [cid ckeys ckids]. simpl in Hcn, Hfull, I2.
    assert (length ckeys = (2 * t - 1)%nat) as Hcfull
      by (unfold len, order in Hfull; lia).
    apply wp_bind, wp_bind. eapply wp_mono.
    { eapply (splitChild_spec bt r h s id _ _ false i cid ckeys _ _ E Hid);
        [ rewrite list_lookup_fmap, list_lookup_middle; done
        | exact Hcn
        | intros ->; apply I2; by left
        | by apply heap_ok_fresh
        | rewrite length_app; lia
        | done
        | ].
      destruct n as [| n']; simpl in Hshc.
      - destruct Hshc as [-> _]. done.
      - destruct Hshc as (_ & Hcl & Hck). simpl in Hcl. simpl.
        split; [rewrite length_fmap; lia |].
        intros x Hx. apply list_elem_of_fmap in Hx as (d & -> & Hd).
        rewrite Forall_forall in Hck. destruct (Hck d Hd) as [Hsd _].
        apply (shaped_dom _ _ _ _ Hsd). destruct d. by left. }
    intros _ bt1 (med & h1 & Hmed & E1 & P1 & F1 & N1' & Fr1).
    rewrite (take_app_length' k1), (drop_app_length' k1) in P1 by lia.
    set (new := node_id (s + 1)) in *.
    set (L := T cid (take (t - 1) ckeys) (take t ckids)).
    set (R := T new (drop t ckeys) (drop t ckids)).
    assert (take (S i) (root_id <$> l1 ++ T cid ckeys ckids :: l2)
            ++ new :: drop (S i) (root_id <$> l1 ++ T cid ckeys ckids :: l2)
            = root_id <$> l1 ++ L :: R :: l2) as Hcs.
    { rewrite !fmap_app, !fmap_cons. simpl.
      rewrite (cons_middle cid), app_assoc.
      rewrite take_app_length', drop_app_length'
        by (rewrite length_app, length_fmap; simpl; lia).
      by rewrite <- app_assoc. }
    rewrite Hcs in P1. clear Hcs.
    destruct (split_shape h h1 n id k1 k2 l1 l2 cid ckeys ckids new med)
      as (Hsh1 & Hnd1 & Hev1 & Htk1 & Hcsplit);
      [done | done | lia | done | done | by apply heap_ok_fresh
      | done | done | done | done |].
    fold L R in Hsh1, Hnd1, Hev1, Htk1, Hcsplit.
    assert (heap_ok h1 (s + 1)) as Hok1.
    { eapply (heap_ok_split h s h1 id cid); eauto. }
    assert (sorted (tkeys (T id (k1 ++ med :: k2) (l1 ++ L :: R :: l2))))
      as Hs1 by (by rewrite Htk1).
    assert (key ∉ tkeys (T id (k1 ++ med :: k2) (l1 ++ L :: R :: l2)))
      as Hkey1 by (by rewrite Htk1).
    assert (med <> key) as Hmk.
    { intros ->. apply Hkey1. assert (Hs1' := Hs1). rewrite tkeys_T in Hs1'.
      destruct (interleave_keys _ _ Hs1') as [_ Hin]. rewrite tkeys_T.
      apply Hin. apply elem_of_app. right. by left. }
    assert (length (node_keys L) = (t - 1)%nat
            /\ length (node_keys R) = (t - 1)%nat) as [HlenL HlenR].
    { simpl. rewrite length_take, length_drop. lia. }
    wp_read E1. wp_opt. { rewrite idx_nat, list_lookup_middle; done. }
    apply wp_ret.
    destruct (Z.gtb_spec key med) as [Hgt | Hle].
    + (* into the new right node *)
      assert (l1 ++ L :: R :: l2 = (l1 ++ [L]) ++ R :: l2) as EqL
        by (by rewrite <- app_assoc).
      assert (k1 ++ med :: k2 = (k1 ++ [med]) ++ k2) as EqK
        by (by rewrite <- app_assoc).
      wp_read E1.
      wp_opt.
      { replace (Z.of_nat i + 1) with (Z.of_nat (S i)) by lia.
        rewrite idx_nat, list_lookup_fmap, EqL, list_lookup_middle; [done |].
        rewrite length_app. simpl. lia. }
      rewrite EqL, EqK in Hsh1, Hnd1, Hs1, Hkey1, Hev1, Htk1.
      assert (length (l1 ++ [L]) = length (k1 ++ [med])) as Hl12'
        by (rewrite !length_app; simpl; lia).
      destruct (child_keys key id _ _ _ R _ Hl12' Hl2 Hs1 Hkey1) as [HsR HkR].
      eapply wp_mono.
      { apply (IH fuel R bt1 r h1 (s + 1) key); try done; try lia.
        - destruct Hsh1 as (_ & _ & Hk1'). simpl in Hk1'.
          apply Forall_app in Hk1' as [_ Hk1'].
          by apply Forall_cons in Hk1' as [[? _] _].
        - by apply NoDup_ids_at in Hnd1 as (_ & (_ & ? & _) & _). }
      intros ? bt' Hins.
      eapply (inserted_after (S n) key r h s _ h1 (s + 1));
        [exact Hev1 | exact Htk1 | done | lia
        | simpl; rewrite !length_app; simpl; lia |].
      apply (descend n key r h1 (s + 1) id (k1 ++ [med]) k2 (l1 ++ [L]) R l2 bt');
        try done.
      * rewrite !length_app in *. simpl. lia.
      * intros k Hk'. apply elem_of_app in Hk' as [Hk' | Hk'].
        -- by apply Hlo.
        -- apply list_elem_of_singleton in Hk' as ->. lia.
    + (* into the left half *)
      wp_read E1.
      wp_opt. { rewrite idx_nat, list_lookup_fmap, list_lookup_middle; done. }
      assert (length (R :: l2) = length (med :: k2)) as Hl2' by (simpl; lia).
      destruct (child_keys key id _ _ _ L _ Hl12 Hl2' Hs1 Hkey1) as [HsL HkL].
      eapply wp_mono.
      { apply (IH fuel L bt1 r h1 (s + 1) key); try done; try lia.
        - destruct Hsh1 as (_ & _ & Hk1'). simpl in Hk1'.
          apply Forall_app in Hk1' as [_ Hk1'].
          by apply Forall_cons in Hk1' as [[? _] _].
        - by apply NoDup_ids_at in Hnd1 as (_ & (_ & ? & _) & _). }
      intros ? bt' Hins.
      eapply (inserted_after (S n) key r h s _ h1 (s + 1));
        [exact Hev1 | exact Htk1 | done | lia
        | simpl; rewrite !length_app; simpl; lia |].
      apply (descend n key r h1 (s + 1) id k1 (med :: k2) l1 L (R :: l2) bt');
        try done.
      * rewrite !length_app in *. simpl. lia.
      * intros k Hk'. apply elem_of_cons in Hk' as [-> | Hk'].
        -- lia.
        -- by apply Hhi.
  - (* the child has room *)
    apply wp_bind, wp_ret. wp_read E.
    wp_opt. { rewrite idx_nat, list_lookup_fmap, list_lookup_middle; done. }
    eapply wp_mono.
    { apply (IH fuel c bt r h s key); try done; try lia.
      destruct Hbc as [_ Hbc]. unfold len, order in Hnotfull. lia. }
    intros ? bt' Hins.
    apply (descend n key r h s id k1 k2 l1 c l2 bt'); try done; try lia.
Qed.

(** ** The tree between operations *)

(** [bt] holds exactly the keys [ks], in order, in a tree of height at
    most [hmax] whose node map has no node outside the tree; before the
    first insertion there is no root and no node. *)
Definition tree_inv (bt : BTree) (ks : list Z) (hmax : nat) : Prop :=
  exists r h s,
    erase bt = mkBTree order r h s /\ heap_ok h s /\ sorted ks
    /\ ((r = "" /\ ks = [] /\ h = ∅)
        \/ exists n tr,
             r = root_id tr /\ (n <= hmax)%nat
             /\ shaped h n tr /\ NoDup (ids tr)
             /\ (length (node_keys tr) <= 2 * t - 1)%nat
             /\ (n <> 0%nat -> node_keys tr <> [])
             /\ tkeys tr = ks
             /\ forall x, is_Some (h !! x) -> x ∈ ids tr).

Lemma dom_evolves h tr h' tr' :
  (forall x, is_Some (h !! x) -> x ∈ ids tr) -> evolves h tr h' tr' ->
  forall x, is_Some (h' !! x) -> x ∈ ids tr'.
Proof.
  intros Hdom (A & B & C) x [v Hx].
  destruct (decide (x ∈ ids tr')) as [| Hn]; [done |]. exfalso.
  destruct (decide (x ∈ ids tr)) as [Hin | Hout].
  - rewrite (B x Hn Hin) in Hx. done.
  - rewrite (A x Hn Hout) in Hx. apply Hout, Hdom. eauto.
Qed.

Lemma node_id_nonempty k : node_id k <> "".
Proof. done. Qed.

Lemma inserted_inv n key r h s tr bt' ks hmax :
  inserted n key r h s tr bt' -> r = root_id tr ->
  tkeys tr ≡ₚ ks -> (n <= hmax)%nat ->
  (forall x, is_Some (h !! x) -> x ∈ ids tr) ->
  (n <> 0%nat -> node_keys tr <> []) ->
  exists ks', tree_inv bt' ks' hmax /\ ks' ≡ₚ key :: ks.
Proof.
  intros (h' & s' & tr' & E & Hok & Hss & Hroot & Hsh & Hnd & Hs & Hp & Hl & Hev)
    -> Hks Hn Hdom Hne.
  exists (tkeys tr'). split; [| by rewrite Hp, Hks].
  exists (root_id tr), h', s'. split_and!; try done. right.
  exists n, tr'. split_and!; try done; try lia.
  - intros Hn0 Hnil. specialize (Hne Hn0).
    destruct (node_keys tr); [done |]. rewrite Hnil in Hl. simpl in Hl. lia.
  - by eapply dom_evolves.
Qed.

(** [Insert] of a new key returns and keeps the tree; the height grows by
    at most one, when the full root is split under a new root. *)
Lemma Insert_spec fuel key bt ks hmax :
  tree_inv bt ks hmax -> key ∉ ks -> (S hmax < fuel)%nat ->
  wp (Insert fuel key) bt (fun _ bt' =>
    exists ks', tree_inv bt' ks' (S hmax) /\ ks' ≡ₚ key :: ks).
Proof.
  intros (r & h & s & E & Hok & Hsorted & Hcase) Hkey Hfuel.
  unfold Insert. apply wp_bind, wp_get. rewrite (erase_RootID _ _ _ _ _ E).
  destruct Hcase as [(-> & -> & ->) | (n & tr & -> & Hn & Hsh & Hnd & Hlen & Hne & Hks & Hdom)].
  - (* the first key *)
    rewrite bool_decide_eq_true_2 by done.
    apply wp_bind. eapply wp_createNode; [exact E |]. intros bt1 E1.
    wp_keys E1 E2.
    eapply wp_set_RootID; [exact E2 |]. intros bt3 E3.
    exists [key]. split; [| done].
    eexists _, _, _. split; [exact E3 |]. destruct Hok as [Hs0 _].
    split; [| split].
    + split; [lia |]. intros x [v Hx].
      destruct (decide (x = node_id (s + 1))) as [-> |].
      * exists (s + 1). split; [lia | done].
      * rewrite !lookup_insert_ne in Hx by done. by rewrite lookup_empty in Hx.
    + apply sorted_singleton.
    + right. exists 0%nat, (T (node_id (s + 1)) [key] []).
      split_and!; try done.
      * lia.
      * simpl. split; [done |]. lookup.
      * apply NoDup_singleton.
      * simpl. lia.
      * intros x [v Hx].
        destruct (decide (x = node_id (s + 1))) as [-> |]; [by left |].
        rewrite !lookup_insert_ne in Hx by done. by rewrite lookup_empty in Hx.
  - assert (Hroot := shaped_node _ _ _ Hsh).
    assert (root_id tr <> "") as Hr.
    { destruct Hok as [_ Hok]. destruct (Hok (root_id tr)) as (k & _ & ->); [eauto |].
      apply node_id_nonempty. }
    rewrite bool_decide_eq_false_2 by done.
    wp_read E. rewrite (erase_Order _ _ _ _ _ E).
    destruct (Z.eqb_spec (len (node_keys tr)) (order - 1)) as [Hfull | Hroom].
    + (* the root is full *)
      destruct tr as [cid ckeys ckids]. simpl in Hfull, Hroot, Hr, E.
      simpl root_id.
      assert (length ckeys = (2 * t - 1)%nat) as Hcfull
        by (unfold len, order in Hfull; lia).
      assert (Hfresh := heap_ok_fresh _ _ Hok).
      set (new := node_id (s + 1)) in *.
      assert (new <> cid) as Hnc by (intros Heq; rewrite Heq in Hfresh; congruence).
      apply wp_bind. eapply wp_createNode; [exact E |]. intros bt1 E1.
      wp_children E1 E2.
      apply wp_bind. eapply wp_update_Parent; [exact E2 | eexists; lookup |].
      intros bt3 E3.
      apply wp_bind. eapply wp_set_RootID; [exact E3 |]. intros bt4 E4.
      fold new in E4.
      set (h2 := <[new := mkNode new [] [cid] false ""]>
                   (<[new := mkNode new [] [] false ""]> h)) in *.
      assert (forall x, x <> new -> h2 !! x = h !! x) as Hfr2.
      { intros x Hx. unfold h2. by rewrite !lookup_insert_ne. }
      assert (heap_ok h2 (s + 1)) as Hok2.
      { destruct Hok as [Hs0 Hok]. split; [lia |]. intros x Hx.
        destruct (decide (x = new)) as [-> |]; [exists (s + 1); split; [lia | done] |].
        rewrite Hfr2 in Hx by done. destruct (Hok x Hx) as (k & Hk & ->).
        exists k. split; [lia | done]. }
      assert (shaped h2 (S n) (T new [] [T cid ckeys ckids])) as Hsh2.
      { simpl. split_and!; [unfold h2; lookup | done |].
        apply Forall_cons. split; [| done]. split.
        - eapply shaped_frame; [exact Hsh |]. intros x Hx. apply Hfr2.
          intros ->. destruct (shaped_dom _ _ _ _ Hsh Hx). congruence.
        - unfold bounded. simpl. lia. }
      assert (NoDup (ids (T new [] [T cid ckeys ckids]))) as Hnd2.
      { rewrite ids_T, kids_ids_cons. unfold kids_ids. simpl.
        rewrite app_nil_r. apply NoDup_cons. split; [| done].
        intros Hx. destruct (shaped_dom _ _ _ _ Hsh Hx). congruence. }
      assert (forall x, is_Some (h2 !! x) -> x ∈ ids (T new [] [T cid ckeys ckids]))
        as Hdom2.
      { intros x Hx. destruct (decide (x = new)) as [-> |]; [by left |].
        rewrite Hfr2 in Hx by done. rewrite ids_T, kids_ids_cons. right.
        apply elem_of_app. left. by apply Hdom. }
      apply wp_bind. eapply wp_mono.
      { eapply (splitChild_spec bt4 new h2 (s + 1) new [] [cid] false 0 cid
                  ckeys (root_id <$> ckids) (bool_decide (n = 0%nat)) E4);
          [ unfold h2; lookup | done | by rewrite Hfr2
          | done | by apply heap_ok_fresh | simpl; lia | done | ].
        destruct n as [| n']; simpl in Hsh.
        - destruct Hsh as [-> _]. done.
        - destruct Hsh as (_ & Hcl & Hck). simpl in Hcl. simpl.
          split; [rewrite length_fmap; lia |].
          intros x Hx. apply list_elem_of_fmap in Hx as (d & -> & Hd).
          rewrite Forall_forall in Hck. destruct (Hck d Hd) as [Hsd _].
          rewrite Hfr2.
          + apply (shaped_dom _ _ _ _ Hsd). destruct d. by left.
          + intros Heq. assert (is_Some (h !! root_id d)) as [v Hv].
            { apply (shaped_dom _ _ _ _ Hsd). destruct d. by left. }
            rewrite Heq in Hv. congruence. }
      intros ? bt5 (med & h3 & Hmed & E5 & P5 & F5 & N5 & Fr5).
      simpl in P5.
      set (new2 := node_id (s + 1 + 1)) in *.
      set (L := T cid (take (t - 1) ckeys) (take t ckids)).
      set (R := T new2 (drop t ckeys) (drop t ckids)).
      destruct (split_shape h2 h3 n new [] [] [] [] cid ckeys ckids new2 med)
        as (Hsh3 & Hnd3 & Hev3 & Htk3 & Hcsplit);
        [done | done | done | done | done | by apply heap_ok_fresh
        | done | done | done | done |].
      fold L R in Hsh3, Hnd3, Hev3, Htk3, Hcsplit. simpl app in *.
      assert (heap_ok h3 (s + 1 + 1)) as Hok3.
      { eapply (heap_ok_split h2 (s + 1) h3 new cid); eauto.
        - unfold h2. eexists. lookup.
        - rewrite Hfr2 by done. eauto. }
      assert (tkeys (T new [med] [L; R]) = ks) as Hks3.
      { rewrite <- Hks. etrans; [exact Htk3 |]. done. }
      eapply wp_mono.
      { apply (insertNonFull_spec (S n) fuel (T new [med] [L; R]) bt5 new h3
                 (s + 1 + 1) key); try done; try lia.
        - by rewrite Hks3.
        - by rewrite Hks3.
        - simpl. lia. }
      intros ? bt' Hins.
      apply (inserted_inv (S n) key new h3 (s + 1 + 1) (T new [med] [L; R])
               bt' ks (S hmax) Hins); try done; try lia.
      * by rewrite Hks3.
      * eapply dom_evolves; [exact Hdom2 | exact Hev3].
    + eapply wp_mono.
      { apply (insertNonFull_spec n fuel tr bt (root_id tr) h s key);
          try done; try lia.
        - by rewrite Hks.
        - by rewrite Hks.
        - unfold len, order in Hroom. lia. }
      intros ? bt' Hins.
      apply (inserted_inv n key (root_id tr) h s tr bt' ks (S hmax) Hins);
        try done; try lia.
      by rewrite Hks.
Qed.

Lemma NewBTree_inv : tree_inv (NewBTree order) [] 0.
Proof.
  exists "", ∅, 0. split_and!.
  - unfold NewBTree, erase, set_Nodes, order. simpl.
    destruct (Z.ltb_spec (Z.of_nat (t + (t + 0))) 3); [lia |].
    simpl. by rewrite fmap_empty.
  - split; [lia |]. intros x [v Hx]. by rewrite lookup_empty in Hx.
  - apply sorted_nil.
  - by left.
Qed.

Lemma tree_inv_mono bt ks hmax hmax' :
  tree_inv bt ks hmax -> (hmax <= hmax')%nat -> tree_inv bt ks hmax'.
Proof.
  intros (r & h & s & E & Hok & Hs & Hcase) Hle. exists r, h, s.
  split_and!; try done.
  destruct Hcase as [? | (n & tr & ? & ? & ? & ? & ? & ? & ? & ?)]; [by left |].
  right. exists n, tr. split_and!; try done. lia.
Qed.

(** A run of insertions of distinct new keys returns and keeps the tree:
    after it every node other than the root holds between [t - 1] and
    [2 * t - 1] keys and all leaves are at one depth. *)
Lemma InsertAll_spec fuel keys : forall bt ks hmax,
  tree_inv bt ks hmax -> NoDup keys -> (forall k, k ∈ keys -> k ∉ ks) ->
  (hmax + length keys < fuel)%nat ->
  wp (InsertAll fuel keys) bt (fun _ bt' =>
    exists ks', tree_inv bt' ks' (hmax + length keys) /\ ks' ≡ₚ keys ++ ks).
Proof.
  induction keys as [| k keys IH]; intros bt ks hmax Hinv Hnd Hnew Hfuel; simpl.
  - apply wp_ret. exists ks. split; [| done].
    eapply tree_inv_mono; [done | lia].
  - apply NoDup_cons in Hnd as [Hk Hnd]. simpl in Hfuel.
    apply wp_bind. eapply wp_mono.
    { apply (Insert_spec fuel k bt ks hmax); [done | | lia].
      apply Hnew. by left. }
    intros ? bt1 (ks1 & Hinv1 & Hp1).
    eapply wp_mono.
    { apply (IH bt1 ks1 (S hmax)); [done | done | | lia].
      intros k' Hk' Hin. rewrite Hp1 in Hin.
      apply elem_of_cons in Hin as [-> | Hin]; [done |].
      apply (Hnew k'); [by right | done]. }
    intros ? bt2 (ks2 & Hinv2 & Hp2). exists ks2. split.
    + eapply tree_inv_mono; [done | lia].
    + rewrite Hp2, Hp1. by rewrite Permutation_middle.
Qed.

(** ** Deletion of the least key: the steps at the first child *)

(** [borrowFromRight] at index 0: the first child takes the parent's
    first key and the first child of its right sibling; the parent takes
    the sibling's first key. *)
Lemma borrowFromRight_spec bt r h s pid k0 pks cid rid pcs pleaf
      ckeys ccids cleaf rk rkeys rcids rleaf :
  erase bt = mkBTree order r h s ->
  h !! pid = Some (mkNode pid (k0 :: pks) (cid :: rid :: pcs) pleaf "") ->
  h !! cid = Some (mkNode cid ckeys ccids cleaf "") ->
  h !! rid = Some (mkNode rid (rk :: rkeys) rcids rleaf "") ->
  pid <> cid -> pid <> rid -> cid <> rid ->
  (if rleaf then rcids = []
   else exists m rcs, rcids = m :: rcs /\ is_Some (h !! m)) ->
  wp (borrowFromRight pid 0) bt (fun _ bt' =>
    exists h',
      erase bt' = mkBTree order r h' s
      /\ h' !! pid = Some (mkNode pid (rk :: pks) (cid :: rid :: pcs) pleaf "")
      /\ h' !! cid = Some (mkNode cid (ckeys ++ [k0]) (ccids ++ take 1 rcids)
                                  cleaf "")
      /\ h' !! rid = Some (mkNode rid rkeys (drop 1 rcids) rleaf "")
      /\ forall x, x <> pid -> x <> cid -> x <> rid -> h' !! x = h !! x).
Proof.
  intros E HP HC HR Hpc Hpr Hcr Hkids. unfold borrowFromRight.
  wp_read E. wp_opt. wp_read E. wp_opt. wp_read E. wp_opt.
  wp_keys E E1. wp_read E1. wp_opt. wp_read E1. wp_opt.
  wp_keys E1 E2. wp_read E2.
  wp_opt. { apply (slice_from_nat _ 1). simpl. lia. }
  simpl drop. wp_keys E2 E3. wp_read E3.
  destruct rleaf.
  - subst rcids. apply wp_ret. eexists. split; [exact E3 |].
    rewrite app_nil_r. split_and!; try lookup.
    intros x H1 H2 H3. by rewrite !lookup_insert_ne.
  - destruct Hkids as (m & rcs & -> & Hm).
    wp_opt. wp_opt. { apply (slice_from_nat _ 1). simpl. lia. }
    simpl drop. wp_children E3 E4. wp_read E4. wp_children E4 E5.
    wp_read E5.
    eapply wp_update_Parent; [exact E5 | |].
    { norm. repeat (apply lookup_insert_is_Some'; right). done. }
    intros bt6 E6. eexists. split; [exact E6 |].
    split_and!; try lookup.
    intros x H1 H2 H3. by rewrite !lookup_insert_ne.
Qed.

(** [mergeChildren] at index 0: the first child takes the parent's first
    key and all of its right sibling, which leaves the node map. *)
Lemma mergeChildren_spec bt r h s pid k0 pks lid rid pcs pleaf
      lkeys lcids lleaf rkeys rcids rleaf :
  erase bt = mkBTree order r h s ->
  h !! pid = Some (mkNode pid (k0 :: pks) (lid :: rid :: pcs) pleaf "") ->
  h !! lid = Some (mkNode lid lkeys lcids lleaf "") ->
  h !! rid = Some (mkNode rid rkeys rcids rleaf "") ->
  pid <> lid -> pid <> rid -> lid <> rid ->
  (if lleaf then lcids = [] /\ rcids = []
   else forall c, c ∈ rcids -> is_Some (h !! c)) ->
  wp (mergeChildren pid 0) bt (fun _ bt' =>
    exists h',
      erase bt' = mkBTree order r h' s
      /\ h' !! pid = Some (mkNode pid pks (lid :: pcs) pleaf "")
      /\ h' !! lid = Some (mkNode lid ((lkeys ++ [k0]) ++ rkeys)
                                  (lcids ++ rcids) lleaf "")
      /\ h' !! rid = None
      /\ forall x, x <> pid -> x <> lid -> x <> rid -> h' !! x = h !! x).
Proof.
  intros E HP HL HR Hpl Hpr Hlr Hkids. unfold mergeChildren.
  wp_read E. wp_opt. wp_read E. wp_opt. wp_read E. wp_opt.
  wp_keys E E1. wp_read E1. wp_read E1. wp_keys E1 E2. wp_read E2.
  destruct lleaf.
  - destruct Hkids as [-> ->]. apply wp_bind, wp_ret.
    wp_read E2. wp_opt. { apply (removeAt_nat _ 0). simpl. lia. }
    simpl take. simpl drop. simpl app.
    wp_keys E2 E3. wp_read E3.
    wp_opt. { apply (removeAt_nat _ 1). simpl. lia. }
    simpl take. simpl drop. simpl app.
    wp_children E3 E4. wp_read E4.
    eapply wp_delete_node; [exact E4 |]. intros bt5 E5. norm_in E5.
    eexists. split; [exact E5 |]. split_and!.
    + rewrite lookup_delete_ne by done. lookup.
    + rewrite lookup_delete_ne by done. lookup.
    + by rewrite lookup_delete_eq.
    + intros x H1 H2 H3. rewrite lookup_delete_ne by done.
      by rewrite !lookup_insert_ne.
  - apply wp_bind. wp_read E2.
    apply wp_bind. eapply wp_reparent; [exact E2 | |].
    { intros c Hc. norm. repeat (apply lookup_insert_is_Some'; right).
      by apply Hkids. }
    intros bt3 E3. wp_read E3. wp_read E3.
    eapply wp_update_Children; [exact E3 | lookup |]. intros bt4 E4.
    norm_in E4.
    wp_read E4. wp_opt. { apply (removeAt_nat _ 0). simpl. lia. }
    simpl take. simpl drop. simpl app.
    wp_keys E4 E5. wp_read E5.
    wp_opt. { apply (removeAt_nat _ 1). simpl. lia. }
    simpl take. simpl drop. simpl app.
    wp_children E5 E6. wp_read E6.
    eapply wp_delete_node; [exact E6 |]. intros bt7 E7. norm_in E7.
    eexists. split; [exact E7 |]. split_and!.
    + rewrite lookup_delete_ne by done. lookup.
    + rewrite lookup_delete_ne by done. lookup.
    + by rewrite lookup_delete_eq.
    + intros x H1 H2 H3. rewrite lookup_delete_ne by done.
      by rewrite !lookup_insert_ne.
Qed.

Lemma tkeys_first id keys c l2 :
  length l2 = length keys ->
  tkeys (T id keys (c :: l2)) = tkeys c ++ keys_after keys (tkeys <$> l2).
Proof.
  intros H. rewrite tkeys_T, fmap_cons. apply interleave_last.
  by rewrite length_fmap.
Qed.

Lemma kids_frame_sub h h' n kids l :
  Forall (fun d => shaped h n d /\ bounded d) kids ->
  (forall d, d ∈ l -> d ∈ kids) ->
  (forall x, x ∈ kids_ids kids -> h' !! x = h !! x) ->
  Forall (fun d => shaped h' n d /\ bounded d) l.
Proof.
  rewrite !Forall_forall. intros Hall Hl Hfr d Hd.
  destruct (Hall d (Hl d Hd)) as [Hsd Hbd]. split; [| done].
  eapply shaped_frame; [done |]. intros x Hx. apply Hfr.
  apply in_kids_ids. exists d. split; [by apply Hl | done].
Qed.

(** A key moved from the second child through the parent into the
    first. *)
Lemma borrow_shape h h' n id k0 pks cid ckeys ckids rid rk rkeys rkids kids :
  let c0 := T cid ckeys ckids in
  let c1 := T rid (rk :: rkeys) rkids in
  let c0' := T cid (ckeys ++ [k0]) (ckids ++ take 1 rkids) in
  let c1' := T rid rkeys (drop 1 rkids) in
  let tr := T id (k0 :: pks) (c0 :: c1 :: kids) in
  let tr' := T id (rk :: pks) (c0' :: c1' :: kids) in
  shaped h (S n) tr -> NoDup (ids tr) ->
  length ckeys = (t - 1)%nat -> (t - 1 < length (rk :: rkeys))%nat ->
  h' !! id = Some (mkNode id (rk :: pks) (cid :: rid :: (root_id <$> kids))
                          false "") ->
  h' !! cid = Some (mkNode cid (ckeys ++ [k0])
                           ((root_id <$> ckids) ++ take 1 (root_id <$> rkids))
                           (bool_decide (n = 0%nat)) "") ->
  h' !! rid = Some (mkNode rid rkeys (drop 1 (root_id <$> rkids))
                           (bool_decide (n = 0%nat)) "") ->
  (forall x, x <> id -> x <> cid -> x <> rid -> h' !! x = h !! x) ->
  shaped h' (S n) tr' /\ NoDup (ids tr') /\ evolves h tr h' tr'
  /\ tkeys tr' = tkeys tr
  /\ (forall x, is_Some (h' !! x) -> is_Some (h !! x)).
Proof.
  intros c0 c1 c0' c1' tr tr' Hsh Hnd Hck Hrk Hid' Hcid' Hrid' Hfr.
  assert (Hsh' := Hsh). destruct Hsh' as (Hid & Hlen & Hk).
  simpl in Hid, Hlen, Hk.
  apply Forall_cons in Hk as [[Hc0 Hb0] Hk].
  apply Forall_cons in Hk as [[Hc1 Hb1] Hk].
  assert (kids_ids rkids
          = kids_ids (take 1 rkids) ++ kids_ids (drop 1 rkids)) as HXY
    by (by rewrite <- kids_ids_app, take_drop).
  assert (ids tr = id :: (cid :: kids_ids ckids)
                      ++ (rid :: kids_ids rkids) ++ kids_ids kids) as Hids
    by done.
  assert (ids tr' ≡ₚ ids tr) as Hperm.
  { unfold tr', tr, c0', c1', c0, c1.
    repeat rewrite ?ids_T, ?kids_ids_app, ?kids_ids_cons. rewrite HXY.
    simpl. rewrite <- !app_assoc. do 2 f_equiv. apply Permutation_app_head.
    simpl. symmetry. apply Permutation_middle. }
  assert (forall x, x ∈ kids_ids (c0 :: c1 :: kids) ->
                    x <> cid -> x <> rid -> h' !! x = h !! x) as Hfr'.
  { intros x Hx H1 H2. apply Hfr; [| done | done]. intros ->.
    apply NoDup_cons in Hnd as [Hnd _]. by apply Hnd. }
  assert (forall x, x ∈ kids_ids ckids -> h' !! x = h !! x) as Hfrc.
  { intros x Hx. 
    assert (NoDup (ids tr)) as Hnd2 by done.
    change tr with (T id (k0 :: pks) ([] ++ c0 :: c1 :: kids)) in Hnd2.
    apply NoDup_ids_at in Hnd2 as (_ & (_ & N2 & _) & _ & _ & D3).
    apply Hfr'.
    - rewrite kids_ids_cons. apply elem_of_app. left. unfold c0.
      rewrite ids_T. by right.
    - intros ->. unfold c0 in N2. rewrite ids_T in N2.
      by apply NoDup_cons in N2 as [? _].
    - intros ->. apply (D3 rid).
      + unfold c0. rewrite ids_T. by right.
      + rewrite kids_ids_cons. apply elem_of_app. left. by left. }
  assert (forall x, x ∈ kids_ids rkids -> h' !! x = h !! x) as Hfrr.
  { intros x Hx.
    assert (NoDup (ids tr)) as Hnd2 by done.
    change tr with (T id (k0 :: pks) ([] ++ c0 :: c1 :: kids)) in Hnd2.
    apply NoDup_ids_at in Hnd2 as (_ & (_ & _ & N3) & _ & _ & D3).
    rewrite kids_ids_cons in N3. apply NoDup_app in N3 as (N3 & _ & _).
    apply Hfr'.
    - rewrite !kids_ids_cons. apply elem_of_app. right.
      apply elem_of_app. left. unfold c1. rewrite ids_T. by right.
    - intros ->. apply (D3 cid).
      + by left.
      + rewrite kids_ids_cons. apply elem_of_app. left. unfold c1.
        rewrite ids_T. by right.
    - intros ->. unfold c1 in N3. rewrite ids_T in N3.
      by apply NoDup_cons in N3 as [? _]. }
  assert (shaped h' n c0' /\ shaped h' n c1') as [Hc0' Hc1'].
  { destruct n as [| n']; simpl in Hc0, Hc1 |- *.
    - destruct Hc0 as [-> _]. destruct Hc1 as [-> _]. simpl in *. done.
    - destruct Hc0 as (_ & Hl0 & Hk0). destruct Hc1 as (_ & Hl1 & Hk1).
      simpl in Hl0, Hl1.
      rewrite fmap_app, fmap_take, fmap_drop. split; (split_and!; [done | |]).
      + rewrite !length_app, length_take. cbn [length]. lia.
      + apply Forall_app. split.
        * apply (kids_frame_sub h h' n' ckids ckids Hk0); [done | exact Hfrc].
        * apply (kids_frame_sub h h' n' rkids _ Hk1);
            [intros d; apply in_take | exact Hfrr].
      + rewrite length_drop. lia.
      + apply (kids_frame_sub h h' n' rkids _ Hk1);
          [intros d; apply in_drop | exact Hfrr]. }
  assert (bounded c0' /\ bounded c1') as [Hb0' Hb1'].
  { unfold bounded in *. simpl in *. rewrite length_app. simpl. lia. }
  split_and!.
  - simpl. split_and!; [done | simpl in *; lia |].
    repeat (apply Forall_cons; split; [done |]).
    eapply shaped_kids_frame; [done |]. intros x Hx.
    assert (NoDup (ids tr)) as Hnd2 by done.
    change tr with (T id (k0 :: pks) ([c0] ++ c1 :: kids)) in Hnd2.
    apply NoDup_ids_at in Hnd2 as (_ & _ & _ & D2 & D3).
    apply Hfr'.
    + rewrite !kids_ids_cons. apply elem_of_app. right. apply elem_of_app.
      by right.
    + intros ->. apply (D2 cid); [| done]. rewrite kids_ids_cons.
      apply elem_of_app. left. by left.
    + intros ->. apply (D3 rid); [by left | done].
  - by rewrite Hperm.
  - split_and!.
    + intros x Hx' Hx. rewrite Hids in Hx. apply Hfr.
      * intros ->. apply Hx. by left.
      * intros ->. apply Hx. right. by left.
      * intros ->. apply Hx. do 2 right. apply elem_of_app. right. by left.
    + intros x Hx' Hx. exfalso. apply Hx'. by rewrite Hperm.
    + intros x Hx'. left. by rewrite <- Hperm.
  - assert (length kids = length pks) as Hlk by (simpl in Hlen; lia).
    unfold tr', tr.
    rewrite !tkeys_first by (simpl; lia). rewrite !fmap_cons. simpl keys_after.
    unfold c0', c1', c0, c1. rewrite !tkeys_T.
    destruct n as [| n']; simpl in Hc0, Hc1.
    + destruct Hc0 as [-> _]. destruct Hc1 as [-> _]. simpl.
      by rewrite <- ?app_assoc.
    + destruct Hc0 as (_ & Hl0 & _). destruct Hc1 as (_ & Hl1 & _).
      simpl in Hl0, Hl1. destruct rkids as [| g gs]; [done |].
      simpl take. simpl drop. rewrite fmap_app, !fmap_cons. 
      rewrite interleave_app by (right; by rewrite length_fmap).
      simpl. rewrite <- ?app_assoc. simpl. by rewrite <- ?app_assoc.
  - intros x Hx. destruct (decide (x = id)) as [-> |]; [eauto |].
    destruct (decide (x = cid)) as [-> |].
    { eapply (shaped_dom h n c0); [done | by left]. }
    destruct (decide (x = rid)) as [-> |].
    { eapply (shaped_dom h n c1); [done | by left]. }
    by rewrite <- Hfr.
Qed.

(** The first two children joined around the parent's first key. *)
Lemma merge_shape h h' n id k0 pks cid ckeys ckids rid rkeys rkids kids :
  let c0 := T cid ckeys ckids in
  let c1 := T rid rkeys rkids in
  let c0' := T cid ((ckeys ++ [k0]) ++ rkeys) (ckids ++ rkids) in
  let tr := T id (k0 :: pks) (c0 :: c1 :: kids) in
  let tr' := T id pks (c0' :: kids) in
  shaped h (S n) tr -> NoDup (ids tr) ->
  length ckeys = (t - 1)%nat -> length rkeys = (t - 1)%nat ->
  h' !! id = Some (mkNode id pks (cid :: (root_id <$> kids)) false "") ->
  h' !! cid = Some (mkNode cid ((ckeys ++ [k0]) ++ rkeys)
                           ((root_id <$> ckids) ++ (root_id <$> rkids))
                           (bool_decide (n = 0%nat)) "") ->
  h' !! rid = None ->
  (forall x, x <> id -> x <> cid -> x <> rid -> h' !! x = h !! x) ->
  shaped h' (S n) tr' /\ NoDup (ids tr') /\ evolves h tr h' tr'
  /\ tkeys tr' = tkeys tr
  /\ (forall x, is_Some (h' !! x) -> is_Some (h !! x)).
Proof.
  intros c0 c1 c0' tr tr' Hsh Hnd Hck Hrk Hid' Hcid' Hrid' Hfr.
  assert (Hsh' := Hsh). destruct Hsh' as (Hid & Hlen & Hk).
  simpl in Hid, Hlen, Hk.
  apply Forall_cons in Hk as [[Hc0 Hb0] Hk].
  apply Forall_cons in Hk as [[Hc1 Hb1] Hk].
  assert (ids tr = id :: (cid :: kids_ids ckids)
                      ++ (rid :: kids_ids rkids) ++ kids_ids kids) as Hids
    by done.
  assert (ids tr ≡ₚ rid :: ids tr') as Hperm.
  { rewrite Hids. unfold tr', c0'.
    repeat rewrite ?ids_T, ?kids_ids_app, ?kids_ids_cons.
    simpl. rewrite <- !app_assoc.
    change (id :: cid :: kids_ids ckids ++ rid :: kids_ids rkids ++ kids_ids kids)
      with ((id :: cid :: kids_ids ckids)
              ++ rid :: (kids_ids rkids ++ kids_ids kids)).
    by rewrite <- Permutation_middle. }
  assert (NoDup (rid :: ids tr')) as Hnd' by (by rewrite <- Hperm).
  apply NoDup_cons in Hnd' as [Hrid Hnd'].
  assert (forall x, x ∈ kids_ids (c0 :: c1 :: kids) ->
                    x <> cid -> x <> rid -> h' !! x = h !! x) as Hfr'.
  { intros x Hx H1 H2. apply Hfr; [| done | done]. intros ->.
    apply NoDup_cons in Hnd as [Hnd _]. by apply Hnd. }
  assert (NoDup (ids tr)) as Hnd2 by done.
  change tr with (T id (k0 :: pks) ([] ++ c0 :: c1 :: kids)) in Hnd2.
  apply NoDup_ids_at in Hnd2 as (_ & (_ & N2 & N3) & _ & _ & D3).
  rewrite kids_ids_cons in N3. apply NoDup_app in N3 as (N3 & D4 & _).
  assert (forall x, x ∈ kids_ids ckids -> h' !! x = h !! x) as Hfrc.
  { intros x Hx. apply Hfr'.
    - rewrite kids_ids_cons. apply elem_of_app. left. unfold c0.
      rewrite ids_T. by right.
    - intros ->. unfold c0 in N2. rewrite ids_T in N2.
      by apply NoDup_cons in N2 as [? _].
    - intros ->. apply (D3 rid).
      + unfold c0. rewrite ids_T. by right.
      + rewrite kids_ids_cons. apply elem_of_app. left. by left. }
  assert (forall x, x ∈ kids_ids rkids -> h' !! x = h !! x) as Hfrr.
  { intros x Hx. apply Hfr'.
    - rewrite !kids_ids_cons. apply elem_of_app. right.
      apply elem_of_app. left. unfold c1. rewrite ids_T. by right.
    - intros ->. apply (D3 cid).
      + by left.
      + rewrite kids_ids_cons. apply elem_of_app. left. unfold c1.
        rewrite ids_T. by right.
    - intros ->. unfold c1 in N3. rewrite ids_T in N3.
      by apply NoDup_cons in N3 as [? _]. }
  assert (shaped h' n c0') as Hc0'.
  { destruct n as [| n']; simpl in Hc0, Hc1 |- *.
    - destruct Hc0 as [-> _]. destruct Hc1 as [-> _]. simpl in *. done.
    - destruct Hc0 as (_ & Hl0 & Hk0). destruct Hc1 as (_ & Hl1 & Hk1).
      simpl in Hl0, Hl1. rewrite fmap_app. split_and!; [done | |].
      + rewrite !length_app. cbn [length]. lia.
      + apply Forall_app. split.
        * apply (kids_frame_sub h h' n' ckids ckids Hk0); [done | exact Hfrc].
        * apply (kids_frame_sub h h' n' rkids rkids Hk1); [done | exact Hfrr]. }
  assert (bounded c0') as Hb0'.
  { unfold bounded in *. simpl in *. rewrite !length_app. cbn [length]. lia. }
  split_and!.
  - simpl. split_and!; [done | simpl in *; lia |].
    apply Forall_cons. split; [done |].
    eapply shaped_kids_frame; [done |]. intros x Hx. apply Hfr'.
    + rewrite !kids_ids_cons. apply elem_of_app. right. apply elem_of_app.
      by right.
    + intros ->. apply (D3 cid); [by left |]. rewrite kids_ids_cons.
      apply elem_of_app. by right.
    + intros ->. apply (D4 rid); [by left | done].
  - done.
  - split_and!.
    + intros x Hx' Hx. rewrite Hids in Hx. apply Hfr.
      * intros ->. apply Hx. by left.
      * intros ->. apply Hx. right. by left.
      * intros ->. apply Hx. do 2 right. apply elem_of_app. right. by left.
    + intros x Hx' Hx. rewrite Hperm in Hx.
      apply elem_of_cons in Hx as [-> | Hx]; done.
    + intros x Hx'. left. rewrite Hperm. by right.
  - assert (length kids = length pks) as Hlk by (simpl in Hlen; lia).
    unfold tr', tr.
    rewrite !tkeys_first by (simpl; lia). rewrite !fmap_cons. simpl keys_after.
    unfold c0', c0, c1. rewrite !tkeys_T. rewrite fmap_app.
    rewrite <- (app_assoc ckeys [k0] rkeys). simpl app.
    rewrite interleave_app.
    + by rewrite <- ?app_assoc.
    + destruct n as [| n']; simpl in Hc0, Hc1.
      * left. destruct Hc0 as [-> _]. destruct Hc1 as [-> _]. done.
      * right. destruct Hc0 as (_ & Hl0 & _). rewrite length_fmap. done.
  - intros x Hx. destruct (decide (x = id)) as [-> |]; [eauto |].
    destruct (decide (x = cid)) as [-> |].
    { eapply (shaped_dom h n c0); [done | by left]. }
    destruct (decide (x = rid)) as [-> |].
    { eapply (shaped_dom h n c1); [done | by left]. }
    by rewrite <- Hfr.
Qed.

(** ** Deletion of the least key *)

(** What [deleteFromNode] leaves of a subtree [tr] stored in [h] whose
    least key is [key]; the root of the subtree keeps at least [m]
    keys. *)
Definition removed (n : nat) (key : Z) (r : string)
    (h : gmap string BTreeNode) (s : Z) (tr : tree) (m : nat)
    (bt' : BTree) : Prop :=
  exists h' tr',
    erase bt' = mkBTree order r h' s
    /\ heap_ok h' s
    /\ root_id tr' = root_id tr
    /\ shaped h' n tr' /\ NoDup (ids tr')
    /\ tkeys tr = key :: tkeys tr'
    /\ (m <= length (node_keys tr') <= length (node_keys tr))%nat
    /\ evolves h tr h' tr'.

Lemma interleave_nonempty subs keys : keys <> [] -> interleave subs keys <> [].
Proof.
  destruct keys as [| k keys]; [done |]. intros _.
  destruct subs as [| s subs]; [done |]. simpl. by destruct s.
Qed.

Lemma tkeys_nonempty tr : node_keys tr <> [] -> tkeys tr <> [].
Proof. destruct tr. simpl. apply interleave_nonempty. Qed.

Lemma removed_weaken n key r h s tr m m' bt' :
  (m' <= m)%nat -> removed n key r h s tr m bt' ->
  removed n key r h s tr m' bt'.
Proof.
  intros Hm (h' & tr' & E & Hok & Hr & Hsh & Hnd & Hk & Hl & Hev).
  exists h', tr'. split_and!; try done; lia.
Qed.

(** A deletion below the first child, seen from the node. *)
Lemma descend_min n key r h s id keys c l2 m bt' :
  let tr := T id keys (c :: l2) in
  shaped h (S n) tr -> NoDup (ids tr) -> (t - 1 <= m)%nat ->
  removed n key r h s c m bt' ->
  removed (S n) key r h s tr (length keys) bt'.
Proof.
  intros tr Hsh Hnd Hm (h' & c' & E & Hok & Hr & Hsh' & Hnd' & Hk & Hl & Hev).
  assert (length l2 = length keys) as Hl2.
  { destruct Hsh as (_ & Hlen & _). simpl in Hlen. lia. }
  assert (bounded c) as Hbc.
  { destruct Hsh as (_ & _ & Hkids). simpl in Hkids.
    by apply Forall_cons in Hkids as [[_ ?] _]. }
  assert (bounded c') as Hbc' by (unfold bounded in *; lia).
  destruct (lift_child h h' n id keys [] c l2 c') as (Hsh1 & Hnd1 & Hev1);
    try done.
  simpl app in *.
  exists h', (T id keys (c' :: l2)). split_and!; try done.
  unfold tr. rewrite !tkeys_first by done. by rewrite Hk.
Qed.

(** A deletion after a step that kept the keys in order. *)
Lemma removed_after n key r h s tr h1 tr1 m bt' :
  evolves h tr h1 tr1 -> tkeys tr1 = tkeys tr -> root_id tr1 = root_id tr ->
  (length (node_keys tr1) <= length (node_keys tr))%nat ->
  removed n key r h1 s tr1 m bt' -> removed n key r h s tr m bt'.
Proof.
  intros Hev Hk Hr Hl
    (h' & tr' & E & Hok & Hroot & Hsh' & Hnd' & Hk' & Hl' & Hev').
  exists h', tr'. split_and!; try done; try lia.
  - congruence.
  - by rewrite <- Hk.
  - by eapply evolves_trans.
Qed.

Lemma deleteFromNode_leaf fuel tr bt r h s key :
  erase bt = mkBTree order r h s -> heap_ok h s ->
  shaped h 0 tr -> head (tkeys tr) = Some key ->
  wp (deleteFromNode (S fuel) (root_id tr) key) bt (fun d bt' =>
    d = true /\ removed 0 key r h s tr (length (node_keys tr) - 1) bt').
Proof.
  destruct tr as [id keys kids]. intros E Hok [Hkids Hid] Hhead.
  simpl in Hkids, Hid. subst kids. rewrite tkeys_T in Hhead. simpl in Hhead.
  destruct keys as [| k rest]; [done |]. simpl in Hhead. simplify_eq.
  simpl deleteFromNode. wp_read E. apply wp_bind, wp_get. cbn zeta.
  simpl scan_up. rewrite Z.gtb_ltb, Z.ltb_irrefl.
  replace ((0 <? len (key :: rest))
           && bool_decide (idx (key :: rest) 0 = Some key)) with true.
  2:{ symmetry. apply andb_true_iff. split.
      - apply Z.ltb_lt. unfold len. simpl. lia.
      - by apply bool_decide_eq_true_2. }
  wp_opt. { apply (removeAt_nat _ 0). simpl. lia. }
  simpl take. simpl drop. simpl app.
  wp_keys E E1. apply wp_ret. split; [done |].
  exists (<[id := mkNode id rest [] true ""]> h), (T id rest []).
  split; [exact E1 |]. split_and!; try done.
  - destruct Hok as [Hs0 Hok]. split; [done |]. intros x [v Hx]. apply Hok.
    destruct (decide (x = id)) as [-> |]; [eauto |].
    rewrite lookup_insert_ne in Hx by done. eauto.
  - simpl. split; [done |]. lookup.
  - apply NoDup_singleton.
  - simpl. lia.
  - simpl. lia.
  - split_and!.
    + intros x Hx _. rewrite lookup_insert_ne; [done |].
      intros ->. apply Hx. by left.
    + intros x Hx Hx'. done.
    + intros x Hx. by left.
Qed.

Lemma head_app_nonempty (l1 l2 : list Z) :
  l1 <> [] -> head (l1 ++ l2) = head l1.
Proof. by destruct l1. Qed.

(** [deleteFromNode] on a subtree of height [n] whose least key is [key]
    returns [true], given more than [n] units of budget: it goes down
    through the first child at every level, filling it from its right
    sibling where it is at the minimum, and removes [key] from the first
    leaf. *)
Lemma deleteFromNode_min_spec (n : nat) : forall fuel tr bt r h s key,
  (n < fuel)%nat ->
  erase bt = mkBTree order r h s -> heap_ok h s ->
  shaped h n tr -> NoDup (ids tr) ->
  sorted (tkeys tr) -> head (tkeys tr) = Some key ->
  (n <> 0%nat -> node_keys tr <> []) ->
  wp (deleteFromNode fuel (root_id tr) key) bt (fun d bt' =>
    d = true /\ removed n key r h s tr (length (node_keys tr) - 1) bt').
Proof.
  induction n as [| n IH];
    intros fuel tr bt r h s key Hfuel E Hok Hsh Hnd Hs Hhead Hne.
  { destruct fuel; [lia |]. by apply deleteFromNode_leaf. }
  destruct fuel as [| fuel]; [lia |].
  destruct tr as [id keys kids].
  assert (Hsh' := Hsh). destruct Hsh' as (Hid & Hklen & Hk).
  simpl in Hid, Hklen, Hk.
  destruct keys as [| k0 pks]; [by destruct Hne |]. clear Hne.
  destruct kids as [| [cid ckeys ckids] [| [rid rkeys rkids] kids]];
    [done | done |].
  set (c0 := T cid ckeys ckids) in *. set (c1 := T rid rkeys rkids) in *.
  apply Forall_cons in Hk as [[Hc0 Hb0] Hk].
  assert (Hk' := Hk). apply Forall_cons in Hk' as [[Hc1 Hb1] Hk'].
  assert (length (c1 :: kids) = length (k0 :: pks)) as Hl2
    by (simpl in *; lia).
  set (tr := T id (k0 :: pks) (c0 :: c1 :: kids)) in *.
  assert (forall c, (t <= length (node_keys c))%nat \/ bounded c ->
                    node_keys c <> []) as Hnonempty.
  { intros c Hc Hnil. unfold bounded in Hc. rewrite Hnil in Hc. simpl in Hc. lia. }
  (* the rest of the descent, from any tree the fill step leaves *)
  assert (forall bt1 h1 keys1 c l2,
    erase bt1 = mkBTree order r h1 s -> heap_ok h1 s ->
    shaped h1 (S n) (T id keys1 (c :: l2)) ->
    NoDup (ids (T id keys1 (c :: l2))) ->
    evolves h tr h1 (T id keys1 (c :: l2)) ->
    tkeys (T id keys1 (c :: l2)) = tkeys tr ->
    (length (k0 :: pks) - 1 <= length keys1 <= length (k0 :: pks))%nat ->
    (t <= length (node_keys c))%nat ->
    wp (n1 <- node id ;;
        if 0 >? len (Keys n1) then
          c <- must (idx (Children n1) (0 - 1)) ;;
          deleteFromNode fuel c key
        else
          c <- must (idx (Children n1) 0) ;;
          deleteFromNode fuel c key) bt1
       (fun d bt' => d = true
          /\ removed (S n) key r h s tr (length (k0 :: pks) - 1) bt')) as Hcont.
  { intros bt1 h1 keys1 c l2 E1 Hok1 Hsh1 Hnd1 Hev1 Htk1 Hlen1 Hct.
    assert (Hsh1' := Hsh1). destruct Hsh1' as (Hid1 & Hklen1 & Hkids1).
    simpl in Hid1, Hklen1, Hkids1, Hlen1.
    apply Forall_cons in Hkids1 as [[Hshc Hbc] Hkids1].
    assert (length l2 = length keys1) as Hl21 by lia.
    assert (Htkc := tkeys_first id keys1 c l2 Hl21).
    assert (tkeys c <> []) as Htne by (apply tkeys_nonempty, Hnonempty; auto).
    wp_read E1.
    destruct (Z.gtb_spec 0 (len keys1)) as [Hneg |]; [unfold len in Hneg; lia |].
    wp_opt. eapply wp_mono.
    { apply (IH fuel c bt1 r h1 s key); try done; try lia.
      - assert (NoDup (ids (T id keys1 ([] ++ c :: l2)))) as Hnd2 by done.
        by apply NoDup_ids_at in Hnd2 as (_ & (_ & ? & _) & _).
      - rewrite <- Htk1, Htkc in Hs. by apply sorted_app in Hs as (? & _).
      - rewrite <- Htk1, Htkc in Hhead. by rewrite head_app_nonempty in Hhead.
      - intros _. apply Hnonempty. auto. }
    intros d bt' [-> Hrem]. split; [done |].
    apply (removed_weaken (S n) key r h s tr (length keys1)
             (length (k0 :: pks) - 1) bt'); [simpl; lia |].
    apply (removed_after (S n) key r h s tr h1 (T id keys1 (c :: l2))
             (length keys1) bt' Hev1 Htk1); [done | unfold tr; simpl; lia |].
    apply (descend_min n key r h1 s id keys1 c l2
             (length (node_keys c) - 1) bt'); [done | done | lia | exact Hrem]. }
  (* the keys of the node and of its first child *)
  assert (Htk := tkeys_first id (k0 :: pks) c0 (c1 :: kids) Hl2).
  fold tr in Htk. rewrite fmap_cons in Htk. simpl keys_after in Htk.
  assert (tkeys c0 <> []) as Htne0 by (apply tkeys_nonempty, Hnonempty; auto).
  assert (key < k0) as Hlt.
  { rewrite Htk in Hs, Hhead. rewrite head_app_nonempty in Hhead by done.
    apply sorted_app in Hs as (_ & _ & Hs). apply Hs; [| by left].
    destruct (tkeys c0); [done |]. simpl in Hhead. simplify_eq. by left. }
  assert (Hcn0 := shaped_node _ _ _ Hc0).
  assert (Hcn1 := shaped_node _ _ _ Hc1).
  simpl deleteFromNode. wp_read E. apply wp_bind, wp_get. cbn zeta.
  rewrite (erase_Order _ _ _ _ _ E), mid_eq.
  simpl scan_up. destruct (Z.gtb_spec key k0) as [Hgt |]; [lia |].
  replace ((0 <? len (k0 :: pks))
           && bool_decide (idx (k0 :: pks) 0 = Some key)) with false.
  2:{ symmetry. apply andb_false_iff. right. apply bool_decide_eq_false_2.
      simpl. intros [= ->]. lia. }
  simpl root_id. wp_opt. wp_read E.
  destruct (Z.eqb_spec (len (node_keys c0)) (Z.of_nat (t - 1))) as [Hmin | Hmore].
  - (* the first child is at the minimum *)
    assert (length ckeys = (t - 1)%nat) as Hck by (unfold len in Hmin; simpl in Hmin; lia).
    assert (NoDup (ids (T id (k0 :: pks) ([] ++ c0 :: c1 :: kids)))) as Hnd2
      by done.
    apply NoDup_ids_at in Hnd2 as ((_ & I2 & I3) & (_ & N2 & N3) & _ & _ & D3).
    assert (id <> cid) as Hic by (intros ->; apply I2; by left).
    assert (id <> rid) as Hir.
    { intros ->. apply I3. rewrite kids_ids_cons. apply elem_of_app. left. by left. }
    assert (cid <> rid) as Hcr.
    { intros ->. apply (D3 rid); [by left |]. rewrite kids_ids_cons.
      apply elem_of_app. left. by left. }
    assert (forall x, is_Some (h !! x) -> is_Some (h !! x)) as _ by done.
    apply wp_bind. unfold fillChild.
    apply wp_bind, wp_get. rewrite (erase_Order _ _ _ _ _ E), mid_eq.
    wp_read E. change (0 >? 0) with false. cbv iota.
    apply wp_bind, wp_ret. cbv iota. apply wp_bind.
    destruct (Z.ltb_spec 0 (len (root_id <$> c0 :: c1 :: kids) - 1))
      as [_ | Hbad]; [| exfalso; unfold len in Hbad; simpl in Hbad; lia].
    wp_opt. wp_read E. apply wp_ret.
    destruct (Z.gtb_spec (len (node_keys c1)) (Z.of_nat (t - 1)))
      as [Hrich | Hpoor].
    + (* a key comes over from the second child *)
      simpl in Hrich.
      destruct rkeys as [| rk rkeys]; [unfold len in Hrich; simpl in Hrich; lia |].
      eapply wp_mono.
      { eapply (borrowFromRight_spec bt r h s id k0 pks cid rid
                  (root_id <$> kids) false ckeys (root_id <$> ckids)
                  (bool_decide (n = 0%nat)) rk rkeys (root_id <$> rkids)
                  (bool_decide (n = 0%nat)));
          [exact E | exact Hid | exact Hcn0 | exact Hcn1 | done | done | done |].
        destruct n as [| n']; simpl in Hc1.
        - destruct Hc1 as [-> _]. done.
        - destruct Hc1 as (_ & Hl1 & Hk1). simpl in Hl1.
          destruct rkids as [| g gs]; [done |]. simpl.
          exists (root_id g), (root_id <$> gs). split; [done |].
          apply Forall_cons in Hk1 as [[Hg _] _].
          apply (shaped_dom _ _ _ _ Hg). destruct g. by left. }
      intros ? bt1 (h1 & E1 & P1 & C1 & R1 & Fr1).
      destruct (borrow_shape h h1 n id k0 pks cid ckeys ckids rid rk rkeys
                             rkids kids)
        as (Hsh1 & Hnd1 & Hev1 & Htk1 & Hdom1); try done.
      { unfold len in Hrich. lia. }
      apply (Hcont bt1 h1 (rk :: pks)
               (T cid (ckeys ++ [k0]) (ckids ++ take 1 rkids))
               (T rid rkeys (drop 1 rkids) :: kids) E1); try done.
      * destruct Hok as [Hs0 Hok]. split; [done |]. intros x Hx.
        by apply Hok, Hdom1.
      * simpl. lia.
      * simpl. rewrite length_app. simpl. lia.
    + (* the first two children are joined *)
      simpl in Hpoor.
      assert (length rkeys = (t - 1)%nat) as Hrk.
      { destruct Hb1 as [Hb1 _]. unfold len in Hpoor. simpl in Hb1. lia. }
      eapply wp_mono.
      { eapply (mergeChildren_spec bt r h s id k0 pks cid rid
                  (root_id <$> kids) false ckeys (root_id <$> ckids)
                  (bool_decide (n = 0%nat)) rkeys (root_id <$> rkids)
                  (bool_decide (n = 0%nat)));
          [exact E | exact Hid | exact Hcn0 | exact Hcn1 | done | done | done |].
        destruct n as [| n']; simpl in Hc0, Hc1.
        - destruct Hc0 as [-> _]. destruct Hc1 as [-> _]. done.
        - destruct Hc1 as (_ & _ & Hk1). simpl.
          intros x Hx. apply list_elem_of_fmap in Hx as (d & -> & Hd).
          rewrite Forall_forall in Hk1. destruct (Hk1 d Hd) as [Hsd _].
          apply (shaped_dom _ _ _ _ Hsd). destruct d. by left. }
      intros ? bt1 (h1 & E1 & P1 & C1 & R1 & Fr1).
      destruct (merge_shape h h1 n id k0 pks cid ckeys ckids rid rkeys
                            rkids kids)
        as (Hsh1 & Hnd1 & Hev1 & Htk1 & Hdom1); try done.
      apply (Hcont bt1 h1 pks
               (T cid ((ckeys ++ [k0]) ++ rkeys) (ckids ++ rkids)) kids E1);
        try done.
      * destruct Hok as [Hs0 Hok]. split; [done |]. intros x Hx.
        by apply Hok, Hdom1.
      * simpl. lia.
      * simpl. rewrite !length_app. simpl. lia.
  - (* the first child can lose a key *)
    apply wp_bind, wp_ret.
    apply (Hcont bt h (k0 :: pks) c0 (c1 :: kids)); try done.
    + apply evolves_refl.
    + lia.
    + destruct Hb0 as [Hb0 _]. unfold len in Hmore. simpl in *. lia.
Qed.

(** [Delete] of the least key returns [true] and keeps the tree.  The
    root id stays set: an internal root without keys gives way to its
    only child, a root leaf without keys stays. *)
Lemma Delete_min_spec fuel key rest bt hmax :
  tree_inv bt (key :: rest) hmax -> (hmax < fuel)%nat ->
  wp (Delete fuel key) bt (fun d bt' =>
    d = true /\ tree_inv bt' rest hmax /\ RootID bt' <> "").
Proof.
  intros (r & h & s & E & Hok & Hsorted & Hcase) Hfuel.
  destruct Hcase as [(_ & ? & _) | (n & tr & -> & Hn & Hsh & Hnd & Hlen & Hne & Hks & Hdom)];
    [done |].
  assert (root_id tr <> "") as Hr.
  { destruct Hok as [_ Hok].
    destruct (Hok (root_id tr)) as (k & _ & ->); [| apply node_id_nonempty].
    rewrite (shaped_node _ _ _ Hsh). eauto. }
  assert (sorted rest) as Hsrest by (by apply sorted_cons in Hsorted as [? _]).
  unfold Delete. apply wp_bind, wp_get. rewrite (erase_RootID _ _ _ _ _ E).
  rewrite bool_decide_eq_false_2 by done.
  apply wp_bind. eapply wp_mono.
  { apply (deleteFromNode_min_spec n fuel tr bt (root_id tr) h s key);
      try done; try lia.
    - by rewrite Hks.
    - by rewrite Hks. }
  intros d bt1 [-> (h' & tr' & E1 & Hok' & Hroot & Hsh' & Hnd' & Hk & Hl & Hev)].
  assert (tkeys tr' = rest) as Hrest by congruence.
  assert (Hdom' := dom_evolves _ _ _ _ Hdom Hev).
  assert (Hnode := shaped_node _ _ _ Hsh'). rewrite Hroot in Hnode.
  destruct tr' as [id keys' kids']. simpl in Hroot, Hnode, Hl. subst id.
  apply wp_bind, wp_get. rewrite (erase_RootID _ _ _ _ _ E1).
  wp_read E1.
  destruct (Z.eqb_spec (len keys') 0) as [Hzero | Hpos]; simpl andb.
  - destruct n as [| n'].
    + (* an empty root leaf stays *)
      simpl negb. cbv iota. apply wp_bind, wp_ret. apply wp_ret.
      split; [done |]. split; [| by rewrite (erase_RootID _ _ _ _ _ E1)].
      exists (root_id tr), h', s. split_and!; try done.
      right. exists 0%nat, (T (root_id tr) keys' kids').
      split_and!; try done; try (simpl; lia).
    + (* an internal root without keys gives way to its only child *)
      rewrite bool_decide_eq_false_2 by done. simpl negb. cbv iota.
      destruct keys' as [| ? ?]; [| done].
      destruct Hsh' as (Hid' & Hklen' & Hkids'). simpl in Hid', Hklen', Hkids'.
      destruct kids' as [| c [| ? ?]]; [done | | done].
      apply Forall_cons in Hkids' as [[Hshc Hbc] _].
      assert (NoDup (ids (T (root_id tr) [] ([] ++ c :: [])))) as Hnd2 by done.
      apply NoDup_ids_at in Hnd2 as ((_ & I2 & _) & (_ & N2 & _) & _).
      assert (Hcn := shaped_node _ _ _ Hshc).
      apply wp_bind. wp_opt.
      apply wp_bind. eapply wp_set_RootID; [exact E1 |]. intros bt2 E2.
      apply wp_bind. eapply wp_update_Parent; [exact E2 | eexists; lookup |].
      intros bt3 E3.
      eapply wp_delete_node; [exact E3 |]. intros bt4 E4. norm_in E4.
      apply wp_ret. split; [done |]. split.
      2:{ rewrite (erase_RootID _ _ _ _ _ E4). destruct Hok' as [_ Hok'].
          destruct (Hok' (root_id c)) as (k & _ & ->); [eauto |].
          apply node_id_nonempty. }
      exists (root_id c), (delete (root_id tr) h'), s.
      split; [exact E4 |]. split_and!; try done.
      * destruct Hok' as [Hs0 Hok']. split; [done |]. intros x [v Hx].
        apply Hok'. apply lookup_delete_Some in Hx as [_ Hx]. eauto.
      * right. exists n', c. split_and!; try done; try lia.
        -- eapply shaped_frame; [exact Hshc |]. intros x Hx.
           apply lookup_delete_ne. by intros <-.
        -- destruct Hbc. lia.
        -- intros _ Hnil. destruct Hbc as [Hbc _]. rewrite Hnil in Hbc.
           simpl in Hbc. lia.
        -- intros x [v Hx]. apply lookup_delete_Some in Hx as [Hx1 Hx].
           assert (x ∈ ids (T (root_id tr) [] [c])) as Hin
             by (apply Hdom'; eauto).
           rewrite ids_T, kids_ids_cons in Hin.
           apply elem_of_cons in Hin as [-> | Hin]; [done |].
           apply elem_of_app in Hin as [Hin | Hin]; [done |].
           by apply elem_of_nil in Hin.
  - (* the root keeps a key *)
    cbv iota. apply wp_bind, wp_ret. apply wp_ret.
    split; [done |]. split; [| by rewrite (erase_RootID _ _ _ _ _ E1)].
    exists (root_id tr), h', s. split_and!; try done.
    right. exists n, (T (root_id tr) keys' kids').
    split_and!; try done; try (simpl; lia).
    intros _ Hnil. simpl in Hnil. by subst keys'.
Qed.

Lemma tree_inv_rooted bt ks hmax :
  tree_inv bt ks hmax -> ks <> [] -> RootID bt <> "".
Proof.
  intros (r & h & s & E & Hok & Hsorted & Hcase) Hne.
  rewrite (erase_RootID _ _ _ _ _ E).
  destruct Hcase as [(_ & ? & _) | (n & tr & -> & _ & Hsh & _)]; [done |].
  destruct Hok as [_ Hok].
  destruct (Hok (root_id tr)) as (k & _ & ->); [| apply node_id_nonempty].
  rewrite (shaped_node _ _ _ Hsh). eauto.
Qed.

Lemma DeleteAll_spec fuel ks : forall bt hmax,
  tree_inv bt ks hmax -> RootID bt <> "" -> (hmax < fuel)%nat ->
  wp (DeleteAll fuel ks) bt (fun _ bt' =>
    tree_inv bt' [] hmax /\ RootID bt' <> "").
Proof.
  induction ks as [| k ks IH]; intros bt hmax Hinv Hroot Hfuel; simpl.
  - by apply wp_ret.
  - apply wp_bind. eapply wp_mono; [by apply Delete_min_spec |].
    intros d bt1 (-> & Hinv1 & Hroot1). by apply IH.
Qed.

(** A rooted tree without keys is one empty leaf, and the node map holds
    nothing else. *)
Lemma empty_tree bt hmax :
  tree_inv bt [] hmax -> RootID bt <> "" ->
  exists p, Nodes bt = {[ RootID bt := mkNode (RootID bt) [] [] true p ]}.
Proof.
  intros (r & h & s & E & Hok & Hsorted & Hcase) Hroot.
  rewrite (erase_RootID _ _ _ _ _ E) in Hroot |- *.
  destruct Hcase as [(-> & _) | (n & tr & -> & _ & Hsh & _ & _ & Hne & Hks & Hdom)];
    [done |].
  destruct tr as [id keys kids]. simpl in *.
  assert (keys = []) as ->.
  { destruct keys; [done |]. exfalso.
    by apply (interleave_nonempty (tkeys <$> kids) (z :: keys)). }
  destruct n as [| n]; [| by destruct Hne].
  destruct Hsh as [Hkids Hid]. simpl in Hkids, Hid. subst kids.
  destruct (erase_Nodes _ _ _ _ _ id _ E Hid) as [p Hp].
  exists p. apply map_eq. intros x.
  destruct (decide (x = id)) as [-> |].
  - by rewrite lookup_singleton_eq.
  - rewrite lookup_singleton_ne by done.
    destruct (Nodes bt !! x) eqn:Hx; [| done]. exfalso.
    assert (is_Some (h !! x)) as Hsome.
    { assert (Nodes (erase bt) !! x = h !! x) as <- by (by rewrite E).
      rewrite erase_lookup, Hx. eauto. }
    apply Hdom in Hsome. apply list_elem_of_singleton in Hsome. done.
Qed.

Lemma sorted_perm_eq (l1 : list Z) : forall l2,
  sorted l1 -> sorted l2 -> l1 ≡ₚ l2 -> l1 = l2.
Proof.
  induction l1 as [| x l1 IH]; intros l2 H1 H2 Hp.
  - by apply Permutation_nil in Hp.
  - destruct l2 as [| y l2]; [by apply Permutation_sym, Permutation_nil in Hp |].
    apply sorted_cons in H1 as [H1 Hx]. apply sorted_cons in H2 as [H2 Hy].
    assert (x = y) as ->.
    { assert (x ∈ y :: l2) as Hin1 by (rewrite <- Hp; by left).
      assert (y ∈ x :: l1) as Hin2 by (rewrite Hp; by left).
      apply elem_of_cons in Hin1 as [-> | Hin1]; [done |].
      apply elem_of_cons in Hin2 as [-> | Hin2]; [done |].
      specialize (Hx y Hin2). specialize (Hy x Hin1). lia. }
    f_equal. apply IH; [done | done |]. by apply Permutation_cons_inv in Hp.
Qed.

(** Insertion of distinct keys, then their deletion in ascending order,
    at order [2 * t]. *)
Lemma insert_then_delete_ascending fuel keys dels :
  NoDup keys -> keys <> [] -> dels ≡ₚ keys -> sorted dels ->
  (length keys < fuel)%nat ->
  wp (InsertAll fuel keys ;;; DeleteAll fuel dels) (NewBTree order)
     (fun _ bt =>
        RootID bt <> ""
        /\ exists p,
             Nodes bt = {[ RootID bt := mkNode (RootID bt) [] [] true p ]}).
Proof.
  intros Hnd Hne Hperm Hsorted Hfuel.
  apply wp_bind. eapply wp_mono.
  { apply (InsertAll_spec fuel keys (NewBTree order) [] 0);
      [apply NewBTree_inv | done | | lia].
    intros k _ Hk. by apply elem_of_nil in Hk. }
  intros ? bt1 (ks & Hinv & Hks). rewrite app_nil_r in Hks. simpl in Hinv.
  assert (ks = dels) as ->.
  { apply sorted_perm_eq; [| done | by rewrite Hks, Hperm].
    by destruct Hinv as (_ & _ & _ & _ & _ & ? & _). }
  assert (dels <> []) as Hdne.
  { intros ->. apply Permutation_nil in Hperm. by subst. }
  eapply wp_mono.
  { apply (DeleteAll_spec fuel dels bt1 (length keys));
      [done | by eapply tree_inv_rooted | lia]. }
  intros ? bt2 [Hinv2 Hroot2]. split; [done |]. by eapply empty_tree.
Qed.

End WithDegree.

(** C4, amended.  At every even order [m >= 4], for every non-empty
    duplicate-free list of keys: inserting the keys in the given order and
    then deleting every one of them in ascending order returns (with a
    recursion budget above the number of keys), and leaves the root id
    set, naming a leaf without keys, which is the only node left in the
    node map.  The tree is empty of keys; the root id is not cleared. *)
Theorem delete_ascending_leaves_empty_root_leaf
    (m : Z) (fuel : nat) (keys dels : list Z) :
  4 <= m -> Z.even m = true ->
  NoDup keys -> keys <> [] ->
  dels ≡ₚ keys -> StronglySorted Z.lt dels ->
  (length keys < fuel)%nat ->
  exists bt p,
    (InsertAll fuel keys ;;; DeleteAll fuel dels) (NewBTree m) = Ret tt bt
    /\ RootID bt <> ""
    /\ Nodes bt = {[ RootID bt := mkNode (RootID bt) [] [] true p ]}.
Proof.
  intros Hm Heven Hnd Hne Hperm Hsorted Hfuel.
  apply Z.even_spec in Heven as [k Hk].
  assert (m = order (Z.to_nat k)) as -> by (unfold order; lia).
  destruct (insert_then_delete_ascending (Z.to_nat k) ltac:(lia)
              fuel keys dels Hnd Hne Hperm Hsorted Hfuel)
    as ([] & bt & Hrun & Hroot & p & Hnodes).
  by exists bt, p.
Qed.

Lemma delete_ascending_witness :
  exists bt p,
    (InsertAll 8 [4; 2; 6; 1; 3; 5; 7] ;;; DeleteAll 8 [1; 2; 3; 4; 5; 6; 7])
      (NewBTree 4) = Ret tt bt
    /\ RootID bt <> ""
    /\ Nodes bt = {[ RootID bt := mkNode (RootID bt) [] [] true p ]}.
Proof.
  apply (delete_ascending_leaves_empty_root_leaf 4 8
           [4; 2; 6; 1; 3; 5; 7] [1; 2; 3; 4; 5; 6; 7]).
  - lia.
  - reflexivity.
  - apply (bool_decide_unpack _). vm_compute. exact I.
  - discriminate.
  - apply (bool_decide_unpack _). vm_compute. exact I.
  - apply (bool_decide_unpack _). vm_compute. exact I.
  - simpl. lia.
Defined.

End BTreeFacts.

(* ===================================================================== *)
(** * B-Tree: searches, and the tree that insertions build *)
(* ===================================================================== *)

Module BTreeQueries.
Import BTree BTreeRange BTreeLists BTreeHeap BTreeFacts.

(** ** Lists *)

Lemma scan_up_spec (key : Z) (keys : list Z) :
  sorted keys ->
  exists i : nat,
    scan_up key keys = Z.of_nat i
    /\ (i <= length keys)%nat
    /\ (forall k, k ∈ take i keys -> k < key)
    /\ (keys !! i = Some key
        \/ (keys !! i <> Some key /\ forall k, k ∈ drop i keys -> key < k)).
Proof.
  induction keys as [| k keys IH]; intros Hs.
  - exists 0%nat. split_and!; [done | done | |].
    + by intros k Hk%elem_of_nil.
    + right. split; [done |]. by intros k Hk%elem_of_nil.
  - apply sorted_cons in Hs as [Hs Hk]. simpl.
    destruct (Z.gtb_spec key k) as [Hgt | Hle].
    + destruct (IH Hs) as (i & Hi & Hlen & Hlo & Hhi).
      exists (S i). split_and!.
      * lia.
      * simpl. lia.
      * intros k' Hk'. simpl in Hk'.
        apply elem_of_cons in Hk' as [-> | Hk']; [lia | by apply Hlo].
      * done.
    + exists 0%nat. split_and!; [done | simpl; lia | |].
      * by intros k' Hk'%elem_of_nil.
      * destruct (decide (key = k)) as [-> | Hne]; [by left |].
        right. split; [simpl; congruence |].
        intros k' Hk'. simpl in Hk'.
        apply elem_of_cons in Hk' as [-> | Hk']; [lia |].
        specialize (Hk k' Hk'). lia.
Qed.

(** The test [i < len(keys) && key == keys[i]]. *)
Lemma found_at (key : Z) (keys : list Z) (i : nat) :
  (Z.of_nat i <? len keys) && bool_decide (keys !! i = Some key) = true
  <-> keys !! i = Some key.
Proof.
  rewrite andb_true_iff, bool_decide_eq_true, Z.ltb_lt. unfold len.
  split; [tauto |]. intros H. split; [| done].
  apply lookup_lt_Some in H. lia.
Qed.

Lemma scan_below_up (start : Z) (keys : list Z) :
  scan_below start keys = scan_up start keys.
Proof.
  induction keys as [| k keys IH]; [done |]. simpl. rewrite IH.
  by destruct (Z.ltb_spec k start), (Z.gtb_spec start k); try lia.
Qed.

Lemma keys_before_below (x : Z) (s1 : list (list Z)) : forall k1,
  length s1 = length k1 -> sorted (keys_before s1 k1) ->
  (forall k, k ∈ k1 -> k < x) ->
  forall y, y ∈ keys_before s1 k1 -> y < x.
Proof.
  induction s1 as [| s s1 IH]; intros k1 H1 Hs1 Hlo y Hy.
  { by apply elem_of_nil in Hy. }
  destruct k1 as [| k k1]; [done |]. simpl in H1, Hs1, Hy.
  apply sorted_app in Hs1 as (_ & Hs1 & Hsk).
  apply sorted_cons in Hs1 as [Hs1 Hk].
  assert (k < x) as Hkk by (apply Hlo; by left).
  apply elem_of_app in Hy as [Hy | Hy].
  - specialize (Hsk y k Hy ltac:(by left)). lia.
  - apply elem_of_cons in Hy as [-> | Hy]; [done |].
    apply (IH k1); [lia | done | | done].
    intros k' Hk'. apply Hlo. by right.
Qed.

(** The keys of a node and its subtrees, cut before child [length s1]. *)
Lemma interleave_split (s1 : list (list Z)) (k1 : list Z) s2 k2 :
  length s1 = length k1 -> length s2 = S (length k2) ->
  interleave (s1 ++ s2) (k1 ++ k2) = keys_before s1 k1 ++ interleave s2 k2.
Proof.
  intros H1 H2. destruct s2 as [| s s2]; [done |]. simpl in H2.
  rewrite interleave_at by lia. by rewrite interleave_last by lia.
Qed.

Lemma filter_none (P : Z -> Prop) `{!forall x, Decision (P x)} (l : list Z) :
  (forall x, x ∈ l -> ~ P x) -> filter P l = [].
Proof.
  induction l as [| x l IH]; intros Hall; [done |].
  rewrite filter_cons_False by (apply Hall; by left).
  apply IH. intros y Hy. apply Hall. by right.
Qed.

Lemma sorted_filter (P : Z -> Prop) `{!forall x, Decision (P x)} (l : list Z) :
  sorted l -> sorted (filter P l).
Proof.
  induction l as [| x l IH]; intros Hs; [done |].
  apply sorted_cons in Hs as [Hs Hx].
  destruct (decide (P x)).
  - rewrite filter_cons_True by done. apply sorted_cons. split; [by apply IH |].
    intros y Hy. apply list_elem_of_filter in Hy as [_ Hy]. by apply Hx.
  - rewrite filter_cons_False by done. by apply IH.
Qed.

Lemma split_at {A} (l : list A) (i : nat) (c : A) :
  l !! i = Some c ->
  l = take i l ++ c :: drop (S i) l /\ length (take i l) = i.
Proof.
  intros H. split; [by rewrite take_drop_middle |].
  apply lookup_lt_Some in H. rewrite length_take. lia.
Qed.

(** ** Reads of the node map *)

Lemma node_read bt o r h s id N :
  erase bt = mkBTree o r h s -> h !! id = Some N ->
  exists p, node id bt = Ret (with_Parent p N) bt.
Proof.
  intros E H. destruct (erase_Nodes _ _ _ _ _ _ _ E H) as [p Hp].
  exists p. unfold node. by rewrite Hp.
Qed.

Lemma shaped_child t h n id keys kids (i : nat) c :
  shaped t h (S n) (T id keys kids) -> kids !! i = Some c ->
  shaped t h n c /\ bounded t c.
Proof.
  intros (_ & _ & Hk) Hc. simpl in Hk. rewrite Forall_forall in Hk.
  apply Hk. by eapply list_elem_of_lookup_2.
Qed.

(** ** searchNode *)

Lemma searchNode_spec t (n : nat) : forall fuel tr bt o r h s key,
  (n < fuel)%nat ->
  erase bt = mkBTree o r h s -> shaped t h n tr -> sorted (tkeys tr) ->
  exists id i found,
    searchNode fuel (root_id tr) key bt = Some (id, i, found)
    /\ (found = true <-> key ∈ tkeys tr)
    /\ (found = true ->
        exists nd, Nodes bt !! id = Some nd /\ idx (Keys nd) i = Some key).
Proof.
  induction n as [| n IH]; intros fuel [id keys kids] bt o r h s key
    Hfuel E Hsh Hs.
  - destruct fuel as [| fuel]; [lia |].
    destruct Hsh as [Hkids Hid]. simpl in Hkids, Hid. subst kids.
    rewrite tkeys_T in Hs |- *. simpl in Hs |- *.
    destruct (erase_Nodes _ _ _ _ _ _ _ E Hid) as [p Hp].
    rewrite Hp. unfold with_Parent. cbn [Keys IsLeaf Children ID Parent].
    destruct (scan_up_spec key keys Hs) as (i & Hi & Hlen & Hlo & Hcase).
    rewrite Hi, idx_nat.
    destruct Hcase as [Hk | [Hk Hhi]].
    + rewrite (proj2 (found_at key keys i) Hk).
      exists id, (Z.of_nat i), true. split_and!; [done | |].
      * split; [| done]. intros _. by eapply list_elem_of_lookup_2.
      * intros _. eexists. split; [exact Hp |]. simpl. by rewrite idx_nat.
    + destruct ((Z.of_nat i <? len keys) && bool_decide (keys !! i = Some key))
        eqn:Hfound; [by apply found_at in Hfound |].
      exists id, (Z.of_nat i), false. split_and!; [done | | done].
      split; [done |]. intros Hin. exfalso.
      rewrite <- (take_drop i keys) in Hin.
      apply elem_of_app in Hin as [Hin | Hin].
      * specialize (Hlo _ Hin). lia.
      * specialize (Hhi _ Hin). lia.
  - destruct fuel as [| fuel]; [lia |].
    assert (Hsh' := Hsh). destruct Hsh' as (Hid & Hklen & Hk).
    simpl in Hid, Hklen, Hk.
    assert (Hs' := Hs). rewrite tkeys_T in Hs'.
    destruct (interleave_keys _ _ Hs') as [Hsk Hin]. clear Hs'.
    cbn [searchNode root_id]. destruct (erase_Nodes _ _ _ _ _ _ _ E Hid) as [p Hp].
    rewrite Hp. unfold with_Parent. cbn [Keys IsLeaf Children ID Parent].
    destruct (scan_up_spec key keys Hsk) as (i & Hi & Hlen & Hlo & Hcase).
    rewrite Hi, !idx_nat.
    destruct Hcase as [Hkey | [Hkey Hhi]].
    + rewrite (proj2 (found_at key keys i) Hkey).
      exists id, (Z.of_nat i), true. split_and!; [done | |].
      * split; [| done]. intros _. apply Hin. by eapply list_elem_of_lookup_2.
      * intros _. eexists. split; [exact Hp |]. simpl. by rewrite idx_nat.
    + destruct ((Z.of_nat i <? len keys) && bool_decide (keys !! i = Some key))
        eqn:Hfound; [by apply found_at in Hfound |].
      destruct (lookup_lt_is_Some_2 kids i) as [c Hc]; [lia |].
      rewrite list_lookup_fmap, Hc. simpl.
      destruct (shaped_child _ _ _ _ _ _ _ _ Hsh Hc) as [Hshc _].
      destruct (split_at _ _ _ Hc) as [Hkids Hl1].
      set (l1 := take i kids) in *. set (l2 := drop (S i) kids) in *.
      set (k1 := take i keys) in *. set (k2 := drop i keys) in *.
      assert (keys = k1 ++ k2) as Hkeys by (unfold k1, k2; by rewrite take_drop).
      assert (length k1 = i) as Hk1 by (unfold k1; rewrite length_take; lia).
      assert (length l2 = length k2) as Hl2.
      { unfold l2, k2. rewrite !length_drop. lia. }
      assert (Hst := Hs). rewrite Hkids, Hkeys in Hst.
      rewrite tkeys_at in Hst by lia.
      destruct (bounds_around key (tkeys <$> l1) k1 k2 (tkeys <$> l2) (tkeys c))
        as [Hpre Hpost]; try done; try (rewrite length_fmap; lia).
      assert (sorted (tkeys c)) as Hsc.
      { apply sorted_app in Hst as (_ & Hst & _).
        by apply sorted_app in Hst as (Hst & _). }
      destruct (IH fuel c bt o r h s key ltac:(lia) E Hshc Hsc)
        as (id' & i' & found & Hrun & Hiff & Hloc).
      exists id', i', found. split_and!; [done | | done].
      rewrite Hiff. rewrite Hkids. rewrite Hkeys.
      rewrite <- (tkeys_T id), tkeys_at by lia. rewrite !elem_of_app. split; [by auto |].
      intros [Hx | [Hx | Hx]]; [| done |].
      * specialize (Hpre _ Hx). lia.
      * specialize (Hpost _ Hx). lia.
Qed.

(** ** rangeSearchNode *)

Lemma bind_Ret {A B} (m : M A) (k : A -> M B) bt a bt' :
  m bt = Ret a bt' -> bind m k bt = k a bt'.
Proof. intros H. unfold bind. by rewrite H. Qed.

(** The loop over the keys of a leaf. *)
Lemma range_loop_leaf visit nd (start end_ : Z) bt :
  IsLeaf nd = true ->
  forall rest i result,
    sorted rest -> (forall k, k ∈ rest -> start <= k) ->
    exists j,
      range_loop visit nd end_ rest i result bt
      = Ret (j, result ++ filter (fun k => start <= k <= end_) rest) bt.
Proof.
  intros Hleaf. induction rest as [| k rest IH]; intros i result Hs Hlo.
  - exists i. simpl. by rewrite app_nil_r.
  - apply sorted_cons in Hs as [Hs Hk]. simpl.
    destruct (Z.leb_spec k end_) as [Hle | Hgt].
    + rewrite Hleaf. unfold bind at 1. unfold ret at 1.
      destruct (IH (i + 1) (result ++ [k]) Hs) as [j Hj].
      { intros k' Hk'. apply Hlo. by right. }
      exists j. rewrite Hj. rewrite filter_cons_True.
      * by rewrite <- app_assoc.
      * split; [apply Hlo; by left | done].
    + exists i. unfold ret. rewrite filter_none; [by rewrite app_nil_r |].
      intros x Hx [_ Hxe]. apply elem_of_cons in Hx as [-> | Hx]; [lia |].
      specialize (Hk x Hx). lia.
Qed.

(** The loop over the keys of an inner node from child [length l1] on,
    and the visit of the child the loop stops at. *)
Lemma range_loop_inner visit nd (start end_ : Z) bt :
  IsLeaf nd = false ->
  forall k2 l2 l1 result,
    Children nd = root_id <$> (l1 ++ l2) ->
    length l2 = S (length k2) ->
    (forall c res, c ∈ l2 ->
       visit (root_id c) res bt
       = Ret (res ++ filter (fun k => start <= k <= end_) (tkeys c)) bt) ->
    sorted (interleave (tkeys <$> l2) k2) ->
    (forall k, k ∈ k2 -> start <= k) ->
    (ir <- range_loop visit nd end_ k2 (Z.of_nat (length l1)) result ;;
     if negb (IsLeaf nd) && (ir.1 <? len (Children nd)) then
       c <- must (idx (Children nd) ir.1) ;; visit c ir.2
     else ret ir.2) bt
    = Ret (result ++ filter (fun k => start <= k <= end_)
                            (interleave (tkeys <$> l2) k2)) bt.
Proof.
  intros Hleaf. induction k2 as [| k k2 IH]; intros l2 l1 result HC Hlen Hv Hs Hlo.
  - destruct l2 as [| c [| ? ?]]; try done. simpl.
    unfold bind at 1. unfold ret at 1. cbn [fst snd].
    rewrite Hleaf. cbn [negb andb].
    assert (idx (Children nd) (Z.of_nat (length l1)) = Some (root_id c)) as Hidx.
    { rewrite idx_nat, HC, list_lookup_fmap.
      rewrite lookup_app_r by lia. by rewrite Nat.sub_diag. }
    destruct (Z.ltb_spec (Z.of_nat (length l1)) (len (Children nd))) as [_ | Hge].
    2:{ unfold len in Hge. rewrite HC, length_fmap, length_app in Hge.
        simpl in Hge. lia. }
    rewrite Hidx. unfold bind, must, ret. apply Hv. by left.
  - destruct l2 as [| c l2]; [done |]. simpl in Hlen.
    assert (idx (Children nd) (Z.of_nat (length l1)) = Some (root_id c)) as Hidx.
    { rewrite idx_nat, HC, list_lookup_fmap.
      rewrite lookup_app_r by lia. by rewrite Nat.sub_diag. }
    cbn [fmap list_fmap interleave] in Hs |- *.
    change (list_fmap tree (list Z) tkeys l2) with (tkeys <$> l2) in Hs |- *.
    assert (Hs' := Hs). apply sorted_app in Hs' as (Hsc & Hsr & Hcr).
    apply sorted_cons in Hsr as [Hsr Hk].
    cbn [range_loop].
    destruct (Z.leb_spec k end_) as [Hle | Hgt].
    + rewrite Hleaf. rewrite Hidx.
      assert (forall m' : list Z -> M (Z * list Z),
                 bind (bind (must (Some (root_id c)))
                            (fun c0 => visit c0 result)) m' bt
                 = m' (result ++ filter (fun k => start <= k <= end_) (tkeys c)) bt)
        as Hstep.
      { intros m'. unfold bind, must, ret. rewrite Hv by (by left). done. }
      unfold bind at 1. rewrite Hstep. cbv beta.
      replace (Z.of_nat (length l1) + 1) with (Z.of_nat (length (l1 ++ [c])))
        by (rewrite length_app; simpl; lia).
      specialize (IH l2 (l1 ++ [c])
                    ((result ++ filter (fun k => start <= k <= end_) (tkeys c)) ++ [k])).
      unfold bind at 1 in IH. rewrite Hleaf in IH. rewrite IH.
      * rewrite filter_app, filter_cons_True.
        -- by rewrite <- !app_assoc.
        -- split; [apply Hlo; by left | done].
      * by rewrite <- app_assoc.
      * lia.
      * intros c' res Hc'. apply Hv. by right.
      * done.
      * intros k' Hk'. apply Hlo. by right.
    + unfold bind at 1. unfold ret at 1. cbn [fst snd].
      rewrite Hleaf. cbn [negb andb].
      destruct (Z.ltb_spec (Z.of_nat (length l1)) (len (Children nd))) as [_ | Hge].
      2:{ unfold len in Hge. rewrite HC, length_fmap, length_app in Hge.
          simpl in Hge. lia. }
      rewrite Hidx. unfold bind, must, ret. rewrite Hv by (by left).
      rewrite filter_app. f_equal. f_equal.
      rewrite (filter_none _ (k :: _)); [by rewrite app_nil_r |].
      intros x Hx [_ Hxe]. apply elem_of_cons in Hx as [-> | Hx]; [lia |].
      specialize (Hk x Hx). lia.
Qed.

(** [rangeSearchNode] on a stored tree with its keys in order appends the
    keys of the tree that lie in [[start, end]], in order. *)
Lemma rangeSearchNode_spec t (n : nat) :
  forall fuel tr bt o r h s start end_ result,
    (n < fuel)%nat ->
    erase bt = mkBTree o r h s -> shaped t h n tr -> sorted (tkeys tr) ->
    rangeSearchNode fuel (root_id tr) start end_ result bt
    = Ret (result ++ filter (fun k => start <= k <= end_) (tkeys tr)) bt.
Proof.
  induction n as [| n IH]; intros fuel [id keys kids] bt o r h s start end_
    result Hfuel E Hsh Hs.
  - destruct fuel as [| fuel]; [lia |].
    destruct Hsh as [Hkids Hid]. simpl in Hkids, Hid. subst kids.
    rewrite tkeys_T in Hs |- *. simpl in Hs |- *.
    destruct (node_read _ _ _ _ _ _ _ E Hid) as [p Hp].
    rewrite (bind_Ret _ _ _ _ _ Hp).
    unfold with_Parent. cbn [Keys IsLeaf Children ID Parent].
    rewrite scan_below_up.
    destruct (scan_up_spec start keys Hs) as (i & Hi & Hlen & Hlo & Hcase).
    rewrite Hi, Nat2Z.id.
    assert (forall k, k ∈ drop i keys -> start <= k) as Hhi.
    { intros k Hk. destruct Hcase as [Hc | [_ Hc]].
      - rewrite <- (take_drop i keys) in Hs.
        apply sorted_app in Hs as (_ & Hs & _).
        rewrite (drop_S _ _ _ Hc) in Hs, Hk.
        apply sorted_cons in Hs as [_ Hs].
        apply elem_of_cons in Hk as [-> | Hk]; [lia |].
        specialize (Hs _ Hk). lia.
      - specialize (Hc _ Hk). lia. }
    assert (sorted (drop i keys)) as Hsd.
    { rewrite <- (take_drop i keys) in Hs.
      by apply sorted_app in Hs as (_ & Hs & _). }
    edestruct (range_loop_leaf
                 (fun c res => rangeSearchNode fuel c start end_ res)
                 (mkNode id keys [] true p) start end_ bt eq_refl
                 (drop i keys) (Z.of_nat i) result Hsd Hhi) as [j Hj].
    rewrite (bind_Ret _ _ _ _ _ Hj). cbn [fst snd IsLeaf negb andb].
    unfold ret. f_equal. f_equal.
    rewrite <- (take_drop i keys) at 2. rewrite filter_app.
    rewrite (filter_none _ (take i keys)); [done |].
    intros x Hx [Hxs _]. specialize (Hlo _ Hx). lia.
  - destruct fuel as [| fuel]; [lia |].
    assert (Hsh' := Hsh). destruct Hsh' as (Hid & Hklen & Hk).
    simpl in Hid, Hklen, Hk.
    assert (Hs' := Hs). rewrite tkeys_T in Hs'.
    destruct (interleave_keys _ _ Hs') as [Hsk Hin].
    cbn [rangeSearchNode root_id].
    destruct (node_read _ _ _ _ _ _ _ E Hid) as [p Hp].
    rewrite (bind_Ret _ _ _ _ _ Hp).
    unfold with_Parent. cbn [Keys IsLeaf Children ID Parent].
    rewrite scan_below_up.
    destruct (scan_up_spec start keys Hsk) as (i & Hi & Hlen & Hlo & Hcase).
    rewrite Hi, Nat2Z.id.
    assert (forall k, k ∈ drop i keys -> start <= k) as Hhi.
    { intros k Hkin. destruct Hcase as [Hc | [_ Hc]].
      - rewrite <- (take_drop i keys) in Hsk.
        apply sorted_app in Hsk as (_ & Hsk & _).
        rewrite (drop_S _ _ _ Hc) in Hsk, Hkin.
        apply sorted_cons in Hsk as [_ Hsk].
        apply elem_of_cons in Hkin as [-> | Hkin]; [lia |].
        specialize (Hsk _ Hkin). lia.
      - specialize (Hc _ Hkin). lia. }
    set (l1 := take i kids). set (l2 := drop i kids).
    set (k1 := take i keys). set (k2 := drop i keys) in *.
    assert (kids = l1 ++ l2) as Hkids by (unfold l1, l2; by rewrite take_drop).
    assert (keys = k1 ++ k2) as Hkeys by (unfold k1, k2; by rewrite take_drop).
    assert (length l1 = i) as Hl1 by (unfold l1; rewrite length_take; lia).
    assert (length k1 = i) as Hk1 by (unfold k1; rewrite length_take; lia).
    assert (length l2 = S (length k2)) as Hl2.
    { unfold l2, k2. rewrite !length_drop. lia. }
    rewrite Hkids, Hkeys, fmap_app in Hs'.
    rewrite interleave_split in Hs' by (rewrite ?length_fmap; lia).
    apply sorted_app in Hs' as (Hsb & Hsi & _).
    pose proof (range_loop_inner
                  (fun c res => rangeSearchNode fuel c start end_ res)
                  (mkNode id keys (root_id <$> kids) false p) start end_ bt
                  eq_refl k2 l2 l1 result) as Hloop.
    cbn [IsLeaf Children] in Hloop. rewrite Hl1 in Hloop.
    rewrite Hloop; clear Hloop.
    + f_equal. f_equal.
      rewrite tkeys_T. rewrite Hkids at 1. rewrite Hkeys at 1.
      rewrite fmap_app.
      rewrite interleave_split by (rewrite ?length_fmap; lia).
      rewrite filter_app.
      rewrite (filter_none _ (keys_before _ _)); [done |].
      intros x Hx [Hxs _].
      pose proof (keys_before_below start (tkeys <$> l1) k1
                    ltac:(rewrite length_fmap; lia) Hsb Hlo x Hx). lia.
    + by rewrite <- Hkids.
    + done.
    + intros c res Hc.
      assert (c ∈ kids) as Hck by (rewrite Hkids; apply elem_of_app; by right).
      rewrite Forall_forall in Hk. destruct (Hk c Hck) as [Hshc _].
      apply (IH fuel c bt o r h s start end_ res); [lia | done | done |].
      apply list_elem_of_lookup in Hc as [j Hj].
      destruct (split_at _ _ _ Hj) as [Hsplit Hjl].
      rewrite Hsplit, fmap_app, fmap_cons in Hsi.
      set (a1 := take j l2) in *. set (a2 := drop (S j) l2) in *.
      assert (j < length l2)%nat as Hjlt by (by eapply lookup_lt_Some).
      assert (k2 = take j k2 ++ drop j k2) as Hk2 by (by rewrite take_drop).
      rewrite Hk2 in Hsi.
      rewrite interleave_at in Hsi.
      * apply sorted_app in Hsi as (_ & Hsi & _).
        by apply sorted_app in Hsi as (Hsi & _).
      * rewrite length_fmap, length_take. lia.
      * unfold a2. rewrite length_fmap, !length_drop. lia.
    + done.
    + done.
Qed.

(** ** getSuccessor, getPredecessor *)

(** [getSuccessor] walks down the first children to a leaf: it returns
    the least key below the node. *)
Lemma getSuccessor_spec t (n : nat) : forall fuel tr bt o r h s,
  (2 <= t)%nat -> (n < fuel)%nat ->
  erase bt = mkBTree o r h s -> shaped t h n tr -> node_keys tr <> [] ->
  exists k, getSuccessor fuel (root_id tr) bt = Ret k bt
            /\ head (tkeys tr) = Some k.
Proof.
  induction n as [| n IH]; intros fuel [id keys kids] bt o r h s
    Ht Hfuel E Hsh Hne; simpl in Hne.
  - destruct fuel as [| fuel]; [lia |].
    destruct Hsh as [Hkids Hid]. simpl in Hkids, Hid. subst kids.
    destruct (node_read _ _ _ _ _ _ _ E Hid) as [p Hp].
    cbn [getSuccessor root_id]. rewrite (bind_Ret _ _ _ _ _ Hp).
    unfold with_Parent. cbn [Keys IsLeaf Children ID Parent].
    destruct keys as [| k keys]; [done |]. exists k. done.
  - destruct fuel as [| fuel]; [lia |].
    assert (Hsh' := Hsh). destruct Hsh' as (Hid & Hklen & Hk).
    simpl in Hid, Hklen, Hk.
    destruct (node_read _ _ _ _ _ _ _ E Hid) as [p Hp].
    cbn [getSuccessor root_id]. rewrite (bind_Ret _ _ _ _ _ Hp).
    unfold with_Parent. cbn [Keys IsLeaf Children ID Parent].
    destruct kids as [| c l2]; [done |]. simpl in Hklen.
    apply Forall_cons in Hk as [[Hshc Hbc] _].
    assert (node_keys c <> []) as Hcne.
    { unfold bounded in Hbc. destruct (node_keys c); [simpl in Hbc; lia | done]. }
    destruct (IH fuel c bt o r h s Ht ltac:(lia) E Hshc Hcne) as (k & Hrun & Hhd).
    exists k. split.
    + rewrite fmap_cons. unfold bind, must, ret. simpl. exact Hrun.
    + rewrite tkeys_first by lia. rewrite head_app_nonempty; [done |].
      by apply tkeys_nonempty.
Qed.

Lemma idx_last {A} (l : list A) : idx l (len l - 1) = last l.
Proof.
  destruct l as [| x l] using rev_ind; [done |].
  unfold len. rewrite length_app. simpl.
  replace (Z.of_nat (length l + 1) - 1) with (Z.of_nat (length l)) by lia.
  rewrite idx_nat, last_snoc, lookup_app_r by lia.
  by rewrite Nat.sub_diag.
Qed.

(** [getPredecessor] walks down the last children to a leaf: it returns
    the greatest key below the node. *)
Lemma getPredecessor_spec t (n : nat) : forall fuel tr bt o r h s,
  (2 <= t)%nat -> (n < fuel)%nat ->
  erase bt = mkBTree o r h s -> shaped t h n tr -> node_keys tr <> [] ->
  exists k, getPredecessor fuel (root_id tr) bt = Ret k bt
            /\ last (tkeys tr) = Some k.
Proof.
  induction n as [| n IH]; intros fuel [id keys kids] bt o r h s
    Ht Hfuel E Hsh Hne; simpl in Hne.
  - destruct fuel as [| fuel]; [lia |].
    destruct Hsh as [Hkids Hid]. simpl in Hkids, Hid. subst kids.
    destruct (node_read _ _ _ _ _ _ _ E Hid) as [p Hp].
    cbn [getPredecessor root_id]. rewrite (bind_Ret _ _ _ _ _ Hp).
    unfold with_Parent. cbn [Keys IsLeaf Children ID Parent].
    rewrite idx_last, tkeys_T. simpl.
    destruct (last keys) as [k |] eqn:Hl.
    + by exists k.
    + apply last_None in Hl. done.
  - destruct fuel as [| fuel]; [lia |].
    assert (Hsh' := Hsh). destruct Hsh' as (Hid & Hklen & Hk).
    simpl in Hid, Hklen, Hk.
    destruct (node_read _ _ _ _ _ _ _ E Hid) as [p Hp].
    cbn [getPredecessor root_id]. rewrite (bind_Ret _ _ _ _ _ Hp).
    unfold with_Parent. cbn [Keys IsLeaf Children ID Parent].
    rewrite idx_last.
    destruct kids as [| c l1 _] using rev_ind; [done |].
    rewrite length_app in Hklen. simpl in Hklen.
    apply Forall_app in Hk as [_ Hk]. apply Forall_cons in Hk as [[Hshc Hbc] _].
    assert (node_keys c <> []) as Hcne.
    { unfold bounded in Hbc. destruct (node_keys c); [simpl in Hbc; lia | done]. }
    destruct (IH fuel c bt o r h s Ht ltac:(lia) E Hshc Hcne) as (k & Hrun & Hhd).
    exists k. split.
    + rewrite fmap_app. cbn [fmap list_fmap]. rewrite last_snoc.
      unfold bind, must, ret. exact Hrun.
    + rewrite <- (app_nil_r keys).
      rewrite tkeys_at by (simpl; lia).
      simpl. rewrite app_nil_r, last_app, Hhd. done.
Qed.

(** ** Trees built from the empty tree *)

Lemma even_order (m : Z) :
  4 <= m -> Z.even m = true ->
  (2 <= Z.to_nat (m / 2))%nat /\ m = order (Z.to_nat (m / 2)).
Proof.
  intros Hm Heven. apply Z.even_spec in Heven as [k Hk]. subst m.
  replace (2 * k / 2) with k by (apply (Z.div_unique _ _ _ 0); lia).
  unfold order. lia.
Qed.

Lemma sorted_unique (l1 : list Z) : forall l2,
  sorted l1 -> sorted l2 -> l1 ≡ₚ l2 -> l1 = l2.
Proof.
  intros l2 H1 H2 Hp.
  assert (forall l, sorted l -> StronglySorted Z.le l) as Hle.
  { intros l Hl. induction Hl as [| x l Hl IH Hx]; constructor; [done |].
    eapply Forall_impl; [exact Hx |]. intros y ?. simpl in *. lia. }
  apply (StronglySorted_unique Z.le); [by apply Hle | by apply Hle | done].
Qed.

(** Deletion of the least keys, one after the other. *)
Lemma DeleteAll_least t (Ht : (2 <= t)%nat) fuel dels : forall rest bt hmax,
  tree_inv t bt (dels ++ rest) hmax -> (hmax < fuel)%nat ->
  wp (DeleteAll fuel dels) bt (fun _ bt' => tree_inv t bt' rest hmax).
Proof.
  induction dels as [| k dels IH]; intros rest bt hmax Hinv Hfuel; simpl.
  - by apply wp_ret.
  - apply wp_bind. eapply wp_mono; [by apply (Delete_min_spec t Ht) |].
    intros d bt1 (_ & Hinv1 & _). by apply IH.
Qed.

(** Distinct keys inserted into the empty tree of order [2 * t], then the
    least of them deleted in ascending order: the run returns a tree that
    keeps the invariant and holds the other keys. *)
Lemma built t (Ht : (2 <= t)%nat) fuel keys dels rest :
  NoDup keys -> dels ++ rest ≡ₚ keys -> sorted (dels ++ rest) ->
  (length keys < fuel)%nat ->
  exists bt,
    (InsertAll fuel keys ;;; DeleteAll fuel dels) (NewBTree (order t))
    = Ret tt bt
    /\ tree_inv t bt rest (length keys).
Proof.
  intros Hnd Hperm Hsorted Hfuel.
  assert (wp (InsertAll fuel keys ;;; DeleteAll fuel dels) (NewBTree (order t))
             (fun _ bt => tree_inv t bt rest (length keys))) as Hwp.
  { apply wp_bind. eapply wp_mono.
    { apply (InsertAll_spec t Ht fuel keys (NewBTree (order t)) [] 0);
        [by apply NewBTree_inv | done | | lia].
      intros k _ Hk. by apply elem_of_nil in Hk. }
    intros ? bt1 (ks & Hinv & Hks). rewrite app_nil_r in Hks. simpl in Hinv.
    assert (ks = dels ++ rest) as ->.
    { apply sorted_unique; [| done | by rewrite Hks, Hperm].
      by destruct Hinv as (_ & _ & _ & _ & _ & ? & _). }
    by apply DeleteAll_least. }
  destruct Hwp as ([] & bt & Hrun & Hinv). by exists bt.
Qed.

(** The tree behind the invariant, when it has a root. *)
Lemma tree_inv_tree t bt ks hmax :
  tree_inv t bt ks hmax ->
  sorted ks
  /\ ((RootID bt = "" /\ ks = [])
      \/ exists r h s n tr,
           erase bt = mkBTree (order t) r h s
           /\ RootID bt = root_id tr /\ RootID bt <> "" /\ (n <= hmax)%nat
           /\ shaped t h n tr /\ NoDup (ids tr)
           /\ (length (node_keys tr) <= 2 * t - 1)%nat
           /\ (n <> 0%nat -> node_keys tr <> [])
           /\ tkeys tr = ks
           /\ forall x, is_Some (h !! x) -> x ∈ ids tr).
Proof.
  intros (r & h & s & E & Hok & Hsorted & Hcase). split; [done |].
  destruct Hcase as [(-> & -> & _) | (n & tr & -> & Hn & Hsh & Hnd & Hlen & Hne & Hks & Hdom)].
  - left. by rewrite (erase_RootID _ _ _ _ _ E).
  - right. exists (root_id tr), h, s, n, tr.
    rewrite (erase_RootID _ _ _ _ _ E). split_and!; try done.
    destruct Hok as [_ Hok].
    destruct (Hok (root_id tr)) as (k & _ & ->); [| apply node_id_nonempty].
    rewrite (shaped_node _ _ _ _ Hsh). eauto.
Qed.

Lemma Search_spec t bt ks hmax fuel key :
  tree_inv t bt ks hmax -> (hmax < fuel)%nat ->
  exists id i found,
    Search fuel key bt = Some (id, i, found)
    /\ (found = true <-> key ∈ ks)
    /\ (found = true ->
        exists nd, Nodes bt !! id = Some nd /\ idx (Keys nd) i = Some key).
Proof.
  intros Hinv Hfuel. apply tree_inv_tree in Hinv as [Hsorted Hcase].
  unfold Search.
  destruct Hcase as [[Hr ->] | (r & h & s & n & tr & E & Hr & Hne & Hn & Hsh & _ & _ & _ & Hks & _)].
  - rewrite bool_decide_eq_true_2 by done.
    exists "", (-1), false. split_and!; [done | | done].
    split; [done |]. by intros ?%elem_of_nil.
  - rewrite bool_decide_eq_false_2 by done. rewrite Hr. subst ks.
    apply (searchNode_spec t n fuel tr bt (order t) r h s key); [lia | done | done | done].
Qed.

Lemma RangeSearch_spec t bt ks hmax fuel start end_ :
  tree_inv t bt ks hmax -> (hmax < fuel)%nat ->
  RangeSearch fuel start end_ bt
  = Ret (filter (fun k => start <= k <= end_) ks) bt.
Proof.
  intros Hinv Hfuel. apply tree_inv_tree in Hinv as [Hsorted Hcase].
  unfold RangeSearch, bind, get.
  destruct Hcase as [[Hr ->] | (r & h & s & n & tr & E & Hr & Hne & Hn & Hsh & _ & _ & _ & Hks & _)].
  - by rewrite bool_decide_eq_true_2 by done.
  - rewrite bool_decide_eq_false_2 by done. rewrite Hr. subst ks.
    by rewrite (rangeSearchNode_spec t n fuel tr bt _ _ _ _ start end_ []
                  ltac:(lia) E Hsh Hsorted).
Qed.

(** X1.  B-Tree balance at even order.  At every even order [m >= 4]:
    distinct keys are inserted into the empty tree in any order and then
    the least of them ([dels], possibly none) are deleted in ascending
    order, leaving the keys [rest].  The run returns, and the node map
    then stores a tree under the root id whose leaves are all at one
    depth, whose nodes other than the root hold between [m / 2 - 1] and
    [m - 1] keys, whose root holds between [1] and [m - 1] keys, whose
    keys in order are exactly [rest], and the node map holds no node
    outside that tree. *)
Theorem inserts_and_least_deletes_keep_tree_balanced
    (m : Z) (fuel : nat) (keys dels rest : list Z) :
  4 <= m -> Z.even m = true ->
  NoDup keys -> dels ++ rest ≡ₚ keys -> StronglySorted Z.lt (dels ++ rest) ->
  rest <> [] -> (length keys < fuel)%nat ->
  exists bt n tr,
    (InsertAll fuel keys ;;; DeleteAll fuel dels) (NewBTree m) = Ret tt bt
    /\ RootID bt = root_id tr
    /\ shaped (Z.to_nat (m / 2)) (Nodes (erase bt)) n tr
    /\ (1 <= length (node_keys tr) <= Z.to_nat m - 1)%nat
    /\ tkeys tr = rest
    /\ NoDup (ids tr)
    /\ (forall x, is_Some (Nodes bt !! x) -> x ∈ ids tr).
Proof.
  intros Hm Heven Hnd Hperm Hsorted Hne Hfuel.
  destruct (even_order m Hm Heven) as [Ht Hmt].
  set (t := Z.to_nat (m / 2)) in *.
  destruct (built t Ht fuel keys dels rest Hnd Hperm Hsorted Hfuel)
    as (bt & Hrun & Hinv).
  rewrite <- Hmt in Hrun.
  apply tree_inv_tree in Hinv as [_ [[_ ?] | Hcase]]; [done |].
  destruct Hcase as (r & h & s & n & tr & E & Hr & _ & _ & Hsh & Hndi & Hlen & Hroot & Hks & Hdom).
  exists bt, n, tr. rewrite E. cbn [Nodes]. split_and!; try done.
  - destruct n as [| n].
    + destruct tr as [id ks kids]. destruct Hsh as [Hkids _].
      simpl in Hkids, Hks |- *. subst kids. simpl in Hks. subst ks.
      destruct rest; [done | simpl; lia].
    + specialize (Hroot ltac:(done)).
      destruct (node_keys tr); [done | simpl; lia].
  - unfold order in Hmt. lia.
  - intros x [nd Hx]. apply Hdom.
    assert (Nodes (erase bt) !! x = h !! x) as <- by (by rewrite E).
    rewrite erase_lookup, Hx. eauto.
Qed.

Lemma inserts_and_least_deletes_witness :
  exists bt n tr,
    (InsertAll 8 [4; 2; 6; 1; 3; 5; 7] ;;; DeleteAll 8 [1; 2]) (NewBTree 4)
    = Ret tt bt
    /\ RootID bt = root_id tr
    /\ shaped (Z.to_nat (4 / 2)) (Nodes (erase bt)) n tr
    /\ (1 <= length (node_keys tr) <= Z.to_nat 4 - 1)%nat
    /\ tkeys tr = [3; 4; 5; 6; 7]
    /\ NoDup (ids tr)
    /\ (forall x, is_Some (Nodes bt !! x) -> x ∈ ids tr).
Proof.
  apply (inserts_and_least_deletes_keep_tree_balanced 4 8
           [4; 2; 6; 1; 3; 5; 7] [1; 2] [3; 4; 5; 6; 7]).
  - lia.
  - reflexivity.
  - apply (bool_decide_unpack _). vm_compute. exact I.
  - apply (bool_decide_unpack _). vm_compute. exact I.
  - apply (bool_decide_unpack _). vm_compute. exact I.
  - discriminate.
  - simpl. lia.
Defined.

(** X2.  Search after insertions and deletions.  On the tree of X1 (any
    even order [m >= 4], distinct keys inserted, the least of them deleted
    in ascending order, [rest] left; [rest] may be empty), [Search]
    returns, reports a key found exactly when the key is one of [rest],
    and then the node id and index it returns hold that key. *)
Theorem Search_finds_exactly_the_stored_keys
    (m : Z) (fuel : nat) (keys dels rest : list Z) (key : Z) :
  4 <= m -> Z.even m = true ->
  NoDup keys -> dels ++ rest ≡ₚ keys -> StronglySorted Z.lt (dels ++ rest) ->
  (length keys < fuel)%nat ->
  exists bt id i found,
    (InsertAll fuel keys ;;; DeleteAll fuel dels) (NewBTree m) = Ret tt bt
    /\ Search fuel key bt = Some (id, i, found)
    /\ (found = true <-> key ∈ rest)
    /\ (found = true ->
        exists nd, Nodes bt !! id = Some nd /\ idx (Keys nd) i = Some key).
Proof.
  intros Hm Heven Hnd Hperm Hsorted Hfuel.
  destruct (even_order m Hm Heven) as [Ht Hmt].
  set (t := Z.to_nat (m / 2)) in *.
  destruct (built t Ht fuel keys dels rest Hnd Hperm Hsorted Hfuel)
    as (bt & Hrun & Hinv).
  rewrite <- Hmt in Hrun.
  destruct (Search_spec t bt rest (length keys) fuel key Hinv Hfuel)
    as (id & i & found & HS & Hiff & Hloc).
  by exists bt, id, i, found.
Qed.

Lemma Search_finds_witness :
  exists bt id i found,
    (InsertAll 8 [4; 2; 6; 1; 3; 5; 7] ;;; DeleteAll 8 [1; 2]) (NewBTree 4)
    = Ret tt bt
    /\ Search 8 5 bt = Some (id, i, found)
    /\ (found = true <-> 5 ∈ [3; 4; 5; 6; 7])
    /\ (found = true ->
        exists nd, Nodes bt !! id = Some nd /\ idx (Keys nd) i = Some 5).
Proof.
  apply (Search_finds_exactly_the_stored_keys 4 8
           [4; 2; 6; 1; 3; 5; 7] [1; 2] [3; 4; 5; 6; 7] 5).
  - lia.
  - reflexivity.
  - apply (bool_decide_unpack _). vm_compute. exact I.
  - apply (bool_decide_unpack _). vm_compute. exact I.
  - apply (bool_decide_unpack _). vm_compute. exact I.
  - simpl. lia.
Defined.

(** X3.  RangeSearch.  On the tree of X1 ([rest] may be empty),
    [RangeSearch start end] returns, leaves the tree as it is, and its
    result is the stored keys [k] with [start <= k <= end], each once, in
    ascending order; it is empty when [start > end]. *)
Theorem RangeSearch_returns_stored_keys_in_range
    (m : Z) (fuel : nat) (keys dels rest : list Z) (start end_ : Z) :
  4 <= m -> Z.even m = true ->
  NoDup keys -> dels ++ rest ≡ₚ keys -> StronglySorted Z.lt (dels ++ rest) ->
  (length keys < fuel)%nat ->
  exists bt res,
    (InsertAll fuel keys ;;; DeleteAll fuel dels) (NewBTree m) = Ret tt bt
    /\ RangeSearch fuel start end_ bt = Ret res bt
    /\ StronglySorted Z.lt res
    /\ (forall k, k ∈ res <-> k ∈ rest /\ start <= k <= end_)
    /\ (end_ < start -> res = []).
Proof.
  intros Hm Heven Hnd Hperm Hsorted Hfuel.
  destruct (even_order m Hm Heven) as [Ht Hmt].
  set (t := Z.to_nat (m / 2)) in *.
  destruct (built t Ht fuel keys dels rest Hnd Hperm Hsorted Hfuel)
    as (bt & Hrun & Hinv).
  rewrite <- Hmt in Hrun.
  exists bt, (filter (fun k => start <= k <= end_) rest).
  split_and!; [done | | | |].
  - by eapply RangeSearch_spec.
  - apply sorted_filter. by apply sorted_app in Hsorted as (_ & ? & _).
  - intros k. rewrite list_elem_of_filter. tauto.
  - intros Hlt. apply filter_none. intros x _ [? ?]. lia.
Qed.

Lemma RangeSearch_witness :
  exists bt res,
    (InsertAll 8 [4; 2; 6; 1; 3; 5; 7] ;;; DeleteAll 8 [1; 2]) (NewBTree 4)
    = Ret tt bt
    /\ RangeSearch 8 2 5 bt = Ret res bt
    /\ StronglySorted Z.lt res
    /\ (forall k, k ∈ res <-> k ∈ [3; 4; 5; 6; 7] /\ 2 <= k <= 5)
    /\ (5 < 2 -> res = []).
Proof.
  apply (RangeSearch_returns_stored_keys_in_range 4 8
           [4; 2; 6; 1; 3; 5; 7] [1; 2] [3; 4; 5; 6; 7] 2 5).
  - lia.
  - reflexivity.
  - apply (bool_decide_unpack _). vm_compute. exact I.
  - apply (bool_decide_unpack _). vm_compute. exact I.
  - apply (bool_decide_unpack _). vm_compute. exact I.
  - simpl. lia.
Defined.

(** X4.  getSuccessor and getPredecessor.  On the tree of X1 with at
    least one key left, [getSuccessor] called on the root returns the
    least stored key and [getPredecessor] the greatest, and neither
    changes the tree. *)
Theorem getSuccessor_least_getPredecessor_greatest
    (m : Z) (fuel : nat) (keys dels rest : list Z) :
  4 <= m -> Z.even m = true ->
  NoDup keys -> dels ++ rest ≡ₚ keys -> StronglySorted Z.lt (dels ++ rest) ->
  rest <> [] -> (length keys < fuel)%nat ->
  exists bt lo hi,
    (InsertAll fuel keys ;;; DeleteAll fuel dels) (NewBTree m) = Ret tt bt
    /\ getSuccessor fuel (RootID bt) bt = Ret lo bt
    /\ getPredecessor fuel (RootID bt) bt = Ret hi bt
    /\ lo ∈ rest /\ hi ∈ rest
    /\ (forall k, k ∈ rest -> lo <= k <= hi).
Proof.
  intros Hm Heven Hnd Hperm Hsorted Hne Hfuel.
  destruct (even_order m Hm Heven) as [Ht Hmt].
  set (t := Z.to_nat (m / 2)) in *.
  destruct (built t Ht fuel keys dels rest Hnd Hperm Hsorted Hfuel)
    as (bt & Hrun & Hinv).
  rewrite <- Hmt in Hrun.
  apply tree_inv_tree in Hinv as [Hsrest [[_ ?] | Hcase]]; [done |].
  destruct Hcase as (r & h & s & n & tr & E & Hr & _ & Hn & Hsh & Hndi & Hlen & Hroot & Hks & Hdom).
  assert (node_keys tr <> []) as Hkne.
  { destruct n as [| n]; [| by apply Hroot].
    destruct tr as [id ks kids]. destruct Hsh as [Hkids _].
    simpl in Hkids, Hks |- *. subst kids. simpl in Hks. by subst ks. }
  destruct (getSuccessor_spec t n fuel tr bt _ _ _ _ Ht ltac:(lia) E Hsh Hkne)
    as (lo & Hlo & Hhd).
  destruct (getPredecessor_spec t n fuel tr bt _ _ _ _ Ht ltac:(lia) E Hsh Hkne)
    as (hi & Hhi & Hla).
  rewrite Hks in Hhd, Hla. rewrite <- Hr in Hlo, Hhi.
  exists bt, lo, hi. split_and!; try done.
  - destruct rest; simplify_eq/=. by left.
  - apply last_Some in Hla as [l' ->]. apply elem_of_app. right. by left.
  - intros k Hk. split.
    + destruct rest as [| x rest']; simplify_eq/=.
      apply sorted_cons in Hsrest as [_ Hx].
      apply elem_of_cons in Hk as [-> | Hk]; [lia |].
      specialize (Hx _ Hk). lia.
    + apply last_Some in Hla as [l' ->].
      apply sorted_app in Hsrest as (_ & _ & Hx).
      apply elem_of_app in Hk as [Hk | Hk].
      * specialize (Hx k hi Hk ltac:(by left)). lia.
      * apply list_elem_of_singleton in Hk as ->. lia.
Qed.

Lemma getSuccessor_getPredecessor_witness :
  exists bt lo hi,
    (InsertAll 8 [4; 2; 6; 1; 3; 5; 7] ;;; DeleteAll 8 [1; 2]) (NewBTree 4)
    = Ret tt bt
    /\ getSuccessor 8 (RootID bt) bt = Ret lo bt
    /\ getPredecessor 8 (RootID bt) bt = Ret hi bt
    /\ lo ∈ [3; 4; 5; 6; 7] /\ hi ∈ [3; 4; 5; 6; 7]
    /\ (forall k, k ∈ [3; 4; 5; 6; 7] -> lo <= k <= hi).
Proof.
  apply (getSuccessor_least_getPredecessor_greatest 4 8
           [4; 2; 6; 1; 3; 5; 7] [1; 2] [3; 4; 5; 6; 7]).
  - lia.
  - reflexivity.
  - apply (bool_decide_unpack _). vm_compute. exact I.
  - apply (bool_decide_unpack _). vm_compute. exact I.
  - apply (bool_decide_unpack _). vm_compute. exact I.
  - discriminate.
  - simpl. lia.
Defined.

(** X5.  insertAt and removeAt.  For an index within [0, len(slice)],
    [insertAt] returns a slice one longer that holds the value at the
    index, and [removeAt] at the same index gives the first slice back. *)
Theorem insertAt_then_removeAt {A} (slice : list A) (index : Z) (value : A) :
  0 <= index <= len slice ->
  exists l,
    insertAt slice index value = Some l
    /\ len l = len slice + 1
    /\ idx l index = Some value
    /\ removeAt l index = Some slice.
Proof.
  intros Hi. unfold len in Hi.
  replace index with (Z.of_nat (Z.to_nat index)) by lia.
  set (i := Z.to_nat index).
  assert (i <= length slice)%nat as Hil by lia.
  rewrite insertAt_nat by done. eexists. split; [done |].
  assert (length (take i slice) = i) as Ht by (rewrite length_take; lia).
  split_and!.
  - unfold len. rewrite length_app. simpl. rewrite length_take, length_drop. lia.
  - rewrite idx_nat, lookup_app_r by lia. by rewrite Ht, Nat.sub_diag.
  - rewrite removeAt_nat.
    2:{ rewrite length_app. simpl. lia. }
    rewrite take_app_length' by done.
    rewrite drop_app_ge by lia. rewrite Ht.
    replace (S i - i)%nat with 1%nat by lia. simpl. rewrite drop_0.
    by rewrite take_drop.
Qed.

Lemma insertAt_then_removeAt_witness :
  exists l,
    insertAt [10; 20; 30] 1 15 = Some l
    /\ len l = len [10; 20; 30] + 1
    /\ idx l 1 = Some 15
    /\ removeAt l 1 = Some [10; 20; 30].
Proof.
  apply (insertAt_then_removeAt [10; 20; 30] 1 15). unfold len. simpl. lia.
Defined.

End BTreeQueries.

(* ===================================================================== *)
(** * MVCC: references between rows, versions and transactions *)
(* ===================================================================== *)

Module MVCCSafety.
Import MVCC MVCCFacts.

Definition ver_key (n : Z) : string := "ver-" +:+ pretty n.

Lemma ver_key_inj n m : ver_key n = ver_key m -> n = m.
Proof. unfold ver_key. intros H. simplify_eq/=. by apply (inj pretty). Qed.

(** The chain of row [r] against the version map: no id twice, and every
    id names a stored version of that row. *)
Definition chain_ok (vs : gmap string Version) (r : string)
    (chain : list string) : Prop :=
  NoDup chain
  /\ forall v, v ∈ chain -> exists ver, vs !! v = Some ver /\ RowID ver = r.

(** Version ids are the ones handed out so far, and the chain of every
    row is made of stored versions of that row. *)
Record refs_inv (s : MVCCStore) : Prop := mk_refs_inv {
  refs_seq : 0 <= verSeq s;
  refs_ids : forall v ver,
    Versions s !! v = Some ver -> exists n, 1 <= n <= verSeq s /\ v = ver_key n;
  refs_rows : forall r row,
    Rows s !! r = Some row -> chain_ok (Versions s) r (VersionChain row)
}.

Lemma NewMVCCStore_refs : refs_inv NewMVCCStore.
Proof. split; simpl; try done. Qed.

(** ** The loops of Abort and GarbageCollect *)

Lemma abort_chain_spec txID chain : forall vs kept vs',
  abort_chain txID chain vs = Some (kept, vs') ->
  sublist kept chain
  /\ vs' ⊆ vs
  /\ (forall v ver, vs !! v = Some ver -> vs' !! v = None ->
        v ∈ chain /\ CreatedBy ver = txID)
  /\ (forall v, v ∈ kept ->
        exists ver, vs !! v = Some ver /\ CreatedBy ver <> txID)
  /\ (forall v ver, v ∈ chain -> vs' !! v = Some ver -> CreatedBy ver <> txID).
Proof.
  induction chain as [| verID rest IH]; intros vs kept vs'; simpl.
  - intros [= <- <-]. split_and!; try done.
    + intros v ver H1 H2. congruence.
    + by intros v Hv%elem_of_nil.
    + by intros v ver Hv%elem_of_nil.
  - destruct (vs !! verID) as [ver0 |] eqn:Hv0; simpl; [| done].
    case_bool_decide as Hc.
    + destruct (abort_chain txID rest vs) as [[k v] |] eqn:E; simpl; [| done].
      intros [= <- <-]. destruct (IH _ _ _ E) as (Hsub & Hle & Hgone & Hkept & Hleft).
      split_and!.
      * by apply sublist_skip.
      * done.
      * intros x ver Hx Hn. destruct (Hgone x ver Hx Hn) as [? ?].
        split; [by right | done].
      * intros x Hx. apply elem_of_cons in Hx as [-> | Hx]; [eauto | by apply Hkept].
      * intros x ver Hx Hl. apply elem_of_cons in Hx as [-> | Hx]; [| by eapply Hleft].
        pose proof (lookup_weaken _ _ _ _ Hl Hle). congruence.
    + intros E. destruct (IH _ _ _ E) as (Hsub & Hle & Hgone & Hkept & Hleft).
      assert (CreatedBy ver0 = txID) as Hmine.
      { destruct (decide (CreatedBy ver0 = txID)); [done |]. by destruct Hc. }
      split_and!.
      * by apply sublist_cons.
      * etrans; [exact Hle | apply delete_subseteq].
      * intros x ver Hx Hn. destruct (decide (x = verID)) as [-> | Hne].
        -- split; [by left | congruence].
        -- destruct (Hgone x ver) as [? ?]; [by rewrite lookup_delete_ne | done |].
           split; [by right | done].
      * intros x Hx. destruct (Hkept x Hx) as (ver & Hl & Hcr).
        exists ver. split; [| done].
        apply lookup_delete_Some in Hl as [_ Hl]. done.
      * intros x ver Hx Hl. apply elem_of_cons in Hx as [-> | Hx]; [| by eapply Hleft].
        pose proof (lookup_weaken _ _ _ _ Hl Hle) as Hl'.
        by rewrite lookup_delete_eq in Hl'.
Qed.

Lemma abort_chain_kept txID chain vs kept vs' v :
  abort_chain txID chain vs = Some (kept, vs') ->
  v ∈ kept -> vs' !! v = vs !! v.
Proof.
  intros E Hv. destruct (abort_chain_spec _ _ _ _ _ E) as (_ & Hle & Hgone & Hkept & _).
  destruct (Hkept v Hv) as (ver & Hl & Hcr). rewrite Hl.
  destruct (vs' !! v) as [ver' |] eqn:Hl'.
  - by rewrite (lookup_weaken _ _ _ _ Hl' Hle) in Hl.
  - destruct (Hgone v ver Hl Hl'). done.
Qed.

(** One step of a loop that thins out the chain of row [r0]: the chains
    still resolve. *)
Lemma thin_chain_refs (vs vs' : gmap string Version) (rows : gmap string Row)
    (r0 : string) (row0 : Row) (kept : list string)
    (rows' : gmap string Row) :
  (forall r row, rows !! r = Some row -> chain_ok vs r (VersionChain row)) ->
  rows !! r0 = Some row0 ->
  sublist kept (VersionChain row0) ->
  vs' ⊆ vs ->
  (forall v ver, vs !! v = Some ver -> vs' !! v = None -> v ∈ VersionChain row0) ->
  (forall v, v ∈ kept -> vs' !! v = vs !! v) ->
  (forall r row, rows' !! r = Some row ->
     (r = r0 /\ VersionChain row = kept) \/ (r <> r0 /\ rows !! r = Some row)) ->
  forall r row, rows' !! r = Some row -> chain_ok vs' r (VersionChain row).
Proof.
  intros Hrows Hr0 Hsub Hle Hgone Hkept Hrows' r row Hl.
  destruct (Hrows r0 row0 Hr0) as [Hnd0 Hres0].
  destruct (Hrows' r row Hl) as [[-> Hch] | [Hne Hold]].
  - rewrite Hch. split; [by eapply sublist_NoDup |].
    intros v Hv. rewrite (Hkept v Hv). apply Hres0.
    by eapply elem_of_sublist.
  - destruct (Hrows r row Hold) as [Hnd Hres]. split; [done |].
    intros v Hv. destruct (Hres v Hv) as (ver & Hlv & Hrow).
    exists ver. split; [| done].
    destruct (vs' !! v) as [ver' |] eqn:Hl'.
    + by rewrite (lookup_weaken _ _ _ _ Hl' Hle) in Hlv.
    + exfalso. specialize (Hgone v ver Hlv Hl').
      destruct (Hres0 v Hgone) as (ver0 & Hl0 & Hrow0). congruence.
Qed.

Lemma abort_rows_refs txID ws : forall s s',
  abort_rows txID ws s = Some s' ->
  (forall r row, Rows s !! r = Some row ->
     chain_ok (Versions s) r (VersionChain row)) ->
  forall r row, Rows s' !! r = Some row ->
    chain_ok (Versions s') r (VersionChain row).
Proof.
  induction ws as [| r0 ws IH]; intros s s'; simpl.
  - by intros [= <-].
  - destruct (Rows s !! r0) as [row0 |] eqn:Hr0; simpl; [| done].
    destruct (abort_chain _ _ _) as [[kept vs'] |] eqn:Hc; simpl; [| done].
    intros H Hrows. apply (IH _ _ H). simpl.
    destruct (abort_chain_spec _ _ _ _ _ Hc) as (Hsub & Hle & Hgone & _ & _).
    apply (thin_chain_refs (Versions s) vs' (Rows s) r0 row0 kept); try done.
    + intros v ver H1 H2. by destruct (Hgone v ver H1 H2).
    + intros v Hv. by eapply abort_chain_kept.
    + intros r row Hl. destruct kept as [| v0 kept'].
      * apply lookup_delete_Some in Hl as [Hne Hl]. right. done.
      * apply lookup_insert_Some in Hl as [[<- <-] | [Hne Hl]]; [by left | by right].
Qed.

Lemma gc_chain_spec s oldest chain : forall found vs kept gone vs',
  gc_chain s oldest found chain vs = Some (kept, gone, vs') ->
  NoDup chain ->
  sublist kept chain
  /\ vs' ⊆ vs
  /\ (forall v, v ∈ gone <-> v ∈ chain /\ v ∉ kept)
  /\ (forall v, v ∈ gone -> is_Some (vs !! v) /\ vs' !! v = None)
  /\ (forall v, v ∉ gone -> vs' !! v = vs !! v).
Proof.
  induction chain as [| verID rest IH]; intros found vs kept gone vs'; simpl.
  - intros [= <- <- <-] _. split_and!; try done.
    + intros v. split; [by intros ?%elem_of_nil | by intros [?%elem_of_nil _]].
    + by intros v ?%elem_of_nil.
  - destruct (vs !! verID) as [ver |] eqn:Hv; simpl; [| done].
    destruct (Transactions s !! CreatedBy ver) as [ctx |]; simpl; [| done].
    intros H Hnd. apply NoDup_cons in Hnd as [Hnotin Hnd].
    assert (Hkeep : forall f' k g v,
              gc_chain s oldest f' rest vs = Some (k, g, v) ->
              kept = verID :: k -> gone = g -> vs' = v ->
              sublist kept (verID :: rest)
              /\ vs' ⊆ vs
              /\ (forall x, x ∈ gone <-> x ∈ verID :: rest /\ x ∉ kept)
              /\ (forall x, x ∈ gone -> is_Some (vs !! x) /\ vs' !! x = None)
              /\ (forall x, x ∉ gone -> vs' !! x = vs !! x)).
    { intros f' k g v E -> -> ->.
      destruct (IH _ _ _ _ _ E Hnd) as (Hsub & Hle & Hiff & Hg & Hk).
      split_and!; try done.
      - by apply sublist_skip.
      - intros x. rewrite Hiff. rewrite !elem_of_cons. split.
        + intros [Hx Hnk]. split; [by right |]. intros [-> | ?]; done.
        + intros [[-> | Hx] Hnk]; [exfalso; apply Hnk; by left |].
          split; [done |]. intros ?. apply Hnk. by right. }
    destruct (if bool_decide _ then _ else _) as [ct |].
    + destruct ((ct <? oldest) && found).
      * destruct (gc_chain s oldest found rest (delete verID vs))
          as [[[k g] v] |] eqn:E; simpl in H; [| done].
        injection H as <- <- <-.
        destruct (IH _ _ _ _ _ E Hnd) as (Hsub & Hle & Hiff & Hg & Hk).
        split_and!.
        -- by apply sublist_cons.
        -- etrans; [exact Hle | apply delete_subseteq].
        -- intros x. rewrite !elem_of_cons, Hiff. split.
           ++ intros [-> | [Hx Hnk]].
              ** split; [by left |]. intros Hin. apply Hnotin.
                 by eapply elem_of_sublist.
              ** split; [by right | done].
           ++ intros [[-> | Hx] Hnk]; [by left | by right].
        -- intros x Hx. apply elem_of_cons in Hx as [-> | Hx].
           ++ split; [eauto |].
              destruct (v !! verID) as [ver' |] eqn:Hl'; [| done].
              pose proof (lookup_weaken _ _ _ _ Hl' Hle) as Hl''.
              by rewrite lookup_delete_eq in Hl''.
           ++ destruct (Hg x Hx) as [[ver' Hs] Hn]. split; [| done].
              apply lookup_delete_Some in Hs as [_ Hs]. eauto.
        -- intros x Hx. rewrite Hk by (intros ?; apply Hx; by right).
           rewrite lookup_delete_ne; [done |]. intros ->. apply Hx. by left.
      * destruct (gc_chain s oldest true rest vs)
          as [[[k g] v] |] eqn:E; simpl in H; [| done].
        injection H as <- <- <-. by eapply Hkeep.
    + destruct (gc_chain s oldest found rest vs)
        as [[[k g] v] |] eqn:E; simpl in H; [| done].
      injection H as <- <- <-. by eapply Hkeep.
Qed.

Lemma gc_rows_refs s0 oldest rows : forall s removed removed' s',
  gc_rows s0 oldest rows s removed = Some (removed', s') ->
  NoDup rows.*1 ->
  (forall r row, (r, row) ∈ rows -> Rows s !! r = Some row) ->
  (forall r row, Rows s !! r = Some row ->
     chain_ok (Versions s) r (VersionChain row)) ->
  forall r row, Rows s' !! r = Some row ->
    chain_ok (Versions s') r (VersionChain row).
Proof.
  induction rows as [| [r0 row0] rows IH]; intros s removed removed' s'; simpl.
  - by intros [= _ <-].
  - destruct (gc_chain _ _ _ _ _) as [[[kept gone] vs'] |] eqn:Hg;
      simpl; [| done].
    intros H Hnd Hin Hrows. apply NoDup_cons in Hnd as [Hr0 Hnd].
    assert (Rows s !! r0 = Some row0) as Hl0 by (apply Hin; by left).
    destruct (Hrows r0 row0 Hl0) as [Hnd0 _].
    destruct (gc_chain_spec _ _ _ _ _ _ _ _ Hg Hnd0)
      as (Hsub & Hle & Hiff & Hgone & Hkeep).
    apply (IH _ _ _ _ H Hnd); simpl.
    + intros r row Hrr. rewrite lookup_insert_ne.
      * apply Hin. by right.
      * intros <-. apply Hr0. apply list_elem_of_fmap. by exists (r0, row).
    + apply (thin_chain_refs (Versions s) vs' (Rows s) r0 row0 kept); try done.
      * intros v ver H1 H2.
        destruct (decide (v ∈ gone)) as [Hvg | Hvg].
        -- by apply Hiff in Hvg as [? _].
        -- rewrite (Hkeep v Hvg) in H2. congruence.
      * intros v Hv. apply Hkeep. intros Hvg. apply Hiff in Hvg as [_ ?]. done.
      * intros r row Hl.
        apply lookup_insert_Some in Hl as [[<- <-] | [Hne Hl]]; [by left | by right].
Qed.

Lemma abort_rows_verSeq txID ws : forall s s',
  abort_rows txID ws s = Some s' -> verSeq s' = verSeq s.
Proof.
  induction ws as [| r ws IH]; intros s s'; simpl.
  - by intros [= <-].
  - destruct (Rows s !! r); simpl; [| done].
    destruct (abort_chain _ _ _) as [[k v] |]; simpl; [| done].
    intros H. by rewrite (IH _ _ H).
Qed.

Lemma gc_rows_verSeq s0 oldest rows : forall s removed removed' s',
  gc_rows s0 oldest rows s removed = Some (removed', s') ->
  verSeq s' = verSeq s.
Proof.
  induction rows as [| [r row] rows IH]; intros s removed removed' s'; simpl.
  - by intros [= _ <-].
  - destruct (gc_chain _ _ _ _ _) as [[[k g] v] |]; simpl; [| done].
    intros H. by rewrite (IH _ _ _ _ H).
Qed.

(** ** Every call that returns keeps the references *)

Lemma fresh_version s : refs_inv s -> Versions s !! ver_key (verSeq s + 1) = None.
Proof.
  intros [Hs Hids _].
  destruct (Versions s !! ver_key (verSeq s + 1)) as [ver |] eqn:E; [| done].
  destruct (Hids _ _ E) as (n & Hn & Heq). apply ver_key_inj in Heq. lia.
Qed.

Lemma apply_refs o s s' :
  refs_inv s -> apply o s = Some s' -> refs_inv s'.
Proof.
  intros Hi.
  destruct o as [| txID rowID | txID rowID data | txID rowID | txID | txID |];
    simpl.
  - intros [= <-]. destruct Hi as [Hs Hids Hrows]. by split.
  - unfold Read.
    destruct (Transactions s !! txID) as [tx |]; [| by intros [= <-]].
    case_bool_decide; [by intros [= <-] |].
    destruct (Rows s !! rowID) as [row |]; [| by intros [= <-]].
    destruct (first_visible _ _ _) as [[ver |] |]; simpl;
      [| by intros [= <-] | done].
    intros [= <-]. destruct Hi as [Hs Hids Hrows]. by split.
  - unfold Write.
    destruct (Transactions s !! txID) as [tx |]; [| by intros [= <-]].
    case_bool_decide; [by intros [= <-] |].
    simpl. intros [= <-].
    pose proof (fresh_version s Hi) as Hfresh.
    destruct Hi as [Hs Hids Hrows]. fold (ver_key (verSeq s + 1)).
    set (verID := ver_key (verSeq s + 1)) in *.
    assert (Hold : forall r row v,
              Rows s !! r = Some row -> v ∈ VersionChain row -> v <> verID).
    { intros r row v Hl Hv ->. destruct (Hrows r row Hl) as [_ Hres].
      destruct (Hres verID Hv) as (ver & Hlv & _). congruence. }
    split; simpl.
    + lia.
    + intros v ver Hl. apply lookup_insert_Some in Hl as [[<- <-] | [Hne Hl]].
      * exists (verSeq s + 1). split; [lia | done].
      * destruct (Hids v ver Hl) as (n & Hn & ->). exists n. split; [lia | done].
    + intros r row Hl. apply lookup_insert_Some in Hl as [[<- <-] | [Hne Hl]].
      * simpl. destruct (Rows s !! rowID) as [row0 |] eqn:Hr0.
        -- destruct (Hrows _ _ Hr0) as [Hnd Hres]. split.
           ++ apply NoDup_cons. split; [| done]. intros Hin.
              by apply (Hold _ _ _ Hr0 Hin).
           ++ intros v Hv. apply elem_of_cons in Hv as [-> | Hv].
              ** rewrite lookup_insert_eq. eauto.
              ** rewrite lookup_insert_ne by (symmetry; by eapply Hold).
                 by apply Hres.
        -- simpl. split; [apply NoDup_singleton |].
           intros v Hv. apply list_elem_of_singleton in Hv as ->.
           rewrite lookup_insert_eq. eauto.
      * destruct (Hrows _ _ Hl) as [Hnd Hres]. split; [done |].
        intros v Hv. rewrite lookup_insert_ne by (symmetry; by eapply Hold).
        by apply Hres.
  - unfold Delete.
    destruct (Transactions s !! txID) as [tx |]; [| by intros [= <-]].
    case_bool_decide; [by intros [= <-] |].
    destruct (Rows s !! rowID) as [row |]; [| by intros [= <-]].
    destruct (VersionChain row) as [| verID rest].
    + simpl. intros [= <-]. destruct Hi as [Hs Hids Hrows]. by split.
    + destruct (Versions s !! verID) as [ver |] eqn:Hver; simpl; [| done].
      intros [= <-]. destruct Hi as [Hs Hids Hrows]. split; simpl.
      * done.
      * intros v ver' Hl. apply lookup_insert_Some in Hl as [[<- <-] | [Hne Hl]];
          eauto.
      * intros r row' Hl. destruct (Hrows _ _ Hl) as [Hnd Hres].
        split; [done |]. intros v Hv. destruct (Hres v Hv) as (ver0 & Hl0 & Hr).
        destruct (decide (verID = v)) as [<- | Hne].
        -- rewrite lookup_insert_eq. eexists. split; [done |]. simpl. congruence.
        -- rewrite lookup_insert_ne by done. eauto.
  - unfold Commit.
    destruct (Transactions s !! txID) as [tx |]; [| by intros [= <-]].
    case_bool_decide; [by intros [= <-] |].
    simpl. intros [= <-]. destruct Hi as [Hs Hids Hrows].
    unfold clear_active. case_bool_decide; by split.
  - unfold Abort.
    destruct (Transactions s !! txID) as [tx |]; [| by intros [= <-]].
    case_bool_decide; [by intros [= <-] |].
    destruct (abort_rows _ _ _) as [s2 |] eqn:Hs2; simpl; [| done].
    intros [= <-]. destruct Hi as [Hs Hids Hrows].
    pose proof (abort_rows_refs _ _ _ _ Hs2) as Hrefs. simpl in Hrefs.
    specialize (Hrefs Hrows).
    destruct (abort_rows_fields _ _ _ _ Hs2) as (_ & _ & _ & HV). simpl in HV.
    pose proof (abort_rows_verSeq _ _ _ _ Hs2) as Hq. simpl in Hq.
    assert (refs_inv s2) as [Hs' Hids' Hrows'].
    { split; [lia | | done].
      intros v ver Hl. rewrite Hq. apply (Hids v ver).
      by apply (lookup_weaken _ _ _ _ Hl HV). }
    unfold clear_active. case_bool_decide; by split.
  - unfold GarbageCollect.
    destruct (gc_rows _ _ _ _ _) as [[removed s1] |] eqn:Hg; simpl; [| done].
    intros [= <-]. destruct Hi as [Hs Hids Hrows].
    destruct (gc_rows_fields _ _ _ _ _ _ _ Hg) as (_ & _ & _ & HV).
    pose proof (gc_rows_verSeq _ _ _ _ _ _ _ Hg) as Hq.
    split.
    + lia.
    + intros v ver Hl. rewrite Hq. apply (Hids v ver).
      by apply (lookup_weaken _ _ _ _ Hl HV).
    + eapply gc_rows_refs; [exact Hg | | | done].
      * apply NoDup_fst_map_to_list.
      * intros r row Hin. by apply elem_of_map_to_list in Hin.
Qed.

Lemma run_refs ops : forall s s',
  refs_inv s -> run ops s = Some s' -> refs_inv s'.
Proof.
  induction ops as [| o ops IH]; intros s s' Hi; simpl.
  - by intros [= <-].
  - destruct (apply o s) as [s1 |] eqn:Ho; simpl; [| done].
    intros H. apply (IH s1); [| done]. by apply (apply_refs o s).
Qed.

Lemma reachable_refs s : reachable s -> refs_inv s.
Proof. intros [ops H]. by apply (run_refs _ _ _ NewMVCCStore_refs H). Qed.

(** ** No nil dereference on a reachable store *)

Lemma isVisible_total s tx ver v :
  store_inv s -> Versions s !! v = Some ver -> is_Some (isVisible s tx ver).
Proof.
  intros [_ _ Ht Hc Hd] Hl. unfold isVisible.
  case_bool_decide; [eauto |].
  destruct (Hc v ver Hl) as [creator Hcr]. rewrite Hcr. simpl.
  case_bool_decide; [eauto |].
  destruct (CommitTime creator) as [ct |]; [| eauto].
  destruct (ct >? StartTime tx); [eauto |].
  destruct (DeletedBy ver) as [d |] eqn:Hdb; [| eauto].
  destruct (DeletedAt ver) as [da |]; [| eauto].
  destruct (Hd v ver d Hl Hdb) as [deleter Hdl]. rewrite Hdl. simpl.
  case_bool_decide as Hst; [| eauto].
  destruct (Ht d deleter Hdl) as [_ Hct].
  destruct (Hct Hst) as (c & -> & _). simpl.
  destruct (c <=? StartTime tx); eauto.
Qed.

Lemma first_visible_total s tx chain :
  store_inv s -> (forall v, v ∈ chain -> is_Some (Versions s !! v)) ->
  is_Some (first_visible s tx chain).
Proof.
  intros Hi. induction chain as [| v rest IH]; intros Hres; simpl; [eauto |].
  destruct (Hres v ltac:(by left)) as [ver Hl]. rewrite Hl. simpl.
  destruct (isVisible_total s tx ver v Hi Hl) as [b Hb]. rewrite Hb. simpl.
  destruct b; [eauto |]. apply IH. intros x Hx. apply Hres. by right.
Qed.

Lemma chain_resolves s r row v :
  refs_inv s -> Rows s !! r = Some row -> v ∈ VersionChain row ->
  is_Some (Versions s !! v).
Proof.
  intros [_ _ Hrows] Hl Hv. destruct (Hrows r row Hl) as [_ Hres].
  destruct (Hres v Hv) as (ver & ? & _). eauto.
Qed.

Lemma gc_chain_total s oldest chain : forall found vs,
  NoDup chain ->
  (forall v, v ∈ chain ->
     exists ver, vs !! v = Some ver
                 /\ is_Some (Transactions s !! CreatedBy ver)) ->
  is_Some (gc_chain s oldest found chain vs).
Proof.
  induction chain as [| v rest IH]; intros found vs Hnd Hres; simpl; [eauto |].
  apply NoDup_cons in Hnd as [Hv Hnd].
  destruct (Hres v ltac:(by left)) as (ver & Hl & [ctx Hc]).
  rewrite Hl. simpl. rewrite Hc. simpl.
  assert (forall f', is_Some (gc_chain s oldest f' rest vs)) as Hsame.
  { intros f'. apply IH; [done |]. intros x Hx. apply Hres. by right. }
  destruct (if bool_decide _ then _ else _) as [ct |].
  - destruct ((ct <? oldest) && found).
    + destruct (IH found (delete v vs) Hnd) as [[[k g] vs'] ->]; [| simpl; eauto].
      intros x Hx. destruct (Hres x ltac:(by right)) as (ver' & Hl' & Hc').
      exists ver'. split; [| done]. rewrite lookup_delete_ne; [done |].
      by intros ->.
    + destruct (Hsame true) as [[[k g] vs'] ->]. simpl. eauto.
  - destruct (Hsame found) as [[[k g] vs'] ->]. simpl. eauto.
Qed.

Lemma gc_rows_total s0 oldest rows : forall s removed,
  NoDup rows.*1 ->
  (forall r row, (r, row) ∈ rows -> Rows s !! r = Some row) ->
  (forall r row, Rows s !! r = Some row ->
     chain_ok (Versions s) r (VersionChain row)) ->
  (forall v ver, Versions s !! v = Some ver ->
     is_Some (Transactions s0 !! CreatedBy ver)) ->
  is_Some (gc_rows s0 oldest rows s removed).
Proof.
  induction rows as [| [r0 row0] rows IH]; intros s removed Hnd Hin Hrows Hcr;
    simpl; [eauto |].
  apply NoDup_cons in Hnd as [Hr0 Hnd].
  assert (Rows s !! r0 = Some row0) as Hl0 by (apply Hin; by left).
  destruct (Hrows r0 row0 Hl0) as [Hnd0 Hres0].
  destruct (gc_chain_total s0 oldest (VersionChain row0) false (Versions s) Hnd0)
    as [[[kept gone] vs'] Hg].
  { intros v Hv. destruct (Hres0 v Hv) as (ver & Hl & _). eauto. }
  rewrite Hg. simpl.
  destruct (gc_chain_spec _ _ _ _ _ _ _ _ Hg Hnd0)
    as (Hsub & Hle & Hiff & Hgone & Hkeep).
  apply IH; simpl; [done | | |].
  - intros r row Hrr. rewrite lookup_insert_ne.
    + apply Hin. by right.
    + intros <-. apply Hr0. apply list_elem_of_fmap. by exists (r0, row).
  - apply (thin_chain_refs (Versions s) vs' (Rows s) r0 row0 kept); try done.
    + intros v ver H1 H2.
      destruct (decide (v ∈ gone)) as [Hvg | Hvg].
      * by apply Hiff in Hvg as [? _].
      * rewrite (Hkeep v Hvg) in H2. congruence.
    + intros v Hv. apply Hkeep. intros Hvg. apply Hiff in Hvg as [_ ?]. done.
    + intros r row Hl.
      apply lookup_insert_Some in Hl as [[<- <-] | [Hne Hl]]; [by left | by right].
  - intros v ver Hl. apply (Hcr v). by apply (lookup_weaken _ _ _ _ Hl Hle).
Qed.

(** X6.  No nil dereference on a reachable store.  On every store
    reached from the empty store by calls that returned, [Read], [Delete],
    [GetVisibleVersions] and [GarbageCollect] return for every argument:
    every version id of a chain is in [Versions], and the creator and the
    deleter of every version are in [Transactions]. *)
Theorem reachable_store_calls_do_not_panic
    (s : MVCCStore) (txID rowID : string) :
  reachable s ->
  Read txID rowID s <> Panic
  /\ Delete txID rowID s <> Panic
  /\ GetVisibleVersions txID s <> None
  /\ GarbageCollect s <> Panic.
Proof.
  intros Hr.
  pose proof (reachable_store_inv s Hr) as Hi.
  pose proof (reachable_refs s Hr) as Hrefs.
  split_and!.
  - unfold Read. destruct (Transactions s !! txID) as [tx |]; [| done].
    case_bool_decide; [done |].
    destruct (Rows s !! rowID) as [row |] eqn:Hrow; [| done].
    destruct (first_visible_total s tx (VersionChain row) Hi) as [[ver |] ->];
      [| done | done].
    intros v Hv. by eapply chain_resolves.
  - unfold Delete. destruct (Transactions s !! txID) as [tx |]; [| done].
    case_bool_decide; [done |].
    destruct (Rows s !! rowID) as [row |] eqn:Hrow; [| done].
    destruct (VersionChain row) as [| v rest] eqn:Hch; [done |].
    destruct (chain_resolves s rowID row v Hrefs Hrow) as [ver ->]; [| done].
    rewrite Hch. by left.
  - unfold GetVisibleVersions. destruct (Transactions s !! txID) as [tx |]; [| done].
    assert (forall row, row ∈ (map_to_list (Rows s)).*2 ->
              forall v, v ∈ VersionChain row -> is_Some (Versions s !! v)) as Hall.
    { intros row Hin v Hv. apply list_elem_of_fmap in Hin as ([r row'] & -> & Hin).
      apply elem_of_map_to_list in Hin. by eapply chain_resolves. }
    induction ((map_to_list (Rows s)).*2) as [| row rows IH]; [done |].
    simpl.
    destruct (foldr _ _ rows) as [l |] eqn:Hf; simpl.
    + destruct (first_visible_total s tx (VersionChain row) Hi) as [o ->];
        [| done].
      intros v Hv. apply (Hall row); [by left | done].
    + exfalso. apply IH; [| done]. intros row' Hin. apply Hall. by right.
  - unfold GarbageCollect.
    destruct (gc_rows_total s (oldestActiveStart s) (map_to_list (Rows s)) s [])
      as [[removed s'] ->]; [| | | | done].
    + apply NoDup_fst_map_to_list.
    + intros r row Hin. by apply elem_of_map_to_list in Hin.
    + by destruct Hrefs.
    + by destruct Hi.
Qed.

Definition one_row_store : MVCCStore :=
  default NewMVCCStore
    (run [OpBegin; OpWrite "tx-1" "r" {[ "v" := JNumber 1 ]}; OpCommit "tx-1";
          OpBegin]
         NewMVCCStore).

Lemma reachable_store_calls_witness :
  Read "tx-2" "r" one_row_store <> Panic
  /\ Delete "tx-2" "r" one_row_store <> Panic
  /\ GetVisibleVersions "tx-2" one_row_store <> None
  /\ GarbageCollect one_row_store <> Panic.
Proof.
  apply (reachable_store_calls_do_not_panic one_row_store "tx-2" "r").
  exists [OpBegin; OpWrite "tx-1" "r" {[ "v" := JNumber 1 ]}; OpCommit "tx-1";
          OpBegin].
  vm_compute. reflexivity.
Defined.

(** X7.  Read your own write.  On a reachable store, a [Write] by an
    active transaction returns a version that holds the data and names the
    transaction as creator, and a [Read] of the same row by the same
    transaction right after returns that version. *)
Theorem Read_returns_own_Write
    (s : MVCCStore) (txID rowID : string) (data : gmap string JValue)
    (tx : Transaction) :
  reachable s ->
  Transactions s !! txID = Some tx -> Status tx = TxActive ->
  exists ver s1 s2,
    Write txID rowID data s = Ok ver s1
    /\ Data ver = data /\ CreatedBy ver = txID /\ RowID ver = rowID
    /\ Read txID rowID s1 = Ok ver s2.
Proof.
  intros Hr Htx Hact.
  destruct (reachable_store_inv s Hr) as [_ Hk _ _ _].
  destruct (Hk txID tx Htx) as [Hid _].
  unfold Write. rewrite Htx. rewrite bool_decide_eq_false_2 by (rewrite Hact; tauto).
  eexists _, _, _. split; [reflexivity |]. split_and!; try done.
  unfold Read. cbn [Transactions Rows Versions].
  rewrite lookup_insert_eq. cbn [add_WriteSet Status].
  rewrite bool_decide_eq_false_2 by (rewrite Hact; tauto).
  rewrite lookup_insert_eq. cbn [VersionChain first_visible Versions].
  rewrite lookup_insert_eq. cbn [mbind option_bind].
  unfold isVisible. cbn [CreatedBy tx_ID].
  rewrite bool_decide_eq_true_2 by done. cbn [mbind option_bind].
  reflexivity.
Qed.

Lemma Read_returns_own_Write_witness :
  exists ver s1 s2,
    Write "tx-2" "r" {[ "v" := JNumber 2 ]} one_row_store = Ok ver s1
    /\ Data ver = {[ "v" := JNumber 2 ]} /\ CreatedBy ver = "tx-2"
    /\ RowID ver = "r"
    /\ Read "tx-2" "r" s1 = Ok ver s2.
Proof.
  apply (Read_returns_own_Write one_row_store "tx-2" "r" {[ "v" := JNumber 2 ]}
           (mkTransaction "tx-2" 2 None TxActive [] [])).
  - exists [OpBegin; OpWrite "tx-1" "r" {[ "v" := JNumber 1 ]}; OpCommit "tx-1";
            OpBegin].
    vm_compute. reflexivity.
  - reflexivity.
  - reflexivity.
Defined.

(** ** Abort on a write set that names a row twice *)

Lemma abort_rows_app txID ws1 ws2 s :
  abort_rows txID (ws1 ++ ws2) s = abort_rows txID ws1 s ≫= abort_rows txID ws2.
Proof.
  revert s. induction ws1 as [| r ws1 IH]; intros s; simpl; [done |].
  destruct (Rows s !! r) as [row |]; simpl; [| done].
  destruct (abort_chain _ _ _) as [[k v] |]; simpl; [| done].
  apply IH.
Qed.

(** X8.  Abort on a row written twice.  When the write set of an active
    transaction names a row twice and every version in the chain of that
    row was created by the transaction (the row is absent or the
    transaction created it), [Abort] panics: the first pass over the row
    deletes it from [Rows], the second dereferences the missing row. *)
Theorem Abort_panics_on_own_row_written_twice
    (s : MVCCStore) (txID rowID : string) (tx : Transaction)
    (l1 l2 l3 : list string) :
  Transactions s !! txID = Some tx -> Status tx = TxActive ->
  WriteSet tx = l1 ++ rowID :: l2 ++ rowID :: l3 ->
  (forall row, Rows s !! rowID = Some row ->
     all_created_by txID (VersionChain row) (Versions s)) ->
  Abort txID s = Panic.
Proof.
  intros Htx Hact Hws Hmine. unfold Abort. rewrite Htx.
  rewrite bool_decide_eq_false_2 by (rewrite Hact; tauto).
  cbn [WriteSet]. rewrite Hws.
  set (s1 := set_Transactions s _).
  destruct (abort_rows txID _ s1) as [s2 |] eqn:Hrun; [exfalso | done].
  replace (l1 ++ rowID :: l2 ++ rowID :: l3)
    with (((l1 ++ [rowID]) ++ l2) ++ rowID :: l3) in Hrun
    by (by rewrite <- !app_assoc).
  rewrite abort_rows_app in Hrun.
  destruct (abort_rows txID ((l1 ++ [rowID]) ++ l2) s1) as [sm |] eqn:Hmid;
    [| done].
  assert (Rows sm !! rowID = None) as Hgone.
  { destruct (Rows s1 !! rowID) as [row |] eqn:Hrow.
    - apply (abort_rows_removes _ _ row _ _ _ Hmid); [| done |].
      + apply elem_of_app. left. apply elem_of_app. right. by left.
      + by apply Hmine.
    - by apply (abort_rows_absent _ _ _ _ _ Hmid). }
  simpl in Hrun. by rewrite Hgone in Hrun.
Qed.

Definition written_twice : MVCCStore :=
  default NewMVCCStore
    (run [OpBegin; OpWrite "tx-1" "r" {[ "v" := JNumber 1 ]};
          OpWrite "tx-1" "r" {[ "v" := JNumber 2 ]}]
         NewMVCCStore).

Lemma Abort_panics_witness : Abort "tx-1" written_twice = Panic.
Proof.
  apply (Abort_panics_on_own_row_written_twice written_twice "tx-1" "r"
           (mkTransaction "tx-1" 1 None TxActive [] ["r"; "r"]) [] [] []).
  - reflexivity.
  - reflexivity.
  - reflexivity.
  - intros row Hrow verID ver Hin Hl.
    assert (row = mkRow "r" "ver-2" ["ver-2"; "ver-1"]) as ->.
    { vm_compute in Hrow. by injection Hrow as <-. }
    simpl in Hin.
    apply elem_of_cons in Hin as [-> | Hin];
      [| apply list_elem_of_singleton in Hin as ->];
      vm_compute in Hl; by injection Hl as <-.
Defined.

(** ** How a call changes the transactions *)

Lemma apply_tx o s s' :
  apply o s = Some s' ->
  (Transactions s' = Transactions s /\ GlobalTimestamp s' = GlobalTimestamp s)
  \/ (exists txID tx tx',
        Transactions s !! txID = Some tx /\ Status tx = TxActive
        /\ Transactions s' = <[txID := tx']> (Transactions s)
        /\ StartTime tx' = StartTime tx
        /\ ((CommitTime tx' = CommitTime tx /\ Status tx' <> TxCommitted
             /\ GlobalTimestamp s' = GlobalTimestamp s)
            \/ (CommitTime tx' = Some (GlobalTimestamp s + 1)
                /\ Status tx' = TxCommitted
                /\ GlobalTimestamp s' = GlobalTimestamp s + 1)))
  \/ (Transactions s'
      = <[tx_key (txSeq s + 1) :=
            mkTransaction (tx_key (txSeq s + 1)) (GlobalTimestamp s) None
                          TxActive [] []]> (Transactions s)
      /\ GlobalTimestamp s' = GlobalTimestamp s).
Proof.
  destruct o as [| txID rowID | txID rowID data | txID rowID | txID | txID |];
    simpl.
  - intros [= <-]. right. right. done.
  - unfold Read.
    destruct (Transactions s !! txID) as [tx |] eqn:Htx; [| intros [= <-]; by left].
    case_bool_decide as Hst; [intros [= <-]; by left |].
    destruct (Rows s !! rowID) as [row |]; [| intros [= <-]; by left].
    destruct (first_visible _ _ _) as [[ver |] |]; simpl;
      [| intros [= <-]; by left | done].
    intros [= <-]. right. left. eexists txID, tx, _. simpl.
    split_and!; [done | | done | done |].
    + destruct (Status tx); try done; by destruct Hst.
    + left. split_and!; [done | | done]. simpl. intros E. by rewrite E in Hst.
  - unfold Write.
    destruct (Transactions s !! txID) as [tx |] eqn:Htx; [| intros [= <-]; by left].
    case_bool_decide as Hst; [intros [= <-]; by left |].
    simpl. intros [= <-]. right. left. eexists txID, tx, _. simpl.
    split_and!; [done | | done | done |].
    + destruct (Status tx); try done; by destruct Hst.
    + left. split_and!; [done | | done]. simpl. intros E. by rewrite E in Hst.
  - unfold Delete.
    destruct (Transactions s !! txID) as [tx |] eqn:Htx; [| intros [= <-]; by left].
    case_bool_decide as Hst; [intros [= <-]; by left |].
    destruct (Rows s !! rowID) as [row |]; [| intros [= <-]; by left].
    assert (Status tx = TxActive) as Hact.
    { destruct (Status tx); try done; by destruct Hst. }
    destruct (VersionChain row) as [| verID rest].
    + simpl. intros [= <-]. right. left. eexists txID, tx, _. simpl.
      split_and!; [done | done | done | done |].
      left. split_and!; [done | | done]. simpl. by rewrite Hact.
    + destruct (Versions s !! verID) as [ver |]; simpl; [| done].
      intros [= <-]. right. left. eexists txID, tx, _. simpl.
      split_and!; [done | done | done | done |].
      left. split_and!; [done | | done]. simpl. by rewrite Hact.
  - unfold Commit.
    destruct (Transactions s !! txID) as [tx |] eqn:Htx; [| intros [= <-]; by left].
    case_bool_decide as Hst; [intros [= <-]; by left |].
    assert (Status tx = TxActive) as Hact.
    { destruct (Status tx); try done; by destruct Hst. }
    simpl. intros [= <-]. right. left. eexists txID, tx, _.
    destruct (clear_active_fields txID
      (mkStore (<[txID := mkTransaction (tx_ID tx) (StartTime tx)
                            (Some (GlobalTimestamp s + 1)) TxCommitted
                            (ReadSet tx) (WriteSet tx)]> (Transactions s))
               (Versions s) (Rows s) (GlobalTimestamp s + 1)
               (ActiveTransaction s) (txSeq s) (verSeq s)))
      as (HT & _ & HG & _). simpl in HT, HG.
    rewrite HT, HG.
    split_and!; [done | done | done | done |]. right. done.
  - unfold Abort.
    destruct (Transactions s !! txID) as [tx |] eqn:Htx; [| intros [= <-]; by left].
    case_bool_decide as Hst; [intros [= <-]; by left |].
    assert (Status tx = TxActive) as Hact.
    { destruct (Status tx); try done; by destruct Hst. }
    destruct (abort_rows _ _ _) as [s2 |] eqn:Hs2; simpl; [| done].
    intros [= <-].
    destruct (abort_rows_fields _ _ _ _ Hs2) as (HT & HG & _ & _).
    destruct (clear_active_fields txID s2) as (HT' & _ & HG' & _).
    simpl in HT, HG. right. left. eexists txID, tx, _.
    rewrite HT', HG', HT, HG.
    split_and!; [done | done | done | done |]. left. done.
  - unfold GarbageCollect.
    destruct (gc_rows _ _ _ _ _) as [[removed s1] |] eqn:Hg; simpl; [| done].
    intros [= <-].
    destruct (gc_rows_fields _ _ _ _ _ _ _ Hg) as (HT & HG & _ & _).
    by left.
Qed.

(** A transaction that is no longer active is left as it is. *)
Lemma apply_finished o s s' k tx :
  store_inv s -> apply o s = Some s' ->
  Transactions s !! k = Some tx -> Status tx <> TxActive ->
  Transactions s' !! k = Some tx.
Proof.
  intros Hi Ho Hk Hst.
  destruct (apply_tx o s s' Ho)
    as [[-> _] | [(txID & tx0 & tx' & Htx & Hact & -> & _) | [-> _]]].
  - done.
  - rewrite lookup_insert_ne; [done |]. intros <-. congruence.
  - rewrite lookup_insert_ne; [done |]. intros <-.
    destruct Hi as [_ Hkeys _ _ _].
    destruct (Hkeys _ _ Hk) as [_ (n & Hn & Heq)].
    apply tx_key_inj in Heq. lia.
Qed.

Lemma run_finished ops : forall s s' k tx,
  store_inv s -> run ops s = Some s' ->
  Transactions s !! k = Some tx -> Status tx <> TxActive ->
  Transactions s' !! k = Some tx.
Proof.
  induction ops as [| o ops IH]; intros s s' k tx Hi; simpl.
  - by intros [= <-].
  - destruct (apply o s) as [s1 |] eqn:Ho; simpl; [| done].
    intros H Hk Hst. destruct (apply_inv _ _ _ Hi Ho) as [Hi1 _].
    apply (IH s1 s' k tx Hi1 H); [| done].
    by apply (apply_finished o s).
Qed.

(** X9.  A finished transaction is final.  Once [Commit] or [Abort] of a
    transaction has returned without error on a reachable store, whatever
    calls follow leave the record of the transaction as it is, and every
    later [Read], [Write], [Delete], [Commit] and [Abort] in its name
    returns the not-active error and leaves the store unchanged. *)
Theorem finished_transaction_is_final
    (ops0 ops : list Op) (s0 s1 s : MVCCStore) (txID : string) :
  run ops0 NewMVCCStore = Some s0 ->
  Commit txID s0 = Ok tt s1 \/ Abort txID s0 = Ok tt s1 ->
  run ops s1 = Some s ->
  (exists tx, Transactions s1 !! txID = Some tx
              /\ Transactions s !! txID = Some tx
              /\ Status tx <> TxActive)
  /\ (forall rowID data,
        Read txID rowID s = Err (not_active txID) s
        /\ Write txID rowID data s = Err (not_active txID) s
        /\ Delete txID rowID s = Err (not_active txID) s
        /\ Commit txID s = Err (not_active txID) s
        /\ Abort txID s = Err (not_active txID) s).
Proof.
  intros H0 Hend Hrun.
  assert (store_inv s0) as Hi0 by (apply reachable_store_inv; by exists ops0).
  assert (exists o, apply o s0 = Some s1
                    /\ exists tx, Transactions s1 !! txID = Some tx
                                  /\ Status tx <> TxActive)
    as (o & Ho & tx & Htx & Hst).
  { destruct Hend as [Hc | Ha].
    - exists (OpCommit txID). split; [simpl; by rewrite Hc |].
      unfold Commit in Hc.
      destruct (Transactions s0 !! txID) as [tx |]; [| done].
      case_bool_decide; [done |]. injection Hc as <-.
      rewrite (proj1 (clear_active_fields txID _)). simpl.
      rewrite lookup_insert_eq. eauto.
    - exists (OpAbort txID). split; [simpl; by rewrite Ha |].
      unfold Abort in Ha.
      destruct (Transactions s0 !! txID) as [tx |]; [| done].
      case_bool_decide; [done |].
      destruct (abort_rows _ _ _) as [s2 |] eqn:Hs2; [| done].
      injection Ha as <-.
      destruct (abort_rows_fields _ _ _ _ Hs2) as (HT & _ & _ & _).
      rewrite (proj1 (clear_active_fields txID _)), HT. simpl.
      rewrite lookup_insert_eq. eauto. }
  destruct (apply_inv _ _ _ Hi0 Ho) as [Hi1 _].
  pose proof (run_finished ops s1 s txID tx Hi1 Hrun Htx Hst) as Hfin.
  split; [by exists tx |].
  intros rowID data. unfold Read, Write, Delete, Commit, Abort.
  rewrite Hfin. by rewrite bool_decide_eq_true_2 by done.
Qed.

Definition committed_store : MVCCStore :=
  default NewMVCCStore
    (run [OpBegin; OpWrite "tx-1" "r" {[ "v" := JNumber 1 ]}; OpCommit "tx-1"]
         NewMVCCStore).

Lemma finished_transaction_witness :
  (exists tx, Transactions committed_store !! "tx-1" = Some tx
              /\ Transactions one_row_store !! "tx-1" = Some tx
              /\ Status tx <> TxActive)
  /\ (forall rowID data,
        Read "tx-1" rowID one_row_store = Err (not_active "tx-1") one_row_store
        /\ Write "tx-1" rowID data one_row_store
           = Err (not_active "tx-1") one_row_store
        /\ Delete "tx-1" rowID one_row_store
           = Err (not_active "tx-1") one_row_store
        /\ Commit "tx-1" one_row_store = Err (not_active "tx-1") one_row_store
        /\ Abort "tx-1" one_row_store = Err (not_active "tx-1") one_row_store).
Proof.
  apply (finished_transaction_is_final
           [OpBegin; OpWrite "tx-1" "r" {[ "v" := JNumber 1 ]}]
           [OpBegin]
           (default NewMVCCStore
              (run [OpBegin; OpWrite "tx-1" "r" {[ "v" := JNumber 1 ]}]
                   NewMVCCStore))
           committed_store one_row_store "tx-1").
  - vm_compute. reflexivity.
  - left. vm_compute. reflexivity.
  - vm_compute. reflexivity.
Defined.

(** ** Commit times *)

(** A commit time belongs to one committed transaction and lies after its
    start and not after the clock. *)
Definition commit_inv (s : MVCCStore) : Prop :=
  forall k tx c,
    Transactions s !! k = Some tx -> CommitTime tx = Some c ->
    Status tx = TxCommitted
    /\ StartTime tx < c <= GlobalTimestamp s
    /\ forall k' tx', Transactions s !! k' = Some tx' ->
                      CommitTime tx' = Some c -> k' = k.

Lemma apply_commit_inv o s s' :
  store_inv s -> commit_inv s -> apply o s = Some s' -> commit_inv s'.
Proof.
  intros Hi Hc Ho.
  destruct (apply_tx o s s' Ho)
    as [[HT HG] | [(txID & tx0 & tx1 & Htx & Hact & HT & Hst & Hcase) | [HT HG]]].
  - intros k tx c. rewrite HT, HG. apply Hc.
  - assert (CommitTime tx0 = None) as Hnone.
    { destruct (CommitTime tx0) as [c |] eqn:E; [| done].
      destruct (Hc txID tx0 c Htx E) as [? _]. congruence. }
    destruct Hcase as [(Hct & Hns & HG) | (Hct & Hcm & HG)].
    + intros k tx c. rewrite HT, HG. intros Hl Hcc.
      apply lookup_insert_Some in Hl as [[<- <-] | [Hne Hl]]; [congruence |].
      destruct (Hc k tx c Hl Hcc) as (H1 & H2 & H3).
      split; [done | split; [done |]].
      intros k' tx' Hl' Hcc'.
      apply lookup_insert_Some in Hl' as [[<- <-] | [Hne' Hl']]; [congruence |].
      by apply (H3 k' tx').
    + destruct Hi as [_ _ Ht _ _]. destruct (Ht txID tx0 Htx) as [Hs0 _].
      intros k tx c. rewrite HT, HG. intros Hl Hcc.
      apply lookup_insert_Some in Hl as [[<- <-] | [Hne Hl]].
      * assert (c = GlobalTimestamp s + 1) as -> by congruence.
        split; [done | split; [lia |]].
        intros k' tx' Hl' Hcc'.
        apply lookup_insert_Some in Hl' as [[<- <-] | [Hne' Hl']]; [done |].
        destruct (Hc k' tx' _ Hl' Hcc') as (_ & ? & _). lia.
      * destruct (Hc k tx c Hl Hcc) as (H1 & H2 & H3).
        split; [done | split; [lia |]].
        intros k' tx' Hl' Hcc'.
        apply lookup_insert_Some in Hl' as [[<- <-] | [Hne' Hl']].
        -- assert (c = GlobalTimestamp s + 1) as -> by congruence. lia.
        -- by apply (H3 k' tx').
  - destruct Hi as [_ Hkeys _ _ _].
    assert (Transactions s !! tx_key (txSeq s + 1) = None) as Hfresh.
    { destruct (Transactions s !! tx_key (txSeq s + 1)) as [t |] eqn:E; [| done].
      destruct (Hkeys _ _ E) as [_ (n & Hn & Heq)].
      apply tx_key_inj in Heq. lia. }
    intros k tx c. rewrite HT, HG. intros Hl Hcc.
    apply lookup_insert_Some in Hl as [[<- <-] | [Hne Hl]]; [done |].
    destruct (Hc k tx c Hl Hcc) as (H1 & H2 & H3).
      split; [done | split; [done |]].
    intros k' tx' Hl' Hcc'.
    apply lookup_insert_Some in Hl' as [[<- <-] | [Hne' Hl']]; [done |].
    by apply (H3 k' tx').
Qed.

Lemma run_commit_inv ops : forall s s',
  store_inv s -> commit_inv s -> run ops s = Some s' -> commit_inv s'.
Proof.
  induction ops as [| o ops IH]; intros s s' Hi Hc; simpl.
  - by intros [= <-].
  - destruct (apply o s) as [s1 |] eqn:Ho; simpl; [| done].
    intros H. destruct (apply_inv _ _ _ Hi Ho) as [Hi1 _].
    apply (IH s1 s' Hi1); [| done]. by apply (apply_commit_inv o s).
Qed.

(** X10.  Commit times.  On every reachable store a transaction has a
    commit time exactly when it is committed; the commit time is later
    than the start time of the transaction and not later than the clock;
    and no two transactions have the same commit time. *)
Theorem commit_times_are_unique_and_after_start
    (s : MVCCStore) (k : string) (tx : Transaction) :
  reachable s -> Transactions s !! k = Some tx ->
  (Status tx = TxCommitted <-> is_Some (CommitTime tx))
  /\ forall c, CommitTime tx = Some c ->
       StartTime tx < c <= GlobalTimestamp s
       /\ forall k' tx', Transactions s !! k' = Some tx' ->
                         CommitTime tx' = Some c -> k' = k.
Proof.
  intros Hr Hk. pose proof (reachable_store_inv s Hr) as Hi.
  assert (commit_inv s) as Hc.
  { destruct Hr as [ops Hrun].
    apply (run_commit_inv ops NewMVCCStore s NewMVCCStore_inv); [| done].
    intros k0 tx0 c0 Hl. simpl in Hl. by rewrite lookup_empty in Hl. }
  split.
  - split.
    + intros Hst. destruct Hi as [_ _ Ht _ _]. destruct (Ht k tx Hk) as [_ Hct].
      destruct (Hct Hst) as (c & -> & _). eauto.
    + intros [c Hcc]. by destruct (Hc k tx c Hk Hcc).
  - intros c Hcc. destruct (Hc k tx c Hk Hcc) as (_ & ? & ?). done.
Qed.

Lemma commit_times_witness :
  (Status (mkTransaction "tx-1" 1 (Some 2) TxCommitted [] ["r"]) = TxCommitted
   <-> is_Some (CommitTime (mkTransaction "tx-1" 1 (Some 2) TxCommitted [] ["r"])))
  /\ forall c,
       CommitTime (mkTransaction "tx-1" 1 (Some 2) TxCommitted [] ["r"]) = Some c ->
       StartTime (mkTransaction "tx-1" 1 (Some 2) TxCommitted [] ["r"]) < c
         <= GlobalTimestamp one_row_store
       /\ forall k' tx', Transactions one_row_store !! k' = Some tx' ->
                         CommitTime tx' = Some c -> k' = "tx-1".
Proof.
  apply (commit_times_are_unique_and_after_start one_row_store "tx-1"
           (mkTransaction "tx-1" 1 (Some 2) TxCommitted [] ["r"])).
  - exists [OpBegin; OpWrite "tx-1" "r" {[ "v" := JNumber 1 ]}; OpCommit "tx-1";
            OpBegin].
    vm_compute. reflexivity.
  - reflexivity.
Defined.

(** X11.  Fresh ids.  On every reachable store [BeginTransaction] hands
    out an id that no transaction of the store has, and a [Write] that
    returns creates a version under an id that is neither in [Versions]
    nor in the chain of any row. *)
Theorem new_ids_are_fresh (s : MVCCStore) :
  reachable s ->
  Transactions s !! tx_ID (BeginTransaction s).1 = None
  /\ forall txID rowID data ver s',
       Write txID rowID data s = Ok ver s' ->
       Versions s !! ver_ID ver = None
       /\ forall r row, Rows s !! r = Some row -> ver_ID ver ∉ VersionChain row.
Proof.
  intros Hr. pose proof (reachable_store_inv s Hr) as [_ Hkeys _ _ _].
  pose proof (reachable_refs s Hr) as Hrefs. split.
  - simpl. fold (tx_key (txSeq s + 1)).
    destruct (Transactions s !! tx_key (txSeq s + 1)) as [t |] eqn:E; [| done].
    destruct (Hkeys _ _ E) as [_ (n & Hn & Heq)].
    apply tx_key_inj in Heq. lia.
  - intros txID rowID data ver s' Hw. unfold Write in Hw.
    destruct (Transactions s !! txID) as [tx |]; [| done].
    case_bool_decide; [done |]. injection Hw as <- _. simpl.
    fold (ver_key (verSeq s + 1)).
    pose proof (fresh_version s Hrefs) as Hfresh. split; [done |].
    intros r row Hl Hin.
    destruct (chain_resolves s r row _ Hrefs Hl Hin) as [? ?]. congruence.
Qed.

Lemma new_ids_witness :
  Transactions one_row_store !! tx_ID (BeginTransaction one_row_store).1 = None
  /\ forall txID rowID data ver s',
       Write txID rowID data one_row_store = Ok ver s' ->
       Versions one_row_store !! ver_ID ver = None
       /\ forall r row, Rows one_row_store !! r = Some row ->
                        ver_ID ver ∉ VersionChain row.
Proof.
  apply (new_ids_are_fresh one_row_store).
  exists [OpBegin; OpWrite "tx-1" "r" {[ "v" := JNumber 1 ]}; OpCommit "tx-1";
          OpBegin].
  vm_compute. reflexivity.
Defined.

(** ** What GarbageCollect removes *)

Lemma oldestActiveStart_le s :
  oldestActiveStart s <= GlobalTimestamp s
  /\ forall k tx, Transactions s !! k = Some tx -> Status tx = TxActive ->
                  oldestActiveStart s <= StartTime tx.
Proof.
  unfold oldestActiveStart.
  apply (map_fold_weak_ind
           (fun r (m : gmap string Transaction) =>
              r <= GlobalTimestamp s
              /\ forall k tx, m !! k = Some tx -> Status tx = TxActive ->
                              r <= StartTime tx)).
  - split; [lia |]. intros k tx Hl. by rewrite lookup_empty in Hl.
  - intros i x m r Hi [Hr Hall]. split.
    + destruct (bool_decide (Status x = TxActive) && (StartTime x <? r)) eqn:E;
        [| done].
      apply andb_true_iff in E as [_ E%Z.ltb_lt]. lia.
    + intros k tx Hl Hact.
      apply lookup_insert_Some in Hl as [[<- <-] | [Hne Hl]].
      * rewrite bool_decide_eq_true_2 by done. simpl.
        destruct (Z.ltb_spec (StartTime x) r); lia.
      * specialize (Hall k tx Hl Hact).
        destruct (bool_decide (Status x = TxActive) && (StartTime x <? r)) eqn:E;
          [| done].
        apply andb_true_iff in E as [_ E%Z.ltb_lt]. lia.
Qed.

(** The creator of version [v] of [vs] committed before [oldest]. *)
Definition old_version (s : MVCCStore) (oldest : Z)
    (vs : gmap string Version) (v : string) : Prop :=
  exists ver creator c,
    vs !! v = Some ver
    /\ Transactions s !! CreatedBy ver = Some creator
    /\ Status creator = TxCommitted
    /\ CommitTime creator = Some c
    /\ c < oldest.

Lemma gc_chain_gone s oldest chain : forall found vs kept gone vs',
  gc_chain s oldest found chain vs = Some (kept, gone, vs') ->
  sublist gone chain
  /\ forall v, v ∈ gone -> old_version s oldest vs v.
Proof.
  induction chain as [| verID rest IH]; intros found vs kept gone vs'; simpl.
  - intros [= <- <- <-]. split; [done |]. by intros v ?%elem_of_nil.
  - destruct (vs !! verID) as [ver |] eqn:Hv; simpl; [| done].
    destruct (Transactions s !! CreatedBy ver) as [ctx |] eqn:Hc; simpl; [| done].
    destruct (if bool_decide _ then _ else _) as [ct |] eqn:Hct.
    + destruct ((ct <? oldest) && found) eqn:Hold.
      * destruct (gc_chain s oldest found rest (delete verID vs))
          as [[[k g] v] |] eqn:E; simpl; [| done].
        intros [= <- <- <-]. destruct (IH _ _ _ _ _ E) as [Hsub Hg].
        split; [by apply sublist_skip |].
        intros x Hx. apply elem_of_cons in Hx as [-> | Hx].
        -- case_bool_decide as Hst; [| done].
           apply andb_true_iff in Hold as [Hlt%Z.ltb_lt _].
           by exists ver, ctx, ct.
        -- destruct (Hg x Hx) as (ver' & cr & c & Hl & ?).
           apply lookup_delete_Some in Hl as [_ Hl]. by exists ver', cr, c.
      * destruct (gc_chain s oldest true rest vs)
          as [[[k g] v] |] eqn:E; simpl; [| done].
        intros [= <- <- <-]. destruct (IH _ _ _ _ _ E) as [Hsub Hg].
        split; [by apply sublist_cons | done].
    + destruct (gc_chain s oldest found rest vs)
        as [[[k g] v] |] eqn:E; simpl; [| done].
      intros [= <- <- <-]. destruct (IH _ _ _ _ _ E) as [Hsub Hg].
      split; [by apply sublist_cons | done].
Qed.

(** The loop over the rows: what is removed, and what is left of the
    versions and of the chains. *)
Lemma gc_rows_report s0 oldest rows : forall s removed removed' s',
  gc_rows s0 oldest rows s removed = Some (removed', s') ->
  NoDup rows.*1 ->
  (forall r row, (r, row) ∈ rows -> Rows s !! r = Some row) ->
  (forall r row, Rows s !! r = Some row ->
     chain_ok (Versions s) r (VersionChain row)) ->
  exists gone,
    removed' = removed ++ gone
    /\ NoDup gone
    /\ (forall v, v ∈ gone ->
          Versions s' !! v = None /\ old_version s0 oldest (Versions s) v)
    /\ (forall v, v ∉ gone -> Versions s' !! v = Versions s !! v)
    /\ (forall r row, Rows s !! r = Some row ->
          exists row',
            Rows s' !! r = Some row'
            /\ ((r, row) ∈ rows ->
                head (VersionChain row') = head (VersionChain row))
            /\ ((r, row) ∉ rows -> row' = row)
            /\ forall v, v ∈ VersionChain row'
                         <-> v ∈ VersionChain row /\ v ∉ gone).
Proof.
  induction rows as [| [r0 row0] rows IH]; intros s removed removed' s'; simpl.
  - intros [= <- <-] _ _ Hrows. exists []. rewrite app_nil_r.
    split_and!; [done | apply NoDup_nil_2 | | done |].
    + by intros v ?%elem_of_nil.
    + intros r row Hl. exists row. split_and!; [done | done | done |].
      intros v. split; [| tauto]. intros Hv. split; [done |].
      by intros ?%elem_of_nil.
  - destruct (gc_chain _ _ _ _ _) as [[[kept g0] vs1] |] eqn:Hg;
      simpl; [| done].
    intros H Hnd Hin Hrows. apply NoDup_cons in Hnd as [Hr0 Hnd].
    assert (Rows s !! r0 = Some row0) as Hl0 by (apply Hin; by left).
    destruct (Hrows r0 row0 Hl0) as [Hnd0 Hres0].
    destruct (gc_chain_spec _ _ _ _ _ _ _ _ Hg Hnd0)
      as (Hsub & Hle & Hiff & Hgone & Hkeep).
    destruct (gc_chain_gone _ _ _ _ _ _ _ _ Hg) as [Hgsub Hgold].
    set (s1 := set_Rows (set_Versions s vs1)
                 (<[r0 := mkRow (row_ID row0) (CurrentVersion row0) kept]> (Rows s))) in *.
    assert (Hrows1 : forall r row, Rows s1 !! r = Some row ->
                       chain_ok (Versions s1) r (VersionChain row)).
    { apply (thin_chain_refs (Versions s) vs1 (Rows s) r0 row0 kept); try done.
      - intros v ver H1 H2.
        destruct (decide (v ∈ g0)) as [Hvg | Hvg].
        + by apply Hiff in Hvg as [? _].
        + rewrite (Hkeep v Hvg) in H2. congruence.
      - intros v Hv. apply Hkeep. intros Hvg. apply Hiff in Hvg as [_ ?]. done.
      - intros r row Hl. simpl in Hl.
        apply lookup_insert_Some in Hl as [[<- <-] | [Hne Hl]]; [by left | by right]. }
    assert (Hin1 : forall r row, (r, row) ∈ rows -> Rows s1 !! r = Some row).
    { intros r row Hrr. simpl. rewrite lookup_insert_ne.
      - apply Hin. by right.
      - intros <-. apply Hr0. apply list_elem_of_fmap. by exists (r0, row). }
    destruct (IH s1 _ _ _ H Hnd Hin1 Hrows1)
      as (g1 & -> & Hnd1 & Hg1 & Hk1 & Hr1).
    destruct (gc_rows_fields _ _ _ _ _ _ _ H) as (_ & _ & _ & Hle').
    exists (g0 ++ g1). split_and!.
    + by rewrite app_assoc.
    + apply NoDup_app. split_and!; [by apply (sublist_NoDup _ _ Hnd0) | | done].
      intros v Hv0 Hv1. destruct (Hg1 v Hv1) as [_ (ver & cr & c & Hl1 & _)].
      destruct (Hgone v Hv0) as [_ Hn]. simpl in Hl1. congruence.
    + intros v Hv. apply elem_of_app in Hv as [Hv | Hv].
      * split; [| by apply Hgold].
        destruct (Hgone v Hv) as [_ Hn].
        destruct (Versions s' !! v) as [ver |] eqn:E; [| done].
        pose proof (lookup_weaken _ _ _ _ E Hle') as E'. simpl in E'. congruence.
      * destruct (Hg1 v Hv) as [Hn (ver & cr & c & Hl1 & Hrest)].
        split; [done |]. exists ver, cr, c. split; [| done].
        simpl in Hl1. by apply (lookup_weaken _ _ _ _ Hl1 Hle).
    + intros v Hv. rewrite Hk1 by (intros ?; apply Hv; apply elem_of_app; by right).
      simpl. apply Hkeep. intros ?. apply Hv. apply elem_of_app. by left.
    + intros r row Hl. destruct (decide (r = r0)) as [-> | Hne].
      * assert (row = row0) as -> by congruence.
        destruct (Hr1 r0 (mkRow (row_ID row0) (CurrentVersion row0) kept))
          as (row' & Hl' & Hhd & Hsame & Hmem).
        { simpl. by rewrite lookup_insert_eq. }
        assert ((r0, mkRow (row_ID row0) (CurrentVersion row0) kept) ∉ rows)
          as Hnot.
        { intros Hx. apply Hr0. apply list_elem_of_fmap. by eexists (r0, _). }
        exists row'. split_and!; [done | | | ].
        -- intros _. rewrite (Hsame Hnot). simpl.
           by apply (gc_chain_head _ _ _ _ _ _ _ _ Hg).
        -- intros Hx. exfalso. apply Hx. by left.
        -- intros v. rewrite Hmem. simpl. rewrite elem_of_app.
           split.
           ++ intros [Hk Hn1]. split; [by eapply elem_of_sublist |].
              intros [Hv0 | Hv1]; [| done]. apply Hiff in Hv0 as [_ ?]. done.
           ++ intros [Hc Hn]. split; [| tauto].
              destruct (decide (v ∈ kept)) as [? | Hnk]; [done |].
              exfalso. apply Hn. left. apply Hiff. done.
      * destruct (Hr1 r row) as (row' & Hl' & Hhd & Hsame & Hmem).
        { simpl. by rewrite lookup_insert_ne. }
        exists row'. split_and!; [done | | | ].
        -- intros Hx. apply Hhd. apply elem_of_cons in Hx as [[= -> _] | Hx]; done.
        -- intros Hx. apply Hsame. intros ?. apply Hx. by right.
        -- intros v. rewrite Hmem, elem_of_app. split; [| tauto].
           intros [Hc Hn1]. split; [done |]. intros [Hv0 | Hv1]; [| done].
           apply Hiff in Hv0 as [Hv0 _].
           destruct (Hres0 v Hv0) as (ver0 & Hlv0 & Hrow0).
           destruct (Hrows r row Hl) as [_ Hres].
           destruct (Hres v Hc) as (ver & Hlv & Hrow). congruence.
Qed.

(** X12.  What GarbageCollect removes.  On a reachable store
    [GarbageCollect] returns the ids of the versions it deleted, each
    once: a version is in the result exactly when it was stored before and
    is not stored after.  Every removed version was created by a
    transaction that committed before the clock value and before the
    start of every active transaction.  The chain of every row keeps its
    first version and loses exactly the removed ids; the transactions and
    the clock are untouched. *)
Theorem GarbageCollect_removes_only_old_versions
    (s s' : MVCCStore) (removed : list string) :
  reachable s ->
  GarbageCollect s = Ok removed s' ->
  NoDup removed
  /\ (forall v, v ∈ removed
                <-> is_Some (Versions s !! v) /\ Versions s' !! v = None)
  /\ (forall v ver, Versions s' !! v = Some ver -> Versions s !! v = Some ver)
  /\ (forall v, v ∈ removed ->
        exists ver creator c,
          Versions s !! v = Some ver
          /\ Transactions s !! CreatedBy ver = Some creator
          /\ Status creator = TxCommitted
          /\ CommitTime creator = Some c
          /\ c < GlobalTimestamp s
          /\ forall k tx, Transactions s !! k = Some tx ->
                          Status tx = TxActive -> c < StartTime tx)
  /\ (forall r row, Rows s !! r = Some row ->
        exists row',
          Rows s' !! r = Some row'
          /\ head (VersionChain row') = head (VersionChain row)
          /\ forall v, v ∈ VersionChain row'
                       <-> v ∈ VersionChain row /\ v ∉ removed)
  /\ Transactions s' = Transactions s
  /\ GlobalTimestamp s' = GlobalTimestamp s.
Proof.
  intros Hr Hgc. pose proof (reachable_refs s Hr) as [_ _ Hrows].
  unfold GarbageCollect in Hgc.
  destruct (gc_rows _ _ _ _ _) as [[removed0 s1] |] eqn:Hg; [| done].
  injection Hgc as -> ->.
  destruct (gc_rows_fields _ _ _ _ _ _ _ Hg) as (HT & HG & _ & Hle).
  destruct (gc_rows_report _ _ _ _ _ _ _ Hg) as (gone & -> & Hnd & Hgone & Hkeep & Hr').
  { apply NoDup_fst_map_to_list. }
  { intros r row Hin. by apply elem_of_map_to_list in Hin. }
  { done. }
  destruct (oldestActiveStart_le s) as [Holdest Hactive].
  simpl. split_and!; [done | | | | | done | done].
  - intros v. split.
    + intros Hv. destruct (Hgone v Hv) as [Hn (ver & cr & c & Hl & _)]. eauto.
    + intros [[ver Hl] Hn]. destruct (decide (v ∈ gone)) as [? | Hv]; [done |].
      rewrite (Hkeep v Hv) in Hn. congruence.
  - intros v ver Hl. by apply (lookup_weaken _ _ _ _ Hl Hle).
  - intros v Hv. destruct (Hgone v Hv) as [_ (ver & cr & c & Hl & Hc & Hst & Hct & Hlt)].
    exists ver, cr, c. split_and!; try done; [lia |].
    intros k tx Hk Hact. specialize (Hactive k tx Hk Hact). lia.
  - intros r row Hl. destruct (Hr' r row Hl) as (row' & Hl' & Hhd & _ & Hmem).
    exists row'. split_and!; [done | | done].
    apply Hhd. by apply elem_of_map_to_list.
Qed.

Definition two_versions : MVCCStore :=
  default NewMVCCStore
    (run [OpBegin; OpWrite "tx-1" "r" {[ "v" := JNumber 1 ]}; OpCommit "tx-1";
          OpBegin; OpWrite "tx-2" "r" {[ "v" := JNumber 2 ]}; OpCommit "tx-2"]
         NewMVCCStore).

Definition two_versions_collected : MVCCStore :=
  default NewMVCCStore (after (GarbageCollect two_versions)).

Lemma GarbageCollect_witness :
  NoDup ["ver-1"]
  /\ (forall v, v ∈ ["ver-1"]
                <-> is_Some (Versions two_versions !! v)
                    /\ Versions two_versions_collected !! v = None)
  /\ (forall v ver, Versions two_versions_collected !! v = Some ver ->
                    Versions two_versions !! v = Some ver)
  /\ (forall v, v ∈ ["ver-1"] ->
        exists ver creator c,
          Versions two_versions !! v = Some ver
          /\ Transactions two_versions !! CreatedBy ver = Some creator
          /\ Status creator = TxCommitted
          /\ CommitTime creator = Some c
          /\ c < GlobalTimestamp two_versions
          /\ forall k tx, Transactions two_versions !! k = Some tx ->
                          Status tx = TxActive -> c < StartTime tx)
  /\ (forall r row, Rows two_versions !! r = Some row ->
        exists row',
          Rows two_versions_collected !! r = Some row'
          /\ head (VersionChain row') = head (VersionChain row)
          /\ forall v, v ∈ VersionChain row'
                       <-> v ∈ VersionChain row /\ v ∉ ["ver-1"])
  /\ Transactions two_versions_collected = Transactions two_versions
  /\ GlobalTimestamp two_versions_collected = GlobalTimestamp two_versions.
Proof.
  apply (GarbageCollect_removes_only_old_versions two_versions
           two_versions_collected ["ver-1"]).
  - exists [OpBegin; OpWrite "tx-1" "r" {[ "v" := JNumber 1 ]}; OpCommit "tx-1";
            OpBegin; OpWrite "tx-2" "r" {[ "v" := JNumber 2 ]}; OpCommit "tx-2"].
    vm_compute. reflexivity.
  - vm_compute. reflexivity.
Defined.

End MVCCSafety.

(* ===================================================================== *)
(** * Engine: calls that cannot fail, and autoplay to the end *)
(* ===================================================================== *)

Module EngineSafety.
Import Protocol Engine EngineFacts EngineClaims.

Section WithSimulation.
Context {S D C : Type} `{Sim : Simulation S D C}.

Abbreviation Engine := (Engine.Engine S D).

Lemma Pause_returns (e : Engine) : reachable e -> is_Some (Pause e).
Proof.
  intros Hr. unfold Pause. case_decide as Hm; [| eauto].
  rewrite (reachable_playing_open e Hr Hm). simpl. eauto.
Qed.

Lemma Stop_returns (e : Engine) : reachable e -> is_Some (Stop e).
Proof.
  intros Hr. unfold Stop. case_decide as Hm; [| eauto].
  rewrite (reachable_playing_open e Hr Hm). simpl. eauto.
Qed.

(** X13.  No close of a closed channel.  On every engine a session can
    reach, [Pause], [Stop] and [Reset] return, and a firing of the
    autoplay ticker does not panic: whenever the mode is playing the stop
    channel is open. *)
Theorem reachable_engine_calls_do_not_panic (e : Engine) :
  reachable e ->
  is_Some (Pause e)
  /\ is_Some (Stop e)
  /\ is_Some (Engine_Reset e)
  /\ (playLoop_tick e).2 <> Panicked.
Proof.
  intros Hr. split_and!.
  - by apply Pause_returns.
  - by apply Stop_returns.
  - unfold Engine_Reset. destruct (Stop_returns e Hr) as [e0 ->]. simpl.
    destruct (Reset (simulation e0)) as [[err |] sim']; eauto.
  - unfold playLoop_tick.
    pose proof (reach_StepForward e Hr) as Hr1.
    destruct (StepForward e) as [[e1 evs] [r err]]. simpl in Hr1.
    case_decide; [| done].
    by destruct (Pause_returns e1 Hr1) as [[e2 evs2] ->].
Qed.

(** X14.  CanStepForward and CanStepBackward.  On a reachable engine
    [CanStepForward] is true exactly when [StepForward] executes a step,
    and otherwise [StepForward] leaves the engine as it is and emits
    nothing; [CanStepBackward] is true exactly when [StepBackward] returns
    no error, and otherwise [StepBackward] leaves the engine as it is. *)
Theorem CanStep_tells_whether_a_step_is_taken (e : Engine) :
  reachable e ->
  (CanStepForward e = true <-> exists r, (StepForward e).2 = (Some r, None))
  /\ (CanStepForward e = false ->
      (StepForward e).1 = (e, []) /\ (StepForward e).2.1 = None
      /\ (StepForward e).2.2 <> None)
  /\ (CanStepBackward e = true <-> (StepBackward e).2.2 = None)
  /\ (CanStepBackward e = false ->
      StepBackward e = (e, [], (None, Some ErrNoPreviousSteps))).
Proof.
  intros Hr. destruct (reachable_cursor_inv e Hr) as [Hc _].
  pose proof (len_nonneg (steps e)) as Hlen.
  unfold CanStepForward, CanStepBackward, StepForward, StepBackward.
  split_and!.
  - destruct (Z.ltb_spec (currentStep e + 1) (len (steps e))) as [Hlt | Hge].
    + destruct (Z.eqb_spec (len (steps e)) 0); [lia |].
      destruct (Z.geb_spec (currentStep e + 1) (len (steps e))); [lia |].
      destruct (ExecuteStep _ _) as [result sim']. simpl. split; eauto.
    + split; [done |]. intros [r Hres].
      destruct (Z.eqb_spec (len (steps e)) 0); [done |].
      destruct (Z.geb_spec (currentStep e + 1) (len (steps e))); [done | lia].
  - intros Hcan%Z.ltb_ge.
    destruct (Z.eqb_spec (len (steps e)) 0); [done |].
    destruct (Z.geb_spec (currentStep e + 1) (len (steps e))); [done | lia].
  - destruct (Z.geb_spec (currentStep e) 0) as [Hge | Hlt].
    + destruct (Z.ltb_spec (currentStep e) 0); [lia |].
      split; [| done]. intros _. simpl. repeat case_match; done.
    + destruct (Z.ltb_spec (currentStep e) 0); [| lia]. done.
  - intros Hcan. destruct (Z.geb_spec (currentStep e) 0); [done |].
    destruct (Z.ltb_spec (currentStep e) 0); [done | lia].
Qed.

(** ** Autoplay *)

Lemma StepForward_takes (e : Engine) :
  currentStep e + 1 < len (steps e) -> -1 <= currentStep e ->
  exists e1 effs r, StepForward e = (e1, effs, (Some r, None))
                    /\ mode e1 = ModeStep.
Proof.
  intros Hlt Hge. unfold StepForward.
  destruct (Z.eqb_spec (len (steps e)) 0); [lia |].
  destruct (Z.geb_spec (currentStep e + 1) (len (steps e))); [lia |].
  destruct (ExecuteStep _ _) as [result sim']. eauto.
Qed.

Lemma forward_runs (k : nat) : forall e : Engine,
  -1 <= currentStep e -> currentStep e + Z.of_nat k < len (steps e) ->
  exists e1 rs, forward k e = Some (e1, rs)
                /\ (k <> 0%nat -> mode e1 = ModeStep).
Proof.
  induction k as [| k IH]; intros e Hge Hlt.
  - exists e, []. done.
  - destruct (StepForward_takes e) as (e1 & effs & r & HF & Hm); [lia | lia |].
    destruct (StepForward_ok _ _ _ _ HF) as (Hc & _ & Hs).
    destruct (IH e1) as (e2 & rs & Hf & Hm2); [lia | rewrite Hc, Hs; lia |].
    exists e2, (r :: rs). simpl. rewrite HF, Hf. simpl. split; [done |].
    intros _. destruct k as [| k]; [| by apply Hm2].
    simpl in Hf. by simplify_eq.
Qed.

Lemma playLoop_ticks_forward (k : nat) : forall (e e1 : Engine) rs,
  forward k e = Some (e1, rs) ->
  exists evs, playLoop_ticks k e = (e1, evs, Running).
Proof.
  induction k as [| k IH]; intros e e1 rs; simpl.
  - intros [= <- <-]. eauto.
  - unfold playLoop_tick.
    destruct (StepForward e) as [[e' effs] [[r |] [err |]]] eqn:HF;
      try discriminate.
    destruct (forward k e') as [[e2 rs2] |] eqn:Hn; [| discriminate].
    simpl. intros Heq. injection Heq as Heq1 Heq2. subst e1 rs.
    destruct (IH _ _ _ Hn) as [evs ->]. eauto.
Qed.

Lemma playLoop_ticks_then (k : nat) : forall (e e1 : Engine) rs r,
  forward k e = Some (e1, rs) ->
  playLoop_tick e1 = r ->
  exists evs, playLoop_ticks (Datatypes.S k) e = (r.1.1, evs, r.2).
Proof.
  induction k as [| k IH]; intros e e1 rs r.
  - intros [= <- <-] Ht. cbn [playLoop_ticks forward]. rewrite Ht.
    destruct r as [[e3 evs3] st]. destruct st; simpl; eauto.
  - intros Heq Ht.
    change (playLoop_ticks (Datatypes.S (Datatypes.S k)) e)
      with (match playLoop_tick e with
            | (e1, evs, Running) =>
                let '(e2, evs2, st) := playLoop_ticks (Datatypes.S k) e1 in
                (e2, evs ++ evs2, st)
            | r => r
            end).
    unfold playLoop_tick at 1. cbn [forward] in Heq.
    destruct (StepForward e) as [[e' effs] [[r0 |] [err |]]] eqn:HF;
      try discriminate.
    destruct (forward k e') as [[e2 rs2] |] eqn:Hn; [| discriminate].
    simpl in Heq. injection Heq as Heq1 Heq2. subst e1 rs.
    cbv beta iota zeta. case_decide; [done |].
    destruct (IH _ _ _ _ Hn Ht) as [evs ->]. eauto.
Qed.

(** X15.  Autoplay runs to the end and returns.  On a reachable engine
    with a trace attached and [k] steps left after the cursor, the
    autoplay goroutine stays in its loop for [k] firings of the ticker,
    which execute the [k] remaining steps in order, and returns at the
    next firing without panicking, its ticker stopped and the cursor on
    the last step.  If at least one step was executed the mode is then
    [ModeStep], not [ModePaused]; if none was and the mode was playing, it
    is [ModePaused]. *)
Theorem autoplay_runs_remaining_steps_and_returns (e : Engine) :
  reachable e -> attached e ->
  let k := Z.to_nat (len (steps e) - 1 - currentStep e) in
  exists e1 rs e2 evs2 evs,
    forward k e = Some (e1, rs)
    /\ length rs = k
    /\ currentStep e1 = len (steps e) - 1
    /\ (exists evs0, playLoop_ticks k e = (e1, evs0, Running))
    /\ Pause e1 = Some (e2, evs2)
    /\ playLoop_ticks (Datatypes.S k) e
       = (deferred_ticker_Stop e2, evs, Returned)
    /\ currentStep e2 = len (steps e) - 1
    /\ (k <> 0%nat -> mode e2 = ModeStep)
    /\ (k = 0%nat -> mode e = ModePlaying -> mode e2 = ModePaused).
Proof.
  intros Hr Hat k. destruct (reachable_cursor_inv e Hr) as [Hc _].
  assert (0 < len (steps e)) as Hpos.
  { pose proof (len_nonneg (steps e)). pose proof (len_zero_nil (steps e)).
    unfold attached in Hat. assert (len (steps e) <> 0) by tauto. lia. }
  destruct (forward_runs k e) as (e1 & rs & Hf & Hm); [lia | lia |].
  destruct (forward_spec _ _ _ _ Hf) as (Hc1 & _ & Hs1 & Hl).
  pose proof (forward_reachable _ _ _ _ Hf Hr) as Hr1.
  destruct (Pause_returns e1 Hr1) as [[e2 evs2] HP].
  assert (StepForward e1 = (e1, [], (None, Some ErrNoMoreSteps))) as HF.
  { unfold StepForward. rewrite Hs1.
    destruct (Z.eqb_spec (len (steps e)) 0); [lia |].
    destruct (Z.geb_spec (currentStep e1 + 1) (len (steps e))); [done | lia]. }
  assert (playLoop_tick e1 = (deferred_ticker_Stop e2, [] ++ evs2, Returned))
    as Ht.
  { unfold playLoop_tick. rewrite HF. simpl. by rewrite HP. }
  destruct (playLoop_ticks_then k e e1 rs _ Hf Ht) as [evs Hticks].
  exists e1, rs, e2, evs2, evs. split_and!; try done.
  - lia.
  - by eapply playLoop_ticks_forward.
  - unfold Pause in HP. case_decide.
    + destruct (close _); simplify_eq/=. lia.
    + simplify_eq/=. lia.
  - intros Hk. specialize (Hm Hk). unfold Pause in HP.
    case_decide as Hp; [congruence |]. by simplify_eq/=.
  - intros Hk Hpl. rewrite Hk in Hf. simpl in Hf. simplify_eq.
    unfold Pause in HP. case_decide; [| done].
    destruct (close _); by simplify_eq/=.
Qed.

End WithSimulation.
End EngineSafety.

Module EngineSafetyScenarios.
Import Protocol Engine EngineFacts EngineClaims EngineScenarios EngineSafety.

Lemma reachable_engine_calls_witness :
  is_Some (Pause e_from_playing)
  /\ is_Some (Stop e_from_playing)
  /\ is_Some (Engine_Reset e_from_playing)
  /\ (playLoop_tick e_from_playing).2 <> Panicked.
Proof.
  apply (reachable_engine_calls_do_not_panic e_from_playing).
  apply e_from_playing_reachable.
Defined.

Lemma CanStep_witness :
  (CanStepForward e_from = true
   <-> exists r, (StepForward e_from).2 = (Some r, None))
  /\ (CanStepForward e_from = false ->
      (StepForward e_from).1 = (e_from, [])
      /\ (StepForward e_from).2.1 = None
      /\ (StepForward e_from).2.2 <> None)
  /\ (CanStepBackward e_from = true <-> (StepBackward e_from).2.2 = None)
  /\ (CanStepBackward e_from = false ->
      StepBackward e_from = (e_from, [], (None, Some ErrNoPreviousSteps))).
Proof.
  apply (CanStep_tells_whether_a_step_is_taken e_from).
  apply e_from_reachable.
Defined.

Lemma autoplay_witness :
  let k := Z.to_nat (len (steps e_from_playing) - 1
                     - currentStep e_from_playing) in
  exists e1 rs e2 evs2 evs,
    forward k e_from_playing = Some (e1, rs)
    /\ length rs = k
    /\ currentStep e1 = len (steps e_from_playing) - 1
    /\ (exists evs0, playLoop_ticks k e_from_playing = (e1, evs0, Running))
    /\ Pause e1 = Some (e2, evs2)
    /\ playLoop_ticks (Datatypes.S k) e_from_playing
       = (deferred_ticker_Stop e2, evs, Returned)
    /\ currentStep e2 = len (steps e_from_playing) - 1
    /\ (k <> 0%nat -> mode e2 = ModeStep)
    /\ (k = 0%nat -> mode e_from_playing = ModePlaying -> mode e2 = ModePaused).
Proof.
  apply (autoplay_runs_remaining_steps_and_returns e_from_playing).
  - apply e_from_playing_reachable.
  - vm_compute. discriminate.
Defined.

End EngineSafetyScenarios.

(* ===================================================================== *)
(** * Lexer: Tokenize *)
(* ===================================================================== *)

Module LexerTokenize.
Import Lexer LexerBatch LexerFacts.

(** ** Strings *)

Fixpoint drop_str (n : nat) (s : string) : string :=
  match n, s with
  | O, _ => s
  | Datatypes.S n', String _ r => drop_str n' r
  | Datatypes.S _, EmptyString => EmptyString
  end.

Lemma substring_drop (s : string) : forall n,
  String.substring n (String.length s - n) s = drop_str n s.
Proof.
  induction s as [| a s IH]; intros n; simpl.
  - by destruct n.
  - destruct n as [| n]; simpl.
    + f_equal. specialize (IH 0%nat). rewrite Nat.sub_0_r in IH.
      by destruct s.
    + apply IH.
Qed.

Lemma slice_from_drop (s : string) (i : Z) :
  0 <= i -> slice_from s i = drop_str (Z.to_nat i) s.
Proof.
  intros Hi. unfold slice_from, slice, slen.
  replace (Z.to_nat (Z.of_nat (String.length s) - i))
    with (String.length s - Z.to_nat i)%nat by lia.
  apply substring_drop.
Qed.

Lemma length_drop_str (s : string) : forall n,
  String.length (drop_str n s) = (String.length s - n)%nat.
Proof.
  induction s as [| a s IH]; intros [| n]; simpl; try done.
Qed.

Lemma get_drop_str (s : string) : forall n j,
  String.get j (drop_str n s) = String.get (n + j) s.
Proof.
  induction s as [| a s IH]; intros [| n] j; simpl; try done.
  all: try (by destruct j). all: try apply IH.
Qed.

Lemma count_while_le p (r : string) :
  count_while p r <= Z.of_nat (String.length r).
Proof.
  induction r as [| c r IH]; simpl; [lia |]. destruct (p c); lia.
Qed.

Lemma count_while_get p (r : string) : forall j : nat,
  Z.of_nat j < count_while p r ->
  exists c, String.get j r = Some c /\ p c = true.
Proof.
  induction r as [| c r IH]; intros j; simpl; [lia |].
  destruct (p c) eqn:Hp; [| lia]. destruct j as [| j]; [eauto |].
  intros Hj. apply IH. lia.
Qed.

Lemma string_body_le quote (r : string) :
  string_body quote r <= Z.of_nat (String.length r).
Proof.
  revert r. fix IH 1. intros [| c r]; simpl; [lia |].
  case_bool_decide; [lia |]. case_bool_decide.
  - destruct r as [| c' r']; simpl; [lia |]. specialize (IH r'). lia.
  - specialize (IH r). lia.
Qed.

(** The scan of [readString] stops on the quote, when it stops before
    the end. *)
Lemma string_body_stop quote (r : string) :
  string_body quote r < Z.of_nat (String.length r) ->
  String.get (Z.to_nat (string_body quote r)) r = Some quote.
Proof.
  revert r. fix IH 1. intros [| c r]; simpl; [lia |].
  case_bool_decide as Hq; [intros _; by subst |]. case_bool_decide.
  - destruct r as [| c' r']; simpl; [lia |]. intros Hlt.
    pose proof (string_body_nonneg quote r').
    replace (Z.to_nat (2 + string_body quote r'))
      with (Datatypes.S (Datatypes.S (Z.to_nat (string_body quote r')))) by lia.
    apply IH. lia.
  - intros Hlt. pose proof (string_body_nonneg quote r).
    replace (Z.to_nat (1 + string_body quote r))
      with (Datatypes.S (Z.to_nat (string_body quote r))) by lia.
    apply IH. lia.
Qed.

Lemma substring_one (s : string) : forall n c,
  String.get n s = Some c -> String.substring n 1 s = String c EmptyString.
Proof.
  induction s as [| a s IH]; intros [| n] c; simpl; try done.
  all: try apply IH. intros [= ->]. by destruct s.
Qed.

Lemma substring_two (s : string) : forall n c d,
  String.get n s = Some c -> String.get (Datatypes.S n) s = Some d ->
  String.substring n 2 s = String c (String d EmptyString).
Proof.
  induction s as [| a s IH]; intros [| n] c d; simpl; try done.
  all: try apply IH. intros [= ->]. destruct s as [| b s]; simpl; [done |].
  intros [= ->]. by destruct s.
Qed.

Lemma byte_at_get (s : string) (i : Z) :
  0 <= i -> byte_at s i = String.get (Z.to_nat i) s.
Proof. intros Hi. unfold byte_at. by destruct (Z.ltb_spec i 0); [lia |]. Qed.

Lemma byte_at_lt (s : string) (i : Z) (c : ascii) :
  byte_at s i = Some c -> 0 <= i < slen s.
Proof.
  unfold byte_at, slen. destruct (Z.ltb_spec i 0); [done |]. intros Hg.
  apply get_Some_lt in Hg. lia.
Qed.

(** ** White space between tokens *)

(** The bytes of [s] from [a] up to [b] are white space. *)
Definition blank (s : string) (a b : Z) : Prop :=
  forall i, a <= i < b -> exists c, byte_at s i = Some c /\ IsSpace c = true.

(** The tokens [ts] lie in [s] between [from] and [to] in order and
    without overlap, none is empty or of type EOF, and the bytes between
    them are white space. *)
Fixpoint covers (s : string) (from : Z) (ts : list Token) (to : Z) : Prop :=
  match ts with
  | [] => from <= to /\ blank s from to
  | t :: r =>
      from <= Start (Pos t)
      /\ blank s from (Start (Pos t))
      /\ Start (Pos t) < End (Pos t)
      /\ Type_ t <> TokenEOF
      /\ covers s (End (Pos t)) r to
  end.

Lemma blank_join s a b c :
  blank s a b -> blank s b c -> blank s a c.
Proof.
  intros H1 H2 i Hi. destruct (Z.lt_ge_cases i b); [apply H1 | apply H2]; lia.
Qed.

Lemma covers_snoc s (ts : list Token) : forall from p t,
  covers s from ts p ->
  p <= Start (Pos t) -> blank s p (Start (Pos t)) ->
  Start (Pos t) < End (Pos t) -> Type_ t <> TokenEOF ->
  covers s from (ts ++ [t]) (End (Pos t)).
Proof.
  induction ts as [| t0 ts IH]; intros from p t; simpl.
  - intros [Hle Hb] Hp Hbl Hlt Hty.
    split; [lia |]. split; [by eapply blank_join |].
    split; [done |]. split; [done |]. split; [lia |]. intros i Hi. lia.
  - intros (H1 & H2 & H3 & H4 & H5) Hp Hbl Hlt Hty. split_and!; try done.
    by eapply IH.
Qed.

Lemma covers_extend s (ts : list Token) : forall from p q,
  covers s from ts p -> p <= q -> blank s p q -> covers s from ts q.
Proof.
  induction ts as [| t0 ts IH]; intros from p q; simpl.
  - intros [Hle Hb] Hp Hbl. split; [lia | by eapply blank_join].
  - intros (H1 & H2 & H3 & H4 & H5) Hp Hbl. split_and!; try done.
    by eapply IH.
Qed.

Lemma skipWhitespace_spec l :
  0 <= pos l <= slen (input l) ->
  let l1 := skipWhitespace l in
  input l1 = input l /\ tokens l1 = tokens l /\ current l1 = current l
  /\ pos l <= pos l1 <= slen (input l)
  /\ blank (input l) (pos l) (pos l1).
Proof.
  intros Hp. unfold skipWhitespace. simpl.
  rewrite slice_from_drop by lia.
  pose proof (count_while_nonneg IsSpace (drop_str (Z.to_nat (pos l)) (input l))).
  pose proof (count_while_le IsSpace (drop_str (Z.to_nat (pos l)) (input l))) as Hle.
  rewrite length_drop_str in Hle. unfold slen in *.
  split_and!; try done; try lia.
  intros i Hi.
  destruct (count_while_get IsSpace (drop_str (Z.to_nat (pos l)) (input l))
              (Z.to_nat (i - pos l))) as (c & Hg & Hc); [lia |].
  exists c. split; [| done]. rewrite byte_at_get by lia.
  rewrite get_drop_str in Hg. rewrite <- Hg. f_equal. lia.
Qed.

(** ** The text of a token *)

(** What the value of a token is, against the bytes of [s] it spans: a
    string token holds the bytes between its quotes; an error token holds
    the offending byte or reports a string left open up to the end of the
    input; any other token holds its bytes, or their upper case when that
    is a keyword. *)
Definition token_text (s : string) (t : Token) : Prop :=
  let src := slice s (Start (Pos t)) (End (Pos t)) in
  match Type_ t with
  | TokenString =>
      Value t = slice s (Start (Pos t) + 1) (End (Pos t) - 1)
      /\ byte_at s (End (Pos t) - 1) = byte_at s (Start (Pos t))
  | TokenError =>
      Value t = src
      \/ (Value t = "unterminated string" /\ End (Pos t) = slen s)
  | _ =>
      Value t = src
      \/ (Value t = ToUpper src /\ Keywords !! ToUpper src = Some (Type_ t))
  end.

(** What [nextToken] returns, from lexer [l]. *)
Definition token_ok (l : Lexer) (r : Token * Lexer) : Prop :=
  input r.2 = input l /\ tokens r.2 = tokens l /\ current r.2 = current l
  /\ Start (Pos r.1) = pos l /\ End (Pos r.1) = pos r.2
  /\ pos l < pos r.2 <= slen (input l)
  /\ Type_ r.1 <> TokenEOF
  /\ token_text (input l) r.1.

Lemma Keywords_types (k : string) (ty : TokenType) :
  Keywords !! k = Some ty ->
  ty <> TokenEOF /\ ty <> TokenString /\ ty <> TokenError.
Proof.
  intros H. unfold Keywords in H. apply elem_of_list_to_map_2 in H.
  repeat (apply elem_of_cons in H as [H | H]; [by simplify_eq |]).
  by apply elem_of_nil in H.
Qed.

Lemma slice_one (s : string) (p : Z) (ch : ascii) :
  byte_at s p = Some ch -> slice s p (p + 1) = char_string ch.
Proof.
  intros Hb. pose proof (byte_at_lt _ _ _ Hb) as Hp.
  rewrite byte_at_get in Hb by lia. unfold slice.
  replace (Z.to_nat (p + 1 - p)) with 1%nat by lia.
  by apply substring_one.
Qed.

Lemma slice_two (s : string) (p : Z) (ch next : ascii) :
  byte_at s p = Some ch -> byte_at s (p + 1) = Some next ->
  slice s p (p + 2) = char_string ch +:+ char_string next.
Proof.
  intros Hb Hn. pose proof (byte_at_lt _ _ _ Hb) as Hp.
  rewrite byte_at_get in Hb, Hn by lia. unfold slice.
  replace (Z.to_nat (p + 2 - p)) with 2%nat by lia.
  replace (Z.to_nat (p + 1)) with (Datatypes.S (Z.to_nat p)) in Hn by lia.
  by apply substring_two.
Qed.

Lemma one_token_ok (l : Lexer) (ch : ascii) (ty : TokenType) (v : string) :
  byte_at (input l) (pos l) = Some ch -> v = char_string ch ->
  ty <> TokenEOF -> ty <> TokenString ->
  token_ok l (mkToken ty v (mkPosition (pos l) (pos l + 1)),
              set_pos l (pos l + 1)).
Proof.
  intros Hb -> Hty Hts. pose proof (byte_at_lt _ _ _ Hb) as Hp.
  unfold token_ok. simpl. split_and!; try done; try lia.
  unfold token_text. simpl. rewrite (slice_one _ _ _ Hb).
  destruct ty; try done; by left.
Qed.

Lemma readOperator_ok (l : Lexer) (ch : ascii) :
  byte_at (input l) (pos l) = Some ch ->
  token_ok l (readOperator (pos l) l).
Proof.
  intros Hb. pose proof (byte_at_lt _ _ _ Hb) as Hp.
  assert (Hsingle :
    token_ok l (mkToken TokenOperator (char_string ch)
                        (mkPosition (pos l) (pos l + 1)),
                set_pos l (pos l + 1))).
  { by apply (one_token_ok l ch). }
  unfold readOperator. rewrite Hb. simpl.
  destruct (Z.ltb_spec (pos l + 1) (slen (input l))) as [Hlt | Hge]; [| done].
  destruct (byte_at (input l) (pos l + 1)) as [next |] eqn:Hn; [| done].
  destruct (_ || _); [| done].
  unfold token_ok. simpl. split_and!; try done; try lia.
  unfold token_text. simpl. left.
  replace (pos l + 1 + 1) with (pos l + 2) by lia.
  by rewrite (slice_two _ _ _ _ Hb Hn).
Qed.

Lemma readString_ok (l : Lexer) (ch : ascii) :
  byte_at (input l) (pos l) = Some ch ->
  token_ok l (readString (pos l) ch l).
Proof.
  intros Hb. pose proof (byte_at_lt _ _ _ Hb) as Hp.
  unfold readString. cbn [set_pos pos input].
  rewrite slice_from_drop by lia.
  set (r := drop_str (Z.to_nat (pos l + 1)) (input l)).
  pose proof (string_body_nonneg ch r) as Hnn.
  pose proof (string_body_le ch r) as Hle.
  assert (Z.of_nat (String.length r) = slen (input l) - (pos l + 1)) as Hlen.
  { unfold r, slen. rewrite length_drop_str. unfold slen in Hp. lia. }
  destruct (Z.geb_spec (pos l + 1 + string_body ch r) (slen (input l)))
    as [Hge | Hlt].
  - unfold token_ok. cbn [fst snd Pos Start End Type_ Value input tokens
                          current pos set_pos].
    split_and!; try done; try lia.
    unfold token_text. cbn [Pos Start End Type_ Value].
    right. split; [done | lia].
  - unfold token_ok. cbn [fst snd Pos Start End Type_ Value input tokens
                          current pos set_pos].
    split_and!; try done; try lia.
    unfold token_text. cbn [Pos Start End Type_ Value]. split; [done |].
    replace (pos l + 1 + string_body ch r + 1 - 1)
      with (pos l + 1 + string_body ch r) by lia.
    rewrite Hb. rewrite byte_at_get by lia.
    assert (string_body ch r < Z.of_nat (String.length r)) as Hin by lia.
    pose proof (string_body_stop ch r Hin) as Hstop.
    subst r. rewrite get_drop_str in Hstop.
    rewrite <- Hstop. f_equal. lia.
Qed.

Lemma count_from_bounds p (l : Lexer) (ch : ascii) :
  byte_at (input l) (pos l) = Some ch -> p ch = true ->
  pos l < pos l + count_while p (slice_from (input l) (pos l))
  <= slen (input l).
Proof.
  intros Hb Hp. pose proof (byte_at_lt _ _ _ Hb) as Hr.
  pose proof (count_while_first p _ _ _ Hb Hp) as H1.
  rewrite slice_from_drop in * by lia.
  pose proof (count_while_le p (drop_str (Z.to_nat (pos l)) (input l))) as Hle.
  rewrite length_drop_str in Hle. unfold slen in *. lia.
Qed.

Lemma readNumber_ok (l : Lexer) (ch : ascii) :
  byte_at (input l) (pos l) = Some ch -> IsDigit ch = true ->
  token_ok l (readNumber (pos l) l).
Proof.
  intros Hb Hd.
  pose proof (count_from_bounds
                (fun c => IsDigit c || bool_decide (c = "."%char)) l ch Hb) as Hc.
  cbv beta in Hc. rewrite Hd in Hc. specialize (Hc eq_refl).
  unfold readNumber, token_ok. simpl. split_and!; try done; try lia.
  unfold token_text. simpl. by left.
Qed.

Lemma readIdentifier_ok (l : Lexer) (ch : ascii) :
  byte_at (input l) (pos l) = Some ch ->
  IsLetter ch || bool_decide (ch = "_"%char) = true ->
  token_ok l (readIdentifier (pos l) l).
Proof.
  intros Hb Hd.
  pose proof (count_from_bounds
                (fun c => IsLetter c || IsDigit c || bool_decide (c = "_"%char))
                l ch Hb) as Hc.
  assert (Hp : IsLetter ch || IsDigit ch || bool_decide (ch = "_"%char)
               = true).
  { destruct (IsLetter ch); [done |]. cbn [orb] in *. rewrite Hd.
    by rewrite orb_true_r. }
  cbv beta in Hc. specialize (Hc Hp).
  unfold readIdentifier. cbv zeta. cbn [set_pos pos input].
  set (q := pos l + count_while _ _) in *.
  destruct (Keywords !! ToUpper (slice (input l) (pos l) q)) as [ty |] eqn:Hk.
  - destruct (Keywords_types _ _ Hk) as (H1 & H2 & H3).
    unfold token_ok. cbn [fst snd Pos Start End Type_ Value input tokens
                          current pos set_pos].
    split_and!; try done; try lia.
    unfold token_text. cbn [Pos Start End Type_ Value].
    destruct ty; try done; by right.
  - unfold token_ok. cbn [fst snd Pos Start End Type_ Value input tokens
                          current pos set_pos].
    split_and!; try done; try lia.
    unfold token_text. cbn [Pos Start End Type_ Value]. by left.
Qed.

Lemma nextToken_ok (l : Lexer) :
  0 <= pos l < slen (input l) ->
  exists r, nextToken l = Some r /\ token_ok l r.
Proof.
  intros Hpos. destruct (byte_at_Some _ _ Hpos) as [ch Hch].
  unfold nextToken. rewrite Hch. cbn [mbind option_bind].
  case_bool_decide as H1.
  { eexists. split; [done |]. apply (one_token_ok l ch); by subst. }
  case_bool_decide as H2.
  { eexists. split; [done |]. apply (one_token_ok l ch); by subst. }
  case_bool_decide as H3.
  { eexists. split; [done |]. apply (one_token_ok l ch); by subst. }
  case_bool_decide as H4.
  { eexists. split; [done |]. apply (one_token_ok l ch); by subst. }
  case_bool_decide as H5.
  { eexists. split; [done |]. apply (one_token_ok l ch); by subst. }
  destruct (_ || _).
  { eexists. split; [done |]. by apply (readOperator_ok l ch). }
  destruct (_ || _).
  { eexists. split; [done |]. by apply (readString_ok l ch). }
  destruct (IsDigit ch) eqn:Hd.
  { eexists. split; [done |]. by apply (readNumber_ok l ch). }
  destruct (_ || _) eqn:Hl.
  { eexists. split; [done |]. by apply (readIdentifier_ok l ch). }
  eexists. split; [done |]. unfold token_ok. simpl.
  split_and!; try done; try lia.
  unfold token_text. simpl. left. by rewrite (slice_one _ _ _ Hch).
Qed.

(** ** The loop *)

Lemma Tokenize_loop_spec (s : string) (fuel : nat) : forall l,
  input l = s -> 0 <= pos l <= slen s ->
  (Z.to_nat (slen s - pos l) < fuel)%nat ->
  covers s 0 (tokens l) (pos l) -> Forall (token_text s) (tokens l) ->
  exists l',
    Tokenize_loop fuel l = Returns l'
    /\ input l' = s /\ current l' = current l /\ pos l' = slen s
    /\ covers s 0 (tokens l') (slen s)
    /\ Forall (token_text s) (tokens l').
Proof.
  induction fuel as [| fuel IH]; intros l Hin Hp Hfuel Hcov Htxt; [lia |].
  cbn [Tokenize_loop]. rewrite Hin.
  destruct (Z.ltb_spec (pos l) (slen s)) as [Hlt | Hge].
  2:{ exists l. assert (pos l = slen s) as Heq by lia.
      rewrite Heq in Hcov. by rewrite Heq. }
  destruct (skipWhitespace_spec l) as (Hi1 & Ht1 & Hc1 & Hp1 & Hb1);
    [rewrite Hin; lia |].
  rewrite Hin in Hi1, Hp1, Hb1. rewrite Hi1.
  destruct (Z.geb_spec (pos (skipWhitespace l)) (slen s)) as [Hend | Hmore].
  - exists (skipWhitespace l).
    assert (pos (skipWhitespace l) = slen s) as Heq by lia.
    split_and!; try done.
    rewrite Ht1, <- Heq. eapply covers_extend; [exact Hcov | lia | done].
  - destruct (nextToken_ok (skipWhitespace l)) as ([t l2] & -> & Hok);
      [rewrite Hi1; lia |].
    destruct Hok as (Hi2 & Ht2 & Hc2 & Hs & He & Hp2 & Hty & Htok).
    cbn [fst snd] in Hi2, Ht2, Hc2, Hs, He, Hp2, Hty, Htok.
    rewrite Hi1 in Hi2, Hp2, Htok.
    assert (covers s 0 (tokens (push_token l2 t)) (pos (push_token l2 t)))
      as Hcov2.
    { simpl. rewrite Ht2, Ht1, <- He.
      eapply covers_snoc; [exact Hcov | | | lia | done].
      - rewrite Hs. lia.
      - by rewrite Hs. }
    assert (Forall (token_text s) (tokens (push_token l2 t))) as Htxt2.
    { simpl. rewrite Ht2, Ht1. apply Forall_app. split; [done |].
      by apply Forall_singleton. }
    destruct (IH (push_token l2 t) Hi2 ltac:(simpl; lia) ltac:(simpl; lia)
                 Hcov2 Htxt2)
      as (l' & Hrun & Hi' & Hc' & Hp' & Hcov' & Htxt').
    exists l'. split_and!; try done. simpl in Hc'. congruence.
Qed.

Definition eof_token (s : string) : Token :=
  mkToken TokenEOF "" (mkPosition (slen s) (slen s)).

Lemma Tokenize_spec (l : Lexer) (fuel : nat) :
  (String.length (input l) < fuel)%nat ->
  exists body l',
    Tokenize fuel l = Returns (body ++ [eof_token (input l)], l')
    /\ l' = mkLexer (input l) (slen (input l))
                    (body ++ [eof_token (input l)]) (current l)
    /\ covers (input l) 0 body (slen (input l))
    /\ Forall (token_text (input l)) body.
Proof.
  intros Hfuel. unfold Tokenize.
  destruct (Tokenize_loop_spec (input l) fuel
              (mkLexer (input l) 0 [] (current l)))
    as (l1 & -> & Hi & Hc & Hp & Hcov & Htxt); simpl.
  - done.
  - unfold slen. lia.
  - unfold slen. lia.
  - split; [lia |]. intros i Hi. lia.
  - done.
  - exists (tokens l1), (push_token l1 (eof_token (input l))).
    unfold eof_token. rewrite Hp. split_and!; try done.
    unfold push_token. destruct l1; simpl in *. by subst.
Qed.

(** X16.  Tokenize.  For every input, [Tokenize] returns (an iteration
    budget above the length of the input is enough) and never indexes
    out of range.  The token list ends with the EOF token, placed at the
    end of the input.  The tokens before it are not of type EOF, none is
    empty, they lie in the input in order without overlap, and every byte
    of the input outside them is white space. *)
Theorem Tokenize_covers_the_input (l : Lexer) (fuel : nat) :
  (String.length (input l) < fuel)%nat ->
  exists body l',
    Tokenize fuel l = Returns (body ++ [eof_token (input l)], l')
    /\ tokens l' = body ++ [eof_token (input l)]
    /\ pos l' = slen (input l)
    /\ covers (input l) 0 body (slen (input l)).
Proof.
  intros Hfuel.
  destruct (Tokenize_spec l fuel Hfuel) as (body & l' & Hrun & -> & Hcov & _).
  eexists body, _. split; [exact Hrun |]. done.
Qed.

Lemma Tokenize_covers_witness :
  exists body l',
    Tokenize 20 (NewLexer "SELECT a FROM t")
    = Returns (body ++ [eof_token "SELECT a FROM t"], l')
    /\ tokens l' = body ++ [eof_token "SELECT a FROM t"]
    /\ pos l' = slen "SELECT a FROM t"
    /\ covers "SELECT a FROM t" 0 body (slen "SELECT a FROM t").
Proof.
  apply (Tokenize_covers_the_input (NewLexer "SELECT a FROM t") 20).
  simpl. lia.
Defined.



End LexerTokenize.

(* ===================================================================== *)
(** * Parser: the tree that Parse builds *)
(* ===================================================================== *)

Module ParserTree.
Import Lexer Parser.

(** The id that [createNode] issues at sequence number [k]. *)
Definition ast_key (k : Z) : string := "ast-" +:+ pretty k.

(** A node with its subtrees. *)
Unset Elimination Schemes.
Inductive ast : Type := T (id : string) (kids : list ast).
Set Elimination Schemes.

Definition root (t : ast) : string := match t with T id _ => id end.
Definition kids (t : ast) : list ast := match t with T _ ks => ks end.

(** The ids of the nodes of a tree, parents before children, children
    from left to right. *)
Fixpoint ids (t : ast) : list string :=
  match t with T id ks => id :: concat (ids <$> ks) end.

Definition forest_ids (F : list ast) : list string := concat (ids <$> F).

Fixpoint height (t : ast) : nat :=
  match t with T _ ks => S (foldr Nat.max 0%nat (height <$> ks)) end.

(** [t] is stored in [nodes] below the node [parent]: every node is filed
    under its own id, names its parent, and lists its children in order. *)
Unset Elimination Schemes.
Inductive rep (nodes : gmap string ASTNode) : string -> ast -> Prop :=
| rep_T (parent id : string) (ks : list ast) (a : ASTNode) :
    nodes !! id = Some a ->
    ID a = id -> Parent a = parent -> Children a = root <$> ks ->
    Forall (rep nodes id) ks ->
    rep nodes parent (T id ks).
Set Elimination Schemes.

(** A parser method neither loops forever nor exceeds the budget; when it
    returns, [Q] holds.  A nil dereference is allowed. *)
Definition safe {A} (m : M A) (p : Parser) (Q : A -> Parser -> Prop) : Prop :=
  match m p with
  | Ret a p' => Q a p'
  | Panic => True
  | OutOfFuel => False
  end.


(** ** Trees *)

Lemma ast_ind (P : ast -> Prop) :
  (forall id ks, Forall P ks -> P (T id ks)) -> forall t, P t.
Proof.
  intros H. fix IH 1. intros [id ks]. apply H.
  induction ks as [| k ks IHks]; constructor; [apply IH | exact IHks].
Qed.

Lemma ast_key_inj (j k : Z) : ast_key j = ast_key k -> j = k.
Proof. unfold ast_key. intros H. simplify_eq/=. by apply (inj pretty). Qed.

Lemma forest_ids_cons (t : ast) (F : list ast) :
  forest_ids (t :: F) = ids t ++ forest_ids F.
Proof. done. Qed.

Lemma forest_ids_leaf (id : string) (F : list ast) :
  forest_ids (T id [] :: F) = id :: forest_ids F.
Proof. done. Qed.

Lemma forest_ids_app (F G : list ast) :
  forest_ids (F ++ G) = forest_ids F ++ forest_ids G.
Proof. unfold forest_ids. by rewrite fmap_app, concat_app. Qed.

Lemma forest_ids_perm (F G : list ast) :
  F ≡ₚ G -> forest_ids F ≡ₚ forest_ids G.
Proof.
  unfold forest_ids. induction 1 as [| t F G _ IH | t u F | F G H _ IH1 _ IH2];
    simpl.
  - done.
  - by rewrite IH.
  - rewrite !(assoc_L (++)). f_equiv. apply Permutation_app_comm.
  - by etrans.
Qed.

Lemma in_forest_ids (x : string) (F : list ast) :
  x ∈ forest_ids F <-> exists t, t ∈ F /\ x ∈ ids t.
Proof.
  unfold forest_ids. induction F as [| t F IH]; simpl.
  - split; [by intros H%elem_of_nil | by intros (t & H%elem_of_nil & _)].
  - rewrite elem_of_app, IH. split.
    + intros [H | (u & Hu & H)]; [exists t; split; [by left | done] |].
      exists u. split; [by right | done].
    + intros (u & Hu & H). apply elem_of_cons in Hu as [-> | Hu]; [by left |].
      right. eauto.
Qed.

Lemma root_in_ids (t : ast) : root t ∈ ids t.
Proof. destruct t. simpl. by left. Qed.

Lemma rep_inv (nodes : gmap string ASTNode) (parent id : string)
    (ks : list ast) :
  rep nodes parent (T id ks) ->
  exists a, nodes !! id = Some a /\ ID a = id /\ Parent a = parent
            /\ Children a = root <$> ks /\ Forall (rep nodes id) ks.
Proof. inversion 1; subst. eauto 10. Qed.

Lemma rep_frame (nodes nodes' : gmap string ASTNode) (t : ast) :
  forall parent,
    (forall x, x ∈ ids t -> nodes' !! x = nodes !! x) ->
    rep nodes parent t -> rep nodes' parent t.
Proof.
  induction t as [id ks IH] using ast_ind. intros parent Hsame Hrep.
  inversion Hrep as [? ? ? a Hl Hid Hpar Hch Hks]; subst.
  apply (rep_T _ _ _ _ a); try done.
  - rewrite Hsame; [done | simpl; by left].
  - apply Forall_forall. intros k Hk.
    rewrite Forall_forall in IH, Hks.
    apply IH; [done | | by apply Hks].
    intros x Hx. apply Hsame. simpl. right.
    apply (in_forest_ids x ks). eauto.
Qed.

Lemma rep_in (nodes : gmap string ASTNode) (t : ast) :
  forall parent x, rep nodes parent t -> x ∈ ids t -> is_Some (nodes !! x).
Proof.
  induction t as [id ks IH] using ast_ind. intros parent x Hrep Hx.
  inversion Hrep as [? ? ? a Hl Hid Hpar Hch Hks]; subst.
  simpl in Hx. apply elem_of_cons in Hx as [-> | Hx]; [by eexists |].
  apply (in_forest_ids x ks) in Hx as (k & Hk & Hx).
  rewrite Forall_forall in IH, Hks. by eapply IH; [| apply Hks |].
Qed.

Lemma rep_links (nodes : gmap string ASTNode) (t : ast) :
  forall parent x,
    rep nodes parent t -> x ∈ ids t ->
    exists a, nodes !! x = Some a /\ ID a = x
              /\ forall c, c ∈ Children a ->
                   exists b, nodes !! c = Some b /\ Parent b = x.
Proof.
  induction t as [id ks IH] using ast_ind. intros parent x Hrep Hx.
  apply rep_inv in Hrep as (a & Hl & Hid & Hpar & Hch & Hks).
  rewrite Forall_forall in IH, Hks.
  simpl in Hx. apply elem_of_cons in Hx as [-> | Hx].
  - exists a. split; [done |]. split; [done |]. intros c Hc.
    rewrite Hch in Hc. apply list_elem_of_fmap in Hc as (k & -> & Hk).
    destruct k as [kid kks]. specialize (Hks _ Hk).
    apply rep_inv in Hks as (b & Hlb & _ & Hparb & _). eauto.
  - apply (in_forest_ids x ks) in Hx as (k & Hk & Hx).
    by eapply IH; [| apply Hks |].
Qed.

Lemma height_le_size (t : ast) : (height t <= length (ids t))%nat.
Proof.
  induction t as [id ks IH] using ast_ind. simpl.
  apply le_n_S. induction IH as [| k ks Hk _ IHks]; simpl; [lia |].
  rewrite length_app. unfold fmap in *. lia.
Qed.

Section WithTokens.

Variable toks : list Token.

(** The nodes of the parser are the trees of [F], which share no node;
    their roots have no parent.  The cursor is within the tokens. *)
Record pinv (p : Parser) (F : list ast) : Prop := mk_pinv {
  pinv_tokens : tokens p = toks;
  pinv_pos : 0 <= pos p <= Z.of_nat (length toks);
  pinv_size : Z.of_nat (length (forest_ids F)) = nodeSeq p;
  pinv_keys : forall id, id ∈ forest_ids F ->
                exists k, 1 <= k <= nodeSeq p /\ id = ast_key k;
  pinv_dom : forall id, is_Some (nodes p !! id) -> id ∈ forest_ids F;
  pinv_nodup : NoDup (forest_ids F);
  pinv_rep : Forall (rep (nodes p) "") F
}.

(** The pointer [a] is nil, or the root of a tree on top of [F]. *)
Definition holds (a : NodePtr) (F : list ast) (p : Parser) : Prop :=
  match a with
  | Some id => exists t, root t = id /\ pinv p (t :: F)
  | None => pinv p F
  end.

(** From [p] to [p']: the cursor did not move back, at most [c] more
    nodes than tokens consumed were created, and the result is on top of
    [F]. *)
Definition grown (c : Z) (F : list ast) (p : Parser) (a : NodePtr)
    (p' : Parser) : Prop :=
  pos p <= pos p'
  /\ nodeSeq p' - pos p' <= nodeSeq p - pos p + c
  /\ holds a F p'.


(** ** The monad *)

Lemma safe_ret {A} (a : A) (p : Parser) (Q : A -> Parser -> Prop) :
  Q a p -> safe (ret a) p Q.
Proof. done. Qed.

Lemma safe_bind {A B} (m : M A) (k : A -> M B) (p : Parser)
    (Q : B -> Parser -> Prop) :
  safe m p (fun a p' => safe (k a) p' Q) -> safe (bind m k) p Q.
Proof. unfold safe, bind. by destruct (m p). Qed.

Lemma safe_mono {A} (m : M A) (p : Parser) (Q Q' : A -> Parser -> Prop) :
  safe m p Q -> (forall a p', Q a p' -> Q' a p') -> safe m p Q'.
Proof. unfold safe. destruct (m p); auto. Qed.

(** ** The invariant under the steps of the parser *)

Lemma pinv_perm (p : Parser) (F G : list ast) :
  F ≡ₚ G -> pinv p F -> pinv p G.
Proof.
  intros HFG [Ht Hpos Hsz Hk Hd Hn Hr].
  pose proof (forest_ids_perm _ _ HFG) as Hids.
  split; try done.
  - by rewrite <- Hids.
  - intros id Hid. apply Hk. by rewrite Hids.
  - intros id Hid. rewrite <- Hids. by apply Hd.
  - by rewrite <- Hids.
  - by rewrite <- HFG.
Qed.

Lemma pinv_move (p p' : Parser) (F : list ast) :
  pinv p F ->
  tokens p' = tokens p -> 0 <= pos p' <= Z.of_nat (length toks) ->
  nodeSeq p' = nodeSeq p -> nodes p' = nodes p ->
  pinv p' F.
Proof.
  intros [Ht Hpos Hsz Hk Hd Hn Hr] Ht' Hpos' Hs' Hn'.
  split; rewrite ?Ht', ?Hs', ?Hn'; done.
Qed.

Lemma rep_alter (nodes : gmap string ASTNode) (f : ASTNode -> ASTNode)
    (id : string) (t : ast) :
  (forall a, ID (f a) = ID a /\ Parent (f a) = Parent a
             /\ Children (f a) = Children a) ->
  forall parent, rep nodes parent t -> rep (alter f id nodes) parent t.
Proof.
  intros Hf. induction t as [id0 ks IH] using ast_ind. intros parent Hrep.
  inversion Hrep as [? ? ? a Hl Hid Hpar Hch Hks]; subst.
  destruct (Hf a) as (Hf1 & Hf2 & Hf3).
  destruct (decide (ID a = id)) as [<- | Hne].
  - apply (rep_T _ _ _ _ (f a)); try congruence.
    + by rewrite lookup_alter_eq, Hl.
    + apply Forall_forall. intros k Hk.
      rewrite Forall_forall in IH, Hks. apply IH; [done | by apply Hks].
  - apply (rep_T _ _ _ _ a); try done.
    + by rewrite lookup_alter_ne.
    + apply Forall_forall. intros k Hk.
      rewrite Forall_forall in IH, Hks. apply IH; [done | by apply Hks].
Qed.

Lemma pinv_alter (p : Parser) (F : list ast) (f : ASTNode -> ASTNode)
    (id : string) :
  (forall a, ID (f a) = ID a /\ Parent (f a) = Parent a
             /\ Children (f a) = Children a) ->
  pinv p F -> pinv (set_nodes p (alter f id (nodes p))) F.
Proof.
  intros Hf [Ht Hpos Hsz Hk Hd Hn Hr]. split; simpl; try done.
  - intros x Hx. apply Hd. by apply lookup_alter_is_Some in Hx.
  - eapply Forall_impl; [exact Hr |]. intros t Ht'. by apply rep_alter.
Qed.

Lemma pinv_fresh (p : Parser) (F : list ast) :
  pinv p F -> ast_key (nodeSeq p + 1) ∉ forest_ids F.
Proof.
  intros Hp Hin. apply (pinv_keys _ _ Hp) in Hin as (k & Hk & Heq).
  apply ast_key_inj in Heq. lia.
Qed.

(** ** The steps of the parser *)

Lemma safe_current (F : list ast) (p : Parser) (Q : Token -> Parser -> Prop) :
  pinv p F ->
  (forall t, (Lexer.Type_ t <> TokenEOF -> pos p < Z.of_nat (length toks)) ->
             Q t p) ->
  safe current p Q.
Proof.
  intros Hp HQ. unfold safe, current. rewrite (pinv_tokens _ _ Hp).
  destruct (Z.geb_spec (pos p) (Z.of_nat (length toks))) as [Hge | Hlt].
  - apply HQ. by intros [].
  - destruct (token_at toks (pos p)); [| done]. apply HQ. by intros _.
Qed.

Lemma safe_current_is (ty : TokenType) (F : list ast) (p : Parser)
    (Q : bool -> Parser -> Prop) :
  pinv p F -> ty <> TokenEOF ->
  (forall b : bool,
     (if b then pos p < Z.of_nat (length toks) else True) -> Q b p) ->
  safe (current_is ty) p Q.
Proof.
  intros Hp Htt HQ. unfold current_is.
  apply safe_bind, (safe_current F); [done |]. intros t Ht.
  apply safe_ret, HQ. case_bool_decide as Hty; [| done].
  apply Ht. congruence.
Qed.

Lemma safe_advance (F : list ast) (p : Parser) (Q : Token -> Parser -> Prop) :
  pinv p F -> pos p < Z.of_nat (length toks) ->
  (forall t p', pos p' = pos p + 1 -> nodeSeq p' = nodeSeq p ->
                pinv p' F -> Q t p') ->
  safe advance p Q.
Proof.
  intros Hp Hlt HQ. unfold advance.
  apply safe_bind, (safe_current F); [done |]. intros t _.
  unfold safe. apply HQ; [done | done |].
  destruct (pinv_pos _ _ Hp). apply (pinv_move p); simpl; try done. lia.
Qed.

Lemma safe_add_error (msg : string) (F : list ast) (p : Parser)
    (Q : unit -> Parser -> Prop) :
  pinv p F ->
  (forall p', pos p' = pos p -> nodeSeq p' = nodeSeq p -> pinv p' F ->
              Q tt p') ->
  safe (add_error msg) p Q.
Proof.
  intros Hp HQ. unfold safe, add_error. apply HQ; [done | done |].
  apply (pinv_move p); simpl; try done. apply (pinv_pos _ _ Hp).
Qed.

Lemma safe_expect (ty : TokenType) (F : list ast) (p : Parser)
    (Q : Token * bool -> Parser -> Prop) :
  pinv p F -> ty <> TokenEOF ->
  (forall (r : Token * bool) p',
     pos p' = (if r.2 then pos p + 1 else pos p) ->
                nodeSeq p' = nodeSeq p -> pinv p' F -> Q r p') ->
  safe (expect ty) p Q.
Proof.
  intros Hp Htt HQ. unfold expect.
  apply safe_bind, (safe_current F); [done |]. intros t Ht.
  case_bool_decide as Hty.
  - apply safe_bind, (safe_add_error _ F); [done |]. intros p' H1 H2 Hp'.
    apply safe_ret. by apply HQ.
  - apply safe_bind, (safe_advance F); [done | apply Ht; congruence |].
    intros t' p' H1 H2 Hp'. apply safe_ret. by apply HQ.
Qed.

Lemma safe_createNode (nodeType : ASTNodeType) (value : string)
    (F : list ast) (p : Parser) (Q : NodePtr -> Parser -> Prop) :
  pinv p F ->
  (forall id p', pos p' = pos p -> nodeSeq p' = nodeSeq p + 1 ->
                 pinv p' (T id [] :: F) -> Q (Some id) p') ->
  safe (createNode nodeType value) p Q.
Proof.
  intros Hp HQ. unfold safe, createNode. fold (ast_key (nodeSeq p + 1)).
  apply HQ; [done | done |].
  pose proof (pinv_fresh _ _ Hp) as Hfresh.
  destruct Hp as [Ht Hpos Hsz Hk Hd Hn Hr].
  split; cbn [tokens pos nodes nodeSeq]; rewrite ?forest_ids_leaf; try done.
  - rewrite length_cons. lia.
  - intros id [-> | Hid]%elem_of_cons.
    + exists (nodeSeq p + 1). split; [lia | done].
    + destruct (Hk id Hid) as (k & Hk1 & Hk2). exists k. split; [lia | done].
  - intros id Hid.
    destruct (decide (id = ast_key (nodeSeq p + 1))) as [-> | Hne];
      [by left |].
    rewrite lookup_insert_ne in Hid by done. right. by apply Hd.
  - by constructor.
  - constructor.
    + eapply rep_T; [apply lookup_insert_eq | done | done | done | done].
    + rewrite Forall_forall in Hr. apply Forall_forall. intros t Ht'.
      apply (rep_frame (nodes p)); [| by apply Hr].
      intros x Hx. apply lookup_insert_ne. intros <-. apply Hfresh.
      apply in_forest_ids. eauto.
Qed.

Lemma safe_set_Meta (id k v : string) (F : list ast) (p : Parser)
    (Q : unit -> Parser -> Prop) :
  pinv p F ->
  (forall p', pos p' = pos p -> nodeSeq p' = nodeSeq p -> pinv p' F ->
              Q tt p') ->
  safe (set_Meta (Some id) k v) p Q.
Proof.
  intros Hp HQ. unfold safe, set_Meta, update_node.
  apply HQ; [done | done |]. by apply pinv_alter.
Qed.

Lemma safe_set_Value (id v : string) (F : list ast) (p : Parser)
    (Q : unit -> Parser -> Prop) :
  pinv p F ->
  (forall p', pos p' = pos p -> nodeSeq p' = nodeSeq p -> pinv p' F ->
              Q tt p') ->
  safe (set_Value (Some id) v) p Q.
Proof.
  intros Hp HQ. unfold safe, set_Value, update_node.
  apply HQ; [done | done |]. by apply pinv_alter.
Qed.

Lemma forest_ids_link (pid cid : string) (ksP ksC F0 : list ast) :
  forest_ids (T pid (ksP ++ [T cid ksC]) :: F0)
  = forest_ids (T pid ksP :: T cid ksC :: F0).
Proof.
  unfold forest_ids. simpl. rewrite fmap_app, concat_app. simpl.
  rewrite app_nil_r. by rewrite <- !(assoc_L (++)).
Qed.

Lemma safe_addChild (F F0 : list ast) (tP tC : ast) (p : Parser)
    (Q : unit -> Parser -> Prop) :
  pinv p F -> F ≡ₚ tP :: tC :: F0 ->
  (forall p', pos p' = pos p -> nodeSeq p' = nodeSeq p ->
              pinv p' (T (root tP) (kids tP ++ [tC]) :: F0) -> Q tt p') ->
  safe (addChild (Some (root tP)) (Some (root tC))) p Q.
Proof.
  intros Hp HF HQ. apply (pinv_perm _ _ _ HF) in Hp.
  destruct tP as [pid ksP], tC as [cid ksC]. cbn [root kids] in *.
  unfold safe, addChild, bind, update_node. cbn [nodes set_nodes].
  apply HQ; [done | done |].
  destruct Hp as [Ht Hpos Hsz Hk Hd Hn Hr].
  split; cbn [tokens pos nodes nodeSeq set_nodes];
    rewrite ?forest_ids_link; try done.
  { intros x Hx. apply Hd. by do 2 apply lookup_alter_is_Some in Hx. }
  rewrite !forest_ids_cons in Hn. cbn [ids] in Hn.
  set (IP := concat (ids <$> ksP)) in *.
  set (IC := concat (ids <$> ksC)) in *.
  apply NoDup_app in Hn as (HnP & HPC & Hn).
  apply NoDup_app in Hn as (HnC & HC0 & Hn0).
  apply NoDup_cons in HnP as [HpP HnP]. apply NoDup_cons in HnC as [HcC HnC].
  assert (Hpc : pid <> cid).
  { intros ->. apply (HPC cid); [by left |]. apply elem_of_app. left.
    by left. }
  assert (HcP : cid ∉ IP).
  { intros Hin. apply (HPC cid); [by right |]. apply elem_of_app. left.
    by left. }
  assert (HpC : pid ∉ IC).
  { intros Hin. apply (HPC pid); [by left |]. apply elem_of_app. left.
    by right. }
  assert (Hp0 : pid ∉ forest_ids F0).
  { intros Hin. apply (HPC pid); [by left |]. apply elem_of_app. by right. }
  assert (Hc0 : cid ∉ forest_ids F0).
  { intros Hin. apply (HC0 cid); [by left | done]. }
  set (fP := fun a => mkASTNode (ID a) (Type_ a) (Value a)
                                (Children a ++ [cid]) (Parent a) (Meta a)).
  set (fC := fun a => mkASTNode (ID a) (Type_ a) (Value a) (Children a) pid
                                (Meta a)).
  assert (Hsame : forall x, x <> pid -> x <> cid ->
            alter fC cid (alter fP pid (nodes p)) !! x = nodes p !! x).
  { intros x H1 H2. by rewrite !lookup_alter_ne. }
  apply Forall_cons in Hr as [HrP Hr]. apply Forall_cons in Hr as [HrC Hr0].
  apply rep_inv in HrP as (a & Hla & Hida & Hpara & Hcha & Hksa).
  apply rep_inv in HrC as (c & Hlc & Hidc & Hparc & Hchc & Hksc).
  assert (Hframe : forall (l : list ast) (par : string),
            pid ∉ concat (ids <$> l) -> cid ∉ concat (ids <$> l) ->
            Forall (rep (nodes p) par) l ->
            Forall (rep (alter fC cid (alter fP pid (nodes p))) par) l).
  { intros l par H1 H2 Hl. rewrite Forall_forall in Hl.
    apply Forall_forall. intros k Hkl.
    apply (rep_frame (nodes p)); [| by apply Hl].
    intros x Hx. apply Hsame.
    - intros ->. apply H1. apply (in_forest_ids _ l). eauto.
    - intros ->. apply H2. apply (in_forest_ids _ l). eauto. }
  constructor.
  - apply (rep_T _ _ _ _ (fP a)).
    + rewrite lookup_alter_ne by done. by rewrite lookup_alter_eq, Hla.
    + done.
    + done.
    + cbn [fP Children]. by rewrite Hcha, fmap_app.
    + apply Forall_app. split; [by apply Hframe |].
      constructor; [| done].
      apply (rep_T _ _ _ _ (fC c)).
      * rewrite lookup_alter_eq. rewrite lookup_alter_ne by done.
        by rewrite Hlc.
      * done.
      * done.
      * done.
      * by apply Hframe.
  - by apply Hframe.
Qed.

(** ** Pointers held by the callers *)

Ltac hold := eexists; split; [| eassumption]; done.

(** [left] is nil or the root of a tree on top of [F], and [right] is nil
    or the root of a tree on top of that. *)
Definition holds2 (left right : NodePtr) (F : list ast) (p : Parser)
  : Prop :=
  match left with
  | Some l => exists tl, root tl = l /\ holds right (tl :: F) p
  | None => holds right F p
  end.

Lemma holds_forest (a : NodePtr) (F : list ast) (p : Parser) :
  holds a F p ->
  exists F', pinv p F' /\ forall b q, holds b F' q -> holds2 a b F q.
Proof.
  destruct a as [l |]; simpl.
  - intros (tl & Hl & Hp). exists (tl :: F). split; [done |]. eauto.
  - intros Hp. exists F. split; [done |]. eauto.
Qed.

Lemma holds2_None (a : NodePtr) (F : list ast) (p : Parser) :
  holds2 a None F p -> holds a F p.
Proof. by destruct a. Qed.

Lemma safe_attach_node (pid cid : string) (F : list ast) (p : Parser)
    (Q : unit -> Parser -> Prop) :
  holds2 (Some pid) (Some cid) F p ->
  (forall p', pos p' = pos p -> nodeSeq p' = nodeSeq p ->
              holds (Some pid) F p' -> Q tt p') ->
  safe (addChild (Some pid) (Some cid)) p Q.
Proof.
  intros (tP & <- & tC & <- & Hp) HQ.
  apply (safe_addChild (tC :: tP :: F) F tP tC); [done | apply perm_swap |].
  intros p' H1 H2 Hp'. apply HQ; [done | done |]. hold.
Qed.

Lemma safe_attach (pid : string) (child : NodePtr) (F : list ast)
    (p : Parser) (Q : unit -> Parser -> Prop) :
  holds2 (Some pid) child F p ->
  (forall p', pos p' = pos p -> nodeSeq p' = nodeSeq p ->
              holds (Some pid) F p' -> Q tt p') ->
  safe (addChild_if (Some pid) child) p Q.
Proof.
  destruct child as [cid |]; [apply safe_attach_node |].
  intros Hh HQ. apply safe_ret, HQ; [done | done |]. exact Hh.
Qed.

(** [node := createNode(..); addChild(node, left); if right != nil
    { addChild(node, right) }], the common end of the binary
    expressions. *)
Lemma safe_binary {A} (nodeType : ASTNodeType) (value : string)
    (left right : NodePtr) (k : NodePtr -> M A) (F : list ast) (p : Parser)
    (Q : A -> Parser -> Prop) :
  holds2 left right F p ->
  (forall id p', pos p' = pos p -> nodeSeq p' = nodeSeq p + 1 ->
                 holds (Some id) F p' -> safe (k (Some id)) p' Q) ->
  safe (node <- createNode nodeType value ;;
        addChild node left ;;;
        addChild_if node right ;;;
        k node) p Q.
Proof.
  intros Hh HQ. destruct left as [l |]; simpl in Hh.
  - destruct Hh as (tl & <- & Hr). destruct right as [r |]; simpl in Hr.
    + destruct Hr as (tr & <- & Hp).
      apply safe_bind, (safe_createNode _ _ (tr :: tl :: F)); [done |].
      intros id p1 H1 H2 Hp1.
      apply safe_bind,
        (safe_addChild (T id [] :: tr :: tl :: F) (tr :: F) (T id []) tl);
        [done | constructor; apply perm_swap |].
      intros p2 H3 H4 Hp2.
      apply safe_bind,
        (safe_addChild (T id [tl] :: tr :: F) F (T id [tl]) tr);
        [done | done |].
      intros p3 H5 H6 Hp3. apply HQ; [lia | lia |]. hold.
    + apply safe_bind, (safe_createNode _ _ (tl :: F)); [done |].
      intros id p1 H1 H2 Hp1.
      apply safe_bind,
        (safe_addChild (T id [] :: tl :: F) F (T id []) tl); [done | done |].
      intros p2 H3 H4 Hp2. apply safe_bind, safe_ret.
      apply HQ; [lia | lia |]. hold.
  - destruct (holds_forest _ _ _ Hh) as (F' & Hp & _).
    apply safe_bind, (safe_createNode _ _ F'); [done |].
    intros id p1 H1 H2 Hp1. by apply safe_bind.
Qed.

(** ** Expressions *)

Section Expressions.

(** The call made at a parenthesis, and a bound on the tokens left. *)
Variable rec : M NodePtr.
Variable B : Z.
Variable n : nat.

Hypothesis HB : B <= Z.of_nat n.
Hypothesis Hrec : forall F p,
  pinv p F -> Z.of_nat (length toks) - pos p < B -> safe rec p (grown 0 F p).

Lemma parsePrimaryExpression_spec (F : list ast) (p : Parser) :
  pinv p F -> Z.of_nat (length toks) - pos p <= B ->
  safe (parsePrimaryExpression rec) p (grown 0 F p).
Proof.
  intros Hp HBp. unfold parsePrimaryExpression.
  apply safe_bind, (safe_current F); [done |]. intros t Ht.
  destruct (Lexer.Type_ t) eqn:Hty;
    try (apply safe_bind, (safe_add_error _ F); [done |];
         intros p1 H1 H2 Hp1; apply safe_ret;
         split_and!; [lia | lia | done]);
    (apply safe_bind, (safe_advance F); [done | apply Ht; congruence |];
     intros t1 p1 H1 H2 Hp1).
  - apply (safe_createNode _ _ F); [done |]. intros id p2 H3 H4 Hp2.
    split_and!; [lia | lia |]. hold.
  - apply safe_bind, (safe_createNode _ _ F); [done |].
    intros id p2 H3 H4 Hp2.
    apply safe_bind, (safe_set_Meta _ _ _ (T id [] :: F)); [done |].
    intros p3 H5 H6 Hp3. apply safe_ret.
    split_and!; [lia | lia |]. hold.
  - apply safe_bind, (safe_createNode _ _ F); [done |].
    intros id p2 H3 H4 Hp2.
    apply safe_bind, (safe_set_Meta _ _ _ (T id [] :: F)); [done |].
    intros p3 H5 H6 Hp3. apply safe_ret.
    split_and!; [lia | lia |]. hold.
  - apply safe_bind, (safe_mono _ _ _ _ (Hrec F p1 Hp1 ltac:(lia))).
    intros expr p2 (H3 & H4 & Hexpr).
    destruct (holds_forest _ _ _ Hexpr) as (F' & Hp2 & Hjoin).
    apply safe_bind, (safe_expect _ F'); [done | done |].
    intros r p3 H5 H6 Hp3. apply safe_ret.
    split_and!; [destruct r.2; lia | destruct r.2; lia |].
    apply holds2_None, Hjoin, Hp3.
Qed.

Lemma parseComparisonExpression_spec (F : list ast) (p : Parser) :
  pinv p F -> Z.of_nat (length toks) - pos p <= B ->
  safe (parseComparisonExpression rec) p (grown 0 F p).
Proof.
  intros Hp HBp. unfold parseComparisonExpression.
  apply safe_bind,
    (safe_mono _ _ _ _ (parsePrimaryExpression_spec F p Hp HBp)).
  intros left p1 (H1 & H2 & Hleft).
  destruct (holds_forest _ _ _ Hleft) as (F' & Hp1 & Hjoin).
  apply safe_bind, (safe_current_is _ F'); [done | done |].
  intros [] Hlt; [| by apply safe_ret].
  apply safe_bind, (safe_advance F'); [done | done |].
  intros op p2 H3 H4 Hp2.
  apply safe_bind,
    (safe_mono _ _ _ _ (parsePrimaryExpression_spec F' p2 Hp2 ltac:(lia))).
  intros right p3 (H5 & H6 & Hright).
  apply (safe_binary _ _ left right ret F); [by apply Hjoin |].
  intros id p4 H7 H8 Hid. apply safe_ret. split_and!; [lia | lia | done].
Qed.

Lemma binary_loop_spec (ty : TokenType) (name : string)
    (operand : M NodePtr) :
  ty <> TokenEOF ->
  (forall F p, pinv p F -> Z.of_nat (length toks) - pos p <= B ->
               safe operand p (grown 0 F p)) ->
  forall (k : nat) (left : NodePtr) (F : list ast) (p : Parser),
    holds left F p ->
    Z.of_nat (length toks) - pos p <= B ->
    Z.of_nat (length toks) - pos p <= Z.of_nat k ->
    safe (binary_loop k ty name operand left) p (grown 0 F p).
Proof.
  intros Hty Hop. induction k as [| k IH]; intros left F p Hh HBp Hk;
    cbn [binary_loop];
    destruct (holds_forest _ _ _ Hh) as (F' & Hp & Hjoin);
    (apply safe_bind, (safe_current_is _ F'); [done | done |]);
    (intros [] Hlt; [| apply safe_ret; split_and!; [lia | lia | done]]).
  - lia.
  - apply safe_bind, (safe_advance F'); [done | done |].
    intros t1 p1 H1 H2 Hp1.
    apply safe_bind, (safe_mono _ _ _ _ (Hop F' p1 Hp1 ltac:(lia))).
    intros right p2 (H3 & H4 & Hright).
    apply (safe_binary _ _ left right
             (fun node => binary_loop k ty name operand node) F);
      [by apply Hjoin |].
    intros id p3 H5 H6 Hid.
    apply (safe_mono _ _ _ _ (IH (Some id) F p3 Hid ltac:(lia) ltac:(lia))).
    intros a p4 (H7 & H8 & Ha). split_and!; [lia | lia | done].
Qed.

Lemma parseAndExpression_spec (F : list ast) (p : Parser) :
  pinv p F -> Z.of_nat (length toks) - pos p <= B ->
  safe (parseAndExpression n rec) p (grown 0 F p).
Proof.
  intros Hp HBp. unfold parseAndExpression.
  apply safe_bind,
    (safe_mono _ _ _ _ (parseComparisonExpression_spec F p Hp HBp)).
  intros left p1 (H1 & H2 & Hleft).
  eapply safe_mono.
  - apply (binary_loop_spec TokenAnd "AND" _ ltac:(done)
             parseComparisonExpression_spec n left F p1 Hleft); lia.
  - intros a p2 (H3 & H4 & Ha). split_and!; [lia | lia | done].
Qed.

Lemma parseOrExpression_spec (F : list ast) (p : Parser) :
  pinv p F -> Z.of_nat (length toks) - pos p <= B ->
  safe (parseOrExpression n rec) p (grown 0 F p).
Proof.
  intros Hp HBp. unfold parseOrExpression.
  apply safe_bind,
    (safe_mono _ _ _ _ (parseAndExpression_spec F p Hp HBp)).
  intros left p1 (H1 & H2 & Hleft).
  eapply safe_mono.
  - apply (binary_loop_spec TokenOr "OR" _ ltac:(done)
             parseAndExpression_spec n left F p1 Hleft); lia.
  - intros a p2 (H3 & H4 & Ha). split_and!; [lia | lia | done].
Qed.

End Expressions.

Lemma parseExpression_spec (n : nat) :
  forall (d : nat) (F : list ast) (p : Parser),
    pinv p F ->
    Z.of_nat (length toks) - pos p < Z.of_nat d ->
    Z.of_nat (length toks) - pos p <= Z.of_nat n ->
    safe (parseExpression d n) p (grown 0 F p).
Proof.
  induction d as [| d IH]; intros F p Hp Hd Hn.
  - destruct (pinv_pos _ _ Hp). lia.
  - cbn [parseExpression].
    apply (parseOrExpression_spec (parseExpression d n)
             (Z.min (Z.of_nat d) (Z.of_nat n)) n); [lia | | done | lia].
    intros F' p' Hp' Hlt. apply IH; [done | lia | lia].
Qed.

(** ** Clauses *)

(** What a loop or clause that works below a node keeps: the node stays
    the root of a tree on top of [F]. *)
Definition kept (c : Z) (pid : string) (F : list ast) (p : Parser)
    (_ : unit) (p' : Parser) : Prop :=
  pos p <= pos p'
  /\ nodeSeq p' - pos p' <= nodeSeq p - pos p + c
  /\ holds (Some pid) F p'.

Lemma parseColumnExpression_spec (F : list ast) (p : Parser) :
  pinv p F -> pos p < Z.of_nat (length toks) ->
  safe parseColumnExpression p (grown 0 F p).
Proof.
  intros Hp Hlt. unfold parseColumnExpression.
  apply safe_bind, (safe_advance F); [done | done |].
  intros t p1 H1 H2 Hp1.
  apply safe_bind, (safe_createNode _ _ F); [done |].
  intros id p2 H3 H4 Hp2.
  apply safe_bind, (safe_current_is _ (T id [] :: F)); [done | done |].
  intros [] Has.
  - apply safe_bind, safe_bind, (safe_advance (T id [] :: F));
      [done | done |].
    intros t3 p3 H5 H6 Hp3.
    apply safe_bind, (safe_expect _ (T id [] :: F)); [done | done |].
    intros r p4 H7 H8 Hp4. destruct r as [alias []]; cbn [fst snd] in *.
    + apply (safe_set_Meta _ _ _ (T id [] :: F)); [done |].
      intros p5 H9 H10 Hp5. apply safe_ret.
      split_and!; [lia | lia |]. hold.
    + apply safe_ret, safe_ret. split_and!; [lia | lia |]. hold.
  - apply safe_bind, safe_ret, safe_ret. split_and!; [lia | lia |]. hold.
Qed.

Lemma parseColumns_loop_spec (cid : string) (F : list ast) :
  forall (k : nat) (p : Parser),
    holds (Some cid) F p ->
    Z.of_nat (length toks) - pos p < Z.of_nat k ->
    safe (parseColumns_loop k (Some cid)) p (kept 0 cid F p).
Proof.
  induction k as [| k IH]; intros p Hh Hk;
    destruct (holds_forest _ _ _ Hh) as (F' & Hp & Hjoin).
  { destruct (pinv_pos _ _ Hp). lia. }
  cbn [parseColumns_loop].
  apply safe_bind, (safe_current F'); [done |]. intros t Ht.
  destruct (Lexer.Type_ t) eqn:Hty;
    try (apply safe_ret; split_and!; [lia | lia | done]).
  - (* an identifier *)
    apply safe_bind,
      (safe_mono _ _ _ _
         (parseColumnExpression_spec F' p Hp ltac:(apply Ht; congruence))).
    intros col p1 (H1 & H2 & Hcol).
    apply safe_bind, (safe_attach _ _ F); [by apply Hjoin |].
    intros p2 H3 H4 Hh2.
    destruct (holds_forest _ _ _ Hh2) as (F2 & Hp2 & Hjoin2).
    apply safe_bind, (safe_current_is _ F2); [done | done |].
    intros [] Hcomma; [| apply safe_ret; split_and!; [lia | lia | done]].
    apply safe_bind, (safe_advance F2); [done | done |].
    intros t3 p3 H5 H6 Hp3.
    apply (safe_mono _ _ _ _
             (IH p3 (holds2_None _ _ _ (Hjoin2 None p3 Hp3)) ltac:(lia))).
    intros [] p4 (H7 & H8 & Hh4). split_and!; [lia | lia | done].
  - (* a star *)
    apply safe_bind, (safe_createNode _ _ F'); [done |].
    intros id p1 H1 H2 Hp1.
    apply safe_bind, (safe_attach_node _ _ F).
    { apply (Hjoin (Some id)). hold. }
    intros p2 H3 H4 Hh2.
    destruct (holds_forest _ _ _ Hh2) as (F2 & Hp2 & Hjoin2).
    apply safe_bind, (safe_advance F2);
      [done | specialize (Ht ltac:(congruence)); lia |].
    intros t3 p3 H5 H6 Hp3.
    apply safe_bind, (safe_current_is _ F2); [done | done |].
    intros [] Hcomma.
    + apply safe_bind, (safe_advance F2); [done | done |].
      intros t4 p4 H7 H8 Hp4.
      apply (safe_mono _ _ _ _
               (IH p4 (holds2_None _ _ _ (Hjoin2 None p4 Hp4)) ltac:(lia))).
      intros [] p5 (H9 & H10 & Hh5). split_and!; [lia | lia | done].
    + apply safe_ret. split_and!; [lia | lia |].
      apply holds2_None, Hjoin2, Hp3.
Qed.

Lemma parseColumns_spec (k : nat) (F : list ast) (p : Parser) :
  pinv p F -> Z.of_nat (length toks) - pos p < Z.of_nat k ->
  safe (parseColumns k) p (grown 1 F p).
Proof.
  intros Hp Hk. unfold parseColumns.
  apply safe_bind, (safe_createNode _ _ F); [done |].
  intros id p1 H1 H2 Hp1.
  apply safe_bind,
    (safe_mono _ _ _ _ (parseColumns_loop_spec id F k p1 ltac:(hold)
                          ltac:(lia))).
  intros [] p2 (H3 & H4 & Hh). apply safe_ret.
  split_and!; [lia | lia | done].
Qed.

Section Statements.

(** The budget for the nesting of parentheses and for each loop is above
    the number of tokens. *)
Variable d n : nat.

Hypothesis Hd : (length toks < d)%nat.
Hypothesis Hn : (length toks < n)%nat.

Lemma parseExpression_here (F : list ast) (p : Parser) :
  pinv p F -> safe (parseExpression d n) p (grown 0 F p).
Proof.
  intros Hp. destruct (pinv_pos _ _ Hp).
  apply parseExpression_spec; [done | lia | lia].
Qed.

Lemma parseJoin_spec (F : list ast) (p : Parser) :
  pinv p F -> pos p < Z.of_nat (length toks) ->
  safe (parseJoin d n) p (fun a p' => grown 0 F p a p' /\ pos p < pos p').
Proof.
  intros Hp Hlt. unfold parseJoin.
  apply safe_bind, (safe_createNode _ _ F); [done |].
  intros id p1 H1 H2 Hp1.
  apply safe_bind, (safe_advance (T id [] :: F)); [done | lia |].
  intros t2 p2 H3 H4 Hp2.
  apply safe_bind, (safe_expect _ (T id [] :: F)); [done | done |].
  intros r p3 H5 H6 Hp3.
  apply safe_bind, (safe_mono _ _ (kept (if r.2 then 1 else 0) id F p3)).
  { destruct r as [tok []]; cbn [fst snd].
    - apply safe_bind, (safe_createNode _ _ (T id [] :: F)); [done |].
      intros tid p4 H7 H8 Hp4.
      apply (safe_attach_node _ _ F); [exists (T id []); split; [done |]; hold |].
      intros p5 H9 H10 Hh5. split_and!; [lia | lia | done].
    - apply safe_ret. split_and!; [lia | lia |]. hold. }
  intros [] p4 (H7 & H8 & Hh4).
  destruct (holds_forest _ _ _ Hh4) as (F4 & Hp4 & Hjoin4).
  apply safe_bind, (safe_current_is _ F4); [done | done |].
  intros ison Hon.
  apply safe_bind, (safe_mono _ _ (kept 0 id F p4)).
  { destruct ison.
    - apply safe_bind, (safe_advance F4); [done | done |].
      intros t5 p5 H9 H10 Hp5.
      apply safe_bind, (safe_mono _ _ _ _ (parseExpression_here F4 p5 Hp5)).
      intros condition p6 (H11 & H12 & Hcond).
      apply (safe_attach _ _ F); [by apply Hjoin4 |].
      intros p7 H13 H14 Hh7. split_and!; [lia | lia | done].
    - apply safe_ret. split_and!; [lia | lia | done]. }
  intros [] p5 (H9 & H10 & Hh5). apply safe_ret.
  split; [split_and!; [| | done] |]; destruct r.2; lia.
Qed.

Lemma parseFrom_joins_spec (fid : string) (F : list ast) :
  forall (k : nat) (p : Parser),
    holds (Some fid) F p ->
    Z.of_nat (length toks) - pos p <= Z.of_nat k ->
    safe (parseFrom_joins k d n (Some fid)) p (kept 0 fid F p).
Proof.
  induction k as [| k IH]; intros p Hh Hk; cbn [parseFrom_joins];
    destruct (holds_forest _ _ _ Hh) as (F' & Hp & Hjoin);
    (apply safe_bind, (safe_current_is _ F'); [done | done |]);
    (intros [] Hlt; [| apply safe_ret; split_and!; [lia | lia | done]]).
  - lia.
  - apply safe_bind, (safe_mono _ _ _ _ (parseJoin_spec F' p Hp Hlt)).
    intros joinNode p1 ((H1 & H2 & Hj) & H3).
    apply safe_bind, (safe_attach _ _ F); [by apply Hjoin |].
    intros p2 H4 H5 Hh2.
    apply (safe_mono _ _ _ _ (IH p2 Hh2 ltac:(lia))).
    intros [] p3 (H6 & H7 & Hh3). split_and!; [lia | lia | done].
Qed.

Lemma parseFrom_spec (F : list ast) (p : Parser) :
  pinv p F -> pos p < Z.of_nat (length toks) ->
  safe (parseFrom d n) p (grown 0 F p).
Proof.
  intros Hp Hlt. unfold parseFrom.
  apply safe_bind, (safe_createNode _ _ F); [done |].
  intros id p1 H1 H2 Hp1.
  apply safe_bind, (safe_advance (T id [] :: F)); [done | lia |].
  intros t2 p2 H3 H4 Hp2.
  apply safe_bind, (safe_expect _ (T id [] :: F)); [done | done |].
  intros r p3 H5 H6 Hp3.
  apply safe_bind, (safe_mono _ _ (kept (if r.2 then 1 else 0) id F p3)).
  { destruct r as [tok []]; cbn [fst snd];
      [| apply safe_ret; split_and!; [lia | lia |]; hold].
    apply safe_bind, (safe_createNode _ _ (T id [] :: F)); [done |].
    intros tid p4 H7 H8 Hp4.
    apply safe_bind, (safe_attach_node _ _ F);
      [exists (T id []); split; [done |]; hold |].
    intros p5 H9 H10 Hh5.
    destruct (holds_forest _ _ _ Hh5) as (F5 & Hp5 & Hjoin5).
    apply safe_bind, (safe_current_is _ F5); [done | done |].
    intros [] Has.
    - apply safe_bind, (safe_advance F5); [done | done |].
      intros t6 p6 H11 H12 Hp6.
      apply safe_bind, (safe_expect _ F5); [done | done |].
      intros a p7 H13 H14 Hp7. destruct a as [alias []]; cbn [fst snd] in *.
      + apply (safe_set_Meta _ _ _ F5); [done |]. intros p8 H15 H16 Hp8.
        split_and!; [lia | lia |]. apply holds2_None, Hjoin5, Hp8.
      + apply safe_ret. split_and!; [lia | lia |].
        apply holds2_None, Hjoin5, Hp7.
    - apply safe_bind, (safe_current_is _ F5); [done | done |].
      intros [] Hid.
      + apply safe_bind, (safe_advance F5); [done | done |].
        intros t6 p6 H11 H12 Hp6.
        apply (safe_set_Meta _ _ _ F5); [done |]. intros p7 H13 H14 Hp7.
        split_and!; [lia | lia |]. apply holds2_None, Hjoin5, Hp7.
      + apply safe_ret. split_and!; [lia | lia | done]. }
  intros [] p4 (H7 & H8 & Hh4).
  assert (0 <= pos p4).
  { destruct (holds_forest _ _ _ Hh4) as (F4 & Hp4 & _).
    by destruct (pinv_pos _ _ Hp4). }
  apply safe_bind,
    (safe_mono _ _ _ _ (parseFrom_joins_spec id F n p4 Hh4 ltac:(lia))).
  intros [] p5 (H9 & H10 & Hh5). apply safe_ret.
  split_and!; [| | done]; destruct r.2; lia.
Qed.

Lemma parseWhere_spec (F : list ast) (p : Parser) :
  pinv p F -> pos p < Z.of_nat (length toks) ->
  safe (parseWhere d n) p (grown 0 F p).
Proof.
  intros Hp Hlt. unfold parseWhere.
  apply safe_bind, (safe_createNode _ _ F); [done |].
  intros id p1 H1 H2 Hp1.
  apply safe_bind, (safe_advance (T id [] :: F)); [done | lia |].
  intros t2 p2 H3 H4 Hp2.
  apply safe_bind,
    (safe_mono _ _ _ _ (parseExpression_here (T id [] :: F) p2 Hp2)).
  intros condition p3 (H5 & H6 & Hcond).
  apply safe_bind, (safe_attach _ _ F); [by exists (T id []) |].
  intros p4 H7 H8 Hh4. apply safe_ret. split_and!; [lia | lia | done].
Qed.

Lemma parseOrderBy_spec (F : list ast) (p : Parser) :
  pinv p F -> pos p < Z.of_nat (length toks) ->
  safe parseOrderBy p (grown 0 F p).
Proof.
  intros Hp Hlt. unfold parseOrderBy.
  apply safe_bind, (safe_createNode _ _ F); [done |].
  intros id p1 H1 H2 Hp1.
  apply safe_bind, (safe_advance (T id [] :: F)); [done | lia |].
  intros t2 p2 H3 H4 Hp2.
  apply safe_bind, (safe_current (T id [] :: F)); [done |]. intros t Ht.
  apply safe_bind, (safe_mono _ _ (kept 0 id F p2)).
  { destruct (bool_decide (Lexer.Type_ t = TokenIdentifier)) eqn:Hty;
      cbn [andb]; [| apply safe_ret; split_and!; [lia | lia |]; hold].
    apply bool_decide_eq_true in Hty.
    destruct (bool_decide (Lexer.Value t = "BY"));
      [| apply safe_ret; split_and!; [lia | lia |]; hold].
    apply safe_bind, (safe_advance (T id [] :: F));
      [done | apply Ht; congruence |].
    intros t3 p3 H5 H6 Hp3. apply safe_ret.
    split_and!; [lia | lia |]. hold. }
  intros [] p3 (H5 & H6 & Hh3).
  destruct (holds_forest _ _ _ Hh3) as (F3 & Hp3 & Hjoin3).
  apply safe_bind, (safe_current_is _ F3); [done | done |].
  intros isid Hid.
  apply safe_bind, (safe_mono _ _ (kept 0 id F p3)).
  { destruct isid; [| apply safe_ret; split_and!; [lia | lia | done]].
    apply safe_bind, (safe_advance F3); [done | done |].
    intros ct p4 H7 H8 Hp4.
    apply safe_bind, (safe_createNode _ _ F3); [done |].
    intros col p5 H9 H10 Hp5.
    apply safe_bind, (safe_attach_node _ _ F).
    { apply (Hjoin3 (Some col)). hold. }
    intros p6 H11 H12 Hh6.
    destruct (holds_forest _ _ _ Hh6) as (F6 & Hp6 & Hjoin6).
    apply safe_bind, (safe_current F6); [done |]. intros t6 Ht6.
    case_bool_decide as Hty6;
      [| apply safe_ret; split_and!; [lia | lia | done]].
    destruct (bool_decide (Lexer.Value t6 = "ASC")
              || bool_decide (Lexer.Value t6 = "DESC"));
      [| apply safe_ret; split_and!; [lia | lia | done]].
    apply safe_bind, (safe_set_Meta _ _ _ F6); [done |].
    intros p7 H13 H14 Hp7.
    apply safe_bind, (safe_advance F6);
      [done | specialize (Ht6 ltac:(congruence)); lia |].
    intros t8 p8 H15 H16 Hp8. apply safe_ret.
    split_and!; [lia | lia |]. apply holds2_None, Hjoin6, Hp8. }
  intros [] p4 (H7 & H8 & Hh4). apply safe_ret.
  split_and!; [lia | lia | done].
Qed.

Lemma parseLimit_spec (F : list ast) (p : Parser) :
  pinv p F -> pos p < Z.of_nat (length toks) ->
  safe parseLimit p (grown 0 F p).
Proof.
  intros Hp Hlt. unfold parseLimit.
  apply safe_bind, (safe_createNode _ _ F); [done |].
  intros id p1 H1 H2 Hp1.
  apply safe_bind, (safe_advance (T id [] :: F)); [done | lia |].
  intros t2 p2 H3 H4 Hp2.
  apply safe_bind, (safe_current_is _ (T id [] :: F)); [done | done |].
  intros isnum Hnum.
  apply safe_bind, (safe_mono _ _ (kept 0 id F p2)).
  { destruct isnum; [| apply safe_ret; split_and!; [lia | lia |]; hold].
    apply safe_bind, (safe_advance (T id [] :: F)); [done | done |].
    intros t3 p3 H5 H6 Hp3.
    apply (safe_set_Value _ _ (T id [] :: F)); [done |].
    intros p4 H7 H8 Hp4. split_and!; [lia | lia |]. hold. }
  intros [] p3 (H5 & H6 & Hh3).
  destruct (holds_forest _ _ _ Hh3) as (F3 & Hp3 & Hjoin3).
  apply safe_bind, (safe_current_is _ F3); [done | done |].
  intros isoff Hoff.
  apply safe_bind, (safe_mono _ _ (kept 0 id F p3)).
  { destruct isoff; [| apply safe_ret; split_and!; [lia | lia | done]].
    apply safe_bind, (safe_advance F3); [done | done |].
    intros t4 p4 H7 H8 Hp4.
    apply safe_bind, (safe_current_is _ F3); [done | done |].
    intros [] Hnum2.
    - apply safe_bind, (safe_advance F3); [done | done |].
      intros t5 p5 H9 H10 Hp5.
      apply (safe_set_Meta _ _ _ F3); [done |].
      intros p6 H11 H12 Hp6. split_and!; [lia | lia |].
      apply holds2_None, Hjoin3, Hp6.
    - apply safe_ret. split_and!; [lia | lia |].
      apply holds2_None, Hjoin3, Hp4. }
  intros [] p4 (H7 & H8 & Hh4). apply safe_ret.
  split_and!; [lia | lia | done].
Qed.

(** A clause of [parseSelect]: [if p.current().Type == ty { node :=
    parse(); if node != nil { p.addChild(selectNode, node) } }]. *)
Lemma safe_clause {A} (ty : TokenType) (parse : M NodePtr) (id : string)
    (k : M A) (F : list ast) (p : Parser) (Q : A -> Parser -> Prop) :
  ty <> TokenEOF ->
  (forall F' q, pinv q F' -> pos q < Z.of_nat (length toks) ->
                safe parse q (grown 0 F' q)) ->
  holds (Some id) F p ->
  (forall p', kept 0 id F p tt p' -> safe k p' Q) ->
  safe (b <- current_is ty ;;
        (if b : bool then node <- parse ;; addChild_if (Some id) node
         else ret tt) ;;;
        k) p Q.
Proof.
  intros Hty Hparse Hh HQ.
  destruct (holds_forest _ _ _ Hh) as (F' & Hp & Hjoin).
  apply safe_bind, (safe_current_is _ F'); [done | done |].
  intros [] Hlt; apply safe_bind.
  - apply safe_bind, (safe_mono _ _ _ _ (Hparse F' p Hp Hlt)).
    intros node p1 (H1 & H2 & Hnode).
    apply (safe_attach _ _ F); [by apply Hjoin |].
    intros p2 H3 H4 Hh2. apply HQ. split_and!; [lia | lia | done].
  - apply safe_ret, HQ. split_and!; [lia | lia | done].
Qed.

Lemma parseSelect_spec (F : list ast) (p : Parser) :
  pinv p F -> pos p < Z.of_nat (length toks) ->
  safe (parseSelect d n) p
       (fun a p' => grown 1 F p a p' /\ is_Some a).
Proof.
  intros Hp Hlt. unfold parseSelect.
  apply safe_bind, (safe_createNode _ _ F); [done |].
  intros id p1 H1 H2 Hp1.
  apply safe_bind, (safe_set_Meta _ _ _ (T id [] :: F)); [done |].
  intros p2 H3 H4 Hp2.
  apply safe_bind, (safe_advance (T id [] :: F)); [done | lia |].
  intros t3 p3 H5 H6 Hp3.
  apply safe_bind,
    (safe_mono _ _ _ _ (parseColumns_spec n (T id [] :: F) p3 Hp3
                          ltac:(destruct (pinv_pos _ _ Hp3); lia))).
  intros columns p4 (H7 & H8 & Hcols).
  apply safe_bind, (safe_attach _ _ F); [by exists (T id []) |].
  intros p5 H9 H10 Hh5.
  apply (safe_clause TokenFrom (parseFrom d n) id _ F);
    [done | apply parseFrom_spec | done |].
  intros p6 (H11 & H12 & Hh6).
  apply (safe_clause TokenWhere (parseWhere d n) id _ F);
    [done | apply parseWhere_spec | done |].
  intros p7 (H13 & H14 & Hh7).
  apply (safe_clause TokenOrderBy parseOrderBy id _ F);
    [done | apply parseOrderBy_spec | done |].
  intros p8 (H15 & H16 & Hh8).
  apply (safe_clause TokenLimit parseLimit id _ F);
    [done | apply parseLimit_spec | done |].
  intros p9 (H17 & H18 & Hh9). apply safe_ret.
  split; [split_and!; [lia | lia | done] | done].
Qed.

Lemma parseStatement_spec (F : list ast) (p : Parser) :
  pinv p F -> safe (parseStatement d n) p (grown 1 F p).
Proof.
  intros Hp. unfold parseStatement.
  apply safe_bind, (safe_current F); [done |]. intros t Ht.
  destruct (Lexer.Type_ t) eqn:Hty;
    try (apply safe_bind, (safe_add_error _ F); [done |];
         intros p1 H1 H2 Hp1; apply safe_ret;
         split_and!; [lia | lia | done]).
  apply (safe_mono _ _ _ _
           (parseSelect_spec F p Hp ltac:(apply Ht; congruence))).
  by intros a p1 [Hg _].
Qed.

Lemma NewParser_pinv : pinv (NewParser toks) [].
Proof.
  split; simpl; try done.
  - lia.
  - by intros id H%elem_of_nil.
  - intros id [a Ha]. by rewrite lookup_empty in Ha.
  - constructor.
Qed.

(** What [Parse] returns on a fresh parser. *)
Definition parsed (r : NodePtr * option string) (p' : Parser) : Prop :=
  nodeSeq p' <= pos p' + 1
  /\ match r.1 with
     | Some id => r.2 = None /\ rootID p' = id /\ holds (Some id) [] p'
     | None => is_Some r.2 /\ pinv p' []
     end.

Lemma Parse_spec : safe (Parse d n) (NewParser toks) parsed.
Proof.
  unfold Parse. apply safe_bind. unfold safe at 1, get.
  cbn [tokens NewParser].
  destruct (Z.of_nat (length toks) =? 0).
  { apply safe_ret. split; simpl; [lia |]. split; [done |].
    apply NewParser_pinv. }
  apply safe_bind,
    (safe_mono _ _ _ _ (parseStatement_spec [] _ NewParser_pinv)).
  intros root p1 (H1 & H2 & Hroot). cbn [pos nodeSeq NewParser] in *.
  destruct root as [id |]; simpl in Hroot.
  - destruct Hroot as (t & Ht & Hp1).
    apply safe_bind. unfold safe at 1, get.
    apply safe_bind. unfold safe at 1, put. apply safe_ret.
    split; cbn [fst snd pos nodeSeq rootID]; [lia |].
    split; [done |]. split; [done |]. exists t. split; [done |].
    apply (pinv_move p1); simpl; try done. apply (pinv_pos _ _ Hp1).
  - apply safe_bind. unfold safe at 1, get.
    destruct (Z.of_nat (length (errors p1)) >? 0); apply safe_ret;
      (split; cbn [fst snd]; [lia | by split]).
Qed.

End Statements.

End WithTokens.

(** ** Parse *)

(** The tokens of [SELECT a, b FROM t WHERE a = 1 AND b = 'x'], and the
    parser that [Parse] leaves on them. *)
Definition demo_tokens : list Token :=
  match LexerBatch.Tokenize 60
          (NewLexer "SELECT a, b FROM t WHERE a = 1 AND b = 'x'") with
  | LexerBatch.Returns r => r.1
  | _ => []
  end.

Definition demo_parsed : Parser :=
  match Parse 20 20 (NewParser demo_tokens) with
  | Ret _ p => p
  | _ => NewParser []
  end.

(** X18.  Parse terminates.  On a fresh parser [Parse] returns or panics
    on a nil operand; it does not loop: a budget above the number of
    tokens for the nesting of parentheses and for each loop is never used
    up.  When it returns, the tokens are untouched, the cursor is within
    [0, len(tokens)], exactly one of root and error is nil, and with an
    error no node was created. *)
Theorem Parse_returns_within_budget (toks : list Token) (d n : nat) :
  (length toks < d)%nat -> (length toks < n)%nat ->
  Parse d n (NewParser toks) = Panic
  \/ exists root err p',
       Parse d n (NewParser toks) = Ret (root, err) p'
       /\ tokens p' = toks
       /\ 0 <= pos p' <= Z.of_nat (length toks)
       /\ (is_Some root <-> err = None)
       /\ (root = None -> nodes p' = ∅ /\ nodeSeq p' = 0).
Proof.
  intros Hd Hn. pose proof (Parse_spec toks d n Hd Hn) as Hspec.
  unfold safe in Hspec.
  destruct (Parse d n (NewParser toks)) as [[root err] p' | |];
    [| by left | done].
  right. exists root, err, p'. split; [done |].
  destruct Hspec as [Hseq Hres]. cbn [fst snd] in Hres.
  destruct root as [id |].
  - destruct Hres as (-> & Hroot & t & Ht & Hp).
    split; [apply (pinv_tokens _ _ _ Hp) |].
    split; [apply (pinv_pos _ _ _ Hp) |]. split; [done | done].
  - destruct Hres as [Herr Hp].
    split; [apply (pinv_tokens _ _ _ Hp) |].
    split; [apply (pinv_pos _ _ _ Hp) |]. split.
    + split; [by intros [? ?] | intros ->; by destruct Herr].
    + intros _. split.
      * apply map_empty. intros x.
        destruct (nodes p' !! x) eqn:Hx; [| done].
        by pose proof (pinv_dom _ _ _ Hp x ltac:(eauto)) as Hin%elem_of_nil.
      * by rewrite <- (pinv_size _ _ _ Hp).
Qed.

Lemma Parse_returns_witness :
  Parse 20 20 (NewParser demo_tokens) = Panic
  \/ exists root err p',
       Parse 20 20 (NewParser demo_tokens) = Ret (root, err) p'
       /\ tokens p' = demo_tokens
       /\ 0 <= pos p' <= Z.of_nat (length demo_tokens)
       /\ (is_Some root <-> err = None)
       /\ (root = None -> nodes p' = ∅ /\ nodeSeq p' = 0).
Proof.
  apply (Parse_returns_within_budget demo_tokens 20 20).
  - apply (bool_decide_unpack _). vm_compute. exact I.
  - apply (bool_decide_unpack _). vm_compute. exact I.
Defined.

(** X19.  The tree that Parse builds.  When [Parse] returns a root, the
    node map is one tree under that root and nothing else: every node is
    filed under its own id, the ids it lists as children are nodes of the
    map that name it as parent, no node is listed twice or reached along
    two paths, the root has no parent and is recorded as [rootID].  The
    ids are [ast-1] to [ast-nodeSeq], and there is at most one node more
    than there are tokens. *)
Theorem Parse_builds_one_tree (toks : list Token) (d n : nat)
    (id : string) (err : option string) (p' : Parser) :
  (length toks < d)%nat -> (length toks < n)%nat ->
  Parse d n (NewParser toks) = Ret (Some id, err) p' ->
  rootID p' = id
  /\ exists t,
       root t = id
       /\ rep (nodes p') "" t
       /\ NoDup (ids t)
       /\ (forall x, is_Some (nodes p' !! x) <-> x ∈ ids t)
       /\ (forall x, x ∈ ids t ->
             exists k, 1 <= k <= nodeSeq p' /\ x = ast_key k)
       /\ Z.of_nat (length (ids t)) = nodeSeq p'
       /\ nodeSeq p' <= Z.of_nat (length toks) + 1
       /\ (forall x a, nodes p' !! x = Some a ->
             ID a = x
             /\ forall c, c ∈ Children a ->
                  exists b, nodes p' !! c = Some b /\ Parent b = x).
Proof.
  intros Hd Hn Hrun. pose proof (Parse_spec toks d n Hd Hn) as Hspec.
  unfold safe in Hspec. rewrite Hrun in Hspec.
  destruct Hspec as (Hseq & _ & Hroot & t & Ht & Hp). cbn [fst snd] in *.
  split; [done |]. exists t. split; [done |].
  destruct Hp as [Htok Hpos Hsz Hk Hdom Hnd Hrep].
  unfold forest_ids in *. simpl in Hsz, Hk, Hdom, Hnd.
  rewrite app_nil_r in Hsz, Hk, Hdom, Hnd.
  apply Forall_cons in Hrep as [Hrep _].
  split_and!; try done.
  - intros x. split; [apply Hdom | by apply (rep_in _ _ "")].
  - lia.
  - intros x a Hx.
    destruct (rep_links _ _ "" x Hrep (Hdom x ltac:(eauto)))
      as (a' & Hx' & Hid & Hch).
    by simplify_eq.
Qed.

Lemma Parse_builds_witness :
  rootID demo_parsed = "ast-1"
  /\ exists t,
       root t = "ast-1"
       /\ rep (nodes demo_parsed) "" t
       /\ NoDup (ids t)
       /\ (forall x, is_Some (nodes demo_parsed !! x) <-> x ∈ ids t)
       /\ (forall x, x ∈ ids t ->
             exists k, 1 <= k <= nodeSeq demo_parsed /\ x = ast_key k)
       /\ Z.of_nat (length (ids t)) = nodeSeq demo_parsed
       /\ nodeSeq demo_parsed <= Z.of_nat (length demo_tokens) + 1
       /\ (forall x a, nodes demo_parsed !! x = Some a ->
             ID a = x
             /\ forall c, c ∈ Children a ->
                  exists b, nodes demo_parsed !! c = Some b /\ Parent b = x).
Proof.
  apply (Parse_builds_one_tree demo_tokens 20 20 "ast-1" None demo_parsed).
  - apply (bool_decide_unpack _). vm_compute. exact I.
  - apply (bool_decide_unpack _). vm_compute. exact I.
  - vm_compute. reflexivity.
Defined.

End ParserTree.

(* ===================================================================== *)
(** * Parser simulation: the trace of a query *)
(* ===================================================================== *)

Module ParserTrace.
Import Protocol ParserSimulation ParserTree.

(** The step that [generateASTSteps] adds for the node [id]. *)
Definition node_step (step : Engine.Step) (id : string) : Prop :=
  Engine.Highlights step = [highlight "node" id "#8b5cf6" "fadeIn"].

Lemma set_steps_same (sim : ParserSimulation) :
  set_steps sim (steps sim) = sim.
Proof. by destruct sim. Qed.

(** The tokenizing loop returns with at most one token per byte left. *)
Lemma tokenize_loop_count (fuel : nat) : forall l sim,
  0 <= Lexer.pos l ->
  Lexer.slen (Lexer.input l) - Lexer.pos l <= Z.of_nat fuel ->
  exists sim',
    tokenize_loop fuel l sim = Done sim'
    /\ astNodes sim' = astNodes sim /\ astRoot sim' = astRoot sim
    /\ query sim' = query sim
    /\ Z.of_nat (length (tokens sim'))
       <= Z.of_nat (length (tokens sim))
          + Z.max 0 (Lexer.slen (Lexer.input l) - Lexer.pos l).
Proof.
  induction fuel as [| fuel IH]; intros l sim Hpos Hfuel.
  - cbn [tokenize_loop]. unfold Lexer.HasMore.
    destruct (LexerFacts.skipWhitespace_progress l) as [Hin Hp].
    rewrite Hin.
    destruct (Z.ltb_spec (Lexer.pos (Lexer.skipWhitespace l))
                         (Lexer.slen (Lexer.input l))); [lia |].
    exists sim. split_and!; try done. lia.
  - cbn [tokenize_loop]. unfold Lexer.HasMore.
    destruct (LexerFacts.skipWhitespace_progress l) as [Hin Hp].
    rewrite Hin.
    destruct (Z.ltb_spec (Lexer.pos (Lexer.skipWhitespace l))
                         (Lexer.slen (Lexer.input l)));
      [| exists sim; split_and!; try done; lia].
    unfold Lexer.TokenizeStep.
    destruct (LexerFacts.skipWhitespace_progress (Lexer.skipWhitespace l))
      as [Hin2 Hp2].
    rewrite Hin2, Hin.
    destruct (Z.geb_spec
                (Lexer.pos (Lexer.skipWhitespace (Lexer.skipWhitespace l)))
                (Lexer.slen (Lexer.input l))).
    + cbn [Lexer.Type_]. rewrite bool_decide_true by done.
      exists sim; split_and!; try done; lia.
    + destruct (LexerFacts.nextToken_progress
                  (Lexer.skipWhitespace (Lexer.skipWhitespace l)))
        as ([token l2] & -> & Hin3 & Hp3); [rewrite Hin2, Hin; lia |].
      cbn [fst snd] in Hin3, Hp3. cbn [mbind option_bind].
      case_bool_decide; [exists sim; split_and!; try done; lia |].
      match goal with
      | |- context [tokenize_loop fuel ?l' ?s'] =>
          destruct (IH l' s') as (sim' & -> & Hn & Hr & Hq & Hcount)
      end; cbn [Lexer.pos Lexer.input Lexer.push_token] in *.
      * lia.
      * rewrite Hin3, Hin2, Hin. lia.
      * exists sim'. split_and!; try done.
        cbn [tokens addStep set_steps set_tokens] in Hcount.
        rewrite length_app in Hcount. simpl in Hcount.
        rewrite Hin3, Hin2, Hin in Hcount. lia.
Qed.

(** ** The tokenizing loop and Tokenize *)

Lemma drop_str_add (s : string) : forall a b : nat,
  LexerTokenize.drop_str (a + b) s
  = LexerTokenize.drop_str b (LexerTokenize.drop_str a s).
Proof.
  induction s as [| c s IH]; intros [| a] b; simpl; try done.
  by destruct b.
Qed.

Lemma count_while_stop (f : ascii -> bool) (r : string) :
  Lexer.count_while f
    (LexerTokenize.drop_str (Z.to_nat (Lexer.count_while f r)) r) = 0.
Proof.
  induction r as [| c r IH]; simpl; [done |].
  destruct (f c) eqn:Hf.
  - pose proof (LexerFacts.count_while_nonneg f r).
    replace (Z.to_nat (1 + Lexer.count_while f r))
      with (S (Z.to_nat (Lexer.count_while f r))) by lia.
    simpl. exact IH.
  - simpl. by rewrite Hf.
Qed.

Lemma skipWhitespace_twice (l : Lexer.Lexer) :
  0 <= Lexer.pos l ->
  Lexer.skipWhitespace (Lexer.skipWhitespace l) = Lexer.skipWhitespace l.
Proof.
  intros Hp. unfold Lexer.skipWhitespace, Lexer.set_pos. simpl.
  pose proof (LexerFacts.count_while_nonneg Lexer.IsSpace
                (Lexer.slice_from (Lexer.input l) (Lexer.pos l))) as Hc.
  rewrite (LexerTokenize.slice_from_drop _ (_ + _)) by lia.
  rewrite (LexerTokenize.slice_from_drop _ (Lexer.pos l)) in * by lia.
  rewrite Z2Nat.inj_add by lia. rewrite drop_str_add, count_while_stop.
  by rewrite Z.add_0_r.
Qed.

(** The tokenizing loop of the simulation and the loop of [Tokenize] add
    the same tokens. *)
Lemma tokenize_loop_agrees (fuelS : nat) : forall (fuelT : nat) l sim,
  0 <= Lexer.pos l <= Lexer.slen (Lexer.input l) ->
  Lexer.slen (Lexer.input l) - Lexer.pos l <= Z.of_nat fuelS ->
  (Z.to_nat (Lexer.slen (Lexer.input l) - Lexer.pos l) < fuelT)%nat ->
  exists l' sim' added,
    LexerBatch.Tokenize_loop fuelT l = LexerBatch.Returns l'
    /\ Lexer.tokens l' = Lexer.tokens l ++ added
    /\ tokenize_loop fuelS l sim = Done sim'
    /\ tokens sim' = tokens sim ++ added.
Proof.
  induction fuelS as [| fuelS IH]; intros fuelT l sim Hp HS HT;
    (destruct fuelT as [| fuelT]; [lia |]);
    cbn [LexerBatch.Tokenize_loop tokenize_loop]; unfold Lexer.HasMore;
    destruct (LexerTokenize.skipWhitespace_spec l Hp)
      as (Hi1 & Ht1 & Hc1 & Hp1 & _); rewrite Hi1.
  - destruct (Z.ltb_spec (Lexer.pos l) (Lexer.slen (Lexer.input l))); [lia |].
    destruct (Z.ltb_spec (Lexer.pos (Lexer.skipWhitespace l))
                         (Lexer.slen (Lexer.input l))); [lia |].
    exists l, sim, []. by rewrite !app_nil_r.
  - destruct (Z.ltb_spec (Lexer.pos l) (Lexer.slen (Lexer.input l)))
      as [Hlt | Hge].
    2:{ destruct (Z.ltb_spec (Lexer.pos (Lexer.skipWhitespace l))
                             (Lexer.slen (Lexer.input l))); [lia |].
        exists l, sim, []. by rewrite !app_nil_r. }
    destruct (Z.geb_spec (Lexer.pos (Lexer.skipWhitespace l))
                         (Lexer.slen (Lexer.input l))) as [Hend | Hmore].
    { destruct (Z.ltb_spec (Lexer.pos (Lexer.skipWhitespace l))
                           (Lexer.slen (Lexer.input l))); [lia |].
      exists (Lexer.skipWhitespace l), sim, []. by rewrite !app_nil_r. }
    destruct (Z.ltb_spec (Lexer.pos (Lexer.skipWhitespace l))
                         (Lexer.slen (Lexer.input l))); [| lia].
    unfold Lexer.TokenizeStep.
    rewrite skipWhitespace_twice by lia. rewrite Hi1.
    destruct (Z.geb_spec (Lexer.pos (Lexer.skipWhitespace l))
                         (Lexer.slen (Lexer.input l))); [lia |].
    destruct (LexerTokenize.nextToken_ok (Lexer.skipWhitespace l))
      as ([token l2] & -> & Hi2 & Ht2 & Hc2 & Hs2 & He2 & Hp2 & Hty & _);
      [rewrite Hi1; lia |].
    cbn [fst snd] in *. cbn [mbind option_bind]. rewrite Hi1 in Hp2.
    rewrite bool_decide_false by done.
    match goal with
    | |- context [tokenize_loop fuelS ?l3 ?s3] =>
        destruct (IH fuelT l3 s3) as (l' & sim' & added & -> & Hl' & -> & Hs')
    end; cbn [Lexer.pos Lexer.input Lexer.tokens Lexer.push_token] in *.
    + rewrite Hi2, Hi1. lia.
    + rewrite Hi2, Hi1. lia.
    + rewrite Hi2, Hi1. lia.
    + exists l', sim', (token :: added). split; [done |].
      split; [by rewrite Hl', Ht2, Ht1, <- (assoc_L (++)) |].
      split; [done |].
      cbn [tokens addStep set_steps set_tokens] in Hs'.
      by rewrite Hs', <- (assoc_L (++)).
Qed.

(** ** The walk over the tree *)

Section Walk.

Variable fuel : nat.

(** The walk from the root of [k] adds a step for each node of [k], the
    node before its children. *)
Definition walked (k : ast) : Prop :=
  forall sim parent,
    rep (astNodes sim) parent k -> (height k <= fuel)%nat ->
    exists added,
      generateASTSteps fuel (root k) sim
      = Done (set_steps sim (steps sim ++ added))
      /\ Forall2 node_step added (ids k).

Lemma walk_children (ks : list ast) :
  Forall walked ks ->
  forall sim parent,
    Forall (rep (astNodes sim) parent) ks ->
    Forall (fun k => (height k <= fuel)%nat) ks ->
    exists added,
      foldl (fun acc childID =>
               match acc with
               | Done s =>
                   match astNodes s !! childID with
                   | Some _ => generateASTSteps fuel childID s
                   | None => Done s
                   end
               | other => other
               end)
            (Done sim) (root <$> ks)
      = Done (set_steps sim (steps sim ++ added))
      /\ Forall2 node_step added (concat (ids <$> ks)).
Proof.
  induction 1 as [| k ks Hk _ IH]; intros sim parent Hrep Hh.
  - exists []. simpl. rewrite app_nil_r, set_steps_same.
    split; [done | constructor].
  - apply Forall_cons in Hrep as [Hrk Hrep].
    apply Forall_cons in Hh as [Hhk Hh].
    destruct (Hk sim parent Hrk Hhk) as (added1 & Hrun1 & Hsteps1).
    cbn [fmap list_fmap foldl].
    assert (Hin : is_Some (astNodes sim !! root k)).
    { apply (rep_in _ k parent); [done | apply root_in_ids]. }
    destruct Hin as [a ->]. rewrite Hrun1.
    destruct (IH (set_steps sim (steps sim ++ added1)) parent)
      as (added2 & Hrun2 & Hsteps2); [done | done |].
    exists (added1 ++ added2). split.
    + etrans; [exact Hrun2 |]. cbn [steps set_steps].
      by rewrite (assoc_L (++)).
    + simpl. by apply Forall2_app.
Qed.

End Walk.

Lemma height_kids (fuel : nat) (id : string) (ks : list ast) :
  (height (T id ks) <= S fuel)%nat ->
  Forall (fun k => (height k <= fuel)%nat) ks.
Proof.
  simpl. intros H%le_S_n. induction ks as [| k ks IH]; [constructor |].
  simpl in H. unfold fmap in *. constructor; [lia |]. apply IH. lia.
Qed.

Lemma generateASTSteps_spec (t : ast) : forall fuel, walked fuel t.
Proof.
  induction t as [id ks IH] using ast_ind.
  intros fuel sim parent Hrep Hh.
  destruct fuel as [| fuel]; [simpl in Hh; lia |].
  apply rep_inv in Hrep as (a & Hl & Hid & Hpar & Hch & Hks).
  cbn [generateASTSteps root]. rewrite Hl, Hch.
  match goal with
  | |- context [foldl _ (Done ?s) _] =>
      destruct (walk_children fuel ks
                  (Forall_impl _ _ _ IH (fun k Hk => Hk fuel)) s id)
        as (added & Hrun & Hsteps)
  end; [done | by eapply height_kids |].
  unfold fmap in Hrun |- *. rewrite Hrun.
  eexists (_ :: added). split.
  - cbn [steps addStep set_steps]. by rewrite <- (assoc_L (++)).
  - constructor; [| done]. unfold node_step. simpl. by rewrite Hid.
Qed.

(** ** ParseQuery *)

(** The simulation that [ParseQuery] leaves on
    [SELECT a FROM t WHERE a = 1]. *)
Definition demo_trace : ParserSimulation :=
  match ParseQuery "SELECT a FROM t WHERE a = 1" NewParserSimulation with
  | Done sim => sim
  | _ => NewParserSimulation
  end.

Lemma ParseQuery_spec (q : string) (sim : ParserSimulation) :
  exists body,
    (forall fuel, (String.length q < fuel)%nat ->
       exists l',
         LexerBatch.Tokenize fuel (Lexer.NewLexer q)
         = LexerBatch.Returns (body ++ [LexerTokenize.eof_token q], l'))
    /\ (ParseQuery q sim = Panicked
        \/ exists sim',
             ParseQuery q sim = Done sim'
             /\ tokens sim' = body ++ [LexerTokenize.eof_token q]
             /\ query sim' = q
             /\ ((parsePhase sim' = "error" /\ astNodes sim' = ∅)
                 \/ (parsePhase sim' = "complete"
                     /\ exists t pre added fin,
                          root t = astRoot sim'
                          /\ rep (astNodes sim') "" t
                          /\ NoDup (ids t)
                          /\ (forall x, is_Some (astNodes sim' !! x)
                                        <-> x ∈ ids t)
                          /\ steps sim' = pre ++ added ++ [fin]
                          /\ Forall2 node_step added (ids t)
                          /\ Engine.Title fin = "Parsing Complete"))).
Proof.
  unfold ParseQuery, prepareParseSimulation.
  match goal with
  | |- context [tokenize_loop _ _ ?s] => set (sim3 := s)
  end.
  destruct (tokenize_loop_count (budget q) (Lexer.NewLexer q) sim3)
    as (sim4 & Hloop & Hnodes & Hroot & Hq & Hcount).
  { simpl. lia. }
  { unfold budget, Lexer.slen. simpl. lia. }
  assert (Hagree : forall fuel, (String.length q < fuel)%nat ->
            exists l',
              LexerBatch.Tokenize_loop fuel (Lexer.NewLexer q)
              = LexerBatch.Returns l'
              /\ Lexer.tokens l' = tokens sim4).
  { intros fuel Hfuel.
    destruct (tokenize_loop_agrees (budget q) fuel (Lexer.NewLexer q) sim3)
      as (l' & sim4' & added & Hrun & Hl' & Hloop' & Hs').
    - unfold Lexer.slen. simpl. lia.
    - unfold budget, Lexer.slen. simpl. lia.
    - unfold Lexer.slen. simpl. lia.
    - rewrite Hloop in Hloop'. injection Hloop' as <-.
      exists l'. split; [done |]. by rewrite Hl', Hs'. }
  exists (tokens sim4). split.
  { intros fuel Hfuel. destruct (Hagree fuel Hfuel) as (l1 & Hrun & Hl1).
    destruct (LexerTokenize.Tokenize_spec (Lexer.NewLexer q) fuel Hfuel)
      as (body & l' & Htok & _).
    exists l'. rewrite Htok. unfold LexerBatch.Tokenize in Htok.
    cbn [Lexer.input Lexer.current Lexer.NewLexer] in Htok.
    fold (Lexer.NewLexer q) in Htok. rewrite Hrun in Htok.
    injection Htok as Htoks _. cbn [Lexer.tokens Lexer.push_token] in Htoks.
    apply app_inj_tail in Htoks as [Hbody _]. by rewrite <- Hl1, Hbody. }
  rewrite Hloop. clear Hagree Hloop. subst sim3.
  cbn [tokens astNodes astRoot query addStep set_steps set_parsePhase
       set_tokens set_query Reset Lexer.input Lexer.pos Lexer.NewLexer]
    in Hnodes, Hroot, Hq, Hcount |- *.
  fold (LexerTokenize.eof_token q).
  set (toks := tokens sim4 ++ [LexerTokenize.eof_token q]).
  assert (Hlen : (length toks < budget q)%nat).
  { unfold toks, budget. rewrite length_app. simpl.
    unfold Lexer.slen in Hcount. cbn [length] in Hcount. lia. }
  pose proof (Parse_spec toks (budget q) (budget q) Hlen Hlen) as Hspec.
  unfold safe in Hspec.
  destruct (Parser.Parse (budget q) (budget q) (Parser.NewParser toks))
    as [[root err] parser | |]; [| by left | done].
  destruct Hspec as [Hseq Hres]. cbn [fst snd] in Hres.
  destruct err as [err |].
  { right. destruct root; (eexists; split; [reflexivity |]);
      cbn [tokens query parsePhase astNodes addStep set_steps set_parsePhase
           set_tokens];
      (split; [done |]; split; [done |]; left; by split). }
  destruct root as [id |]; [| by left].
  destruct Hres as (_ & Hid & t & Ht & Hp).
  destruct Hp as [Htok Hpos Hsz _ Hdom Hnd Hrep].
  unfold forest_ids in Hsz, Hdom, Hnd. simpl in Hsz, Hdom, Hnd.
  rewrite app_nil_r in Hsz, Hdom, Hnd.
  apply Forall_cons in Hrep as [Hrep _].
  match goal with
  | |- context [generateASTSteps _ _ ?s] =>
      destruct (generateASTSteps_spec t (budget q) s "")
        as (added & Hwalk & Hsteps)
  end.
  { done. }
  { pose proof (height_le_size t). lia. }
  rewrite <- Ht. rewrite Hwalk.
  right. eexists. split; [reflexivity |].
  cbn [tokens query parsePhase astNodes astRoot steps addStep set_steps
       set_parsePhase set_tokens set_ast].
  split; [done |]. split; [done |]. right. split; [done |].
  eexists t, _, added, _. split; [congruence |]. split; [done |].
  split; [done |]. split.
  { intros x. split; [apply Hdom | by apply (rep_in _ _ "")]. }
  split; [by rewrite <- (assoc_L (++)) |]. done.
Qed.

(** X20.  ParseQuery terminates.  For every query the trace-producing
    operation returns or panics on a nil operand; the budget that bounds
    its loops and recursions is never used up.  When it returns after an
    error the phase is "error" and no tree is stored.  Otherwise the phase
    is "complete", the stored nodes are one tree under the stored root,
    and the trace ends with one step per node of the tree, each node
    before its children and the children from left to right, followed by
    the step "Parsing Complete". *)
Theorem ParseQuery_returns_or_panics (q : string) (sim : ParserSimulation) :
  ParseQuery q sim = Panicked
  \/ exists sim',
       ParseQuery q sim = Done sim'
       /\ query sim' = q
       /\ ((parsePhase sim' = "error" /\ astNodes sim' = ∅)
           \/ (parsePhase sim' = "complete"
               /\ exists t pre added fin,
                    root t = astRoot sim'
                    /\ rep (astNodes sim') "" t
                    /\ NoDup (ids t)
                    /\ (forall x, is_Some (astNodes sim' !! x) <-> x ∈ ids t)
                    /\ steps sim' = pre ++ added ++ [fin]
                    /\ Forall2 node_step added (ids t)
                    /\ Engine.Title fin = "Parsing Complete")).
Proof.
  destruct (ParseQuery_spec q sim) as (body & _ & [Hpanic | Hdone]);
    [by left |].
  destruct Hdone as (sim' & Hrun & _ & Hq & Hphase). right. by exists sim'.
Qed.

(** X21.  The tokens of a trace.  The token list that [ParseQuery] stores
    is the one [Tokenize] returns on the query: the loop of the simulation
    over [HasMore] and [TokenizeStep] and the loop of [Tokenize] find the
    same tokens, and both end the list with the EOF token at the end of
    the query. *)
Theorem ParseQuery_stores_the_tokens_of_Tokenize
    (q : string) (sim sim' : ParserSimulation) (fuel : nat) :
  (String.length q < fuel)%nat ->
  ParseQuery q sim = Done sim' ->
  exists l',
    LexerBatch.Tokenize fuel (Lexer.NewLexer q)
    = LexerBatch.Returns (tokens sim', l').
Proof.
  intros Hfuel Hrun.
  destruct (ParseQuery_spec q sim) as (body & Htok & [Hpanic | Hdone]);
    [congruence |].
  destruct Hdone as (sim'' & Hrun' & Htoks & _).
  rewrite Hrun in Hrun'. injection Hrun' as <-.
  rewrite Htoks. by apply Htok.
Qed.

Lemma ParseQuery_tokens_witness :
  exists l',
    LexerBatch.Tokenize 40 (Lexer.NewLexer "SELECT a FROM t WHERE a = 1")
    = LexerBatch.Returns (tokens demo_trace, l').
Proof.
  apply (ParseQuery_stores_the_tokens_of_Tokenize
           "SELECT a FROM t WHERE a = 1" NewParserSimulation demo_trace 40).
  - simpl. lia.
  - vm_compute. reflexivity.
Defined.

End ParserTrace.
